(** * Qrack: a dense state-vector quantum register simulator

    Shallow embedding of the two register classes of the repository:

    - [Register], the header-only class of [qrack.hpp] (driven by [par_for]
    of [par_for.hpp]);
    - [CoherentUnit], the class of [qrack_ocl.cpp], together with the OpenCL
    kernels it dispatches ([apply2x2], [rol], [ror], [addbcd]).

    Conventions of the embedding.

    - [double] is idealised as a real number ([R]); [Complex16] is a pair of
    reals.  Comparisons of doubles become decisions on reals.  A division of
    doubles is the division of reals where the divisor is not zero; where
    the code divides by zero it gets an infinity or a NaN, which the reals
    do not have, so the statements that go through a division ([1.0 /
    runningNorm], [/= runningNorm], [/ denominator]) assume a divisor that
    is not zero.
    - The host's [1 << n] on [int] is the power of two for [0 <= n <= 30];
    the statements take the qubit indices inside the register.
    - [bitCapInt] / [ulong] values are integers ([Z]) with the 64-bit
    wrap-around written out; OpenCL shifts take their count modulo 64.
    - Arrays are lists.  A store outside the array is undefined behaviour and
    is reported as [None].
    - The pseudo-random source is a sequence of draws with a cursor.
    - A work-item loop [for (lcv = ID; lcv < maxI; lcv += Nthreads)] is run
    for every [lcv] of [0 .. maxI-1] in ascending order (the schedule of a
    single work item). *)
From Stdlib Require Import ZArith List Bool Reals Lra Lia Psatz Permutation.
Import ListNotations.

Open Scope Z_scope.

(** ** Machine integers *)
Module Machine.

Definition wrap64 (x : Z) : Z := x mod 2 ^ 64.
Definition wrap8 (x : Z) : Z := x mod 2 ^ 8.

Definition add64 (a b : Z) : Z := wrap64 (a + b).
Definition sub64 (a b : Z) : Z := wrap64 (a - b).

(** OpenCL C shifts of a [ulong]: the count is taken modulo 64. *)
Definition shl64 (a s : Z) : Z := wrap64 (Z.shiftl a (s mod 64)).
Definition shr64 (a s : Z) : Z := Z.shiftr a (s mod 64).

(** [~a] on 64 bits. *)
Definition not64 (a : Z) : Z := Z.lxor a (Z.ones 64).

(** Host side: [1 << n] with the literal [1] of type [int].  The shift is
    defined when the count is below 31; any other count is undefined
    behaviour. *)
Definition int_shl1 (n : Z) : option Z :=
    if (0 <=? n) && (n <? 31) then Some (Z.shiftl 1 n) else None.

(** [1 << n] inside the methods of an existing register, where the count is
    a qubit index or a qubit count of that register (exact for
    [0 <= n <= 30], the counts [int_shl1] accepts). *)
Definition bitpow (n : Z) : Z := Z.shiftl 1 n.

(** The integers [0; 1; ...; n-1]: the index range of a counting loop. *)
Definition range (n : Z) : list Z := map Z.of_nat (seq 0 (Z.to_nat n)).

(** The integers [a; a+1; ...; b-1]. *)
Definition range_from (a b : Z) : list Z := map (fun k => a + k) (range (b - a)).

(** [acc += 1 << (start + i)] for [i = 0 .. length-1], from [acc = 0]. *)
Definition mask_loop (start length : Z) : Z :=
    fold_left (fun acc i => add64 acc (bitpow (start + i))) (range length) 0.

End Machine.

(** ** Complex amplitudes *)
Module Cplx.

Local Open Scope R_scope.

(** Modelled from the spec: [Complex16Simd], the amplitude type of
    [qrack_ocl.cpp], is not among the sources.  The spec describes an
    amplitude as a complex number with double-precision real and imaginary
    parts; [norm] is its squared magnitude, as [std::norm] is for the
    [std::complex<double>] of [qrack.hpp]. *)
Definition Complex16 : Type := (R * R)%type.

Definition cplx (re im : R) : Complex16 := (re, im).
Definition real (z : Complex16) : R := fst z.
Definition imag (z : Complex16) : R := snd z.

Definition C0 : Complex16 := (0, 0).
Definition C1 : Complex16 := (1, 0).

Definition add (a b : Complex16) : Complex16 :=
    (real a + real b, imag a + imag b).

(** [a * b], both complex. *)
Definition mul (a b : Complex16) : Complex16 :=
    (real a * real b - imag a * imag b, real a * imag b + imag a * real b).

(** [z * d] and [z / d] with [d] a double. *)
Definition scale (z : Complex16) (d : R) : Complex16 := (real z * d, imag z * d).
Definition divr (z : Complex16) (d : R) : Complex16 := (real z / d, imag z / d).

(** [norm(z)] and [normSqrd(&z)]: the squared magnitude. *)
Definition norm (z : Complex16) : R := real z * real z + imag z * imag z.

(** The kernel helper [zmul] on [double2], component for component:
    [(lhs * (double2)(rhs.y, -(rhs.y))) + (rhs.x * (double2)(lhs.y, lhs.x))]. *)
Definition zmul (lhs rhs : Complex16) : Complex16 :=
    (fst lhs * snd rhs + fst rhs * snd lhs,
     snd lhs * (- snd rhs) + fst rhs * fst lhs).

(** Decisions on doubles. *)
Definition Reqb (x y : R) : bool := if Req_dec_T x y then true else false.
Definition Rltb (x y : R) : bool := if Rlt_dec x y then true else false.
Definition Rleb (x y : R) : bool := if Rle_dec x y then true else false.

End Cplx.

(** ** Arrays *)
Module Buf.

Definition load {A : Type} (d : A) (buf : list A) (i : Z) : A :=
    nth (Z.to_nat i) buf d.

Fixpoint set_nth {A : Type} (n : nat) (v : A) (buf : list A) : list A :=
    match buf, n with
    | [], _ => []
    | _ :: t, O => v :: t
    | h :: t, S n' => h :: set_nth n' v t
    end.

(** A store inside the array. *)
Definition put {A : Type} (i : Z) (v : A) (buf : list A) : list A :=
    set_nth (Z.to_nat i) v buf.

(** A store that may fall outside the array: [None] is undefined behaviour. *)
Definition store {A : Type} (i : Z) (v : A) (buf : list A) : option (list A) :=
    if (0 <=? i) && (i <? Z.of_nat (length buf)) then Some (put i v buf) else None.

End Buf.

(** ** The pseudo-random source *)
Module Rng.

Record t : Type := mk { draws : nat -> R; cursor : nat }.

(** [rand_distribution(rand_generator)]: the next draw. *)
Definition next (g : t) : R * t :=
    (draws g (cursor g), mk (draws g) (S (cursor g))).

(** The source hands out numbers of [[0, 1)]. *)
Definition uniform (g : t) : Prop :=
    forall k, (0 <= draws g k < 1)%R.

End Rng.

(** ** Outcomes of host code and the dispatch primitives *)
Module Host.

Import Machine Cplx Buf.

Inductive exn : Type := InvalidArgument.

(** What a call can do: return, throw, or run into undefined behaviour. *)
Inductive outcome (A : Type) : Type :=
| Ok (a : A)
| Throw (e : exn)
| Undefined.

Arguments Ok {A} a.
Arguments Throw {A} e.
Arguments Undefined {A}.

(** A 2x2 matrix [mtrx[0..3]], row by row. *)
Record Mtrx : Type := mkMtrx { m0 : Complex16; m1 : Complex16; m2 : Complex16; m3 : Complex16 }.

Definition pauliX : Mtrx := mkMtrx (cplx 0 0) (cplx 1 0) (cplx 1 0) (cplx 0 0).

Definition pauliY : Mtrx := mkMtrx (cplx 0 0) (cplx 0 (-1)) (cplx 0 1) (cplx 0 0).

Definition pauliZ : Mtrx := mkMtrx (cplx 1 0) (cplx 0 0) (cplx 0 0) (cplx (-1) 0).

(** The matrix [had] of [H]; [M_SQRT2] is the square root of 2. *)
Definition had : Mtrx :=
    mkMtrx (cplx (1 / sqrt 2) 0) (cplx (1 / sqrt 2) 0) (cplx (1 / sqrt 2) 0) (cplx (-1 / sqrt 2) 0).

(** [std::sort] on an array of [bitCapInt]: ascending order. *)
Fixpoint sort_insert (x : Z) (l : list Z) : list Z :=
    match l with
    | [] => [x]
    | y :: t => if x <=? y then x :: l else y :: sort_insert x t
    end.

Definition sort (l : list Z) : list Z := fold_right sort_insert [] l.

(** [par_for] of [par_for.hpp]: the workers take the indices of
    [[begin, end)] from a shared counter and call [fn] once on each. *)
Definition par_for {S N M P : Type} (begin end_ : Z) (stateArray : S) (nrm : N) (mtrx : M)
    (maskArray : P) (fn : Z -> S -> N -> M -> P -> S) : S :=
    fold_left (fun st i => fn i st nrm mtrx maskArray) (range_from begin end_) stateArray.

(** Modelled from the spec: [par_for_all], the striped body of the parallel
    dispatch primitives, is not among the sources.  "The body [f(i,
    worker_id)] is executed exactly once per i" of the half-open range. *)
Definition par_for_all {S N M P : Type} (begin end_ : Z) (stateArray : S) (nrm : N) (mtrx : M)
    (maskArray : P) (fn : Z -> S -> N -> M -> P -> S) : S :=
    fold_left (fun st i => fn i st nrm mtrx maskArray) (range_from begin end_) stateArray.

(** Modelled from the spec: [par_for_copy], the copy body of the parallel
    dispatch primitives, is not among the sources.  The body [f(i, worker_id,
    src, args, dst)] reads from [src] and scatter-writes to [dst], once per
    i.  A store outside [dst] is undefined behaviour. *)
Definition par_for_copy {S P D : Type} (begin end_ : Z) (src : S) (args : P) (dst : D)
    (fn : Z -> S -> P -> D -> option D) : option D :=
    fold_left (fun acc i => match acc with Some d => fn i src args d | None => None end)
      (range_from begin end_) (Some dst).

(** Modelled from the spec: [par_norm], the L2-norm reducer, is not among the
    sources.  "Parallel sum of |state_vec[i]|^2 returning its square root." *)
Definition par_norm (maxQPower : Z) (stateArray : list Complex16) : R :=
    sqrt (fold_left (fun acc i => (acc + norm (load C0 stateArray i))%R) (range maxQPower) 0%R).

(** [for (lcv = 0; lcv < n; lcv++) v[lcv] = f(lcv, v[lcv])]. *)
Definition update_each (n : Z) (f : Z -> Complex16 -> Complex16) (v : list Complex16) : list Complex16 :=
    fold_left (fun acc lcv => put lcv (f lcv (load C0 acc lcv)) acc) (range n) v.

(** [std::copy(src, src + n, dst)]. *)
Definition copy_n (n : Z) (src dst : list Complex16) : list Complex16 :=
    fold_left (fun acc i => put i (load C0 src i) acc) (range n) dst.

(** [std::fill(v, v + n, z)]. *)
Definition fill_n (n : Z) (z : Complex16) (v : list Complex16) : list Complex16 :=
    fold_left (fun acc i => put i z acc) (range n) v.

End Host.

(** ** The header-only class [Register] of [qrack.hpp] *)
Module Register.

Import Machine Cplx Buf Host.
Local Open Scope R_scope.

Record t : Type := Build {
  runningNorm : R;
  qubitCount : Z;
  maxQPower : Z;
  stateVec : list Complex16;
  rand_generator : Rng.t
}.

(** [new Complex16[n]] for [std::complex<double>]: the default constructor
    gives zeros. *)
Definition new_array (n : Z) : list Complex16 := repeat C0 (Z.to_nat n).

Definition normSqrd (z : Complex16) : R := real z * real z + imag z * imag z.

(** [Register(bitLenInt qBitCount)]. *)
Definition new (qBitCount : Z) (g : Rng.t) : outcome t :=
    if (64 <? qBitCount)%Z then Throw InvalidArgument
    else
      let (r, g') := Rng.next g in
      let angle := r * 2 * PI in
      let cosine := cos angle in
      let sine := sin angle in
      match int_shl1 qBitCount with
      | None => Undefined
      | Some maxQ =>
          match store 0 (cplx cosine sine) (new_array maxQ) with
          | None => Undefined
          | Some sv =>
              Ok (Build 1 qBitCount maxQ
                    (fold_left (fun acc lcv => put lcv (cplx 0 0) acc) (range_from 1 maxQ) sv) g')
          end
      end.

(** [Register(bitLenInt qBitCount, bitCapInt initState)]. *)
Definition new_perm (qBitCount initState : Z) (g : Rng.t) : outcome t :=
    let (r, g') := Rng.next g in
    let angle := r * 2 * PI in
    let cosine := cos angle in
    let sine := sin angle in
    match int_shl1 qBitCount with
    | None => Undefined
    | Some maxQ =>
        Ok (Build 1 qBitCount maxQ
              (fold_left (fun acc lcv =>
                            if (lcv =? initState)%Z then put lcv (cplx cosine sine) acc
                            else put lcv (cplx 0 0) acc)
                 (range maxQ) (new_array maxQ)) g')
    end.

(** [Register(const Register& pqs)]; [g] is the default-constructed
    generator of the copy. *)
Definition clone (pqs : t) (g : Rng.t) : t :=
    Build (runningNorm pqs) (qubitCount pqs) (maxQPower pqs)
       (copy_n (qubitCount pqs) (stateVec pqs) (new_array (maxQPower pqs))) g.

Definition UpdateRunningNorm (r : t) : t :=
    let sqrNorm :=
      fold_left (fun acc lcv => acc + normSqrd (load C0 (stateVec r) lcv)) (range (maxQPower r)) 0 in
    Build (sqrt sqrNorm) (qubitCount r) (maxQPower r) (stateVec r) (rand_generator r).

Definition NormalizeState (r : t) : t :=
    Build 1 (qubitCount r) (maxQPower r)
       (update_each (maxQPower r) (fun _ z => divr z (runningNorm r)) (stateVec r))
       (rand_generator r).

(** [if (runningNorm != 1.0) NormalizeState();] *)
Definition normalize_if_needed (r : t) : t :=
    if Reqb (runningNorm r) 1 then r else NormalizeState r.

(** [CloneRawState(output)]: the register afterwards and the output array. *)
Definition CloneRawState (output : list Complex16) (r : t) : t * list Complex16 :=
    let r := normalize_if_needed r in
    (r, copy_n (qubitCount r) (stateVec r) output).

(** The lambda of [Apply2x2]. *)
Definition apply2x2_fn (lcv : Z) (stateVec : list Complex16) (nrm : Complex16) (mtrx : Mtrx)
    (qPowers : list Z) : list Complex16 :=
    let qp0 := nth 0 qPowers 0%Z in
    if (Z.land lcv qp0 =? 0)%Z then
      let qubit0 := load C0 stateVec (lcv + qp0) in
      let qubit1 := load C0 stateVec lcv in
      let Y0 := qubit0 in
      let qubit0 := mul nrm (add (mul (m0 mtrx) Y0) (mul (m1 mtrx) qubit1)) in
      let qubit1 := mul nrm (add (mul (m2 mtrx) Y0) (mul (m3 mtrx) qubit1)) in
      put lcv qubit1 (put (lcv + qp0) qubit0 stateVec)
    else stateVec.

Definition Apply2x2 (qubitIndex : Z) (mtrx : Mtrx) (r : t) : t :=
    let qPowers := [bitpow qubitIndex] in
    let sv := par_for 0 (maxQPower r) (stateVec r) (cplx (1 / runningNorm r) 0) mtrx qPowers
                apply2x2_fn in
    UpdateRunningNorm (Build (runningNorm r) (qubitCount r) (maxQPower r) sv (rand_generator r)).

Definition X (qubitIndex : Z) (r : t) : t := Apply2x2 qubitIndex pauliX r.

Definition R1 (radians : R) (qubitIndex : Z) (r : t) : t :=
    let cosine := cos radians in
    let sine := sin radians in
    Apply2x2 qubitIndex (mkMtrx (cplx 1 0) (cplx 0 0) (cplx 0 0) (cplx cosine sine)) r.

Definition R1Dyad (numerator denominator : Z) (qubitIndex : Z) (r : t) : t :=
    R1 ((PI * IZR numerator) / IZR denominator) qubitIndex r.

Definition RX (radians : R) (qubitIndex : Z) (r : t) : t :=
    let cosine := cos (radians / 2) in
    let sine := sin (radians / 2) in
    Apply2x2 qubitIndex (mkMtrx (cplx cosine 0) (cplx 0 (- sine)) (cplx 0 (- sine)) (cplx cosine 0)) r.

Definition RXDyad (numerator denominator : Z) (qubitIndex : Z) (r : t) : t :=
    RX ((- PI * IZR numerator) / IZR denominator) qubitIndex r.

Definition RY (radians : R) (qubitIndex : Z) (r : t) : t :=
    let cosine := cos (radians / 2) in
    let sine := sin (radians / 2) in
    Apply2x2 qubitIndex (mkMtrx (cplx cosine 0) (cplx (- sine) 0) (cplx sine 0) (cplx cosine 0)) r.

Definition RYDyad (numerator denominator : Z) (qubitIndex : Z) (r : t) : t :=
    RY ((- PI * IZR numerator) / IZR denominator) qubitIndex r.

Definition RZ (radians : R) (qubitIndex : Z) (r : t) : t :=
    let cosine := cos (radians / 2) in
    let sine := sin (radians / 2) in
    Apply2x2 qubitIndex (mkMtrx (cplx cosine (- sine)) (cplx 0 0) (cplx 0 0) (cplx cosine sine)) r.

Definition RZDyad (numerator denominator : Z) (qubitIndex : Z) (r : t) : t :=
    RZ ((- PI * IZR numerator) / IZR denominator) qubitIndex r.

(** [double Prob(bitLenInt qubitIndex)]: the value and the register
    afterwards. *)
Definition Prob (qubitIndex : Z) (r : t) : R * t :=
    let r := normalize_if_needed r in
    let qPower := bitpow qubitIndex in
    (fold_left (fun oneChance lcv =>
                  if (Z.land lcv qPower =? qPower)%Z
                  then oneChance + normSqrd (load C0 (stateVec r) lcv)
                  else oneChance)
       (range (maxQPower r)) 0, r).

Definition ProbAll (fullRegister : Z) (r : t) : R * t :=
    let r := normalize_if_needed r in
    (normSqrd (load C0 (stateVec r) fullRegister), r).

Definition ProbArray (probArray : list R) (r : t) : list R * t :=
    let r := normalize_if_needed r in
    (fold_left (fun acc lcv => put lcv (normSqrd (load C0 (stateVec r) lcv)) acc)
       (range (maxQPower r)) probArray, r).

(** The phase rotation of the measurement loops:
    [Complex16(cosine * real(z) - sine * imag(z), sine * real(z) + cosine * imag(z)) / nrmlzr]. *)
Definition rotate_by (cosine sine nrmlzr : R) (z : Complex16) : Complex16 :=
    divr (cplx (cosine * real z - sine * imag z) (sine * real z + cosine * imag z)) nrmlzr.

(** [bool M(bitLenInt qubitIndex)].  The body computes [result] and ends
    without a [return] statement: the model gives the register afterwards
    together with the value the body computed, which no caller receives. *)
Definition M (qubitIndex : Z) (r : t) : bool * t :=
    let r := normalize_if_needed r in
    let (prob, g1) := Rng.next (rand_generator r) in
    let (a, g2) := Rng.next g1 in
    let angle := a * 2 * PI in
    let cosine := cos angle in
    let sine := sin angle in
    let qPower := bitpow qubitIndex in
    (* [lcv & qPower == 0] groups as [lcv & (qPower == 0)] *)
    let zeroChance :=
      fold_left (fun zc lcv =>
                   if (Z.land lcv (if (qPower =? 0)%Z then 1 else 0) =? 0)%Z then zc
                   else zc + normSqrd (load C0 (stateVec r) lcv))
        (range (maxQPower r)) 0 in
    let result := Rleb zeroChance prob in
    let '(sv, nrm2) :=
      if result then
        let nrmlzr := if Rltb zeroChance 1 then sqrt (1 - zeroChance) else 1 in
        fold_left (fun '(sv, rn) lcv =>
                     if (Z.land lcv qPower =? 0)%Z then (put lcv (cplx 0 0) sv, rn)
                     else
                       let sv' := put lcv (rotate_by cosine sine nrmlzr (load C0 sv lcv)) sv in
                       (sv', rn + normSqrd (load C0 sv' lcv)))
          (range (maxQPower r)) (stateVec r, 0)
      else
        let nrmlzr := if Rltb 0 zeroChance then sqrt zeroChance else 1 in
        fold_left (fun '(sv, rn) lcv =>
                     if (Z.land lcv qPower =? 0)%Z then
                       let sv' := put lcv (rotate_by cosine sine nrmlzr (load C0 sv lcv)) sv in
                       (sv', rn + normSqrd (load C0 sv' lcv))
                     else (put lcv (cplx 0 0) sv, rn))
          (range (maxQPower r)) (stateVec r, 0) in
    (result, Build (sqrt nrm2) (qubitCount r) (maxQPower r) sv g2).

(** [bool MAll(bitCapInt fullRegister)]. *)
Definition MAll (fullRegister : Z) (r : t) : bool * t :=
    let (prob, g1) := Rng.next (rand_generator r) in
    let (a, g2) := Rng.next g1 in
    let angle := a * 2 * PI in
    let cosine := cos angle in
    let sine := sin angle in
    let toTest := load C0 (stateVec r) fullRegister in
    let oneChance := real toTest * real toTest + imag toTest * imag toTest in
    let result := Rltb prob oneChance in
    let maxPower := bitpow (qubitCount r) in
    let sv :=
      if result then
        fold_left (fun sv lcv =>
                     if (lcv =? fullRegister)%Z then put lcv (cplx cosine sine) sv
                     else put lcv (cplx 0 0) sv)
          (range maxPower) (stateVec r)
      else
        let nrmlzr := sqrt (1 - oneChance) in
        fold_left (fun sv lcv =>
                     if (lcv =? fullRegister)%Z then put lcv (cplx 0 0) sv
                     else put lcv (rotate_by cosine sine nrmlzr (load C0 sv lcv)) sv)
          (range maxPower) (stateVec r) in
    (result, Build (runningNorm r) (qubitCount r) (maxQPower r) sv g2).

(** [SetBit(qubitIndex1, value)].  [M] returns no value (see [M]); the value
    the comparison reads is indeterminate and is the argument [received]. *)
Definition SetBit (qubitIndex1 : Z) (value : bool) (received : bool) (r : t) : t :=
    let (_, r) := M qubitIndex1 r in
    if negb (Bool.eqb value received) then X qubitIndex1 r else r.

End Register.

(** ** The OpenCL kernels of [qrack_ocl.cpp] *)
Module OCL.

Import Machine Cplx Buf Host.

(** [ulongPtr[k]] and [cmplxPtr[k]] of the packed parameter buffers. *)
Definition arg (ulongPtr : list Z) (k : nat) : Z := nth k ulongPtr 0.
Definition carg (cmplxPtr : list Complex16) (k : nat) : Complex16 := nth k cmplxPtr C0.

(** The index of [apply2x2]: the counter [lcv] with a zero inserted at
    each of the [bitCount] sorted qubit powers. *)
Definition apply2x2_index (ulongPtr : list Z) (lcv : Z) : Z :=
    let bitCount := arg ulongPtr 0 in
    let '(i, iHigh) :=
      fold_left (fun '(i, iHigh) p =>
                   let iLow := iHigh mod (arg ulongPtr (4 + Z.to_nat p)) in
                   (add64 i iLow, shl64 (sub64 iHigh iLow) 1))
        (range bitCount) (0, lcv) in
    add64 i iHigh.

(** One turn of the [while] loop of [apply2x2], at index [i]. *)
Definition apply2x2_body (cmplxPtr : list Complex16) (ulongPtr : list Z) (i : Z)
    (stateVec : list Complex16) : option (list Complex16) :=
    let nrm := carg cmplxPtr 4 in
    let offset1 := arg ulongPtr 2 in
    let offset2 := arg ulongPtr 3 in
    let qubit0 := load C0 stateVec (add64 i offset1) in
    let qubit1 := load C0 stateVec (add64 i offset2) in
    let Y0 := qubit0 in
    let qubit0 := zmul nrm (add (zmul (carg cmplxPtr 0) Y0) (zmul (carg cmplxPtr 1) qubit1)) in
    let qubit1 := zmul nrm (add (zmul (carg cmplxPtr 2) Y0) (zmul (carg cmplxPtr 3) qubit1)) in
    match store (add64 i offset1) qubit0 stateVec with
    | Some sv => store (add64 i offset2) qubit1 sv
    | None => None
    end.

(** [while (i < maxI) { ...; lcv += Nthreads; i = index(lcv); }]; [None]
    when the fuel runs out or a store leaves the array. *)
Fixpoint apply2x2_loop (fuel : nat) (cmplxPtr : list Complex16) (ulongPtr : list Z) (lcv : Z)
    (stateVec : list Complex16) : option (list Complex16) :=
    match fuel with
    | O => None
    | S fuel' =>
        let i := apply2x2_index ulongPtr lcv in
        if i <? arg ulongPtr 1 then
          match apply2x2_body cmplxPtr ulongPtr i stateVec with
          | Some sv => apply2x2_loop fuel' cmplxPtr ulongPtr (lcv + 1) sv
          | None => None
          end
        else Some stateVec
    end.

(** The kernel [apply2x2]; the index of a counter is at least the counter,
    so [maxI + 1] turns are enough. *)
Definition apply2x2 (stateVec : list Complex16) (cmplxPtr : list Complex16) (ulongPtr : list Z)
    : option (list Complex16) :=
    apply2x2_loop (S (Z.to_nat (arg ulongPtr 1))) cmplxPtr ulongPtr 0 stateVec.

(** A scatter kernel: [nStateVec[dest(lcv)] = stateVec[lcv]] for every
    [lcv < maxI]. *)
Definition scatter (dest : list Z -> Z -> Z) (stateVec : list Complex16) (ulongPtr : list Z)
    (nStateVec : list Complex16) : option (list Complex16) :=
    fold_left (fun acc lcv =>
                 match acc with
                 | Some d => store (dest ulongPtr lcv) (load C0 stateVec lcv) d
                 | None => None
                 end)
      (range (arg ulongPtr 0)) (Some nStateVec).

(** The index the kernel [rol] writes for [lcv]. *)
Definition rol_dest (ulongPtr : list Z) (lcv : Z) : Z :=
    let regMask := arg ulongPtr 1 in
    let otherMask := arg ulongPtr 2 in
    let lengthMask := sub64 (arg ulongPtr 3) 1 in
    let start := arg ulongPtr 4 in
    let shift := arg ulongPtr 5 in
    let length := arg ulongPtr 6 in
    let otherRes := Z.land lcv otherMask in
    let regRes := Z.land lcv regMask in
    let regInt := shr64 regRes start in
    let outInt := Z.lor (shr64 regInt (sub64 length shift)) (Z.land (shl64 regInt shift) lengthMask) in
    add64 (shl64 outInt start) otherRes.

Definition rol := scatter rol_dest.

(** The index the kernel [ror] writes for [lcv]. *)
Definition ror_dest (ulongPtr : list Z) (lcv : Z) : Z :=
    let regMask := arg ulongPtr 1 in
    let otherMask := arg ulongPtr 2 in
    let lengthMask := sub64 (arg ulongPtr 3) 1 in
    let start := arg ulongPtr 4 in
    let shift := arg ulongPtr 5 in
    let length := arg ulongPtr 6 in
    let otherRes := Z.land lcv otherMask in
    let regRes := Z.land lcv regMask in
    let regInt := shr64 regRes start in
    let outInt := Z.lor (Z.land (shr64 regInt shift) lengthMask) (shl64 regInt (sub64 length shift)) in
    add64 (shl64 outInt start) otherRes.

Definition ror := scatter ror_dest.

(** The first loop of [addbcd] over the nibbles: [test1], [test2] and
    [nibbles[j]] are [uchar]; the result is [(nibbles, isValid)]. *)
Definition addbcd_nibbles (nibbleCount inOutInt inInt : Z) : list Z * bool :=
    fold_left (fun '(nibbles, isValid) j =>
                 let test1 := wrap8 (Z.land inOutInt (Z.shiftl 15 (j * 4))) in
                 let test2 := wrap8 (Z.land inInt (Z.shiftl 15 (j * 4))) in
                 let nibbles := put j (wrap8 (test1 + test2)) nibbles in
                 (nibbles, if (9 <? test1) || (9 <? test2) then false else isValid))
      (range nibbleCount) (repeat 0 8, true).

(** The second loop of [addbcd]: decimal carry, and [outInt]. *)
Definition addbcd_carry (nibbleCount : Z) (nibbles : list Z) : Z :=
    snd (fold_left (fun '(nibbles, outInt) j =>
                      let nibbles :=
                        if 9 <? load 0 nibbles j then
                          let nibbles := put j (wrap8 (load 0 nibbles j - 10)) nibbles in
                          if j + 1 <? nibbleCount
                          then put (j + 1) (wrap8 (load 0 nibbles (j + 1) + 1)) nibbles
                          else nibbles
                        else nibbles in
                      (nibbles, Z.lor outInt (Z.shiftl (load 0 nibbles j) (j * 4))))
           (range nibbleCount) (nibbles, 0)).

(** The index the kernel [addbcd] writes for [lcv]. *)
Definition addbcd_dest (ulongPtr : list Z) (lcv : Z) : Z :=
    let inOutMask := arg ulongPtr 1 in
    let inMask := arg ulongPtr 2 in
    let otherMask := arg ulongPtr 3 in
    let inOutStart := arg ulongPtr 5 in
    let inStart := arg ulongPtr 6 in
    let nibbleCount := arg ulongPtr 9 in
    let otherRes := Z.land lcv otherMask in
    if otherRes =? lcv then lcv
    else
      let inOutRes := Z.land lcv inOutMask in
      let inOutInt := shr64 inOutRes inOutStart in
      let inRes := Z.land lcv inMask in
      let inInt := shr64 inRes inStart in
      let '(nibbles, isValid) := addbcd_nibbles nibbleCount inOutInt inInt in
      if isValid then
        let outInt := addbcd_carry nibbleCount nibbles in
        Z.lor (Z.lor (shl64 outInt inOutStart) otherRes) inRes
      else lcv.

Definition addbcd := scatter addbcd_dest.

(** The index the kernel [add] writes for [lcv]. *)
Definition add_dest (ulongPtr : list Z) (lcv : Z) : Z :=
    let inOutMask := arg ulongPtr 1 in
    let inMask := arg ulongPtr 2 in
    let otherMask := arg ulongPtr 3 in
    let lengthMask := sub64 (arg ulongPtr 4) 1 in
    let inOutStart := arg ulongPtr 5 in
    let inStart := arg ulongPtr 6 in
    let otherRes := Z.land lcv otherMask in
    let inOutRes := Z.land lcv inOutMask in
    let inOutInt := shr64 inOutRes inOutStart in
    let inRes := Z.land lcv inMask in
    let inInt := shr64 inRes inStart in
    add64 (add64 (shl64 (Z.land (add64 inOutInt inInt) lengthMask) inOutStart) otherRes) inRes.

(** The index the kernel [sub] writes for [lcv]. *)
Definition sub_dest (ulongPtr : list Z) (lcv : Z) : Z :=
    let inOutMask := arg ulongPtr 1 in
    let inMask := arg ulongPtr 2 in
    let otherMask := arg ulongPtr 3 in
    let lengthPower := arg ulongPtr 4 in
    let inOutStart := arg ulongPtr 5 in
    let inStart := arg ulongPtr 6 in
    let otherRes := Z.land lcv otherMask in
    let inOutRes := Z.land lcv inOutMask in
    let inOutInt := shr64 inOutRes inOutStart in
    let inRes := Z.land lcv inMask in
    let inInt := shr64 inRes inStart in
    add64 (add64 (shl64 (Z.land (add64 (sub64 inOutInt inInt) lengthPower)
                           (sub64 lengthPower 1)) inOutStart) otherRes) inRes.

(** The kernels [add] and [sub]. *)
Definition add := scatter add_dest.
Definition sub := scatter sub_dest.

End OCL.

(** ** The class [CoherentUnit] of [qrack_ocl.cpp] *)
Module CoherentUnit.

Import Machine Cplx Buf Host.
Local Open Scope R_scope.

Record t : Type := Build {
  runningNorm : R;
  qubitCount : Z;
  maxQPower : Z;
  stateVec : list Complex16;
  rand_generator : Rng.t
}.

Definition of_option {A : Type} (o : option A) : outcome A :=
    match o with Some a => Ok a | None => Undefined end.

Definition with_state (c : t) (sv : list Complex16) : t :=
    Build (runningNorm c) (qubitCount c) (maxQPower c) sv (rand_generator c).

Definition UpdateRunningNorm (c : t) : t :=
    Build (par_norm (maxQPower c) (stateVec c)) (qubitCount c) (maxQPower c) (stateVec c)
      (rand_generator c).

Definition NormalizeState (c : t) : t :=
    Build 1 (qubitCount c) (maxQPower c)
      (update_each (maxQPower c) (fun _ z => divr z (runningNorm c)) (stateVec c))
      (rand_generator c).

(** [if (runningNorm != 1.0) NormalizeState();] *)
Definition normalize_if_needed (c : t) : t :=
    if Reqb (runningNorm c) 1 then c else NormalizeState c.

Section Allocation.

(** [new Complex16[n]]: the contents of a fresh array of [Complex16Simd] are
    whatever its default constructor leaves, which the sources do not show. *)
Variable fresh : Z -> list Complex16.

(** [CoherentUnit(bitLenInt qBitCount)]; [g] is the generator just seeded
    from the clock. *)
Definition new (qBitCount : Z) (g : Rng.t) : outcome t :=
    if (64 <? qBitCount)%Z then Throw InvalidArgument
    else
      let (r, g') := Rng.next g in
      let angle := r * 2 * PI in
      match int_shl1 qBitCount with
      | None => Undefined
      | Some maxQ =>
          match store 0 (cplx (cos angle) (sin angle)) (fill_n maxQ (cplx 0 0) (fresh maxQ)) with
          | None => Undefined
          | Some sv => Ok (Build 1 qBitCount maxQ sv g')
          end
      end.

(** [CoherentUnit(bitLenInt qBitCount, bitCapInt initState)]. *)
Definition new_perm (qBitCount initState : Z) (g : Rng.t) : outcome t :=
    let (r, g') := Rng.next g in
    let angle := r * 2 * PI in
    match int_shl1 qBitCount with
    | None => Undefined
    | Some maxQ =>
        match store initState (cplx (cos angle) (sin angle))
                (fill_n maxQ (cplx 0 0) (fresh maxQ)) with
        | None => Undefined
        | Some sv => Ok (Build 1 qBitCount maxQ sv g')
        end
    end.

(** [CoherentUnit(const CoherentUnit& pqs)]; [g] is the generator just
    seeded from the clock. *)
Definition clone (pqs : t) (g : Rng.t) : t :=
    Build (runningNorm pqs) (qubitCount pqs) (maxQPower pqs)
      (copy_n (maxQPower pqs) (stateVec pqs) (fresh (maxQPower pqs))) g.

(** [CloneRawState(output)]: the register afterwards and the output array. *)
Definition CloneRawState (output : list Complex16) (c : t) : t * list Complex16 :=
    let c := normalize_if_needed c in
    (c, copy_n (maxQPower c) (stateVec c) output).


(** [X(bitLenInt start, bitLenInt length)]. *)
Definition X_range (start length : Z) (c : t) : outcome t :=
    let inOutMask := mask_loop start length in
    let otherMask := sub64 (bitpow (qubitCount c)) 1 in
    let otherMask := sub64 otherMask inOutMask in
    let bciArgs := [inOutMask; otherMask] in
    of_option
      (option_map (with_state c)
         (par_for_copy 0 (maxQPower c) (stateVec c) bciArgs (fresh (maxQPower c))
            (fun lcv stateVec bciArgs nStateVec =>
               let otherRes := Z.land lcv (nth 1 bciArgs 0%Z) in
               let inOutRes := Z.land (not64 lcv) (nth 0 bciArgs 0%Z) in
               store (Z.lor inOutRes otherRes) (load C0 stateVec lcv) nStateVec))).

(** The parameter array [bciArgs] of [ROL] and [ROR]. *)
Definition rotate_args (shift start length : Z) (c : t) : list Z :=
    let regMask := mask_loop start length in
    let otherMask := sub64 (bitpow (qubitCount c)) 1 in
    let lengthPower := bitpow length in
    let otherMask := sub64 otherMask regMask in
    [maxQPower c; regMask; otherMask; lengthPower; start; shift; length; 0; 0; 0]%Z.

(** [ROL(shift, start, length)]. *)
Definition ROL (shift start length : Z) (c : t) : outcome t :=
    of_option
      (option_map (with_state c)
         (OCL.rol (stateVec c) (rotate_args shift start length c) (fresh (maxQPower c)))).

(** [ROR(shift, start, length)]. *)
Definition ROR (shift start length : Z) (c : t) : outcome t :=
    of_option
      (option_map (with_state c)
         (OCL.ror (stateVec c) (rotate_args shift start length c) (fresh (maxQPower c)))).

(** The parameter array [bciArgs] of [ADDBCD]. *)
Definition ADDBCD_args (inOutStart inStart length : Z) (c : t) : list Z :=
    let nibbleCount := (length / 4)%Z in
    let otherMask := sub64 (bitpow (qubitCount c)) 1 in
    let lengthPower := bitpow length in
    let '(inOutMask, inMask) :=
      fold_left (fun '(inOutMask, inMask) i =>
                   (add64 inOutMask (bitpow (inOutStart + i)),
                    add64 inMask (bitpow (inStart + i))))
        (range length) (0, 0)%Z in
    let otherMask := sub64 otherMask (add64 inOutMask inMask) in
    [maxQPower c; inOutMask; inMask; otherMask; lengthPower; inOutStart; inStart;
     nibbleCount; 0; 0]%Z.

(** [ADDBCD(inOutStart, inStart, length)]. *)
Definition ADDBCD (inOutStart inStart length : Z) (c : t) : outcome t :=
    let nibbleCount := (length / 4)%Z in
    if negb (nibbleCount * 4 =? length)%Z then Throw InvalidArgument
    else
      of_option
        (option_map (with_state c)
           (OCL.addbcd (stateVec c) (ADDBCD_args inOutStart inStart length c)
              (fresh (maxQPower c)))).

(** The parameter array [bciArgs] of [ADD], and of [SUB] with [toSub] for
    [inStart]. *)
Definition ADD_args (inOutStart inStart length : Z) (c : t) : list Z :=
    let otherMask := sub64 (bitpow (qubitCount c)) 1 in
    let lengthPower := bitpow length in
    let '(inOutMask, inMask) :=
      fold_left (fun '(inOutMask, inMask) i =>
                   (add64 inOutMask (bitpow (inOutStart + i)),
                    add64 inMask (bitpow (inStart + i))))
        (range length) (0, 0)%Z in
    let otherMask := sub64 otherMask (add64 inOutMask inMask) in
    [maxQPower c; inOutMask; inMask; otherMask; lengthPower; inOutStart; inStart; 0; 0; 0]%Z.

(** [ADD(inOutStart, inStart, length)]. *)
Definition ADD (inOutStart inStart length : Z) (c : t) : outcome t :=
    of_option
      (option_map (with_state c)
         (OCL.add (stateVec c) (ADD_args inOutStart inStart length c) (fresh (maxQPower c)))).

(** [SUB(inOutStart, toSub, length)]. *)
Definition SUB (inOutStart toSub length : Z) (c : t) : outcome t :=
    of_option
      (option_map (with_state c)
         (OCL.sub (stateVec c) (ADD_args inOutStart toSub length c) (fresh (maxQPower c)))).

End Allocation.

(** [double Prob(bitLenInt qubitIndex)]: the value and the register
    afterwards. *)
Definition Prob (qubitIndex : Z) (c : t) : R * t :=
    let c := normalize_if_needed c in
    let qPower := bitpow qubitIndex in
    (fold_left (fun oneChance lcv =>
                  if (Z.land lcv qPower =? qPower)%Z
                  then oneChance + norm (load C0 (stateVec c) lcv)
                  else oneChance)
       (range (maxQPower c)) 0, c).

Definition ProbAll (fullRegister : Z) (c : t) : R * t :=
    let c := normalize_if_needed c in
    (norm (load C0 (stateVec c) fullRegister), c).

Definition ProbArray (probArray : list R) (c : t) : list R * t :=
    let c := normalize_if_needed c in
    (fold_left (fun acc lcv => put lcv (norm (load C0 (stateVec c) lcv)) acc)
       (range (maxQPower c)) probArray, c).

(** The two lambdas of [M]. *)
Definition M_keep_one (lcv : Z) (stateVec : list Complex16) (nrm : Complex16) (mtrx : unit)
    (qPowers : list Z) : list Complex16 :=
    if (Z.land lcv (nth 0 qPowers 0%Z) =? 0)%Z then put lcv (cplx 0 0) stateVec
    else put lcv (mul nrm (load C0 stateVec lcv)) stateVec.

Definition M_keep_zero (lcv : Z) (stateVec : list Complex16) (nrm : Complex16) (mtrx : unit)
    (qPowers : list Z) : list Complex16 :=
    if (Z.land lcv (nth 0 qPowers 0%Z) =? 0)%Z then put lcv (mul nrm (load C0 stateVec lcv)) stateVec
    else put lcv (cplx 0 0) stateVec.

(** [bool M(bitLenInt qubitIndex)]. *)
Definition M (qubitIndex : Z) (c : t) : bool * t :=
    let c := normalize_if_needed c in
    let (prob, g1) := Rng.next (rand_generator c) in
    let (a, g2) := Rng.next g1 in
    let angle := a * 2 * PI in
    let cosine := cos angle in
    let sine := sin angle in
    let qPowers := [bitpow qubitIndex] in
    let (oneChance, c) := Prob qubitIndex c in
    let result := Rltb prob oneChance && Rltb 0 oneChance in
    let sv :=
      if result then
        let nrmlzr := if Rltb 0 oneChance then oneChance else 1 in
        par_for_all 0 (maxQPower c) (stateVec c) (divr (cplx cosine sine) nrmlzr) tt qPowers
          M_keep_one
      else
        let nrmlzr := if Rltb oneChance 1 then sqrt (1 - oneChance) else 1 in
        par_for_all 0 (maxQPower c) (stateVec c) (divr (cplx cosine sine) nrmlzr) tt qPowers
          M_keep_zero in
    (result, UpdateRunningNorm (Build (runningNorm c) (qubitCount c) (maxQPower c) sv g2)).

(** [Apply2x2(offset1, offset2, mtrx, bitCount, qPowersSorted, doApplyNorm,
    doCalcNorm)]: marshals the parameters and runs the kernel [apply2x2]. *)
Definition Apply2x2 (offset1 offset2 : Z) (mtrx : Mtrx) (bitCount : Z) (qPowersSorted : list Z)
    (doApplyNorm doCalcNorm : bool) (c : t) : outcome t :=
    let cmplx :=
      [m0 mtrx; m1 mtrx; m2 mtrx; m3 mtrx;
       cplx (if doApplyNorm then 1 / runningNorm c else 1) 0] in
    let ulong :=
      fold_left (fun acc i => put (4 + i) (load 0%Z qPowersSorted i) acc) (range bitCount)
        [bitCount; maxQPower c; offset1; offset2; 0; 0; 0; 0; 0; 0]%Z in
    match OCL.apply2x2 (stateVec c) cmplx ulong with
    | None => Undefined
    | Some sv =>
        let c := with_state c sv in
        Ok (if doCalcNorm then UpdateRunningNorm c
            else Build 1 (qubitCount c) (maxQPower c) (stateVec c) (rand_generator c))
    end.

Definition ApplySingleBit (qubitIndex : Z) (mtrx : Mtrx) (doCalcNorm : bool) (c : t) : outcome t :=
    let qPowers := [bitpow qubitIndex] in
    Apply2x2 (nth 0 qPowers 0%Z) 0 mtrx 1 qPowers true doCalcNorm c.

Definition X (qubitIndex : Z) (c : t) : outcome t := ApplySingleBit qubitIndex pauliX false c.

Definition R1 (radians : R) (qubitIndex : Z) (c : t) : outcome t :=
    let cosine := cos (radians / 2) in
    let sine := sin (radians / 2) in
    ApplySingleBit qubitIndex (mkMtrx (cplx 1 0) (cplx 0 0) (cplx 0 0) (cplx cosine sine)) true c.

Definition R1Dyad (numerator denominator : Z) (qubitIndex : Z) (c : t) : outcome t :=
    R1 ((PI * IZR numerator * 2) / IZR denominator) qubitIndex c.

Definition RX (radians : R) (qubitIndex : Z) (c : t) : outcome t :=
    let cosine := cos (radians / 2) in
    let sine := sin (radians / 2) in
    ApplySingleBit qubitIndex
      (mkMtrx (cplx cosine 0) (cplx 0 (- sine)) (cplx 0 (- sine)) (cplx cosine 0)) true c.

Definition RXDyad (numerator denominator : Z) (qubitIndex : Z) (c : t) : outcome t :=
    RX ((- PI * IZR numerator * 2) / IZR denominator) qubitIndex c.

Definition RY (radians : R) (qubitIndex : Z) (c : t) : outcome t :=
    let cosine := cos (radians / 2) in
    let sine := sin (radians / 2) in
    ApplySingleBit qubitIndex
      (mkMtrx (cplx cosine 0) (cplx (- sine) 0) (cplx sine 0) (cplx cosine 0)) true c.

Definition RYDyad (numerator denominator : Z) (qubitIndex : Z) (c : t) : outcome t :=
    RY ((- PI * IZR numerator * 2) / IZR denominator) qubitIndex c.

Definition RZ (radians : R) (qubitIndex : Z) (c : t) : outcome t :=
    let cosine := cos (radians / 2) in
    let sine := sin (radians / 2) in
    ApplySingleBit qubitIndex
      (mkMtrx (cplx cosine (- sine)) (cplx 0 0) (cplx 0 0) (cplx cosine sine)) true c.

Definition RZDyad (numerator denominator : Z) (qubitIndex : Z) (c : t) : outcome t :=
    RZ ((- PI * IZR numerator * 2) / IZR denominator) qubitIndex c.

(** [SetBit(qubitIndex1, value)]: the measured value and the register
    afterwards. *)
Definition SetBit (qubitIndex1 : Z) (value : bool) (c : t) : outcome t :=
    let (measured, c) := M qubitIndex1 c in
    if negb (Bool.eqb value measured) then X qubitIndex1 c else Ok c.


(** [SetQuantumState(inputState)]; [inputState] holds at least [maxQPower]
    amplitudes. *)
Definition SetQuantumState (inputState : list Complex16) (c : t) : t :=
    with_state c (copy_n (maxQPower c) inputState (stateVec c)).

(** [Y(qubitIndex)], [Z(qubitIndex)] (named [ZGate] here, [Z] being the
    type of the integers) and [H(qubitIndex)]. *)
Definition Y (qubitIndex : Z) (c : t) : outcome t := ApplySingleBit qubitIndex pauliY false c.

Definition ZGate (qubitIndex : Z) (c : t) : outcome t := ApplySingleBit qubitIndex pauliZ false c.

Definition H (qubitIndex : Z) (c : t) : outcome t := ApplySingleBit qubitIndex had true c.

Definition ApplyControlled2x2 (control target : Z) (mtrx : Mtrx) (doCalcNorm : bool) (c : t)
    : outcome t :=
    let qPowers1 := bitpow control in
    let qPowers2 := bitpow target in
    let qPowers0 := add64 qPowers1 qPowers2 in
    let qPowersSorted :=
      if (control <? target)%Z then [qPowers1; qPowers2] else [qPowers2; qPowers1] in
    Apply2x2 qPowers0 qPowers1 mtrx 2 qPowersSorted false doCalcNorm c.

Definition ApplyAntiControlled2x2 (control target : Z) (mtrx : Mtrx) (doCalcNorm : bool) (c : t)
    : outcome t :=
    let qPowers1 := bitpow control in
    let qPowers2 := bitpow target in
    let qPowersSorted :=
      if (control <? target)%Z then [qPowers1; qPowers2] else [qPowers2; qPowers1] in
    Apply2x2 0 qPowers2 mtrx 2 qPowersSorted false doCalcNorm c.

(** [CNOT(control, target)] and [AntiCNOT(control, target)]. *)
Definition CNOT (control target : Z) (c : t) : outcome t :=
    if (control =? target)%Z then Throw InvalidArgument
    else ApplyControlled2x2 control target pauliX false c.

Definition AntiCNOT (control target : Z) (c : t) : outcome t :=
    if (control =? target)%Z then Throw InvalidArgument
    else ApplyAntiControlled2x2 control target pauliX false c.

(** [CY(control, target)] and [CZ(control, target)]. *)
Definition CY (control target : Z) (c : t) : outcome t :=
    if (control =? target)%Z then Throw InvalidArgument
    else ApplyControlled2x2 control target pauliY false c.

Definition CZ (control target : Z) (c : t) : outcome t :=
    if (control =? target)%Z then Throw InvalidArgument
    else ApplyControlled2x2 control target pauliZ false c.

(** [CRT(radians, control, target)], [CRX], [CRY] and [CRZ]: the controlled
    rotations. *)
Definition CRT (radians : R) (control target : Z) (c : t) : outcome t :=
    if (control =? target)%Z then Throw InvalidArgument
    else
      let cosine := cos (radians / 2) in
      let sine := sin (radians / 2) in
      ApplyControlled2x2 control target
        (mkMtrx (cplx 1 0) (cplx 0 0) (cplx 0 0) (cplx cosine sine)) true c.

Definition CRX (radians : R) (control target : Z) (c : t) : outcome t :=
    if (control =? target)%Z then Throw InvalidArgument
    else
      let cosine := cos (radians / 2) in
      let sine := sin (radians / 2) in
      ApplyControlled2x2 control target
        (mkMtrx (cplx cosine 0) (cplx 0 (- sine)) (cplx 0 (- sine)) (cplx cosine 0)) true c.

Definition CRY (radians : R) (control target : Z) (c : t) : outcome t :=
    if (control =? target)%Z then Throw InvalidArgument
    else
      let cosine := cos (radians / 2) in
      let sine := sin (radians / 2) in
      ApplyControlled2x2 control target
        (mkMtrx (cplx cosine 0) (cplx (- sine) 0) (cplx sine 0) (cplx cosine 0)) true c.

Definition CRZ (radians : R) (control target : Z) (c : t) : outcome t :=
    if (control =? target)%Z then Throw InvalidArgument
    else
      let cosine := cos (radians / 2) in
      let sine := sin (radians / 2) in
      ApplyControlled2x2 control target
        (mkMtrx (cplx cosine (- sine)) (cplx 0 0) (cplx 0 0) (cplx cosine sine)) true c.

(** [CCNOT(control1, control2, target)]. *)
Definition CCNOT (control1 control2 target : Z) (c : t) : outcome t :=
    if (control1 =? control2)%Z then Throw InvalidArgument
    else if (control1 =? target)%Z || (control2 =? target)%Z then Throw InvalidArgument
    else
      let qPowers1 := bitpow control1 in
      let qPowers2 := bitpow control2 in
      let qPowers3 := bitpow target in
      let qPowers0 := add64 (add64 qPowers1 qPowers2) qPowers3 in
      let qPowersSorted := sort [qPowers1; qPowers2; qPowers3] in
      Apply2x2 qPowers0 (add64 qPowers1 qPowers2) pauliX 3 qPowersSorted false false c.

(** [AntiCCNOT(control1, control2, target)]. *)
Definition AntiCCNOT (control1 control2 target : Z) (c : t) : outcome t :=
    if (control1 =? control2)%Z then Throw InvalidArgument
    else if (control1 =? target)%Z || (control2 =? target)%Z then Throw InvalidArgument
    else
      let qPowers1 := bitpow control1 in
      let qPowers2 := bitpow control2 in
      let qPowers3 := bitpow target in
      let qPowersSorted := sort [qPowers1; qPowers2; qPowers3] in
      Apply2x2 0 qPowers3 pauliX 3 qPowersSorted false false c.

(** [Swap(qubitIndex1, qubitIndex2)]. *)
Definition Swap (qubitIndex1 qubitIndex2 : Z) (c : t) : outcome t :=
    if negb (qubitIndex1 =? qubitIndex2)%Z then
      let qPowers1 := bitpow qubitIndex1 in
      let qPowers2 := bitpow qubitIndex2 in
      let qPowersSorted :=
        if (qubitIndex1 <? qubitIndex2)%Z then [qPowers1; qPowers2] else [qPowers2; qPowers1] in
      Apply2x2 qPowers2 qPowers1 pauliX 2 qPowersSorted false false c
    else Ok c.

End CoherentUnit.

(** * The vocabulary of the statements *)
Module Shape.

Import Machine Cplx Buf Host.

(** The arrays [new Complex16[n]] returns have [n] cells. *)
Definition allocates (fresh : Z -> list Complex16) : Prop :=
  forall n, 0 <= n -> Z.of_nat (length (fresh n)) = n.

(** A [CoherentUnit] as its constructors build it: at most 30 qubits (the
    counts for which the host's [1 << n] is defined), [maxQPower] is
    [2 ^ qubitCount], and the amplitude array has [maxQPower] cells. *)
Definition well_formed (c : CoherentUnit.t) : Prop :=
  0 <= CoherentUnit.qubitCount c <= 30 /\
  CoherentUnit.maxQPower c = 2 ^ CoherentUnit.qubitCount c /\
  Z.of_nat (length (CoherentUnit.stateVec c)) = CoherentUnit.maxQPower c.

(** The fresh arrays of the examples: zero-filled. *)
Definition zeroed (n : Z) : list Complex16 := repeat C0 (Z.to_nat n).

(** The mask of the qubits [[start, start + length)]. *)
Definition range_mask (start length : Z) : Z := Z.shiftl (Z.ones length) start.

(** [j] is [i] with exactly the bits of [[start, start + length)]
    complemented. *)
Definition complemented (start length i j : Z) : Prop :=
  forall k, 0 <= k ->
    Z.testbit j k = if (start <=? k) && (k <? start + length)
                    then negb (Z.testbit i k) else Z.testbit i k.

(** [runningNorm] holds the positive L2 norm of the amplitude vector. *)
Definition norm_cached (c : CoherentUnit.t) : Prop :=
  (0 < CoherentUnit.runningNorm c)%R /\ CoherentUnit.runningNorm c = par_norm (CoherentUnit.maxQPower c) (CoherentUnit.stateVec c).

End Shape.

(** ** Terms of the proofs *)

Module Pairs.

(** The index of the counter [l] with a zero inserted at the bit of power [m]. *)
Definition ins (m l : Z) : Z := (l / m) * (2 * m) + l mod m.

(** The counter whose pair holds the index [j]: [j] without the bit of power [m]. *)
Definition rem (m j : Z) : Z := (j / (2 * m)) * m + j mod m.

(** The bit of power [m] of [j], as 0 or 1. *)
Definition bitval (m j : Z) : Z := (j / m) mod 2.

(** The other index of the pair of [j]. *)
Definition partner (m j : Z) : Z := if bitval m j =? 1 then j - m else j + m.

End Pairs.

Module Sums.

Import Machine Cplx Buf.
Local Open Scope R_scope.

(** The sum of a list of reals. *)
Definition Rsum (l : list R) : R := fold_right Rplus 0 l.

(** The total squared magnitude of the amplitudes whose index satisfies
    [p]. *)
Definition weight (p : Z -> bool) (N : Z) (v : list Complex16) : R :=
  Rsum (map (fun i => if p i then norm (load C0 v i) else 0) (range N)).

(** Bit [q] of the index [i] is set; it is clear; any index. *)
Definition is_set (q i : Z) : bool := (Z.land i (bitpow q) =? bitpow q)%Z.
Definition is_clear (q i : Z) : bool := (Z.land i (bitpow q) =? 0)%Z.
Definition everywhere (i : Z) : bool := true.

End Sums.

Module SingleBit.

Import Machine Cplx Buf Pairs.

(** The parameter array [Apply2x2] packs for one target qubit of power
    [m], with [offset1 = m] and [offset2 = 0]. *)
Definition single_args (N m : Z) : list Z := [1; N; m; 0; m; 0; 0; 0; 0; 0].

(** The two amplitudes one turn of [apply2x2] stores, from the amplitude
    [a] at [i + offset1] and the amplitude [b] at [i + offset2]. *)
Definition gate0 (cmplx : list Complex16) (a b : Complex16) : Complex16 :=
  zmul (OCL.carg cmplx 4) (add (zmul (OCL.carg cmplx 0) a) (zmul (OCL.carg cmplx 1) b)).
Definition gate1 (cmplx : list Complex16) (a b : Complex16) : Complex16 :=
  zmul (OCL.carg cmplx 4) (add (zmul (OCL.carg cmplx 2) a) (zmul (OCL.carg cmplx 3) b)).

(** The state after the turns of the counters below [k]. *)
Definition turned (cmplx : list Complex16) (m k : Z) (sv st : list Complex16) : Prop :=
  length st = length sv /\
  forall j, 0 <= j < Z.of_nat (length sv) ->
    load C0 st j =
      if rem m j <? k then
        if bitval m j =? 1
        then gate0 cmplx (load C0 sv j) (load C0 sv (j - m))
        else gate1 cmplx (load C0 sv (j + m)) (load C0 sv j)
      else load C0 sv j.

End SingleBit.

(** ** The kernel [apply2x2] on several sorted powers *)
Module Multi.

Import Machine Cplx Buf Pairs SingleBit.

(** The powers of two of a list of qubit indices. *)
Definition pows (qs : list Z) : list Z := map (Z.pow 2) qs.

(** The counter [l] with a zero inserted at each power, lowest first: the
    index [apply2x2] computes for [l]. *)
Definition idx (ms : list Z) (l : Z) : Z := fold_left (fun x m => ins m x) ms l.

(** The counter whose turn touches the index [j]: [j] without its bits at
    the powers. *)
Definition key (ms : list Z) (j : Z) : Z := fold_right (fun m x => rem m x) j ms.

(** Qubit indices in strictly ascending order, from [lo] on and below
    [hi]. *)
Fixpoint asc (lo hi : Z) (qs : list Z) : Prop :=
  match qs with
  | [] => lo <= hi
  | q :: t => lo <= q /\ asc (q + 1) hi t
  end.

(** The parameter array [Apply2x2] packs for the sorted powers [ms]. *)
Definition args (N o1 o2 : Z) (ms : list Z) : list Z :=
  [Z.of_nat (length ms); N; o1; o2; nth 0 ms 0; nth 1 ms 0; nth 2 ms 0; nth 3 ms 0;
   nth 4 ms 0; nth 5 ms 0].

(** The sum of a list of powers: an offset of [Apply2x2]. *)
Definition total (l : list Z) : Z := fold_right Z.add 0 l.

(** Among the qubits [qs], the index [j] has exactly the bits of [S] set. *)
Definition marks (qs S : list Z) (j : Z) : bool :=
  forallb (fun q => Bool.eqb (Z.testbit j q) (existsb (Z.eqb q) S)) qs.

(** The place of the index [j] in its pair when the first cells of the
    pairs have the bits [S1] set and the second cells the bits [S2]. *)
Definition role (qs S1 S2 : list Z) (j : Z) : option bool :=
  if marks qs S1 j then Some true else if marks qs S2 j then Some false else None.

(** The state after the turns of the counters below [k]: [role j] tells
    whether [j] is the first cell of its pair ([Some true]), the second
    ([Some false]) or outside every pair ([None]); [ky j] is the counter of
    its pair. *)
Definition turned (cmplx : list Complex16) (o1 o2 : Z) (ky : Z -> Z) (role : Z -> option bool)
    (k : Z) (sv st : list Complex16) : Prop :=
  length st = length sv /\
  forall j, 0 <= j < Z.of_nat (length sv) ->
    load C0 st j =
      match role j with
      | Some true =>
          if ky j <? k then gate0 cmplx (load C0 sv j) (load C0 sv (j - o1 + o2))
          else load C0 sv j
      | Some false =>
          if ky j <? k then gate1 cmplx (load C0 sv (j - o2 + o1)) (load C0 sv j)
          else load C0 sv j
      | None => load C0 sv j
      end.

End Multi.

(** ** Gates on one qubit *)
Module Gates.

Import Machine Cplx Buf Host.
Local Open Scope R_scope.

(** The register [Apply2x2] leaves once the kernel has written [st]:
    [runningNorm] is recomputed when [doCalcNorm] is set and is 1
    otherwise. *)
Definition finish (doCalcNorm : bool) (c : CoherentUnit.t) (st : list Complex16)
    : CoherentUnit.t :=
  if doCalcNorm then CoherentUnit.UpdateRunningNorm (CoherentUnit.with_state c st)
  else CoherentUnit.Build 1 (CoherentUnit.qubitCount c) (CoherentUnit.maxQPower c) st
         (CoherentUnit.rand_generator c).

(** A matrix that keeps the total squared magnitude of every pair of
    amplitudes. *)
Definition isometry (mtrx : Mtrx) : Prop :=
  forall a b : Complex16,
    norm (add (mul (m0 mtrx) a) (mul (m1 mtrx) b))
    + norm (add (mul (m2 mtrx) a) (mul (m3 mtrx) b)) = norm a + norm b.

(** [C] is the matrix product of [B] with [A]: applying [A] and then [B] to
    a pair of amplitudes is applying [C]. *)
Definition product (B A C : Mtrx) : Prop :=
  forall x y : Complex16,
    add (mul (m0 B) (add (mul (m0 A) x) (mul (m1 A) y)))
        (mul (m1 B) (add (mul (m2 A) x) (mul (m3 A) y)))
    = add (mul (m0 C) x) (mul (m1 C) y) /\
    add (mul (m2 B) (add (mul (m0 A) x) (mul (m1 A) y)))
        (mul (m3 B) (add (mul (m2 A) x) (mul (m3 A) y)))
    = add (mul (m2 C) x) (mul (m3 C) y).

End Gates.

(** ** Bit fields of an index *)
Module Fields.

(** The integer held by the [length] bits of [i] from bit [start] on. *)
Definition field (start length i : Z) : Z := (i / 2 ^ start) mod 2 ^ length.

(** [j] has the bits of [i] outside [[start, start + length)]. *)
Definition same_outside (start length i j : Z) : Prop :=
  forall k, 0 <= k -> ~ (start <= k < start + length) -> Z.testbit j k = Z.testbit i k.

(** [j] is [i] with the bits of [[start, start + length)] rotated left by
    [shift] places: bit [p] of the field moves to bit [(p + shift) mod
    length] of the field. *)
Definition rotated (shift start length i j : Z) : Prop :=
  same_outside start length i j /\
  forall p, 0 <= p < length ->
    Z.testbit j (start + (p + shift) mod length) = Z.testbit i (start + p).

End Fields.

(** ** Basis states *)
Module States.

Import Machine Cplx Buf.


End States.

(** ** Concrete registers *)
Module Examples.

Import Machine Cplx Buf Host Shape.
Local Open Scope R_scope.

(** A source whose draws are all [0]. *)
Definition zeros : Rng.t := Rng.mk (fun _ => 0) 0.

(** A source whose first draw is [4/5] and whose other draws are [0]. *)
Definition high_then_zeros : Rng.t := Rng.mk (fun k => match k with O => 4 / 5 | _ => 0 end) 0.

(** One qubit with amplitudes [3/5] and [4/5], normalized. *)
Definition unit_3_4 : CoherentUnit.t :=
  CoherentUnit.Build 1 1 2 [cplx (3 / 5) 0; cplx (4 / 5) 0] zeros.

(** One qubit in [|1>] with its amplitude scaled by [4/5]; [runningNorm]
    holds that norm. *)
Definition reg_scaled_one : Register.t :=
  Register.Build (4 / 5) 1 2 [cplx 0 0; cplx (4 / 5) 0] high_then_zeros.

(** A source whose third draw is [4/5] and whose other draws are [0]. *)
Definition zeros_then_high : Rng.t :=
  Rng.mk (fun k => match k with 2%nat => 4 / 5 | _ => 0 end) 0.

(** One qubit with amplitudes [3/5] and [4/5], normalized. *)
Definition reg_3_4 : Register.t :=
  Register.Build 1 1 2 [cplx (3 / 5) 0; cplx (4 / 5) 0] zeros_then_high.

(** One qubit in [|0>]. *)
Definition reg_zero : Register.t := Register.Build 1 1 2 [cplx 1 0; cplx 0 0] zeros.

(** Two qubits in [|3>]. *)
Definition reg_three : Register.t :=
  Register.Build 1 2 4 [cplx 0 0; cplx 0 0; cplx 0 0; cplx 1 0] zeros.

(** Two qubits in [|1>] and in [|2>]. *)
Definition unit_one : CoherentUnit.t := CoherentUnit.Build 1 2 4 [C0; C1; C0; C0] zeros.
Definition unit_two : CoherentUnit.t := CoherentUnit.Build 1 2 4 [C0; C0; C1; C0] zeros.

(** Eight qubits in [|0x29>]: the BCD digit 9 in qubits 0..3 and the BCD
    digit 2 in qubits 4..7. *)
Definition unit_bcd_9_2 : CoherentUnit.t :=
  CoherentUnit.Build 1 8 256 (put 41 C1 (zeroed 256)) zeros.

(** One qubit in [|0>] with amplitude [2] and [runningNorm = 2]. *)
Definition unit_doubled : CoherentUnit.t :=
  CoherentUnit.Build 2 1 2 [cplx 2 0; cplx 0 0] zeros.

(** One qubit in [|0>]. *)
Definition unit_zero : CoherentUnit.t := CoherentUnit.Build 1 1 2 [C1; C0] zeros.

(** Three qubits in [|5>]. *)
Definition unit_five : CoherentUnit.t :=
  CoherentUnit.Build 1 3 8 [C0; C0; C0; C0; C0; C1; C0; C0] zeros.

End Examples.

(** * Facts about the embedding *)

Module ArrayFacts.

Import Machine Buf.

Lemma set_nth_length {A : Type} (n : nat) (v : A) (buf : list A) :
  length (set_nth n v buf) = length buf.
Proof.
  revert n; induction buf as [|h t IH]; intros [|n]; simpl; auto.
Qed.

Lemma put_length {A : Type} (i : Z) (v : A) (buf : list A) :
  length (put i v buf) = length buf.
Proof. apply set_nth_length. Qed.

Lemma nth_set_nth_eq {A : Type} (d : A) (n : nat) (v : A) (buf : list A) :
  (n < length buf)%nat -> nth n (set_nth n v buf) d = v.
Proof.
  revert n; induction buf as [|h t IH]; intros [|n] H; simpl in *; try lia; auto.
  apply IH; lia.
Qed.

Lemma nth_set_nth_neq {A : Type} (d : A) (n m : nat) (v : A) (buf : list A) :
  n <> m -> nth m (set_nth n v buf) d = nth m buf d.
Proof.
  revert n m; induction buf as [|h t IH]; intros [|n] [|m] H; simpl; auto; try lia.
Qed.

Lemma load_put_eq {A : Type} (d : A) (i : Z) (v : A) (buf : list A) :
  0 <= i < Z.of_nat (length buf) -> load d (put i v buf) i = v.
Proof.
  intros H; unfold load, put; apply nth_set_nth_eq; lia.
Qed.

Lemma load_put_neq {A : Type} (d : A) (i j : Z) (v : A) (buf : list A) :
  0 <= i -> 0 <= j -> i <> j -> load d (put i v buf) j = load d buf j.
Proof.
  intros Hi Hj H; unfold load, put; apply nth_set_nth_neq; lia.
Qed.

Lemma store_some {A : Type} (i : Z) (v : A) (buf : list A) :
  0 <= i < Z.of_nat (length buf) -> store i v buf = Some (put i v buf).
Proof.
  intros H; unfold store.
  replace (0 <=? i) with true by (symmetry; apply Z.leb_le; lia).
  replace (i <? Z.of_nat (length buf)) with true by (symmetry; apply Z.ltb_lt; lia).
  reflexivity.
Qed.


Lemma range_snoc (n : Z) : 0 <= n -> range (n + 1) = range n ++ [n].
Proof.
  intros H; unfold range.
  replace (Z.to_nat (n + 1)) with (Z.to_nat n + 1)%nat by lia.
  rewrite seq_app, map_app; simpl.
  now rewrite Z2Nat.id.
Qed.

Lemma range_nonpos (n : Z) : n <= 0 -> range n = [].
Proof.
  intros H; unfold range. now replace (Z.to_nat n) with 0%nat by lia.
Qed.

Lemma in_range (n i : Z) : In i (range n) <-> 0 <= i < n.
Proof.
  unfold range; rewrite in_map_iff; split.
  - intros (k & <- & Hk); apply in_seq in Hk; lia.
  - intros H; exists (Z.to_nat i); split; [lia | apply in_seq; lia].
Qed.

Lemma range_from_0 (n : Z) : range_from 0 n = range n.
Proof.
  unfold range_from; rewrite Z.sub_0_r.
  rewrite <- (map_id (range n)) at 2; apply map_ext; intros; lia.
Qed.

(** Induction over the bound of a counting loop. *)
Lemma loop_ind (P : Z -> Prop) :
  P 0 -> (forall n, 0 <= n -> P n -> P (n + 1)) -> forall n, 0 <= n -> P n.
Proof.
  intros H0 HS n Hn; pattern n; apply natlike_ind; auto.
Qed.

(** A loop that rewrites each cell from its own contents. *)
Lemma pointwise_loop {A : Type} (d : A) (f : Z -> A -> A) (n : Z) (v : list A) :
  0 <= n <= Z.of_nat (length v) ->
  let w := fold_left (fun acc k => put k (f k (load d acc k)) acc) (range n) v in
  length w = length v /\
  (forall i, 0 <= i < n -> load d w i = f i (load d v i)) /\
  (forall i, n <= i -> load d w i = load d v i).
Proof.
  intros [Hn Hlen]; revert Hlen; pattern n; apply loop_ind; auto; clear n Hn.
  - intros _; simpl; repeat split; auto; intros; lia.
  - intros n Hn IH Hlen; rewrite range_snoc by auto; rewrite fold_left_app; simpl.
    destruct IH as (L & Hin & Hout); [lia|].
    repeat split.
    + now rewrite put_length.
    + intros i Hi; destruct (Z.eq_dec i n) as [->|Hne].
      * rewrite load_put_eq by lia. now rewrite Hout by lia.
      * rewrite load_put_neq by lia. apply Hin; lia.
    + intros i Hi; rewrite load_put_neq by lia. apply Hout; lia.
Qed.

Lemma load_ext {A : Type} (d : A) (v w : list A) :
  length v = length w ->
  (forall i, 0 <= i < Z.of_nat (length v) -> load d v i = load d w i) -> v = w.
Proof.
  intros L H; apply (nth_ext v w d d L).
  intros n Hn; specialize (H (Z.of_nat n)); unfold load in H.
  rewrite Nat2Z.id in H; apply H; lia.
Qed.

(** A scatter whose targets are distinct and inside the array fills the
    target of every index with its source. *)
Lemma scatter_injective {A : Type} (d : A) (dest : Z -> Z) (src dst : list A) (n : Z) :
  0 <= n ->
  (forall i, 0 <= i < n -> 0 <= dest i < Z.of_nat (length dst)) ->
  (forall i j, 0 <= i < n -> 0 <= j < n -> dest i = dest j -> i = j) ->
  exists out,
    fold_left (fun acc lcv =>
                 match acc with
                 | Some b => store (dest lcv) (load d src lcv) b
                 | None => None
                 end) (range n) (Some dst) = Some out /\
    length out = length dst /\
    forall i, 0 <= i < n -> load d out (dest i) = load d src i.
Proof.
  intros Hn; pattern n; apply loop_ind; auto; clear n Hn.
  - intros _ _; exists dst; simpl; repeat split; auto; intros; lia.
  - intros n Hn IH Hin Hinj.
    destruct IH as (out & E & L & Hout).
    { intros; apply Hin; lia. }
    { intros; apply Hinj; auto; lia. }
    rewrite range_snoc by auto; rewrite fold_left_app, E; simpl.
    assert (Hd : 0 <= dest n < Z.of_nat (length out)) by (rewrite L; apply Hin; lia).
    rewrite store_some by auto.
    exists (put (dest n) (load d src n) out); repeat split.
    + now rewrite put_length.
    + intros i Hi; destruct (Z.eq_dec i n) as [->|Hne].
      * now rewrite load_put_eq.
      * rewrite load_put_neq; [apply Hout; lia | lia | |].
        -- apply Hin; lia.
        -- intros C; apply Hne; symmetry; apply Hinj; auto; lia.
Qed.

End ArrayFacts.

Module ShapeFacts.

Import Shape.

Lemma zeroed_allocates : allocates zeroed.
Proof. intros n Hn; unfold zeroed; rewrite repeat_length; lia. Qed.

End ShapeFacts.

(** ** Masks and bits *)
Module BitFacts.

Import Machine Shape.


Lemma bitpow_pow2 (n : Z) : 0 <= n -> bitpow n = 2 ^ n.
Proof. intros H; unfold bitpow; now rewrite Z.shiftl_1_l. Qed.

Lemma pow2_le_64 (n : Z) : 0 <= n <= 63 -> 0 < 2 ^ n < 2 ^ 64.
Proof.
  intros H; split; [apply Z.pow_pos_nonneg; lia|].
  apply Z.pow_lt_mono_r; lia.
Qed.

Lemma wrap64_small (x : Z) : 0 <= x < 2 ^ 64 -> wrap64 x = x.
Proof. intros H; unfold wrap64; now apply Z.mod_small. Qed.

Lemma range_mask_eq (start length : Z) :
  0 <= start -> 0 <= length -> range_mask start length = 2 ^ (start + length) - 2 ^ start.
Proof.
  intros Hs Hl; unfold range_mask.
  rewrite Z.shiftl_mul_pow2, Z.ones_equiv by auto.
  rewrite Z.pow_add_r by auto; lia.
Qed.

Lemma range_mask_bounds (start length n : Z) :
  0 <= start -> 0 <= length -> start + length <= n ->
  0 <= range_mask start length <= 2 ^ n - 1.
Proof.
  intros Hs Hl Hn; rewrite range_mask_eq by auto.
  assert (2 ^ start <= 2 ^ (start + length)) by (apply Z.pow_le_mono_r; lia).
  assert (2 ^ (start + length) <= 2 ^ n) by (apply Z.pow_le_mono_r; lia).
  assert (0 < 2 ^ start) by (apply Z.pow_pos_nonneg; lia).
  lia.
Qed.

Lemma testbit_range_mask (start length k : Z) :
  0 <= start -> 0 <= length -> 0 <= k ->
  Z.testbit (range_mask start length) k = (start <=? k) && (k <? start + length).
Proof.
  intros Hs Hl Hk; unfold range_mask.
  rewrite Z.shiftl_spec by auto.
  rewrite Z.testbit_ones by auto.
  destruct (Z.leb_spec start k), (Z.leb_spec 0 (k - start)),
    (Z.ltb_spec (k - start) length), (Z.ltb_spec k (start + length)); simpl; auto; lia.
Qed.

(** The host loop [mask += 1 << (start + i)] builds [range_mask]. *)
Lemma mask_loop_range_mask (start length : Z) :
  0 <= start -> 0 <= length -> start + length <= 63 ->
  mask_loop start length = range_mask start length.
Proof.
  intros Hs Hl; pattern length; apply ArrayFacts.loop_ind; auto; clear length Hl.
  - intros _; unfold mask_loop, range_mask; simpl. now rewrite Z.shiftl_0_l.
  - intros n Hn IH Hb; unfold mask_loop in *.
    rewrite ArrayFacts.range_snoc, fold_left_app by auto; simpl.
    rewrite IH by lia.
    rewrite bitpow_pow2 by lia.
    rewrite !range_mask_eq by lia.
    unfold add64; rewrite wrap64_small.
    + rewrite Z.add_assoc, (Z.pow_add_r 2 (start + n) 1) by lia; lia.
    + assert (0 < 2 ^ start) by (apply Z.pow_pos_nonneg; lia).
      assert (2 ^ start <= 2 ^ (start + n)) by (apply Z.pow_le_mono_r; lia).
      assert (2 ^ (start + n) < 2 ^ 63) by (apply Z.pow_lt_mono_r; lia).
      change (2 ^ 64) with (2 * 2 ^ 63); lia.
Qed.

Lemma testbit_above (a n k : Z) : 0 <= a < 2 ^ n -> n <= k -> Z.testbit a k = false.
Proof.
  intros [H0 H1] Hk.
  destruct (Z.eq_dec a 0) as [->|Hne]; [apply Z.bits_0|].
  apply Z.bits_above_log2; auto.
  assert (Z.log2 a < n); [|lia].
  apply Z.log2_lt_pow2; lia.
Qed.

Lemma below_pow2_of_bits (a n : Z) :
  0 <= n -> 0 <= a -> (forall k, n <= k -> Z.testbit a k = false) -> a < 2 ^ n.
Proof.
  intros Hn Ha H.
  destruct (Z.eq_dec a 0) as [->|Hne]; [apply Z.pow_pos_nonneg; lia|].
  apply Z.log2_lt_pow2; [lia|].
  destruct (Z.lt_ge_cases (Z.log2 a) n) as [|Hge]; auto.
  specialize (H (Z.log2 a) Hge).
  rewrite Z.bit_log2 in H by lia; discriminate.
Qed.

(** The index [X(start, length)] writes for [lcv] is [lcv] exclusive-or the
    mask of the range. *)
Lemma X_dest_lxor (start length qc lcv : Z) :
  0 <= start -> 0 <= length -> start + length <= qc -> qc <= 63 ->
  0 <= lcv < 2 ^ qc ->
  let inOutMask := range_mask start length in
  let otherMask := sub64 (sub64 (bitpow qc) 1) inOutMask in
  Z.lor (Z.land (not64 lcv) inOutMask) (Z.land lcv otherMask) = Z.lxor lcv inOutMask.
Proof.
  intros Hs Hl Hq Hq' Hlcv inOutMask otherMask.
  assert (Hm := range_mask_bounds start length qc Hs Hl Hq).
  assert (Hp := pow2_le_64 qc ltac:(lia)).
  assert (Eo : otherMask = Z.ldiff (Z.ones qc) inOutMask).
  { unfold otherMask, sub64. rewrite bitpow_pow2 by lia.
    rewrite (wrap64_small (2 ^ qc - 1)) by lia.
    rewrite wrap64_small by (fold inOutMask in Hm; lia).
    rewrite Z.ones_equiv. unfold Z.pred. replace (2 ^ qc + -1) with (2 ^ qc - 1) by lia.
    replace (2 ^ qc - 1) with (Z.ones qc) by (rewrite Z.ones_equiv; lia).
    apply Z.sub_nocarry_ldiff.
    apply Z.bits_inj'; intros k Hk.
    rewrite Z.ldiff_spec, Z.bits_0. unfold inOutMask.
    rewrite testbit_range_mask, Z.testbit_ones_nonneg by lia.
    destruct (Z.leb_spec start k), (Z.ltb_spec k (start + length)), (Z.ltb_spec k qc);
      simpl; auto; lia. }
  rewrite Eo. apply Z.bits_inj'; intros k Hk.
  rewrite Z.lor_spec, !Z.land_spec, Z.lxor_spec, Z.ldiff_spec.
  unfold not64; rewrite Z.lxor_spec.
  rewrite !Z.testbit_ones_nonneg by lia.
  unfold inOutMask; rewrite testbit_range_mask by lia.
  destruct (Z.ltb_spec k qc) as [Hlt|Hge].
  - replace (k <? 64) with true by (symmetry; apply Z.ltb_lt; lia).
    destruct (Z.testbit lcv k), ((start <=? k) && (k <? start + length)); reflexivity.
  - rewrite (testbit_above lcv qc k) by lia.
    destruct (Z.leb_spec start k), (Z.ltb_spec k (start + length)), (k <? 64);
      simpl; auto; lia.
Qed.

Lemma lxor_range_mask_bounds (start length qc i : Z) :
  0 <= start -> 0 <= length -> start + length <= qc ->
  0 <= i < 2 ^ qc -> 0 <= Z.lxor i (range_mask start length) < 2 ^ qc.
Proof.
  intros Hs Hl Hq Hi.
  assert (Hm := range_mask_bounds start length qc Hs Hl Hq).
  assert (H0 : 0 <= Z.lxor i (range_mask start length)) by (apply Z.lxor_nonneg; lia).
  split; auto.
  apply below_pow2_of_bits; auto; [lia|].
  intros k Hk; rewrite Z.lxor_spec.
  rewrite (testbit_above i qc k), (testbit_above (range_mask start length) qc k); auto; lia.
Qed.

Lemma lxor_involutive (i m : Z) : Z.lxor (Z.lxor i m) m = i.
Proof. now rewrite Z.lxor_assoc, Z.lxor_nilpotent, Z.lxor_0_r. Qed.

Lemma complemented_lxor (start length i j : Z) :
  0 <= start -> 0 <= length ->
  complemented start length i j <-> j = Z.lxor i (range_mask start length).
Proof.
  intros Hs Hl; split.
  - intros H; apply Z.bits_inj'; intros k Hk.
    rewrite (H k Hk), Z.lxor_spec, testbit_range_mask by auto.
    destruct ((start <=? k) && (k <? start + length)), (Z.testbit i k); reflexivity.
  - intros -> k Hk.
    rewrite Z.lxor_spec, testbit_range_mask by auto.
    destruct ((start <=? k) && (k <? start + length)), (Z.testbit i k); reflexivity.
Qed.

End BitFacts.

(** ** The range-broadcast X gate *)

Module XRange.

Import Machine Cplx Buf Host Shape ArrayFacts BitFacts.
Import CoherentUnit.

Lemma X_range_state (fresh : Z -> list Complex16) (start length : Z) (c : t) :
  allocates fresh -> well_formed c ->
  0 <= start -> 0 <= length -> start + length <= qubitCount c ->
  exists sv,
    X_range fresh start length c = Ok (with_state c sv) /\
    List.length sv = List.length (stateVec c) /\
    forall i, 0 <= i < maxQPower c ->
      load C0 sv (Z.lxor i (range_mask start length)) = load C0 (stateVec c) i.
Proof.
  intros Hf (Hq & Hm & Hlen) Hs Hl Hr.
  assert (Hpos : 0 < 2 ^ qubitCount c) by (apply Z.pow_pos_nonneg; lia).
  unfold X_range, par_for_copy.
  rewrite mask_loop_range_mask, range_from_0 by lia.
  cbn [nth].
  destruct (scatter_injective C0
              (fun lcv => Z.lor (Z.land (not64 lcv) (range_mask start length))
                            (Z.land lcv (sub64 (sub64 (bitpow (qubitCount c)) 1)
                                           (range_mask start length))))
              (stateVec c) (fresh (maxQPower c)) (maxQPower c))
    as (out & E & L & Hout).
  - lia.
  - intros i Hi. rewrite X_dest_lxor by lia.
    rewrite Hf by lia. rewrite Hm. apply lxor_range_mask_bounds; lia.
  - intros i j Hi Hj. rewrite !X_dest_lxor by lia.
    intros E. rewrite <- (lxor_involutive i (range_mask start length)), E.
    apply lxor_involutive.
  - exists out. rewrite E; simpl. repeat split.
    + rewrite L. apply Nat2Z.inj. rewrite Hf by lia. lia.
    + intros i Hi. rewrite <- (Hout i Hi). f_equal.
      symmetry; apply X_dest_lxor; lia.
Qed.

End XRange.

(** ** Decisions on reals *)

Module RealFacts.

Import Cplx.
Local Open Scope R_scope.

Lemma Reqb_true (x y : R) : x = y -> Reqb x y = true.
Proof. intros H; unfold Reqb; destruct (Req_dec_T x y); auto; contradiction. Qed.

Lemma Reqb_false (x y : R) : x <> y -> Reqb x y = false.
Proof. intros H; unfold Reqb; destruct (Req_dec_T x y); auto; contradiction. Qed.

Lemma Rltb_true (x y : R) : x < y -> Rltb x y = true.
Proof. intros H; unfold Rltb; destruct (Rlt_dec x y); auto; contradiction. Qed.

Lemma Rltb_false (x y : R) : ~ x < y -> Rltb x y = false.
Proof. intros H; unfold Rltb; destruct (Rlt_dec x y); auto; contradiction. Qed.

Lemma Rleb_true (x y : R) : x <= y -> Rleb x y = true.
Proof. intros H; unfold Rleb; destruct (Rle_dec x y); auto; contradiction. Qed.

Lemma Rleb_false (x y : R) : ~ x <= y -> Rleb x y = false.
Proof. intros H; unfold Rleb; destruct (Rle_dec x y); auto; contradiction. Qed.

Lemma angle_0 : 0 * 2 * PI = 0.
Proof. lra. Qed.

End RealFacts.

(** Settle the comparisons of doubles that occur in the goal. *)
Ltac decide_reals :=
  repeat match goal with
  | |- context [Cplx.Reqb ?a ?b] =>
      first [rewrite (RealFacts.Reqb_true a b) by lra
            | rewrite (RealFacts.Reqb_false a b) by lra]
  | |- context [Cplx.Rltb ?a ?b] =>
      first [rewrite (RealFacts.Rltb_true a b) by lra
            | rewrite (RealFacts.Rltb_false a b) by lra]
  | |- context [Cplx.Rleb ?a ?b] =>
      first [rewrite (RealFacts.Rleb_true a b) by lra
            | rewrite (RealFacts.Rleb_false a b) by lra]
  end.

(** Run the integer and list part of the model, leaving the reals alone. *)
Ltac run_step :=
  cbv - [Rplus Rmult Rminus Rdiv Ropp Rinv IZR cos sin sqrt PI
         Cplx.Reqb Cplx.Rltb Cplx.Rleb Rlt Rle Rgt Rge].

Ltac run_model := repeat (run_step; progress decide_reals); run_step.

(** Zero phase: the angle drawn is [0]. *)
Ltac zero_phase := rewrite ?RealFacts.angle_0, ?cos_0, ?sin_0.

(** ** Normalization and Cohere *)

Module CohereFacts.

Import Machine Cplx Buf Host Shape ArrayFacts BitFacts.
Import CoherentUnit.



Lemma update_each_length (n : Z) (f : Z -> Complex16 -> Complex16) (v : list Complex16) :
  length (update_each n f v) = length v.
Proof.
  unfold update_each. generalize (range n); intros l; revert v.
  induction l as [|x l IH]; intros v; simpl; auto.
  now rewrite IH, put_length.
Qed.

Lemma normalize_if_needed_shape (c : t) :
  qubitCount (normalize_if_needed c) = qubitCount c /\
  maxQPower (normalize_if_needed c) = maxQPower c /\
  rand_generator (normalize_if_needed c) = rand_generator c /\
  length (stateVec (normalize_if_needed c)) = length (stateVec c).
Proof.
  unfold normalize_if_needed; destruct (Reqb (runningNorm c) 1); simpl; auto.
  repeat split; apply update_each_length.
Qed.

Lemma normalize_if_needed_well_formed (c : t) :
  well_formed c -> well_formed (normalize_if_needed c).
Proof.
  intros (Hq & Hm & Hl).
  destruct (normalize_if_needed_shape c) as (E1 & E2 & _ & E4).
  unfold well_formed; rewrite E1, E2, E4; auto.
Qed.

(** What [NormalizeState] leaves in each cell. *)
Lemma NormalizeState_load (c : t) (i : Z) :
  well_formed c -> 0 <= i < maxQPower c ->
  load C0 (stateVec (NormalizeState c)) i = divr (load C0 (stateVec c) i) (runningNorm c).
Proof.
  intros (Hq & Hm & Hl) Hi; simpl; unfold update_each.
  assert (Hp : 0 < 2 ^ qubitCount c) by (apply Z.pow_pos_nonneg; lia).
  destruct (pointwise_loop C0 (fun _ z => divr z (runningNorm c)) (maxQPower c) (stateVec c))
    as (_ & H & _); [lia|].
  now apply H.
Qed.

End CohereFacts.

(** ** Copies and fills *)

Module CopyFacts.

Import Machine Cplx Buf Host Shape ArrayFacts.

Lemma copy_n_all (n : Z) (src dst : list Complex16) :
  Z.of_nat (length src) = n -> Z.of_nat (length dst) = n -> copy_n n src dst = src.
Proof.
  intros Hs Hd. unfold copy_n.
  destruct (pointwise_loop C0 (fun k _ => load C0 src k) n dst) as (L & Hin & _); [lia|].
  cbv beta in L, Hin.
  apply (load_ext C0); [lia|].
  intros i Hi. apply Hin. lia.
Qed.

Lemma fill_n_all (n : Z) (z : Complex16) (v : list Complex16) :
  Z.of_nat (length v) = n ->
  length (fill_n n z v) = length v /\
  forall i, 0 <= i < n -> load C0 (fill_n n z v) i = z.
Proof.
  intros Hv. unfold fill_n.
  destruct (pointwise_loop C0 (fun _ _ => z) n v) as (L & Hin & _); [lia|].
  cbv beta in L, Hin. split; auto.
Qed.

End CopyFacts.

(** ** The pairs of a target qubit *)

Module PairFacts.

Import Pairs.

Lemma kernel_index_ins (m l : Z) : 0 < m -> l mod m + 2 * (l - l mod m) = ins m l.
Proof.
  intros Hm; unfold ins.
  pose proof (Z.div_mod l m ltac:(lia)). nia.
Qed.

Lemma decompose (m j : Z) :
  0 < m -> j = (j / (2 * m)) * (2 * m) + bitval m j * m + j mod m.
Proof.
  intros Hm; unfold bitval.
  pose proof (Z.div_mod j (2 * m) ltac:(lia)) as H1.
  replace (2 * m) with (m * 2) in H1 at 3 by lia.
  rewrite Z.rem_mul_r in H1 by lia. lia.
Qed.

Lemma bitval_range (m j : Z) : 0 <= bitval m j < 2.
Proof. unfold bitval; apply Z.mod_pos_bound; lia. Qed.

Lemma div_2m (m a b : Z) : 0 < m -> 0 <= b < 2 * m -> (a * (2 * m) + b) / (2 * m) = a.
Proof. intros Hm Hb; symmetry; apply (Z.div_unique _ _ a b); lia. Qed.

Lemma mod_m_of_2m (m a b : Z) : 0 < m -> 0 <= b < m -> (a * (2 * m) + b) mod m = b.
Proof. intros Hm Hb; symmetry; apply (Z.mod_unique _ _ (2 * a) b); lia. Qed.

Lemma mod_m_of_2m_set (m a b : Z) : 0 < m -> 0 <= b < m -> (a * (2 * m) + b + m) mod m = b.
Proof. intros Hm Hb; symmetry; apply (Z.mod_unique _ _ (2 * a + 1) b); lia. Qed.

Lemma div_m_of_2m (m a b : Z) : 0 < m -> 0 <= b < m -> (a * (2 * m) + b) / m = 2 * a.
Proof. intros Hm Hb; symmetry; apply (Z.div_unique _ _ (2 * a) b); lia. Qed.

Lemma div_m_of_2m_set (m a b : Z) :
  0 < m -> 0 <= b < m -> (a * (2 * m) + b + m) / m = 2 * a + 1.
Proof. intros Hm Hb; symmetry; apply (Z.div_unique _ _ (2 * a + 1) b); lia. Qed.

Lemma rem_ins (m l : Z) : 0 < m -> rem m (ins m l) = l.
Proof.
  intros Hm; unfold rem, ins.
  pose proof (Z.mod_pos_bound l m Hm) as Hb.
  rewrite div_2m, mod_m_of_2m by lia.
  pose proof (Z.div_mod l m ltac:(lia)). lia.
Qed.

Lemma rem_ins_set (m l : Z) : 0 < m -> rem m (ins m l + m) = l.
Proof.
  intros Hm; unfold rem, ins.
  pose proof (Z.mod_pos_bound l m Hm) as Hb.
  rewrite mod_m_of_2m_set by lia.
  rewrite <- Z.add_assoc, div_2m by lia.
  pose proof (Z.div_mod l m ltac:(lia)). lia.
Qed.

Lemma bitval_ins (m l : Z) : 0 < m -> bitval m (ins m l) = 0.
Proof.
  intros Hm; unfold bitval, ins.
  pose proof (Z.mod_pos_bound l m Hm) as Hb.
  rewrite div_m_of_2m by lia.
  rewrite Z.mul_comm. apply Z.mod_mul; lia.
Qed.

Lemma bitval_ins_set (m l : Z) : 0 < m -> bitval m (ins m l + m) = 1.
Proof.
  intros Hm; unfold bitval, ins.
  pose proof (Z.mod_pos_bound l m Hm) as Hb.
  rewrite div_m_of_2m_set by lia.
  symmetry; apply (Z.mod_unique _ _ (l / m) 1); lia.
Qed.

Lemma div_m_small (m a b : Z) : 0 < m -> 0 <= b < m -> (a * m + b) / m = a.
Proof. intros Hm Hb; symmetry; apply (Z.div_unique _ _ a b); lia. Qed.

Lemma mod_m_small (m a b : Z) : 0 < m -> 0 <= b < m -> (a * m + b) mod m = b.
Proof. intros Hm Hb; symmetry; apply (Z.mod_unique _ _ a b); lia. Qed.

Lemma ins_rem (m j : Z) : 0 < m -> ins m (rem m j) = j - bitval m j * m.
Proof.
  intros Hm; unfold ins, rem.
  pose proof (Z.mod_pos_bound j m Hm) as Hb.
  rewrite div_m_small, mod_m_small by lia.
  pose proof (decompose m j Hm). lia.
Qed.

Lemma ins_ge (m l : Z) : 0 < m -> 0 <= l -> l <= ins m l.
Proof.
  intros Hm Hl; unfold ins.
  pose proof (Z.div_mod l m ltac:(lia)).
  assert (0 <= l / m) by (apply Z.div_pos; lia). nia.
Qed.

Lemma ins_le_double (m l : Z) : 0 < m -> 0 <= l -> ins m l <= 2 * l.
Proof.
  intros Hm Hl; unfold ins.
  pose proof (Z.div_mod l m ltac:(lia)).
  pose proof (Z.mod_pos_bound l m Hm).
  assert (0 <= l / m) by (apply Z.div_pos; lia). nia.
Qed.

(** With [N = 2 * m * K] amplitudes, the counters whose index is below [N]
    are those below [m * K]. *)
Lemma ins_lt (m K l : Z) :
  0 < m -> 0 <= l -> ins m l < 2 * m * K <-> l < m * K.
Proof.
  intros Hm Hl; unfold ins.
  pose proof (Z.div_mod l m ltac:(lia)).
  pose proof (Z.mod_pos_bound l m Hm).
  assert (0 <= l / m) by (apply Z.div_pos; lia).
  destruct (Z.lt_ge_cases (l / m) K); split; intros; nia.
Qed.

Lemma ins_set_lt (m K l : Z) :
  0 < m -> 0 <= l -> l < m * K -> 0 <= ins m l /\ ins m l + m < 2 * m * K.
Proof.
  intros Hm Hl H; unfold ins.
  pose proof (Z.div_mod l m ltac:(lia)).
  pose proof (Z.mod_pos_bound l m Hm).
  assert (0 <= l / m) by (apply Z.div_pos; lia).
  assert (l / m < K) by (destruct (Z.lt_ge_cases (l / m) K); auto; nia).
  split; nia.
Qed.

Lemma rem_lt (m K j : Z) :
  0 < m -> 0 <= j < 2 * m * K -> 0 <= rem m j < m * K.
Proof.
  intros Hm Hj; unfold rem.
  pose proof (Z.mod_pos_bound j m Hm).
  assert (0 <= j / (2 * m)) by (apply Z.div_pos; lia).
  assert (j / (2 * m) < K) by (apply Z.div_lt_upper_bound; nia).
  split; nia.
Qed.

Lemma rem_nonneg (m j : Z) : 0 < m -> 0 <= j -> 0 <= rem m j.
Proof.
  intros Hm Hj; unfold rem.
  pose proof (Z.mod_pos_bound j m Hm).
  assert (0 <= j / (2 * m)) by (apply Z.div_pos; lia). nia.
Qed.

Lemma partner_cases (m j : Z) :
  0 < m -> 0 <= j ->
  (bitval m j = 1 /\ partner m j = j - m /\ j - m = ins m (rem m j)) \/
  (bitval m j = 0 /\ partner m j = j + m /\ j = ins m (rem m j)).
Proof.
  intros Hm Hj. pose proof (ins_rem m j Hm) as E. pose proof (bitval_range m j) as B.
  unfold partner.
  assert (bitval m j = 0 \/ bitval m j = 1) as [H|H] by lia; rewrite H in *; simpl.
  - right; repeat split; lia.
  - left; repeat split; lia.
Qed.

Lemma partner_bitval (m j : Z) : 0 < m -> 0 <= j -> bitval m (partner m j) = 1 - bitval m j.
Proof.
  intros Hm Hj.
  destruct (partner_cases m j Hm Hj) as [(B & P & E)|(B & P & E)]; rewrite P, B.
  - rewrite E. now rewrite bitval_ins.
  - rewrite E at 1. now rewrite bitval_ins_set.
Qed.

Lemma partner_range (m K j : Z) :
  0 < m -> 0 <= j < 2 * m * K -> 0 <= partner m j < 2 * m * K.
Proof.
  intros Hm Hj.
  pose proof (rem_lt m K j Hm Hj) as Hr.
  destruct (partner_cases m j Hm ltac:(lia)) as [(B & P & E)|(B & P & E)]; rewrite P.
  - pose proof (ins_ge m (rem m j) Hm ltac:(lia)). lia.
  - pose proof (ins_set_lt m K (rem m j) Hm ltac:(lia) ltac:(lia)). lia.
Qed.

Lemma partner_involutive (m j : Z) : 0 < m -> 0 <= j -> partner m (partner m j) = j.
Proof.
  intros Hm Hj.
  pose proof (partner_bitval m j Hm Hj) as Hb.
  destruct (partner_cases m j Hm Hj) as [(B & P & E)|(B & P & E)].
  - unfold partner at 1. rewrite Hb, B. simpl. rewrite P. lia.
  - unfold partner at 1. rewrite Hb, B. simpl. rewrite P. lia.
Qed.

(** [j & 2^q] is [2^q] or [0] according to bit [q] of [j]. *)
Lemma land_pow2 (j q : Z) : 0 <= q -> Z.land j (2 ^ q) = bitval (2 ^ q) j * 2 ^ q.
Proof.
  intros Hq. unfold bitval.
  destruct (Z.testbit j q) eqn:E.
  - rewrite (proj1 (Z.testbit_true j q Hq) E), Z.mul_1_l.
    apply Z.bits_inj'; intros k Hk.
    rewrite Z.land_spec, Z.pow2_bits_eqb by auto.
    destruct (Z.eqb_spec q k) as [<-|]; [now rewrite E | apply andb_false_r].
  - rewrite (proj1 (Z.testbit_false j q Hq) E), Z.mul_0_l.
    apply Z.bits_inj'; intros k Hk.
    rewrite Z.land_spec, Z.pow2_bits_eqb, Z.bits_0 by auto.
    destruct (Z.eqb_spec q k) as [<-|]; [now rewrite E | apply andb_false_r].
Qed.

End PairFacts.

(** ** Sums of squared magnitudes *)

Module SumFacts.

Import Machine ArrayFacts Sums.
Local Open Scope R_scope.

Lemma fold_left_Rsum {A : Type} (g : A -> R) (l : list A) (a : R) :
  fold_left (fun acc i => acc + g i) l a = a + Rsum (map g l).
Proof.
  revert a; induction l as [|x l IH]; intros a; simpl; [lra|].
  rewrite IH; lra.
Qed.

Lemma fold_left_Rsum_if {A : Type} (p : A -> bool) (g : A -> R) (l : list A) (a : R) :
  fold_left (fun acc i => if p i then acc + g i else acc) l a
  = a + Rsum (map (fun i => if p i then g i else 0) l).
Proof.
  revert a; induction l as [|x l IH]; intros a; simpl; [lra|].
  rewrite IH; destruct (p x); lra.
Qed.

Lemma Rsum_ext {A : Type} (f g : A -> R) (l : list A) :
  (forall x, In x l -> f x = g x) -> Rsum (map f l) = Rsum (map g l).
Proof.
  induction l as [|x l IH]; intros H; simpl; auto.
  rewrite (H x), IH; auto; [intros; apply H|]; simpl; auto.
Qed.

Lemma Rsum_scale {A : Type} (k : R) (f : A -> R) (l : list A) :
  Rsum (map (fun x => k * f x) l) = k * Rsum (map f l).
Proof.
  induction l as [|x l IH]; simpl; [lra|]. rewrite IH; lra.
Qed.

Lemma Rsum_plus {A : Type} (f g : A -> R) (l : list A) :
  Rsum (map (fun x => f x + g x) l) = Rsum (map f l) + Rsum (map g l).
Proof.
  induction l as [|x l IH]; simpl; [lra|]. rewrite IH; lra.
Qed.

Lemma Rsum_zero {A : Type} (f : A -> R) (l : list A) :
  (forall x, In x l -> f x = 0) -> Rsum (map f l) = 0.
Proof.
  induction l as [|x l IH]; intros H; simpl; auto.
  rewrite (H x), IH; [lra | intros; apply H |]; simpl; auto.
Qed.

Lemma Rsum_nonneg {A : Type} (f : A -> R) (l : list A) :
  (forall x, In x l -> 0 <= f x) -> 0 <= Rsum (map f l).
Proof.
  induction l as [|x l IH]; intros H; simpl; [lra|].
  assert (0 <= f x) by (apply H; simpl; auto).
  assert (0 <= Rsum (map f l)) by (apply IH; intros; apply H; simpl; auto).
  lra.
Qed.

Lemma Rsum_permutation (l l' : list R) : Permutation l l' -> Rsum l = Rsum l'.
Proof.
  induction 1; simpl; lra.
Qed.

(** Summing over the indices of [[0, n)] in another order. *)
Lemma Rsum_reindex (f : Z -> R) (sigma : Z -> Z) (n : Z) :
  (forall i j, (0 <= i < n)%Z -> (0 <= j < n)%Z -> sigma i = sigma j -> i = j) ->
  (forall i, (0 <= i < n)%Z -> (0 <= sigma i < n)%Z) ->
  Rsum (map (fun i => f (sigma i)) (range n)) = Rsum (map f (range n)).
Proof.
  intros Hinj Hin.
  rewrite <- (map_map sigma f).
  apply Rsum_permutation, Permutation_map.
  apply Permutation_map_same_l.
  - apply Finite.Injective_map_NoDup_in.
    + intros x y Hx Hy. apply Hinj; now apply in_range.
    + unfold range. apply Finite.Injective_map_NoDup; [|apply seq_NoDup].
      intros x y; apply Nat2Z.inj.
  - intros x Hx. apply in_map_iff in Hx. destruct Hx as (i & <- & Hi).
    apply in_range. apply Hin. now apply in_range.
Qed.

End SumFacts.

(** ** The kernel [apply2x2] on one target qubit *)

Module KernelFacts.

Import Machine Cplx Buf Host ArrayFacts BitFacts Pairs SingleBit PairFacts.

Lemma index_single (N m lcv : Z) :
  0 < m -> 0 <= lcv -> ins m lcv < 2 ^ 63 ->
  OCL.apply2x2_index (single_args N m) lcv = ins m lcv.
Proof.
  intros Hm Hl Hb.
  unfold OCL.apply2x2_index, single_args.
  change (OCL.arg [1; N; m; 0; m; 0; 0; 0; 0; 0] 0) with 1.
  change (range 1) with [0].
  cbn [fold_left].
  change (OCL.arg [1; N; m; 0; m; 0; 0; 0; 0; 0] (4 + Z.to_nat 0)) with m.
  pose proof (Z.mod_pos_bound lcv m Hm) as Hmod.
  pose proof (ins_ge m lcv Hm Hl) as Hge.
  pose proof (kernel_index_ins m lcv Hm) as Hk.
  assert (H63 : 2 ^ 64 = 2 * 2 ^ 63) by reflexivity.
  assert (Hle : lcv mod m <= lcv) by (apply Z.mod_le; lia).
  unfold add64, sub64, shl64.
  rewrite (wrap64_small (0 + lcv mod m)) by lia.
  rewrite (wrap64_small (lcv - lcv mod m)) by lia.
  change (1 mod 64) with 1. rewrite Z.shiftl_mul_pow2 by lia.
  change (2 ^ 1) with 2.
  rewrite (wrap64_small ((lcv - lcv mod m) * 2)) by lia.
  rewrite wrap64_small by lia. lia.
Qed.

Lemma body_single (cmplx : list Complex16) (N m i : Z) (sv : list Complex16) :
  0 < m -> 0 <= i -> i + m < Z.of_nat (length sv) -> i + m < 2 ^ 64 ->
  OCL.apply2x2_body cmplx (single_args N m) i sv
  = Some (put i (gate1 cmplx (load C0 sv (i + m)) (load C0 sv i))
            (put (i + m) (gate0 cmplx (load C0 sv (i + m)) (load C0 sv i)) sv)).
Proof.
  intros Hm Hi Hlen Hb.
  unfold OCL.apply2x2_body, single_args.
  change (OCL.arg [1; N; m; 0; m; 0; 0; 0; 0; 0] 2) with m.
  change (OCL.arg [1; N; m; 0; m; 0; 0; 0; 0; 0] 3) with 0.
  unfold add64. rewrite Z.add_0_r, !wrap64_small by lia.
  rewrite store_some by lia.
  rewrite store_some by (rewrite put_length; lia).
  reflexivity.
Qed.

Lemma turned_step (cmplx : list Complex16) (m K k : Z) (sv st : list Complex16) :
  0 < m -> Z.of_nat (length sv) = 2 * m * K -> 0 <= k < m * K ->
  turned cmplx m k sv st ->
  turned cmplx m (k + 1) sv
    (put (ins m k) (gate1 cmplx (load C0 st (ins m k + m)) (load C0 st (ins m k)))
       (put (ins m k + m) (gate0 cmplx (load C0 st (ins m k + m)) (load C0 st (ins m k))) st)).
Proof.
  intros Hm HN Hk (L & H).
  destruct (ins_set_lt m K k Hm ltac:(lia) ltac:(lia)) as (Hi0 & Hi1).
  assert (E0 : load C0 st (ins m k) = load C0 sv (ins m k)).
  { rewrite H by lia. rewrite rem_ins by auto.
    now replace (k <? k) with false by (symmetry; apply Z.ltb_ge; lia). }
  assert (E1 : load C0 st (ins m k + m) = load C0 sv (ins m k + m)).
  { rewrite H by lia. rewrite rem_ins_set by auto.
    now replace (k <? k) with false by (symmetry; apply Z.ltb_ge; lia). }
  rewrite E0, E1. split; [now rewrite !put_length|].
  intros j Hj.
  destruct (Z.eq_dec j (ins m k)) as [->|Hne0].
  - rewrite load_put_eq by (rewrite put_length; lia).
    rewrite rem_ins, bitval_ins by auto.
    replace (k <? k + 1) with true by (symmetry; apply Z.ltb_lt; lia).
    reflexivity.
  - rewrite load_put_neq by lia.
    destruct (Z.eq_dec j (ins m k + m)) as [->|Hne1].
    + rewrite load_put_eq by lia.
      rewrite rem_ins_set, bitval_ins_set by auto.
      replace (k <? k + 1) with true by (symmetry; apply Z.ltb_lt; lia).
      replace (ins m k + m - m) with (ins m k) by lia.
      reflexivity.
    + rewrite load_put_neq by lia.
      rewrite H by lia.
      assert (rem m j <> k).
      { intros <-. pose proof (ins_rem m j Hm). pose proof (bitval_range m j).
        assert (bitval m j = 0 \/ bitval m j = 1) as [E|E] by lia; rewrite E in *; lia. }
      destruct (Z.ltb_spec (rem m j) k), (Z.ltb_spec (rem m j) (k + 1)); auto; lia.
Qed.

Lemma loop_single (cmplx : list Complex16) (m K : Z) (sv : list Complex16) (fuel : nat)
    (k : Z) (st : list Complex16) :
  0 < m -> 0 < K -> Z.of_nat (length sv) = 2 * m * K -> 2 * m * K < 2 ^ 62 ->
  0 <= k <= m * K -> (Z.to_nat (m * K - k) < fuel)%nat ->
  turned cmplx m k sv st ->
  exists st',
    OCL.apply2x2_loop fuel cmplx (single_args (2 * m * K) m) k st = Some st' /\
    turned cmplx m (m * K) sv st'.
Proof.
  intros Hm HK HN Hb. revert k st.
  induction fuel as [|fuel IH]; intros k st Hk Hf Ht; [lia|].
  cbn [OCL.apply2x2_loop].
  change (OCL.arg (single_args (2 * m * K) m) 1) with (2 * m * K).
  assert (H63 : 2 ^ 63 = 2 * 2 ^ 62) by reflexivity.
  destruct (Z.eq_dec k (m * K)) as [->|Hne].
  - rewrite index_single; auto; try nia.
    + replace (ins m (m * K) <? 2 * m * K) with false; [eauto|].
      symmetry; apply Z.ltb_ge.
      destruct (Z.lt_ge_cases (ins m (m * K)) (2 * m * K)) as [C|]; auto.
      apply (proj1 (ins_lt m K (m * K) Hm ltac:(nia))) in C. lia.
    + pose proof (ins_le_double m (m * K) Hm ltac:(nia)). lia.
  - assert (Hk' : 0 <= k < m * K) by lia.
    destruct (ins_set_lt m K k Hm ltac:(lia) ltac:(lia)) as (Hi0 & Hi1).
    rewrite index_single by (auto; lia).
    replace (ins m k <? 2 * m * K) with true by (symmetry; apply Z.ltb_lt; lia).
    destruct Ht as (L & H).
    rewrite body_single by (auto; rewrite ?L; lia).
    apply IH; [lia | lia |].
    apply (turned_step cmplx m K k sv st); auto. split; auto.
Qed.

(** The kernel [apply2x2] for one target qubit of power [m] on a vector of
    [2 * m * K] amplitudes. *)
Lemma apply2x2_single (cmplx : list Complex16) (m K : Z) (sv : list Complex16) :
  0 < m -> 0 < K -> Z.of_nat (length sv) = 2 * m * K -> 2 * m * K < 2 ^ 62 ->
  exists st,
    OCL.apply2x2 sv cmplx (single_args (2 * m * K) m) = Some st /\
    length st = length sv /\
    forall j, 0 <= j < 2 * m * K ->
      load C0 st j =
        if bitval m j =? 1
        then gate0 cmplx (load C0 sv j) (load C0 sv (j - m))
        else gate1 cmplx (load C0 sv (j + m)) (load C0 sv j).
Proof.
  intros Hm HK HN Hb. unfold OCL.apply2x2.
  change (OCL.arg (single_args (2 * m * K) m) 1) with (2 * m * K).
  destruct (loop_single cmplx m K sv (S (Z.to_nat (2 * m * K))) 0 sv) as (st & E & L & H);
    auto; try nia.
  - split; auto. intros j Hj.
    replace (rem m j <? 0) with false; auto.
    symmetry; apply Z.ltb_ge. apply (rem_lt m K); lia.
  - exists st; repeat split; auto.
    intros j Hj. rewrite H by lia.
    replace (rem m j <? m * K) with true; auto.
    symmetry; apply Z.ltb_lt. apply (rem_lt m K); lia.
Qed.

End KernelFacts.

(** ** Probabilities *)

Module MeasureFacts.

Import Machine Cplx Buf Host Shape ArrayFacts BitFacts Pairs Sums PairFacts SumFacts.
Import CoherentUnit.
Local Open Scope R_scope.

Lemma norm_nonneg (z : Complex16) : 0 <= norm z.
Proof. unfold norm; nra. Qed.

Lemma norm_mul (a b : Complex16) : norm (mul a b) = norm a * norm b.
Proof. unfold norm, mul; simpl; ring. Qed.

Lemma norm_divr (z : Complex16) (d : R) : norm (divr z d) = / d * / d * norm z.
Proof. unfold norm, divr, Rdiv; simpl; ring. Qed.

Lemma norm_phase (theta : R) : norm (cplx (cos theta) (sin theta)) = 1.
Proof.
  unfold norm, cplx; simpl.
  pose proof (sin2_cos2 theta) as H. unfold Rsqr in H. lra.
Qed.

Lemma norm_zero : norm (cplx 0 0) = 0.
Proof. unfold norm, cplx; simpl; ring. Qed.

Lemma is_set_bitval (q i : Z) :
  (0 <= q)%Z -> is_set q i = (bitval (2 ^ q) i =? 1)%Z.
Proof.
  intros Hq; unfold is_set. rewrite bitpow_pow2, land_pow2 by auto.
  pose proof (bitval_range (2 ^ q) i).
  assert (0 < 2 ^ q)%Z by (apply Z.pow_pos_nonneg; lia).
  destruct (Z.eqb_spec (bitval (2 ^ q) i) 1) as [->|Hne].
  - apply Z.eqb_eq; lia.
  - apply Z.eqb_neq; nia.
Qed.

Lemma is_clear_bitval (q i : Z) :
  (0 <= q)%Z -> is_clear q i = (bitval (2 ^ q) i =? 0)%Z.
Proof.
  intros Hq; unfold is_clear. rewrite bitpow_pow2, land_pow2 by auto.
  pose proof (bitval_range (2 ^ q) i).
  assert (0 < 2 ^ q)%Z by (apply Z.pow_pos_nonneg; lia).
  destruct (Z.eqb_spec (bitval (2 ^ q) i) 0) as [->|Hne].
  - apply Z.eqb_eq; lia.
  - apply Z.eqb_neq; nia.
Qed.

Lemma is_clear_negb (q i : Z) : (0 <= q)%Z -> is_clear q i = negb (is_set q i).
Proof.
  intros Hq. rewrite is_set_bitval, is_clear_bitval by auto.
  pose proof (bitval_range (2 ^ q) i).
  destruct (Z.eqb_spec (bitval (2 ^ q) i) 0), (Z.eqb_spec (bitval (2 ^ q) i) 1);
    simpl; auto; lia.
Qed.

Lemma weight_ext (p p' : Z -> bool) (N : Z) (v v' : list Complex16) (k : R) :
  (forall i, (0 <= i < N)%Z ->
     (if p i then norm (load C0 v i) else 0) = k * (if p' i then norm (load C0 v' i) else 0)) ->
  weight p N v = k * weight p' N v'.
Proof.
  intros H; unfold weight. rewrite <- Rsum_scale.
  apply Rsum_ext. intros i Hi. apply H. now apply in_range.
Qed.

Lemma weight_zero (p : Z -> bool) (N : Z) (v : list Complex16) :
  (forall i, (0 <= i < N)%Z -> p i = true -> norm (load C0 v i) = 0) ->
  weight p N v = 0.
Proof.
  intros H; unfold weight. apply Rsum_zero. intros i Hi.
  destruct (p i) eqn:E; auto. apply H; auto. now apply in_range.
Qed.

Lemma weight_nonneg (p : Z -> bool) (N : Z) (v : list Complex16) : 0 <= weight p N v.
Proof.
  unfold weight. apply Rsum_nonneg. intros i _.
  destruct (p i); [apply norm_nonneg | lra].
Qed.

Lemma weight_split (q N : Z) (v : list Complex16) :
  (0 <= q)%Z -> weight (is_set q) N v + weight (is_clear q) N v = weight everywhere N v.
Proof.
  intros Hq; unfold weight. rewrite <- Rsum_plus.
  apply Rsum_ext. intros i _. rewrite is_clear_negb by auto.
  unfold everywhere. destruct (is_set q i); simpl; lra.
Qed.

Lemma Prob_weight (q : Z) (c : t) :
  Prob q c
  = (weight (is_set q) (maxQPower (normalize_if_needed c))
       (stateVec (normalize_if_needed c)),
     normalize_if_needed c).
Proof.
  unfold Prob. f_equal.
  rewrite (fold_left_Rsum_if (fun lcv => (Z.land lcv (bitpow q) =? bitpow q)%Z)
             (fun lcv => norm (load C0 (stateVec (normalize_if_needed c)) lcv))).
  unfold weight, is_set. lra.
Qed.

Lemma par_norm_weight (N : Z) (v : list Complex16) :
  par_norm N v = sqrt (weight everywhere N v).
Proof.
  unfold par_norm. f_equal.
  rewrite (fold_left_Rsum (fun i => norm (load C0 v i))).
  unfold weight, everywhere. lra.
Qed.

Lemma norm_cached_total (c : t) :
  norm_cached c ->
  weight everywhere (maxQPower c) (stateVec c) = runningNorm c * runningNorm c.
Proof.
  intros (Hpos & E). rewrite par_norm_weight in E.
  pose proof (weight_nonneg everywhere (maxQPower c) (stateVec c)) as Hw.
  rewrite E. now rewrite sqrt_sqrt.
Qed.

(** After the normalization every weight is the share of the total. *)
Lemma normalized_weight (p : Z -> bool) (c : t) :
  well_formed c -> norm_cached c ->
  weight p (maxQPower c) (stateVec (normalize_if_needed c))
  = weight p (maxQPower c) (stateVec c) / (runningNorm c * runningNorm c).
Proof.
  intros Hwf (Hpos & E). unfold normalize_if_needed, Reqb.
  destruct (Req_dec_T (runningNorm c) 1) as [H1|H1].
  - rewrite H1. field.
  - unfold Rdiv. rewrite Rmult_comm.
    apply weight_ext. intros i Hi.
    rewrite CohereFacts.NormalizeState_load by auto.
    rewrite norm_divr. destruct (p i); field; lra.
Qed.

Lemma normalized_runningNorm (c : t) : runningNorm (normalize_if_needed c) = 1.
Proof.
  unfold normalize_if_needed, Reqb.
  destruct (Req_dec_T (runningNorm c) 1) as [H1|H1]; auto.
Qed.

Lemma normalize_if_needed_idem (c : t) :
  normalize_if_needed (normalize_if_needed c) = normalize_if_needed c.
Proof.
  unfold normalize_if_needed at 1. rewrite normalized_runningNorm.
  unfold Reqb. destruct (Req_dec_T 1 1); auto; contradiction.
Qed.

Lemma normalized_total (c : t) :
  well_formed c -> norm_cached c ->
  weight everywhere (maxQPower c) (stateVec (normalize_if_needed c)) = 1.
Proof.
  intros Hwf Hc. rewrite normalized_weight, norm_cached_total by auto.
  destruct Hc as (Hpos & _). field; lra.
Qed.

End MeasureFacts.

(** ** Measurement and [SetBit] *)

Module SetBitFacts.

Import Machine Cplx Buf Host Shape ArrayFacts BitFacts Pairs Sums SingleBit.
Import PairFacts SumFacts KernelFacts MeasureFacts.
Import CoherentUnit.
Local Open Scope R_scope.

Lemma fold_left_ext {A B : Type} (f g : A -> B -> A) (l : list B) (a : A) :
  (forall a x, f a x = g a x) -> fold_left f l a = fold_left g l a.
Proof.
  intros H; revert a; induction l as [|x l IH]; intros a; simpl; auto.
  now rewrite H, IH.
Qed.

Lemma keep_one_pointwise (N m : Z) (nrm : Complex16) (sv : list Complex16) :
  Z.of_nat (length sv) = N ->
  let sv' := par_for_all 0 N sv nrm tt [m] M_keep_one in
  length sv' = length sv /\
  forall i, (0 <= i < N)%Z ->
    load C0 sv' i = if (Z.land i m =? 0)%Z then cplx 0 0 else mul nrm (load C0 sv i).
Proof.
  intros HN sv'. unfold sv', par_for_all. rewrite range_from_0.
  rewrite (fold_left_ext _
             (fun acc k => put k ((fun i z => if (Z.land i m =? 0)%Z then cplx 0 0
                                              else mul nrm z) k (load C0 acc k)) acc)).
  - destruct (pointwise_loop C0
                (fun i z => if (Z.land i m =? 0)%Z then cplx 0 0 else mul nrm z) N sv)
      as (L & H & _); [lia|]. split; auto.
  - intros a x. unfold M_keep_one. cbn [nth]. destruct (Z.land x m =? 0)%Z; auto.
Qed.

Lemma keep_zero_pointwise (N m : Z) (nrm : Complex16) (sv : list Complex16) :
  Z.of_nat (length sv) = N ->
  let sv' := par_for_all 0 N sv nrm tt [m] M_keep_zero in
  length sv' = length sv /\
  forall i, (0 <= i < N)%Z ->
    load C0 sv' i = if (Z.land i m =? 0)%Z then mul nrm (load C0 sv i) else cplx 0 0.
Proof.
  intros HN sv'. unfold sv', par_for_all. rewrite range_from_0.
  rewrite (fold_left_ext _
             (fun acc k => put k ((fun i z => if (Z.land i m =? 0)%Z then mul nrm z
                                              else cplx 0 0) k (load C0 acc k)) acc)).
  - destruct (pointwise_loop C0
                (fun i z => if (Z.land i m =? 0)%Z then mul nrm z else cplx 0 0) N sv)
      as (L & H & _); [lia|]. split; auto.
  - intros a x. unfold M_keep_zero. cbn [nth]. destruct (Z.land x m =? 0)%Z; auto.
Qed.

(** [M], with the normalization and the draws spelled out. *)
Lemma M_unfold (q : Z) (c : t) :
  let c0 := normalize_if_needed c in
  let g := rand_generator c0 in
  let u := Rng.draws g (Rng.cursor g) in
  let theta := Rng.draws g (S (Rng.cursor g)) * 2 * PI in
  let p1 := weight (is_set q) (maxQPower c0) (stateVec c0) in
  let result := Rltb u p1 && Rltb 0 p1 in
  let nrmlzr := if result then (if Rltb 0 p1 then p1 else 1)
                else (if Rltb p1 1 then sqrt (1 - p1) else 1) in
  M q c
  = (result,
     UpdateRunningNorm
       (Build (runningNorm c0) (qubitCount c0) (maxQPower c0)
          (par_for_all 0 (maxQPower c0) (stateVec c0)
             (divr (cplx (cos theta) (sin theta)) nrmlzr) tt [bitpow q]
             (if result then M_keep_one else M_keep_zero))
          (Rng.mk (Rng.draws g) (S (S (Rng.cursor g)))))).
Proof.
  intros c0 g u theta p1 result nrmlzr.
  unfold M, Rng.next. cbv zeta. rewrite Prob_weight. cbv beta iota.
  rewrite !normalize_if_needed_idem.
  fold c0. fold g. cbn [Rng.draws Rng.cursor]. fold u theta p1. fold result.
  unfold nrmlzr. destruct result; reflexivity.
Qed.

Lemma Rltb_elim (x y : R) : (Rltb x y = true -> x < y) /\ (Rltb x y = false -> ~ x < y).
Proof. unfold Rltb; destruct (Rlt_dec x y); split; intros; auto; discriminate. Qed.

Lemma is_set_not_clear (q i : Z) :
  (0 <= q)%Z -> is_set q i = true -> (Z.land i (bitpow q) =? 0)%Z = false.
Proof.
  intros Hq H. pose proof (is_clear_negb q i Hq) as E. unfold is_clear in E.
  rewrite E, H. reflexivity.
Qed.

Lemma not_set_clear (q i : Z) :
  (0 <= q)%Z -> is_set q i = false -> (Z.land i (bitpow q) =? 0)%Z = true.
Proof.
  intros Hq H. pose proof (is_clear_negb q i Hq) as E. unfold is_clear in E.
  rewrite E, H. reflexivity.
Qed.

(** What [M] leaves behind, by outcome. *)
Lemma M_outcome (q : Z) (c : t) :
  well_formed c -> norm_cached c -> (0 <= q < qubitCount c)%Z ->
  Rng.uniform (rand_generator c) ->
  let r := fst (M q c) in
  let c1 := snd (M q c) in
  well_formed c1 /\ norm_cached c1 /\ qubitCount c1 = qubitCount c /\
  (r = true ->
   weight (is_clear q) (maxQPower c1) (stateVec c1) = 0 /\
   0 < weight (is_set q) (maxQPower c1) (stateVec c1)) /\
  (r = false ->
   weight (is_set q) (maxQPower c1) (stateVec c1) = 0 /\
   weight (is_clear q) (maxQPower c1) (stateVec c1) = 1 /\
   runningNorm c1 = 1).
Proof.
  intros Hwf Hnc Hq Hu r c1. unfold r, c1. rewrite M_unfold. cbn [fst snd].
  destruct (CohereFacts.normalize_if_needed_shape c) as (Eq & Em & Eg & El).
  pose proof (CohereFacts.normalize_if_needed_well_formed c Hwf) as Hwf0.
  set (c0 := normalize_if_needed c) in *.
  set (N := maxQPower c0) in *.
  set (p1 := weight (is_set q) N (stateVec c0)).
  set (u := Rng.draws (rand_generator c0) (Rng.cursor (rand_generator c0))).
  set (theta := Rng.draws (rand_generator c0) (S (Rng.cursor (rand_generator c0))) * 2 * PI).
  assert (Hu01 : 0 <= u < 1) by (unfold u; rewrite Eg; apply Hu).
  assert (Hp1 : 0 <= p1) by apply weight_nonneg.
  assert (Hsplit : p1 + weight (is_clear q) N (stateVec c0) = 1).
  { unfold p1. rewrite weight_split by lia. rewrite Em.
    now apply normalized_total. }
  assert (HlenN : Z.of_nat (length (stateVec c0)) = N) by apply Hwf0.
  destruct (Rltb u p1 && Rltb 0 p1) eqn:Eres.
  - apply andb_true_iff in Eres. destruct Eres as (E1 & E2).
    apply (proj1 (Rltb_elim _ _)) in E2. rewrite (RealFacts.Rltb_true 0 p1) by auto.
    destruct (keep_one_pointwise N (bitpow q) (divr (cplx (cos theta) (sin theta)) p1)
                (stateVec c0) HlenN) as (L & Hpt).
    set (sv1 := par_for_all 0 N (stateVec c0) (divr (cplx (cos theta) (sin theta)) p1) tt
                  [bitpow q] M_keep_one) in *.
    unfold UpdateRunningNorm.
    cbn [qubitCount maxQPower stateVec runningNorm rand_generator].
    assert (Wc : weight (is_clear q) N sv1 = 0).
    { apply weight_zero. intros i Hi Hc. rewrite Hpt by auto.
      unfold is_clear in Hc. rewrite Hc. apply norm_zero. }
    assert (Ws : weight (is_set q) N sv1 = / p1).
    { rewrite (weight_ext (is_set q) (is_set q) N sv1 (stateVec c0) (/ p1 * / p1)).
      - fold p1. field; lra.
      - intros i Hi. destruct (is_set q i) eqn:Es; [|lra].
        rewrite Hpt, (is_set_not_clear q i) by (auto; lia).
        rewrite norm_mul, norm_divr, norm_phase. lra. }
    assert (Hinv : 0 < / p1) by (apply Rinv_0_lt_compat; auto).
    split; [|split; [|split; [|split]]].
    + destruct Hwf0 as (A & B & C). unfold well_formed.
      cbn [qubitCount stateVec maxQPower]. rewrite L. auto.
    + split; cbn [runningNorm maxQPower stateVec]; auto.
      rewrite par_norm_weight.
      rewrite <- (weight_split q) by lia. rewrite Wc, Ws.
      apply sqrt_lt_R0. lra.
    + exact Eq.
    + intros _. rewrite Ws. auto.
    + intros; discriminate.
  - assert (Hlt : p1 < 1).
    { apply andb_false_iff in Eres. destruct Eres as [E|E];
        apply (proj2 (Rltb_elim _ _)) in E; lra. }
    rewrite (RealFacts.Rltb_true p1 1) by auto.
    destruct (keep_zero_pointwise N (bitpow q)
                (divr (cplx (cos theta) (sin theta)) (sqrt (1 - p1)))
                (stateVec c0) HlenN) as (L & Hpt).
    set (sv1 := par_for_all 0 N (stateVec c0)
                  (divr (cplx (cos theta) (sin theta)) (sqrt (1 - p1))) tt
                  [bitpow q] M_keep_zero) in *.
    unfold UpdateRunningNorm.
    cbn [qubitCount maxQPower stateVec runningNorm rand_generator].
    assert (Hsq : / sqrt (1 - p1) * / sqrt (1 - p1) = / (1 - p1)).
    { rewrite <- Rinv_mult. rewrite sqrt_sqrt by lra. reflexivity. }
    assert (Ws : weight (is_set q) N sv1 = 0).
    { apply weight_zero. intros i Hi Hs. rewrite Hpt by auto.
      rewrite (is_set_not_clear q i) by (auto; lia). apply norm_zero. }
    assert (Wc : weight (is_clear q) N sv1 = 1).
    { rewrite (weight_ext (is_clear q) (is_clear q) N sv1 (stateVec c0) (/ (1 - p1))).
      - replace (weight (is_clear q) N (stateVec c0)) with (1 - p1) by lra. field; lra.
      - intros i Hi. destruct (is_clear q i) eqn:Ec; [|lra].
        rewrite Hpt by auto. unfold is_clear in Ec. rewrite Ec.
        rewrite norm_mul, norm_divr, norm_phase, Hsq. lra. }
    assert (Hrn : par_norm N sv1 = 1).
    { rewrite par_norm_weight, <- (weight_split q) by lia. rewrite Wc, Ws.
      replace (0 + 1) with 1 by lra. apply sqrt_1. }
    split; [|split; [|split; [|split]]].
    + destruct Hwf0 as (A & B & C). unfold well_formed.
      cbn [qubitCount stateVec maxQPower]. rewrite L. auto.
    + split; cbn [runningNorm maxQPower stateVec]; auto.
      rewrite Hrn. lra.
    + exact Eq.
    + intros; discriminate.
    + intros _. auto.
Qed.

Lemma normalize_if_needed_unit (c : t) : runningNorm c = 1 -> normalize_if_needed c = c.
Proof.
  intros H. unfold normalize_if_needed. now rewrite RealFacts.Reqb_true.
Qed.

Lemma pow2_split (n q : Z) :
  (0 <= q < n)%Z -> (2 ^ n = 2 * 2 ^ q * 2 ^ (n - q - 1))%Z.
Proof.
  intros H. replace n with (1 + q + (n - q - 1))%Z at 1 by lia.
  rewrite !Z.pow_add_r by lia. reflexivity.
Qed.

(** [X(q)] exchanges the weight of the two outcomes of qubit [q], scaled
    by the square of [1 / runningNorm], and leaves [runningNorm = 1]. *)
Lemma X_swaps_weights (q : Z) (c1 : t) :
  well_formed c1 -> (0 <= q < qubitCount c1)%Z ->
  exists c2,
    X q c1 = Ok c2 /\ well_formed c2 /\ runningNorm c2 = 1 /\
    maxQPower c2 = maxQPower c1 /\
    weight (is_set q) (maxQPower c1) (stateVec c2)
    = 1 / runningNorm c1 * (1 / runningNorm c1)
      * weight (is_clear q) (maxQPower c1) (stateVec c1).
Proof.
  intros (Hn & HN & Hlen) Hq.
  set (n := qubitCount c1) in *. set (N := maxQPower c1) in *.
  set (m := (2 ^ q)%Z). set (K := (2 ^ (n - q - 1))%Z).
  assert (Hm : (0 < m)%Z) by (apply Z.pow_pos_nonneg; lia).
  assert (HK : (0 < K)%Z) by (apply Z.pow_pos_nonneg; lia).
  assert (ENK : (N = 2 * m * K)%Z) by (rewrite HN; apply pow2_split; lia).
  assert (Hb : (2 * m * K < 2 ^ 62)%Z).
  { rewrite <- ENK, HN. apply Z.pow_lt_mono_r; lia. }
  set (cmplx := [m0 pauliX; m1 pauliX; m2 pauliX; m3 pauliX; cplx (1 / runningNorm c1) 0]).
  destruct (apply2x2_single cmplx m K (stateVec c1) Hm HK ltac:(lia) Hb)
    as (st & E & L & Hpt).
  assert (EX : X q c1 = Ok (Build 1 n N st (rand_generator c1))).
  { unfold X, ApplySingleBit, Apply2x2. cbn [nth].
    change (fold_left _ (range 1) _) with (single_args N (bitpow q)).
    rewrite bitpow_pow2 by lia. fold m. fold cmplx. fold N.
    rewrite ENK at 1. rewrite E. reflexivity. }
  exists (Build 1 n N st (rand_generator c1)).
  split; [exact EX|]. split; [|split; [reflexivity|split; [reflexivity|]]].
  - unfold well_formed. cbn [qubitCount maxQPower stateVec]. rewrite L. auto.
  - cbn [stateVec].
    set (k := 1 / runningNorm c1 * (1 / runningNorm c1)).
    assert (Hnorm : forall j, (0 <= j < N)%Z ->
              norm (load C0 st j) = k * norm (load C0 (stateVec c1) (partner m j))).
    { intros j Hj. rewrite Hpt by lia. unfold partner.
      destruct (bitval m j =? 1)%Z;
        unfold gate0, gate1, cmplx, OCL.carg, pauliX, zmul, add, norm, cplx, real, imag, k;
        cbn [nth m0 m1 m2 m3 fst snd]; ring. }
    unfold weight. rewrite <- Rsum_scale.
    rewrite <- (Rsum_reindex
                  (fun i => k * (if is_clear q i then norm (load C0 (stateVec c1) i) else 0))
                  (partner m) N).
    + apply Rsum_ext. intros j Hj. apply in_range in Hj.
      rewrite is_set_bitval, is_clear_bitval by lia. fold m.
      rewrite partner_bitval by lia.
      pose proof (bitval_range m j).
      destruct (Z.eqb_spec (bitval m j) 1) as [E1|E1].
      * rewrite E1. cbn. rewrite Hnorm by auto. reflexivity.
      * replace (1 - bitval m j =? 0)%Z with false by (symmetry; apply Z.eqb_neq; lia).
        lra.
    + intros i j Hi Hj Hij.
      rewrite <- (partner_involutive m i), <- (partner_involutive m j) by lia.
      now rewrite Hij.
    + intros i Hi. rewrite ENK in *. apply partner_range; lia.
Qed.

End SetBitFacts.

(** * [X] on one qubit, index by index *)

Module SwapFacts.

Import Machine Cplx Buf Host Shape ArrayFacts BitFacts Pairs Sums SingleBit.
Import PairFacts SumFacts KernelFacts MeasureFacts SetBitFacts.
Import CoherentUnit.

(** The other index of the pair is the index with bit [q] complemented. *)
Lemma partner_lxor (q j : Z) : 0 <= q -> 0 <= j -> partner (2 ^ q) j = Z.lxor j (2 ^ q).
Proof.
  intros Hq Hj. unfold partner.
  pose proof (land_pow2 j q Hq) as HL.
  pose proof (bitval_range (2 ^ q) j) as HB.
  destruct (Z.eqb_spec (bitval (2 ^ q) j) 1) as [E|E].
  - rewrite E, Z.mul_1_l in HL.
    assert (Hd : Z.ldiff (2 ^ q) j = 0).
    { apply Z.bits_inj'; intros k Hk. rewrite Z.ldiff_spec, Z.bits_0.
      rewrite <- HL at 1. rewrite Z.land_spec.
      destruct (Z.testbit j k), (Z.testbit (2 ^ q) k); reflexivity. }
    rewrite (Z.sub_nocarry_ldiff j (2 ^ q) Hd).
    apply Z.bits_inj'; intros k Hk. rewrite Z.ldiff_spec, Z.lxor_spec.
    assert (Hk' : Z.testbit (Z.land j (2 ^ q)) k = Z.testbit (2 ^ q) k) by now rewrite HL.
    rewrite Z.land_spec in Hk'.
    destruct (Z.testbit j k), (Z.testbit (2 ^ q) k); simpl in *; auto; discriminate.
  - assert (E0 : bitval (2 ^ q) j = 0) by lia.
    rewrite E0, Z.mul_0_l in HL.
    now apply Z.add_nocarry_lxor.
Qed.

(** [X(q)] stores at every index the amplitude of the index with bit [q]
    complemented, times [1 / runningNorm]. *)
Lemma X_pointwise (q : Z) (c : t) :
  well_formed c -> 0 <= q < qubitCount c ->
  exists st,
    X q c = Ok (Build 1 (qubitCount c) (maxQPower c) st (rand_generator c)) /\
    length st = length (stateVec c) /\
    forall j, 0 <= j < maxQPower c ->
      load C0 st j = scale (load C0 (stateVec c) (Z.lxor j (2 ^ q))) (1 / runningNorm c).
Proof.
  intros (Hn & HN & Hlen) Hq.
  set (n := qubitCount c) in *. set (N := maxQPower c) in *.
  set (m := 2 ^ q). set (K := 2 ^ (n - q - 1)).
  assert (Hm : 0 < m) by (apply Z.pow_pos_nonneg; lia).
  assert (HK : 0 < K) by (apply Z.pow_pos_nonneg; lia).
  assert (ENK : N = 2 * m * K) by (rewrite HN; apply pow2_split; lia).
  assert (Hb : 2 * m * K < 2 ^ 62).
  { rewrite <- ENK, HN. apply Z.pow_lt_mono_r; lia. }
  set (cmplx := [m0 pauliX; m1 pauliX; m2 pauliX; m3 pauliX; cplx (1 / runningNorm c) 0]).
  destruct (apply2x2_single cmplx m K (stateVec c) Hm HK ltac:(lia) Hb)
    as (st & E & L & Hpt).
  exists st. split; [|split; auto].
  - unfold X, ApplySingleBit, Apply2x2. cbn [nth].
    change (fold_left _ (range 1) _) with (single_args N (bitpow q)).
    rewrite bitpow_pow2 by lia. fold m. fold cmplx. fold N.
    rewrite ENK at 1. rewrite E. reflexivity.
  - intros j Hj. rewrite Hpt by lia.
    replace (Z.lxor j m) with (partner m j) by (apply partner_lxor; lia).
    unfold partner.
    destruct (bitval m j =? 1);
      unfold gate0, gate1, cmplx, OCL.carg, pauliX, zmul, add, scale, cplx, real, imag;
      cbn [nth m0 m1 m2 m3 fst snd]; f_equal; ring.
Qed.

End SwapFacts.

(** * [Register::M] and the running norm *)

Module RegisterFacts.

(** [Register::M(0)] on the one-qubit register (3/5, 4/5), phase draw 0:
    [zeroChance] stays 0, so the surviving amplitude 4/5 is divided by 1 and
    [runningNorm] becomes 4/5.  On the register it leaves, [ProbAll(1)]
    reports 1 and [MAll(1)] with the draw 4/5 returns [false]. *)
Lemma Register_M_leaves_scaled_state :
  Register.runningNorm (snd (Register.M 0 Examples.reg_3_4)) = (4 / 5)%R /\
  Register.stateVec (snd (Register.M 0 Examples.reg_3_4))
  = [Cplx.cplx 0 0; Cplx.cplx (4 / 5) 0] /\
  fst (Register.ProbAll 1 (snd (Register.M 0 Examples.reg_3_4))) = 1%R /\
  fst (Register.MAll 1 (snd (Register.M 0 Examples.reg_3_4))) = false.
Proof.
  assert (EM : Register.M 0 Examples.reg_3_4
               = (true, Register.Build (4 / 5) 1 2 [Cplx.cplx 0 0; Cplx.cplx (4 / 5) 0]
                          (Rng.mk (fun k => match k with 2%nat => 4 / 5 | _ => 0 end)%R 2))).
  { run_model. zero_phase.
    replace (1 - 0)%R with 1%R by lra. rewrite sqrt_1. f_equal. f_equal.
    - replace (0 + _)%R with ((4 / 5) * (4 / 5))%R by lra. apply sqrt_square; lra.
    - repeat (f_equal; try lra). }
  rewrite EM. cbn [snd]. repeat split.
  - run_model. lra.
  - run_model. reflexivity.
Qed.

End RegisterFacts.

(** * Facts about the further operations *)

Module ExampleFacts.

Import Machine Cplx Buf Host Shape Examples.

Lemma zeros_uniform : Rng.uniform zeros.
Proof. intros k; simpl; lra. Qed.

Lemma unit_3_4_well_formed : well_formed unit_3_4.
Proof. unfold well_formed; simpl; lia. Qed.

Lemma unit_3_4_norm_cached : norm_cached unit_3_4.
Proof.
  split; [simpl; lra|].
  run_model. replace (_ + _)%R with 1%R by lra. symmetry; apply sqrt_1.
Qed.

Lemma unit_one_well_formed : well_formed unit_one.
Proof. unfold well_formed; simpl; lia. Qed.

Lemma unit_one_norm_cached : norm_cached unit_one.
Proof.
  split; [simpl; lra|]. run_model.
  replace (_ + _)%R with 1%R by lra. symmetry; apply sqrt_1.
Qed.

Lemma unit_five_well_formed : well_formed unit_five.
Proof. unfold well_formed; simpl; lia. Qed.

End ExampleFacts.

Module GateFacts.

Import Machine Cplx Buf Host Shape ArrayFacts BitFacts Pairs Sums SingleBit.
Import PairFacts SumFacts KernelFacts MeasureFacts SetBitFacts SwapFacts.
Import CoherentUnit Gates.
Local Open Scope R_scope.

(** With a real factor [nrm = (s, 0)] the two [zmul] of a turn give the
    complex product of the matrix row with the pair, times [s]. *)
Lemma gate0_product (mtrx : Mtrx) (s : R) (a b : Complex16) :
  gate0 [m0 mtrx; m1 mtrx; m2 mtrx; m3 mtrx; cplx s 0] a b
  = scale (add (mul (m0 mtrx) a) (mul (m1 mtrx) b)) s.
Proof.
  destruct mtrx as [[x0 y0] [x1 y1] [x2 y2] [x3 y3]], a as [ax ay], b as [bx b_y].
  unfold gate0, OCL.carg, zmul, add, mul, scale, cplx, real, imag.
  cbn [nth m0 m1 m2 m3 fst snd]. f_equal; ring.
Qed.

Lemma gate1_product (mtrx : Mtrx) (s : R) (a b : Complex16) :
  gate1 [m0 mtrx; m1 mtrx; m2 mtrx; m3 mtrx; cplx s 0] a b
  = scale (add (mul (m2 mtrx) a) (mul (m3 mtrx) b)) s.
Proof.
  destruct mtrx as [[x0 y0] [x1 y1] [x2 y2] [x3 y3]], a as [ax ay], b as [bx b_y].
  unfold gate1, OCL.carg, zmul, add, mul, scale, cplx, real, imag.
  cbn [nth m0 m1 m2 m3 fst snd]. f_equal; ring.
Qed.

Lemma bitval_testbit (q j : Z) :
  (0 <= q)%Z -> (bitval (2 ^ q) j =? 1)%Z = Z.testbit j q.
Proof.
  intros Hq. unfold bitval.
  destruct (Z.testbit j q) eqn:E.
  - apply Z.eqb_eq. now apply Z.testbit_true.
  - apply Z.eqb_neq. rewrite (proj1 (Z.testbit_false j q Hq) E). lia.
Qed.

(** A gate on one qubit: each amplitude becomes the product of its row of
    the matrix with the pair of amplitudes (the one whose bit [q] is set
    first), times [1 / runningNorm]. *)
Lemma ApplySingleBit_pointwise (q : Z) (mtrx : Mtrx) (d : bool) (c : t) :
  well_formed c -> (0 <= q < qubitCount c)%Z ->
  exists st,
    ApplySingleBit q mtrx d c = Ok (finish d c st) /\
    length st = length (stateVec c) /\
    forall j, (0 <= j < maxQPower c)%Z ->
      load C0 st j =
        if Z.testbit j q
        then scale (add (mul (m0 mtrx) (load C0 (stateVec c) j))
                        (mul (m1 mtrx) (load C0 (stateVec c) (Z.lxor j (2 ^ q)))))
               (1 / runningNorm c)
        else scale (add (mul (m2 mtrx) (load C0 (stateVec c) (Z.lxor j (2 ^ q))))
                        (mul (m3 mtrx) (load C0 (stateVec c) j)))
               (1 / runningNorm c).
Proof.
  intros (Hn & HN & Hlen) Hq.
  set (n := qubitCount c) in *. set (N := maxQPower c) in *.
  set (m := (2 ^ q)%Z). set (K := (2 ^ (n - q - 1))%Z).
  assert (Hm : (0 < m)%Z) by (apply Z.pow_pos_nonneg; lia).
  assert (HK : (0 < K)%Z) by (apply Z.pow_pos_nonneg; lia).
  assert (ENK : (N = 2 * m * K)%Z) by (rewrite HN; apply pow2_split; lia).
  assert (Hb : (2 * m * K < 2 ^ 62)%Z).
  { rewrite <- ENK, HN. apply Z.pow_lt_mono_r; lia. }
  set (cmplx := [m0 mtrx; m1 mtrx; m2 mtrx; m3 mtrx; cplx (1 / runningNorm c) 0]).
  destruct (apply2x2_single cmplx m K (stateVec c) Hm HK ltac:(lia) Hb)
    as (st & E & L & Hpt).
  exists st. split; [|split; auto].
  - unfold ApplySingleBit, Apply2x2. cbn [nth].
    change (fold_left _ (range 1) _) with (single_args N (bitpow q)).
    rewrite bitpow_pow2 by lia. fold m. fold cmplx. fold N.
    rewrite ENK at 1. rewrite E. unfold finish, with_state. destruct d; reflexivity.
  - intros j Hj. rewrite Hpt by lia.
    replace (Z.lxor j m) with (partner m j) by (apply partner_lxor; lia).
    unfold partner.
    assert (Eb : (bitval m j =? 1)%Z = Z.testbit j q) by (apply bitval_testbit; lia).
    rewrite !Eb.
    destruct (Z.testbit j q); unfold cmplx.
    + now rewrite gate0_product.
    + now rewrite gate1_product.
Qed.


Lemma norm_scale (z : Complex16) (s : R) : norm (scale z s) = s * s * norm z.
Proof. unfold norm, scale; simpl; ring. Qed.

Lemma testbit_lxor_pow2 (j q : Z) :
  (0 <= q)%Z -> Z.testbit (Z.lxor j (2 ^ q)) q = negb (Z.testbit j q).
Proof.
  intros Hq. rewrite Z.lxor_spec, Z.pow2_bits_true by auto.
  now destruct (Z.testbit j q).
Qed.

Lemma lxor_pow2_bounds (q n j : Z) :
  (0 <= q < n)%Z -> (0 <= j < 2 ^ n)%Z -> (0 <= Z.lxor j (2 ^ q) < 2 ^ n)%Z.
Proof.
  intros Hq Hj.
  replace (2 ^ q)%Z with (range_mask q 1).
  - apply lxor_range_mask_bounds; lia.
  - unfold range_mask. change (Z.ones 1) with 1%Z. now rewrite Z.shiftl_1_l.
Qed.

(** Summing over the indices in the order of their pair partners. *)
Lemma Rsum_partner (f : Z -> R) (q n : Z) :
  (0 <= q < n)%Z ->
  Rsum (map (fun j => f (Z.lxor j (2 ^ q))) (range (2 ^ n))) = Rsum (map f (range (2 ^ n))).
Proof.
  intros Hq. apply Rsum_reindex.
  - intros i j _ _ H.
    rewrite <- (lxor_involutive i (2 ^ q)), <- (lxor_involutive j (2 ^ q)).
    now rewrite H.
  - intros i Hi. now apply lxor_pow2_bounds.
Qed.

(** An isometry applied to every pair multiplies the total squared
    magnitude by the square of the factor. *)
Lemma single_bit_total (q n : Z) (mtrx : Mtrx) (s : R) (sv st : list Complex16) :
  (0 <= q < n)%Z -> isometry mtrx ->
  (forall j, (0 <= j < 2 ^ n)%Z ->
      load C0 st j =
        if Z.testbit j q
        then scale (add (mul (m0 mtrx) (load C0 sv j))
                        (mul (m1 mtrx) (load C0 sv (Z.lxor j (2 ^ q))))) s
        else scale (add (mul (m2 mtrx) (load C0 sv (Z.lxor j (2 ^ q))))
                        (mul (m3 mtrx) (load C0 sv j))) s) ->
  weight everywhere (2 ^ n) st = s * s * weight everywhere (2 ^ n) sv.
Proof.
  intros Hq Hiso Hpt. unfold weight, everywhere.
  set (f := fun j => norm (load C0 st j)).
  set (g := fun j => norm (load C0 sv j)).
  assert (H2 : 2 * Rsum (map f (range (2 ^ n))) = 2 * (s * s * Rsum (map g (range (2 ^ n))))).
  { replace (2 * Rsum (map f (range (2 ^ n))))
      with (Rsum (map f (range (2 ^ n)))
            + Rsum (map (fun j => f (Z.lxor j (2 ^ q))) (range (2 ^ n))))
      by (rewrite (Rsum_partner f q n Hq); lra).
    replace (2 * (s * s * Rsum (map g (range (2 ^ n)))))
      with (s * s * (Rsum (map g (range (2 ^ n)))
                     + Rsum (map (fun j => g (Z.lxor j (2 ^ q))) (range (2 ^ n)))))
      by (rewrite (Rsum_partner g q n Hq); lra).
    rewrite <- !Rsum_plus, <- Rsum_scale.
    apply Rsum_ext. intros j Hj. apply in_range in Hj.
    pose proof (lxor_pow2_bounds q n j Hq Hj) as Hp.
    unfold f, g. rewrite (Hpt j Hj), (Hpt _ Hp).
    rewrite testbit_lxor_pow2, lxor_involutive by lia.
    destruct (Z.testbit j q); cbn [negb]; rewrite !norm_scale.
    - pose proof (Hiso (load C0 sv j) (load C0 sv (Z.lxor j (2 ^ q)))) as E.
      match goal with
      | |- s * s * ?X + s * s * ?Y = _ =>
          replace (s * s * X + s * s * Y) with (s * s * (X + Y)) by ring
      end.
      rewrite E. ring.
    - pose proof (Hiso (load C0 sv (Z.lxor j (2 ^ q))) (load C0 sv j)) as E.
      match goal with
      | |- s * s * ?X + s * s * ?Y = _ =>
          replace (s * s * X + s * s * Y) with (s * s * (Y + X)) by ring
      end.
      rewrite E. ring. }
  lra.
Qed.

(** A gate that recomputes the norm, with an isometry for matrix, on a
    register whose [runningNorm] is the norm of its vector: the register it
    leaves is normalized. *)
Lemma isometry_normalized (q : Z) (mtrx : Mtrx) (c : t) (st : list Complex16) :
  well_formed c -> norm_cached c -> (0 <= q < qubitCount c)%Z -> isometry mtrx ->
  length st = length (stateVec c) ->
  (forall j, (0 <= j < maxQPower c)%Z ->
      load C0 st j =
        if Z.testbit j q
        then scale (add (mul (m0 mtrx) (load C0 (stateVec c) j))
                        (mul (m1 mtrx) (load C0 (stateVec c) (Z.lxor j (2 ^ q)))))
               (1 / runningNorm c)
        else scale (add (mul (m2 mtrx) (load C0 (stateVec c) (Z.lxor j (2 ^ q))))
                        (mul (m3 mtrx) (load C0 (stateVec c) j)))
               (1 / runningNorm c)) ->
  well_formed (finish true c st) /\ norm_cached (finish true c st) /\
  runningNorm (finish true c st) = 1.
Proof.
  intros (Hn & HN & Hlen) Hnc Hq Hiso L Hpt.
  pose proof (norm_cached_total c Hnc) as HW. destruct Hnc as (Hpos & _).
  assert (E1 : par_norm (maxQPower c) st = 1).
  { rewrite par_norm_weight. rewrite HN in *.
    rewrite (single_bit_total q (qubitCount c) mtrx (1 / runningNorm c) (stateVec c) st)
      by auto.
    rewrite HW. replace (_ * _ * _) with 1 by (field; lra). apply sqrt_1. }
  unfold finish, UpdateRunningNorm, with_state.
  cbn [qubitCount maxQPower stateVec runningNorm rand_generator].
  split; [|split].
  - unfold well_formed. cbn [qubitCount maxQPower stateVec]. rewrite L. auto.
  - split; cbn [runningNorm maxQPower stateVec]; [rewrite E1; lra | reflexivity].
  - exact E1.
Qed.

Lemma trig_one (x : R) : cos x * cos x + sin x * sin x = 1.
Proof. pose proof (sin2_cos2 x) as H. unfold Rsqr in H. lra. Qed.

Lemma isometry_R1 (x : R) :
  isometry (mkMtrx (cplx 1 0) (cplx 0 0) (cplx 0 0) (cplx (cos x) (sin x))).
Proof.
  intros [ax ay] [bx b_y]. unfold norm, add, mul, cplx, real, imag. cbn [m0 m1 m2 m3 fst snd].
  pose proof (trig_one x) as H.
  replace (ax * ax + ay * ay + (bx * bx + b_y * b_y))
    with (ax * ax + ay * ay + (cos x * cos x + sin x * sin x) * (bx * bx + b_y * b_y))
    by (rewrite H; ring).
  ring.
Qed.

Lemma isometry_RX (x : R) :
  isometry (mkMtrx (cplx (cos x) 0) (cplx 0 (- sin x)) (cplx 0 (- sin x)) (cplx (cos x) 0)).
Proof.
  intros [ax ay] [bx b_y]. unfold norm, add, mul, cplx, real, imag. cbn [m0 m1 m2 m3 fst snd].
  pose proof (trig_one x) as H.
  replace (ax * ax + ay * ay + (bx * bx + b_y * b_y))
    with ((cos x * cos x + sin x * sin x) * (ax * ax + ay * ay + (bx * bx + b_y * b_y)))
    by (rewrite H; ring).
  ring.
Qed.

Lemma isometry_RY (x : R) :
  isometry (mkMtrx (cplx (cos x) 0) (cplx (- sin x) 0) (cplx (sin x) 0) (cplx (cos x) 0)).
Proof.
  intros [ax ay] [bx b_y]. unfold norm, add, mul, cplx, real, imag. cbn [m0 m1 m2 m3 fst snd].
  pose proof (trig_one x) as H.
  replace (ax * ax + ay * ay + (bx * bx + b_y * b_y))
    with ((cos x * cos x + sin x * sin x) * (ax * ax + ay * ay + (bx * bx + b_y * b_y)))
    by (rewrite H; ring).
  ring.
Qed.

Lemma isometry_RZ (x : R) :
  isometry (mkMtrx (cplx (cos x) (- sin x)) (cplx 0 0) (cplx 0 0) (cplx (cos x) (sin x))).
Proof.
  intros [ax ay] [bx b_y]. unfold norm, add, mul, cplx, real, imag. cbn [m0 m1 m2 m3 fst snd].
  pose proof (trig_one x) as H.
  replace (ax * ax + ay * ay + (bx * bx + b_y * b_y))
    with ((cos x * cos x + sin x * sin x) * (ax * ax + ay * ay + (bx * bx + b_y * b_y)))
    by (rewrite H; ring).
  ring.
Qed.

Lemma sqrt2_neq0 : sqrt 2 <> 0.
Proof.
  assert (H : sqrt 2 * sqrt 2 = 2) by (apply sqrt_sqrt; lra).
  intros E. rewrite E in H. lra.
Qed.

Lemma half_sqrt2 : 1 / sqrt 2 * (1 / sqrt 2) = 1 / 2.
Proof.
  assert (H : sqrt 2 * sqrt 2 = 2) by (apply sqrt_sqrt; lra).
  pose proof sqrt2_neq0 as H0.
  replace (1 / sqrt 2 * (1 / sqrt 2)) with (1 / (sqrt 2 * sqrt 2)) by (field; auto).
  now rewrite H.
Qed.

Lemma isometry_had : isometry had.
Proof.
  intros [ax ay] [bx b_y]. unfold had, norm, add, mul, cplx, real, imag.
  cbn [m0 m1 m2 m3 fst snd].
  pose proof half_sqrt2 as H. pose proof sqrt2_neq0 as H0.
  replace (-1 / sqrt 2) with (- (1 / sqrt 2)) by (field; auto).
  set (h := 1 / sqrt 2) in *.
  replace (ax * ax + ay * ay + (bx * bx + b_y * b_y))
    with (2 * (h * h) * (ax * ax + ay * ay + (bx * bx + b_y * b_y)))
    by (rewrite H; field).
  ring.
Qed.

Lemma scale_add (a b : Complex16) (s : R) : scale (add a b) s = add (scale a s) (scale b s).
Proof. unfold scale, add; simpl; f_equal; ring. Qed.

Lemma mul_scale (m a : Complex16) (s : R) : mul m (scale a s) = scale (mul m a) s.
Proof. unfold scale, mul; simpl; f_equal; ring. Qed.

Lemma scale_one (a : Complex16) : scale a (1 / 1) = a.
Proof. destruct a; unfold scale; simpl; f_equal; field. Qed.

(** Two gates on the same qubit of a register whose [runningNorm] is the
    norm of its vector, the first an isometry: the second leaves what the
    gate of the product matrix leaves. *)
Lemma compose_single_bit (q : Z) (A B C : Mtrx) (c : t) :
  well_formed c -> norm_cached c -> (0 <= q < qubitCount c)%Z ->
  isometry A -> product B A C ->
  exists c1,
    ApplySingleBit q A true c = Ok c1 /\
    ApplySingleBit q B true c1 = ApplySingleBit q C true c.
Proof.
  intros Hwf Hnc Hq HA HP.
  destruct (ApplySingleBit_pointwise q A true c Hwf Hq) as (st & EX & L & Hpt).
  destruct (isometry_normalized q A c st Hwf Hnc Hq HA L Hpt) as (Hwf1 & Hnc1 & Hrn1).
  set (c1 := finish true c st) in *.
  assert (Eq1 : qubitCount c1 = qubitCount c) by reflexivity.
  assert (Em1 : maxQPower c1 = maxQPower c) by reflexivity.
  assert (Es1 : stateVec c1 = st) by reflexivity.
  assert (Hq1 : (0 <= q < qubitCount c1)%Z) by (rewrite Eq1; lia).
  destruct (ApplySingleBit_pointwise q B true c1 Hwf1 Hq1) as (st2 & EX2 & L2 & Hpt2).
  destruct (ApplySingleBit_pointwise q C true c Hwf Hq) as (st3 & EX3 & L3 & Hpt3).
  exists c1. split; [exact EX|]. rewrite EX2, EX3.
  assert (E : st2 = st3).
  { apply (load_ext C0); [congruence|].
    intros j Hj.
    destruct Hwf as (A0 & B0 & C0').
    assert (Hj0 : (0 <= j < maxQPower c)%Z) by (rewrite L2, Es1, L in Hj; lia).
    assert (Hx : (0 <= Z.lxor j (2 ^ q) < maxQPower c)%Z)
      by (rewrite B0; apply lxor_pow2_bounds; lia).
    rewrite (Hpt2 j), (Hpt3 j) by (rewrite ?Em1; lia).
    rewrite Hrn1, Es1, (Hpt j Hj0), (Hpt _ Hx).
    rewrite testbit_lxor_pow2, lxor_involutive by lia.
    rewrite !scale_one.
    destruct (HP (load C0 (stateVec c) j) (load C0 (stateVec c) (Z.lxor j (2 ^ q))))
      as (P0 & _).
    destruct (HP (load C0 (stateVec c) (Z.lxor j (2 ^ q))) (load C0 (stateVec c) j))
      as (_ & P1).
    destruct (Z.testbit j q); cbn [negb].
    - rewrite <- P0. now rewrite !mul_scale, <- !scale_add.
    - rewrite <- P1. now rewrite !mul_scale, <- !scale_add. }
  rewrite E. unfold finish, UpdateRunningNorm, with_state, c1, finish.
  reflexivity.
Qed.

Lemma half_sum (a b : R) : (a + b) / 2 = a / 2 + b / 2.
Proof. field. Qed.

Lemma product_R1 (a b : R) :
  product (mkMtrx (cplx 1 0) (cplx 0 0) (cplx 0 0) (cplx (cos (b / 2)) (sin (b / 2))))
          (mkMtrx (cplx 1 0) (cplx 0 0) (cplx 0 0) (cplx (cos (a / 2)) (sin (a / 2))))
          (mkMtrx (cplx 1 0) (cplx 0 0) (cplx 0 0)
             (cplx (cos ((a + b) / 2)) (sin ((a + b) / 2)))).
Proof.
  intros [x1 x2] [y1 y2]. rewrite half_sum, cos_plus, sin_plus.
  unfold add, mul, cplx, real, imag. cbn [m0 m1 m2 m3 fst snd].
  split; f_equal; ring.
Qed.

Lemma product_RX (a b : R) :
  product (mkMtrx (cplx (cos (b / 2)) 0) (cplx 0 (- sin (b / 2)))
             (cplx 0 (- sin (b / 2))) (cplx (cos (b / 2)) 0))
          (mkMtrx (cplx (cos (a / 2)) 0) (cplx 0 (- sin (a / 2)))
             (cplx 0 (- sin (a / 2))) (cplx (cos (a / 2)) 0))
          (mkMtrx (cplx (cos ((a + b) / 2)) 0) (cplx 0 (- sin ((a + b) / 2)))
             (cplx 0 (- sin ((a + b) / 2))) (cplx (cos ((a + b) / 2)) 0)).
Proof.
  intros [x1 x2] [y1 y2]. rewrite half_sum, cos_plus, sin_plus.
  unfold add, mul, cplx, real, imag. cbn [m0 m1 m2 m3 fst snd].
  split; f_equal; ring.
Qed.

Lemma product_RY (a b : R) :
  product (mkMtrx (cplx (cos (b / 2)) 0) (cplx (- sin (b / 2)) 0)
             (cplx (sin (b / 2)) 0) (cplx (cos (b / 2)) 0))
          (mkMtrx (cplx (cos (a / 2)) 0) (cplx (- sin (a / 2)) 0)
             (cplx (sin (a / 2)) 0) (cplx (cos (a / 2)) 0))
          (mkMtrx (cplx (cos ((a + b) / 2)) 0) (cplx (- sin ((a + b) / 2)) 0)
             (cplx (sin ((a + b) / 2)) 0) (cplx (cos ((a + b) / 2)) 0)).
Proof.
  intros [x1 x2] [y1 y2]. rewrite half_sum, cos_plus, sin_plus.
  unfold add, mul, cplx, real, imag. cbn [m0 m1 m2 m3 fst snd].
  split; f_equal; ring.
Qed.

Lemma product_RZ (a b : R) :
  product (mkMtrx (cplx (cos (b / 2)) (- sin (b / 2))) (cplx 0 0) (cplx 0 0)
             (cplx (cos (b / 2)) (sin (b / 2))))
          (mkMtrx (cplx (cos (a / 2)) (- sin (a / 2))) (cplx 0 0) (cplx 0 0)
             (cplx (cos (a / 2)) (sin (a / 2))))
          (mkMtrx (cplx (cos ((a + b) / 2)) (- sin ((a + b) / 2))) (cplx 0 0) (cplx 0 0)
             (cplx (cos ((a + b) / 2)) (sin ((a + b) / 2)))).
Proof.
  intros [x1 x2] [y1 y2]. rewrite half_sum, cos_plus, sin_plus.
  unfold add, mul, cplx, real, imag. cbn [m0 m1 m2 m3 fst snd].
  split; f_equal; ring.
Qed.

End GateFacts.

Module ReadFacts.

Import Machine Cplx Buf Host Shape ArrayFacts BitFacts Pairs Sums SingleBit.
Import PairFacts SumFacts KernelFacts MeasureFacts SetBitFacts.
Import CoherentUnit.
Local Open Scope R_scope.

(** The draws of the source after [M] are the draws before. *)
Lemma M_draws (q : Z) (c : t) :
  Rng.draws (rand_generator (snd (M q c))) = Rng.draws (rand_generator c).
Proof.
  rewrite M_unfold. cbn [snd]. unfold UpdateRunningNorm. cbn [rand_generator Rng.draws].
  destruct (CohereFacts.normalize_if_needed_shape c) as (_ & _ & Eg & _).
  now rewrite Eg.
Qed.

(** [Prob] is the share of the weight of the indices whose bit is set. *)
Lemma Prob_share (q : Z) (c : t) :
  well_formed c -> norm_cached c -> (0 <= q)%Z ->
  fst (Prob q c)
  = weight (is_set q) (maxQPower c) (stateVec c)
    / (weight (is_set q) (maxQPower c) (stateVec c)
       + weight (is_clear q) (maxQPower c) (stateVec c)).
Proof.
  intros Hwf Hnc Hq. rewrite Prob_weight. cbn [fst].
  destruct (CohereFacts.normalize_if_needed_shape c) as (_ & Em & _).
  rewrite Em, normalized_weight by auto.
  rewrite <- norm_cached_total by auto.
  now rewrite <- (weight_split q) by lia.
Qed.

Lemma total_positive (c : t) :
  norm_cached c -> 0 < weight everywhere (maxQPower c) (stateVec c).
Proof.
  intros Hnc. rewrite norm_cached_total by auto. destruct Hnc as (Hpos & _). nra.
Qed.

(** The result of [M] from the value of [Prob] and the first draw. *)
Lemma M_result (q : Z) (c : t) :
  fst (M q c)
  = Rltb (Rng.draws (rand_generator c) (Rng.cursor (rand_generator c))) (fst (Prob q c))
    && Rltb 0 (fst (Prob q c)).
Proof.
  rewrite M_unfold, Prob_weight. cbn [fst].
  destruct (CohereFacts.normalize_if_needed_shape c) as (_ & _ & Eg & _).
  now rewrite Eg.
Qed.

End ReadFacts.

Module StateFacts.

Import Machine Cplx Buf Host Shape ArrayFacts BitFacts Pairs Sums SingleBit.
Import PairFacts SumFacts KernelFacts MeasureFacts SetBitFacts.
Import CoherentUnit States.
Local Open Scope R_scope.





End StateFacts.

Module InsertFacts.

Import Machine Pairs PairFacts BitFacts.

Lemma add_lor (a b : Z) : Z.land a b = 0 -> a + b = Z.lor a b.
Proof.
  intros H. rewrite (Z.add_nocarry_lxor a b H).
  apply Z.bits_inj'; intros k Hk.
  rewrite Z.lxor_spec, Z.lor_spec.
  assert (E : Z.testbit (Z.land a b) k = false) by (rewrite H; apply Z.bits_0).
  rewrite Z.land_spec in E.
  destruct (Z.testbit a k), (Z.testbit b k); simpl in *; auto; discriminate.
Qed.

(** Bits of [ins]: a zero enters at position [q]. *)
Lemma testbit_ins (q l k : Z) :
  0 <= q -> 0 <= k ->
  Z.testbit (ins (2 ^ q) l) k
  = if k <? q then Z.testbit l k else if k =? q then false else Z.testbit l (k - 1).
Proof.
  intros Hq Hk. unfold ins.
  assert (E2 : 2 * 2 ^ q = 2 ^ (q + 1)) by (rewrite Z.pow_add_r by lia; lia).
  rewrite E2.
  assert (Hd : Z.land (l / 2 ^ q * 2 ^ (q + 1)) (l mod 2 ^ q) = 0).
  { apply Z.bits_inj'; intros i Hi. rewrite Z.land_spec, Z.bits_0.
    destruct (Z.ltb_spec i q).
    - rewrite Z.mul_pow2_bits_low by lia. reflexivity.
    - rewrite Z.mod_pow2_bits_high by lia. apply andb_false_r. }
  rewrite (add_lor _ _ Hd), Z.lor_spec.
  destruct (Z.ltb_spec k q).
  - rewrite Z.mul_pow2_bits_low by lia. rewrite Z.mod_pow2_bits_low by lia. reflexivity.
  - rewrite Z.mod_pow2_bits_high by lia. rewrite orb_false_r.
    destruct (Z.eqb_spec k q) as [->|Hne].
    + apply Z.mul_pow2_bits_low. lia.
    + replace k with ((q + 1) + (k - (q + 1))) at 1 by lia.
      rewrite Z.mul_pow2_bits_add by lia.
      rewrite Z.div_pow2_bits by lia. f_equal. lia.
Qed.

(** Bits of [rem]: the bit at position [q] leaves. *)
Lemma testbit_rem (q j k : Z) :
  0 <= q -> 0 <= k ->
  Z.testbit (rem (2 ^ q) j) k = if k <? q then Z.testbit j k else Z.testbit j (k + 1).
Proof.
  intros Hq Hk. unfold rem.
  assert (E2 : 2 * 2 ^ q = 2 ^ (q + 1)) by (rewrite Z.pow_add_r by lia; lia).
  rewrite E2.
  assert (Hd : Z.land (j / 2 ^ (q + 1) * 2 ^ q) (j mod 2 ^ q) = 0).
  { apply Z.bits_inj'; intros i Hi. rewrite Z.land_spec, Z.bits_0.
    destruct (Z.ltb_spec i q).
    - rewrite Z.mul_pow2_bits_low by lia. reflexivity.
    - rewrite Z.mod_pow2_bits_high by lia. apply andb_false_r. }
  rewrite (add_lor _ _ Hd), Z.lor_spec.
  destruct (Z.ltb_spec k q).
  - rewrite Z.mul_pow2_bits_low by lia. rewrite Z.mod_pow2_bits_low by lia. reflexivity.
  - rewrite Z.mod_pow2_bits_high by lia. rewrite orb_false_r.
    replace k with (q + (k - q)) at 1 by lia.
    rewrite Z.mul_pow2_bits_add by lia.
    rewrite Z.div_pow2_bits by lia. f_equal. lia.
Qed.

Lemma pow2_pos (q : Z) : 0 <= q -> 0 < 2 ^ q.
Proof. intros; apply Z.pow_pos_nonneg; lia. Qed.

Lemma ins_nonneg (m l : Z) : 0 < m -> 0 <= l -> 0 <= ins m l.
Proof. intros Hm Hl. pose proof (ins_ge m l Hm Hl). lia. Qed.

(** Setting a bit that is clear is adding its power. *)
Lemma setbit_add (x q : Z) :
  0 <= q -> Z.testbit x q = false -> x + 2 ^ q = Z.lor x (2 ^ q).
Proof.
  intros Hq H. apply add_lor.
  apply Z.bits_inj'; intros k Hk. rewrite Z.land_spec, Z.bits_0, Z.pow2_bits_eqb by auto.
  destruct (Z.eqb_spec q k) as [<-|]; [now rewrite H | apply andb_false_r].
Qed.

Lemma testbit_setbit (x q k : Z) :
  0 <= q -> 0 <= k -> Z.testbit (Z.lor x (2 ^ q)) k = Z.testbit x k || (q =? k).
Proof. intros Hq Hk. now rewrite Z.lor_spec, Z.pow2_bits_eqb. Qed.

(** Inserting a zero above a bit commutes with setting the bit. *)
Lemma ins_setbit (q q' x : Z) :
  0 <= q < q' -> 0 <= x ->
  ins (2 ^ q') (Z.lor x (2 ^ q)) = Z.lor (ins (2 ^ q') x) (2 ^ q).
Proof.
  intros Hq Hx. apply Z.bits_inj'; intros k Hk.
  rewrite testbit_setbit, !testbit_ins by lia.
  destruct (Z.ltb_spec k q'); [now rewrite testbit_setbit by lia|].
  destruct (Z.eqb_spec k q') as [->|Hne].
  - symmetry. apply Z.eqb_neq. lia.
  - rewrite testbit_setbit by lia.
    replace (q =? k - 1) with false by (symmetry; apply Z.eqb_neq; lia).
    replace (q =? k) with false by (symmetry; apply Z.eqb_neq; lia).
    reflexivity.
Qed.

(** Removing a bit above a bit commutes with setting the bit. *)
Lemma rem_setbit_low (q q' x : Z) :
  0 <= q < q' -> rem (2 ^ q') (Z.lor x (2 ^ q)) = Z.lor (rem (2 ^ q') x) (2 ^ q).
Proof.
  intros Hq. apply Z.bits_inj'; intros k Hk.
  rewrite testbit_setbit, !testbit_rem, !testbit_setbit by lia.
  destruct (Z.ltb_spec k q'); [reflexivity|].
  replace (q =? k + 1) with false by (symmetry; apply Z.eqb_neq; lia).
  replace (q =? k) with false by (symmetry; apply Z.eqb_neq; lia).
  reflexivity.
Qed.

(** [rem] does not see the bit it removes. *)
Lemma rem_setbit_same (q x : Z) : 0 <= q -> rem (2 ^ q) (Z.lor x (2 ^ q)) = rem (2 ^ q) x.
Proof.
  intros Hq. apply Z.bits_inj'; intros k Hk.
  rewrite !testbit_rem, !testbit_setbit by lia.
  destruct (Z.ltb_spec k q).
  - replace (q =? k) with false by (symmetry; apply Z.eqb_neq; lia). apply orb_false_r.
  - replace (q =? k + 1) with false by (symmetry; apply Z.eqb_neq; lia). apply orb_false_r.
Qed.

(** Removing a bit below a bit moves the bit down by one place. *)
Lemma rem_setbit_high (q q' x : Z) :
  0 <= q' < q -> rem (2 ^ q') (Z.lor x (2 ^ q)) = Z.lor (rem (2 ^ q') x) (2 ^ (q - 1)).
Proof.
  intros Hq. apply Z.bits_inj'; intros k Hk.
  rewrite testbit_setbit, !testbit_rem, !testbit_setbit by lia.
  destruct (Z.ltb_spec k q').
  - replace (q =? k) with false by (symmetry; apply Z.eqb_neq; lia).
    replace (q - 1 =? k) with false by (symmetry; apply Z.eqb_neq; lia). reflexivity.
  - f_equal. destruct (Z.eqb_spec q (k + 1)), (Z.eqb_spec (q - 1) k); auto; lia.
Qed.

End InsertFacts.

Module MultiFacts.

Import Machine Pairs PairFacts BitFacts InsertFacts Multi.

Lemma asc_weaken (lo lo' hi : Z) (qs : list Z) : lo' <= lo -> asc lo hi qs -> asc lo' hi qs.
Proof. destruct qs; simpl; intros; [lia | intuition lia]. Qed.

Lemma asc_length (lo hi : Z) (qs : list Z) :
  asc lo hi qs -> lo + Z.of_nat (length qs) <= hi.
Proof.
  revert lo; induction qs as [|q t IH]; intros lo H; simpl in *; [lia|].
  destruct H as (H1 & H2). apply IH in H2. lia.
Qed.

Lemma asc_in (lo hi : Z) (qs : list Z) (q : Z) : asc lo hi qs -> In q qs -> lo <= q < hi.
Proof.
  revert lo; induction qs as [|q' t IH]; intros lo H Hin; simpl in *; [contradiction|].
  destruct H as (H1 & H2). destruct Hin as [->|Hin].
  - apply asc_length in H2. lia.
  - apply IH in H2; auto. lia.
Qed.

Lemma idx_cons (q : Z) (qs : list Z) (l : Z) :
  idx (pows (q :: qs)) l = idx (pows qs) (ins (2 ^ q) l).
Proof. reflexivity. Qed.

Lemma key_cons (q : Z) (qs : list Z) (j : Z) :
  key (pows (q :: qs)) j = rem (2 ^ q) (key (pows qs) j).
Proof. reflexivity. Qed.

Lemma idx_nonneg (lo hi : Z) (qs : list Z) (l : Z) :
  0 <= lo -> asc lo hi qs -> 0 <= l -> 0 <= idx (pows qs) l.
Proof.
  revert lo l; induction qs as [|q t IH]; intros lo l Hlo H Hl; [exact Hl|].
  destruct H as (H1 & H2). rewrite idx_cons.
  apply (IH (q + 1)); auto; [lia|]. apply ins_nonneg; auto. apply pow2_pos; lia.
Qed.

Lemma key_nonneg (lo hi : Z) (qs : list Z) (j : Z) :
  0 <= lo -> asc lo hi qs -> 0 <= j -> 0 <= key (pows qs) j.
Proof.
  revert lo; induction qs as [|q t IH]; intros lo Hlo H Hj; [exact Hj|].
  destruct H as (H1 & H2). rewrite key_cons.
  apply rem_nonneg; [apply pow2_pos; lia|]. apply (IH (q + 1)); auto; lia.
Qed.

(** The bits below the lowest power stay where they are. *)
Lemma idx_low_bits (lo hi : Z) (qs : list Z) (x k : Z) :
  0 <= lo -> asc lo hi qs -> 0 <= k < lo ->
  Z.testbit (idx (pows qs) x) k = Z.testbit x k.
Proof.
  revert lo x; induction qs as [|q t IH]; intros lo x Hlo H Hk; [reflexivity|].
  destruct H as (H1 & H2). rewrite idx_cons.
  rewrite (IH (q + 1)) by (auto; lia).
  rewrite testbit_ins by lia.
  now replace (k <? q) with true by (symmetry; apply Z.ltb_lt; lia).
Qed.

Lemma key_low_bits (lo hi : Z) (qs : list Z) (j k : Z) :
  0 <= lo -> asc lo hi qs -> 0 <= k < lo ->
  Z.testbit (key (pows qs) j) k = Z.testbit j k.
Proof.
  revert lo; induction qs as [|q t IH]; intros lo Hlo H Hk; [reflexivity|].
  destruct H as (H1 & H2). rewrite key_cons.
  rewrite testbit_rem by lia.
  replace (k <? q) with true by (symmetry; apply Z.ltb_lt; lia).
  apply (IH (q + 1)); auto; lia.
Qed.

(** The index has a zero at every power. *)
Lemma idx_clear (lo hi : Z) (qs : list Z) (x q : Z) :
  0 <= lo -> asc lo hi qs -> In q qs -> Z.testbit (idx (pows qs) x) q = false.
Proof.
  revert lo x; induction qs as [|q' t IH]; intros lo x Hlo H Hin; [contradiction|].
  destruct H as (H1 & H2). rewrite idx_cons. destruct Hin as [->|Hin].
  - rewrite (idx_low_bits (q + 1) hi) by (auto; lia).
    rewrite testbit_ins by lia.
    replace (q <? q) with false by (symmetry; apply Z.ltb_ge; lia).
    now rewrite Z.eqb_refl.
  - apply (IH (q' + 1)); auto. lia.
Qed.

Lemma key_idx (lo hi : Z) (qs : list Z) (l : Z) :
  0 <= lo -> asc lo hi qs -> key (pows qs) (idx (pows qs) l) = l.
Proof.
  revert lo l; induction qs as [|q t IH]; intros lo l Hlo H; [reflexivity|].
  destruct H as (H1 & H2). rewrite idx_cons, key_cons.
  rewrite (IH (q + 1)) by (auto; lia).
  apply rem_ins. apply pow2_pos; lia.
Qed.

(** Setting a bit below every power commutes with [key]. *)
Lemma key_setbit_low (lo hi : Z) (qs : list Z) (j q : Z) :
  0 <= q < lo -> asc lo hi qs ->
  key (pows qs) (Z.lor j (2 ^ q)) = Z.lor (key (pows qs) j) (2 ^ q).
Proof.
  revert lo; induction qs as [|q' t IH]; intros lo Hq H; [reflexivity|].
  destruct H as (H1 & H2). rewrite !key_cons.
  rewrite (IH (q' + 1)) by (auto; lia).
  apply rem_setbit_low. lia.
Qed.

(** [key] does not see the bits at the powers. *)
Lemma key_setbit (lo hi : Z) (qs : list Z) (j q : Z) :
  0 <= lo -> asc lo hi qs -> In q qs ->
  key (pows qs) (Z.lor j (2 ^ q)) = key (pows qs) j.
Proof.
  revert lo; induction qs as [|q' t IH]; intros lo Hlo H Hin; [contradiction|].
  destruct H as (H1 & H2). rewrite !key_cons. destruct Hin as [->|Hin].
  - rewrite (key_setbit_low (q + 1) hi) by (auto; lia).
    apply rem_setbit_same. lia.
  - now rewrite (IH (q' + 1)) by (auto; lia).
Qed.

(** An index with a zero at every power is the index of its counter. *)
Lemma idx_key (lo hi : Z) (qs : list Z) (j : Z) :
  0 <= lo -> asc lo hi qs -> 0 <= j ->
  (forall q, In q qs -> Z.testbit j q = false) ->
  idx (pows qs) (key (pows qs) j) = j.
Proof.
  revert lo; induction qs as [|q t IH]; intros lo Hlo H Hj Hc; [reflexivity|].
  destruct H as (H1 & H2). rewrite key_cons, idx_cons.
  assert (Hm : 0 < 2 ^ q) by (apply pow2_pos; lia).
  rewrite ins_rem by auto.
  assert (Eb : bitval (2 ^ q) (key (pows t) j) = 0).
  { unfold bitval. apply Z.testbit_false; [lia|].
    rewrite (key_low_bits (q + 1) hi) by (auto; lia).
    apply Hc. now left. }
  rewrite Eb, Z.mul_0_l, Z.sub_0_r.
  apply (IH (q + 1)); auto; [lia|]. intros q' Hq'. apply Hc. now right.
Qed.

(** The counters whose index is below [2 ^ n]. *)
Lemma idx_lt (lo n : Z) (qs : list Z) (l : Z) :
  0 <= lo -> asc lo n qs -> 0 <= l ->
  idx (pows qs) l < 2 ^ n <-> l < 2 ^ (n - Z.of_nat (length qs)).
Proof.
  revert lo l; induction qs as [|q t IH]; intros lo l Hlo H Hl.
  - simpl. now rewrite Z.sub_0_r.
  - destruct H as (H1 & H2). rewrite idx_cons.
    pose proof (asc_length _ _ _ H2) as HL.
    assert (Hm : 0 < 2 ^ q) by (apply pow2_pos; lia).
    rewrite (IH (q + 1)) by (auto; try lia; apply ins_nonneg; auto).
    cbn [length]. rewrite Nat2Z.inj_succ.
    set (k := Z.of_nat (length t)) in *.
    replace (2 ^ (n - k)) with (2 * 2 ^ q * 2 ^ (n - k - q - 1)).
    + rewrite ins_lt by auto.
      replace (n - Z.succ k) with (q + (n - k - q - 1)) by lia.
      rewrite Z.pow_add_r by lia. reflexivity.
    + replace (n - k) with (1 + q + (n - k - q - 1)) at 2 by lia.
      rewrite !Z.pow_add_r by lia. reflexivity.
Qed.

Lemma key_lt (lo n : Z) (qs : list Z) (j : Z) :
  0 <= lo -> asc lo n qs -> 0 <= j < 2 ^ n ->
  0 <= key (pows qs) j < 2 ^ (n - Z.of_nat (length qs)).
Proof.
  revert lo; induction qs as [|q t IH]; intros lo Hlo H Hj.
  - simpl. now rewrite Z.sub_0_r.
  - destruct H as (H1 & H2). rewrite key_cons.
    pose proof (asc_length _ _ _ H2) as HL.
    assert (Hm : 0 < 2 ^ q) by (apply pow2_pos; lia).
    specialize (IH (q + 1) ltac:(lia) H2 Hj).
    cbn [length]. rewrite Nat2Z.inj_succ.
    set (k := Z.of_nat (length t)) in *.
    replace (n - Z.succ k) with (q + (n - k - q - 1)) by lia.
    rewrite Z.pow_add_r by lia.
    apply rem_lt; auto.
    replace (2 * 2 ^ q * 2 ^ (n - k - q - 1)) with (2 ^ (n - k)); auto.
    replace (n - k) with (1 + q + (n - k - q - 1)) at 1 by lia.
    rewrite !Z.pow_add_r by lia. reflexivity.
Qed.

(** Setting in an index bits at powers: the sum is the union. *)
Lemma idx_setbit (lo hi : Z) (qs : list Z) (l q : Z) :
  0 <= lo -> asc lo hi qs -> In q qs ->
  idx (pows qs) l + 2 ^ q = Z.lor (idx (pows qs) l) (2 ^ q).
Proof.
  intros Hlo H Hin. apply setbit_add.
  - pose proof (asc_in _ _ _ _ H Hin). lia.
  - now apply (idx_clear lo hi).
Qed.

Lemma lor_pow2_lt (x q n : Z) : 0 <= x < 2 ^ n -> 0 <= q < n -> 0 <= Z.lor x (2 ^ q) < 2 ^ n.
Proof.
  intros Hx Hq.
  assert (H0 : 0 <= Z.lor x (2 ^ q)).
  { apply Z.lor_nonneg. split; [lia|]. apply Z.pow_nonneg; lia. }
  split; auto. apply below_pow2_of_bits; auto; [lia|].
  intros k Hk. rewrite testbit_setbit by lia.
  rewrite (testbit_above x n k) by (auto; lia).
  apply Z.eqb_neq. lia.
Qed.

End MultiFacts.

Module IndexFacts.

Import Machine Cplx Buf Pairs PairFacts BitFacts InsertFacts Multi MultiFacts.

(** Inserting a zero at a power is blind to what lies below a lower
    power. *)
Lemma ins_add_low (m' s t r : Z) :
  0 < m' -> 0 < s -> 0 <= t -> 0 <= r < m' ->
  ins (2 * m' * s) (2 * m' * t + r) = ins (2 * m' * s) (2 * m' * t) + r /\
  (2 * m' * t) mod (2 * m' * s) + r < 2 * m' * s.
Proof.
  intros Hm Hs Ht Hr.
  set (m := 2 * m' * s). set (y := 2 * m' * t).
  assert (Em : y mod m = 2 * m' * (t mod s)) by (apply Z.mul_mod_distr_l; lia).
  assert (Ed : y / m = t / s) by (apply Z.div_mul_cancel_l; lia).
  pose proof (Z.mod_pos_bound t s Hs) as Hb.
  assert (Hlt : y mod m + r < m) by (rewrite Em; unfold m; nia).
  split; auto.
  assert (Hy : y = m * (y / m) + y mod m) by (apply Z.div_mod; unfold m; nia).
  assert (E1 : (y + r) / m = y / m).
  { symmetry. apply (Z.div_unique _ _ _ (y mod m + r)); [|lia].
    left. split; [|lia]. rewrite Em. nia. }
  assert (E2 : (y + r) mod m = y mod m + r).
  { symmetry. apply (Z.mod_unique _ _ (y / m)); [|lia].
    left. split; [|lia]. rewrite Em. nia. }
  unfold ins. rewrite E1, E2. lia.
Qed.

(** One turn of the index loop of [apply2x2] without wrap-around. *)
Lemma index_step (i iH m : Z) :
  0 < m -> 0 <= i -> 0 <= iH -> i + 2 * iH < 2 ^ 63 ->
  add64 i (iH mod m) = i + iH mod m /\
  shl64 (sub64 iH (iH mod m)) 1 = 2 * (iH - iH mod m) /\
  0 <= iH mod m <= iH.
Proof.
  intros Hm Hi HiH Hb.
  pose proof (Z.mod_pos_bound iH m Hm) as Hmod.
  assert (Hle : iH mod m <= iH) by (apply Z.mod_le; lia).
  assert (H63 : 2 ^ 64 = 2 * 2 ^ 63) by reflexivity.
  unfold add64, sub64, shl64.
  rewrite (wrap64_small (i + iH mod m)) by lia.
  rewrite (wrap64_small (iH - iH mod m)) by lia.
  change (1 mod 64) with 1. rewrite Z.shiftl_mul_pow2 by lia. change (2 ^ 1) with 2.
  rewrite wrap64_small by lia. lia.
Qed.

Lemma pow2_times (a b : Z) : 0 <= a < b -> 2 ^ b = 2 * 2 ^ a * 2 ^ (b - a - 1).
Proof.
  intros H. replace b with (1 + a + (b - a - 1)) at 1 by lia.
  rewrite !Z.pow_add_r by lia. reflexivity.
Qed.

(** The index of [apply2x2] on two sorted powers. *)
Lemma index_two (N o1 o2 a b l : Z) :
  0 <= a < b -> b <= 30 -> 0 <= l <= 2 ^ 30 ->
  OCL.apply2x2_index (args N o1 o2 (pows [a; b])) l = idx (pows [a; b]) l.
Proof.
  intros Hab Hb Hl.
  assert (Hma : 0 < 2 ^ a) by (apply pow2_pos; lia).
  assert (Hmb : 0 < 2 ^ b) by (apply pow2_pos; lia).
  assert (H30 : 2 ^ 63 = 2 ^ 30 * 2 ^ 33) by reflexivity.
  assert (H33 : 0 < 2 ^ 33) by reflexivity.
  unfold OCL.apply2x2_index, args, pows. cbn [map length Z.of_nat Pos.of_succ_nat Pos.succ].
  change (OCL.arg _ 0) with 2. change (range 2) with [0; 1].
  cbn [fold_left].
  change (OCL.arg _ (4 + Z.to_nat 0)) with (2 ^ a).
  change (OCL.arg _ (4 + Z.to_nat 1)) with (2 ^ b).
  destruct (index_step 0 l (2 ^ a) Hma ltac:(lia) ltac:(lia) ltac:(nia)) as (E1 & E2 & B1).
  rewrite E1, E2. clear E1 E2.
  set (i1 := 0 + l mod 2 ^ a). set (h1 := 2 * (l - l mod 2 ^ a)).
  pose proof (Z.mod_pos_bound l (2 ^ a) Hma) as Hr1.
  destruct (index_step i1 h1 (2 ^ b) Hmb ltac:(unfold i1; lia) ltac:(unfold h1; lia)
              ltac:(unfold i1, h1; nia)) as (E1 & E2 & B2).
  rewrite E1, E2. clear E1 E2.
  unfold add64. rewrite wrap64_small by (unfold i1, h1 in *; nia).
  unfold idx. cbn [fold_left].
  rewrite <- (kernel_index_ins (2 ^ a) l Hma).
  fold h1. replace (l mod 2 ^ a + h1) with (h1 + l mod 2 ^ a) by lia.
  assert (Eh : h1 = 2 * 2 ^ a * (l / 2 ^ a)).
  { unfold h1. pose proof (Z.div_mod l (2 ^ a) ltac:(lia)). lia. }
  rewrite (pow2_times a b Hab). rewrite Eh.
  destruct (ins_add_low (2 ^ a) (2 ^ (b - a - 1)) (l / 2 ^ a) (l mod 2 ^ a))
    as (E & _); auto; [apply pow2_pos; lia | apply Z.div_pos; lia |].
  rewrite E. rewrite <- (kernel_index_ins (2 * 2 ^ a * 2 ^ (b - a - 1))) by nia.
  unfold i1. lia.
Qed.

(** The index of [apply2x2] on three sorted powers. *)
Lemma index_three (N o1 o2 a b c l : Z) :
  0 <= a < b -> b < c -> c <= 30 -> 0 <= l <= 2 ^ 30 ->
  OCL.apply2x2_index (args N o1 o2 (pows [a; b; c])) l = idx (pows [a; b; c]) l.
Proof.
  intros Hab Hbc Hc Hl.
  assert (Hma : 0 < 2 ^ a) by (apply pow2_pos; lia).
  assert (Hmb : 0 < 2 ^ b) by (apply pow2_pos; lia).
  assert (Hmc : 0 < 2 ^ c) by (apply pow2_pos; lia).
  assert (H30 : 2 ^ 63 = 2 ^ 30 * 2 ^ 33) by reflexivity.
  assert (H33 : 0 < 2 ^ 33) by reflexivity.
  unfold OCL.apply2x2_index, args, pows. cbn [map length Z.of_nat Pos.of_succ_nat Pos.succ].
  change (OCL.arg _ 0) with 3. change (range 3) with [0; 1; 2].
  cbn [fold_left].
  change (OCL.arg _ (4 + Z.to_nat 0)) with (2 ^ a).
  change (OCL.arg _ (4 + Z.to_nat 1)) with (2 ^ b).
  change (OCL.arg _ (4 + Z.to_nat 2)) with (2 ^ c).
  destruct (index_step 0 l (2 ^ a) Hma ltac:(lia) ltac:(lia) ltac:(nia)) as (E1 & E2 & B1).
  rewrite E1, E2. clear E1 E2.
  set (i1 := 0 + l mod 2 ^ a). set (h1 := 2 * (l - l mod 2 ^ a)).
  pose proof (Z.mod_pos_bound l (2 ^ a) Hma) as Hr1.
  destruct (index_step i1 h1 (2 ^ b) Hmb ltac:(unfold i1; lia) ltac:(unfold h1; lia)
              ltac:(unfold i1, h1; nia)) as (E1 & E2 & B2).
  rewrite E1, E2. clear E1 E2.
  set (i2 := i1 + h1 mod 2 ^ b). set (h2 := 2 * (h1 - h1 mod 2 ^ b)).
  destruct (index_step i2 h2 (2 ^ c) Hmc ltac:(unfold i2, i1; lia) ltac:(unfold h2; lia)
              ltac:(unfold i2, h2, i1, h1 in *; nia)) as (E1 & E2 & B3).
  rewrite E1, E2. clear E1 E2.
  unfold add64. rewrite wrap64_small by (unfold i2, h2, i1, h1 in *; nia).
  (* the two lower powers *)
  assert (Eh1 : h1 = 2 * 2 ^ a * (l / 2 ^ a)).
  { unfold h1. pose proof (Z.div_mod l (2 ^ a) ltac:(lia)). lia. }
  destruct (ins_add_low (2 ^ a) (2 ^ (b - a - 1)) (l / 2 ^ a) (l mod 2 ^ a))
    as (Ea & Elt); auto; [apply pow2_pos; lia | apply Z.div_pos; lia |].
  rewrite <- (pow2_times a b Hab), <- Eh1 in Ea, Elt.
  assert (E12 : ins (2 ^ b) (ins (2 ^ a) l) = h2 + i2).
  { rewrite <- (kernel_index_ins (2 ^ a) l Hma). fold h1.
    replace (l mod 2 ^ a + h1) with (h1 + l mod 2 ^ a) by lia.
    rewrite Ea, <- (kernel_index_ins (2 ^ b)) by auto.
    unfold h2, i2, i1. lia. }
  unfold idx. cbn [fold_left]. rewrite E12.
  assert (Eh2 : h2 = 2 * 2 ^ b * (h1 / 2 ^ b)).
  { unfold h2. pose proof (Z.div_mod h1 (2 ^ b) ltac:(lia)). lia. }
  destruct (ins_add_low (2 ^ b) (2 ^ (c - b - 1)) (h1 / 2 ^ b) i2)
    as (Eb & _); auto; [apply pow2_pos; lia | apply Z.div_pos; lia | unfold i2, i1; lia |].
  rewrite <- (pow2_times b c ltac:(lia)), <- Eh2 in Eb.
  rewrite Eb, <- (kernel_index_ins (2 ^ c)) by auto. lia.
Qed.

End IndexFacts.

Module LoopFacts.

Import Machine Cplx Buf Host ArrayFacts BitFacts Pairs SingleBit PairFacts Multi.

Section Loop.

Variables (cmplx : list Complex16) (ulong : list Z) (sv : list Complex16).
Variables (ix ky : Z -> Z) (role : Z -> option bool) (L N o1 o2 : Z).

Hypothesis HargN : OCL.arg ulong 1 = N.
Hypothesis Harg1 : OCL.arg ulong 2 = o1.
Hypothesis Harg2 : OCL.arg ulong 3 = o2.
Hypothesis Hlen : Z.of_nat (length sv) = N.
Hypothesis HN : N < 2 ^ 62.
Hypothesis HL : 0 <= L <= N.
Hypothesis Ho : 0 <= o1 /\ 0 <= o2 /\ o1 <> o2.
Hypothesis Hix : forall l, 0 <= l <= L -> OCL.apply2x2_index ulong l = ix l.
Hypothesis Hin : forall l, 0 <= l < L -> 0 <= ix l < N.
Hypothesis Hstop : N <= ix L.
Hypothesis Hc1 : forall l, 0 <= l < L ->
  ix l + o1 < N /\ ky (ix l + o1) = l /\ role (ix l + o1) = Some true.
Hypothesis Hc2 : forall l, 0 <= l < L ->
  ix l + o2 < N /\ ky (ix l + o2) = l /\ role (ix l + o2) = Some false.
Hypothesis Hback : forall j, 0 <= j < N ->
  (role j = Some true -> 0 <= ky j < L /\ j = ix (ky j) + o1) /\
  (role j = Some false -> 0 <= ky j < L /\ j = ix (ky j) + o2).

Lemma body_at (i : Z) (st : list Complex16) :
  0 <= i -> i + o1 < N -> i + o2 < N -> length st = length sv ->
  OCL.apply2x2_body cmplx ulong i st
  = Some (put (i + o2) (gate1 cmplx (load C0 st (i + o1)) (load C0 st (i + o2)))
            (put (i + o1) (gate0 cmplx (load C0 st (i + o1)) (load C0 st (i + o2))) st)).
Proof.
  intros Hi H1 H2 Hl. destruct Ho as (Ho1 & Ho2 & _).
  unfold OCL.apply2x2_body. rewrite Harg1, Harg2.
  assert (H64 : 2 ^ 64 = 4 * 2 ^ 62) by reflexivity.
  unfold add64. rewrite !wrap64_small by lia.
  rewrite store_some by lia.
  rewrite store_some by (rewrite put_length; lia).
  reflexivity.
Qed.

Lemma turned_next (k : Z) (st : list Complex16) :
  0 <= k < L -> turned cmplx o1 o2 ky role k sv st ->
  turned cmplx o1 o2 ky role (k + 1) sv
    (put (ix k + o2) (gate1 cmplx (load C0 st (ix k + o1)) (load C0 st (ix k + o2)))
       (put (ix k + o1) (gate0 cmplx (load C0 st (ix k + o1)) (load C0 st (ix k + o2))) st)).
Proof.
  intros Hk (Hl & H). destruct Ho as (Ho1 & Ho2 & Hne).
  destruct (Hc1 k Hk) as (B1 & K1 & R1). destruct (Hc2 k Hk) as (B2 & K2 & R2).
  pose proof (Hin k Hk) as Hi.
  assert (E1 : load C0 st (ix k + o1) = load C0 sv (ix k + o1)).
  { rewrite H by lia. rewrite R1, K1.
    now replace (k <? k) with false by (symmetry; apply Z.ltb_ge; lia). }
  assert (E2 : load C0 st (ix k + o2) = load C0 sv (ix k + o2)).
  { rewrite H by lia. rewrite R2, K2.
    now replace (k <? k) with false by (symmetry; apply Z.ltb_ge; lia). }
  rewrite E1, E2. split; [now rewrite !put_length|].
  intros j Hj.
  destruct (Z.eq_dec j (ix k + o2)) as [->|Hn2].
  - rewrite load_put_eq by (rewrite put_length; lia).
    rewrite R2, K2.
    replace (k <? k + 1) with true by (symmetry; apply Z.ltb_lt; lia).
    now replace (ix k + o2 - o2 + o1) with (ix k + o1) by lia.
  - rewrite load_put_neq by lia.
    destruct (Z.eq_dec j (ix k + o1)) as [->|Hn1].
    + rewrite load_put_eq by lia.
      rewrite R1, K1.
      replace (k <? k + 1) with true by (symmetry; apply Z.ltb_lt; lia).
      now replace (ix k + o1 - o1 + o2) with (ix k + o2) by lia.
    + rewrite load_put_neq by lia.
      rewrite H by lia.
      destruct (Hback j ltac:(lia)) as (Bt & Bf).
      destruct (role j) as [[|]|]; auto.
      * destruct (Bt eq_refl) as (Hr & Ej).
        assert (ky j <> k) by (intros E; rewrite E in Ej; lia).
        destruct (Z.ltb_spec (ky j) k), (Z.ltb_spec (ky j) (k + 1)); auto; lia.
      * destruct (Bf eq_refl) as (Hr & Ej).
        assert (ky j <> k) by (intros E; rewrite E in Ej; lia).
        destruct (Z.ltb_spec (ky j) k), (Z.ltb_spec (ky j) (k + 1)); auto; lia.
Qed.

Lemma loop_turns (fuel : nat) (k : Z) (st : list Complex16) :
  0 <= k <= L -> (Z.to_nat (L - k) < fuel)%nat ->
  turned cmplx o1 o2 ky role k sv st ->
  exists st',
    OCL.apply2x2_loop fuel cmplx ulong k st = Some st' /\
    turned cmplx o1 o2 ky role L sv st'.
Proof.
  revert k st. induction fuel as [|fuel IH]; intros k st Hk Hf Ht; [lia|].
  cbn [OCL.apply2x2_loop]. rewrite HargN.
  rewrite Hix by lia.
  destruct (Z.eq_dec k L) as [->|Hne].
  - replace (ix L <? N) with false by (symmetry; apply Z.ltb_ge; lia). eauto.
  - assert (Hk' : 0 <= k < L) by lia.
    pose proof (Hin k Hk') as Hi.
    replace (ix k <? N) with true by (symmetry; apply Z.ltb_lt; lia).
    destruct (Hc1 k Hk') as (B1 & _). destruct (Hc2 k Hk') as (B2 & _).
    rewrite body_at by (try lia; apply Ht).
    apply IH; [lia | lia |]. now apply turned_next.
Qed.

(** The kernel [apply2x2] when its pairs are disjoint: the first cell of
    every pair receives the first row of the matrix applied to the pair, the
    second cell the second row, and the cells outside the pairs are left as
    they are. *)
Lemma apply2x2_pairs :
  exists st,
    OCL.apply2x2 sv cmplx ulong = Some st /\
    length st = length sv /\
    forall j, 0 <= j < N ->
      load C0 st j =
        match role j with
        | Some true => gate0 cmplx (load C0 sv j) (load C0 sv (j - o1 + o2))
        | Some false => gate1 cmplx (load C0 sv (j - o2 + o1)) (load C0 sv j)
        | None => load C0 sv j
        end.
Proof.
  unfold OCL.apply2x2. rewrite HargN.
  destruct (loop_turns (S (Z.to_nat N)) 0 sv) as (st & E & Hl & H); [lia | lia | |].
  - split; auto. intros j Hj.
    destruct (Hback j ltac:(lia)) as (Bt & Bf).
    destruct (role j) as [[|]|]; auto.
    + destruct (Bt eq_refl) as (Hr & _).
      now replace (ky j <? 0) with false by (symmetry; apply Z.ltb_ge; lia).
    + destruct (Bf eq_refl) as (Hr & _).
      now replace (ky j <? 0) with false by (symmetry; apply Z.ltb_ge; lia).
  - exists st. split; auto. split; auto.
    intros j Hj. rewrite H by lia.
    destruct (Hback j Hj) as (Bt & Bf).
    destruct (role j) as [[|]|]; auto.
    + destruct (Bt eq_refl) as (Hr & _).
      now replace (ky j <? L) with true by (symmetry; apply Z.ltb_lt; lia).
    + destruct (Bf eq_refl) as (Hr & _).
      now replace (ky j <? L) with true by (symmetry; apply Z.ltb_lt; lia).
Qed.

End Loop.

End LoopFacts.

Module CellFacts.

Import Machine Cplx Buf Host Shape ArrayFacts BitFacts Pairs SingleBit PairFacts.
Import InsertFacts Multi MultiFacts IndexFacts.

Lemma existsb_eqb_in (q : Z) (S : list Z) : existsb (Z.eqb q) S = true <-> In q S.
Proof.
  rewrite existsb_exists. split.
  - intros (x & Hx & E). apply Z.eqb_eq in E. now subst.
  - intros H. exists q. split; auto. apply Z.eqb_refl.
Qed.

Lemma existsb_eqb_notin (q : Z) (S : list Z) : ~ In q S -> existsb (Z.eqb q) S = false.
Proof.
  intros H. destruct (existsb (Z.eqb q) S) eqn:E; auto.
  apply existsb_eqb_in in E. contradiction.
Qed.

Lemma total_cons (q : Z) (S : list Z) : total (pows (q :: S)) = 2 ^ q + total (pows S).
Proof. reflexivity. Qed.

(** The cell of the counter [l] whose bits at [S] are set. *)
Lemma cells (lo n : Z) (qs S : list Z) (l : Z) :
  0 <= lo -> asc lo n qs -> incl S qs -> NoDup S -> 0 <= l -> idx (pows qs) l < 2 ^ n ->
  0 <= idx (pows qs) l + total (pows S) < 2 ^ n /\
  key (pows qs) (idx (pows qs) l + total (pows S)) = l /\
  forall q, In q qs ->
    Z.testbit (idx (pows qs) l + total (pows S)) q = existsb (Z.eqb q) S.
Proof.
  intros Hlo Ha Hincl Hnd Hl Hlt.
  induction S as [|q S IH].
  - unfold total, pows; cbn [map fold_right]. rewrite Z.add_0_r.
    split; [|split].
    + split; auto. now apply (idx_nonneg lo n).
    + now apply (key_idx lo n).
    + intros q Hq. now apply (idx_clear lo n).
  - rewrite total_cons.
    assert (Hq : In q qs) by (apply Hincl; now left).
    pose proof (asc_in _ _ _ _ Ha Hq) as Hqr.
    inversion Hnd as [|? ? Hni Hnd']; subst.
    destruct IH as (B & K & T); [intros x Hx; apply Hincl; now right | auto |].
    set (j' := idx (pows qs) l + total (pows S)) in *.
    assert (Ec : Z.testbit j' q = false).
    { rewrite T by auto. now apply existsb_eqb_notin. }
    replace (idx (pows qs) l + (2 ^ q + total (pows S))) with (j' + 2 ^ q) by (unfold j'; lia).
    rewrite (setbit_add j' q ltac:(lia) Ec).
    split; [|split].
    + apply lor_pow2_lt; lia.
    + rewrite (key_setbit lo n) by auto. exact K.
    + intros q0 Hq0. pose proof (asc_in _ _ _ _ Ha Hq0).
      rewrite testbit_setbit by lia. rewrite T by auto.
      cbn [existsb]. rewrite (Z.eqb_sym q0 q). apply orb_comm.
Qed.

Lemma clear_set_bit (j q : Z) :
  0 <= q -> 0 <= j -> Z.testbit j q = true ->
  0 <= Z.lxor j (2 ^ q) /\ j = Z.lxor j (2 ^ q) + 2 ^ q /\
  j = Z.lor (Z.lxor j (2 ^ q)) (2 ^ q).
Proof.
  intros Hq Hj H.
  assert (E : Z.lxor j (2 ^ q) = j - 2 ^ q).
  { rewrite <- SwapFacts.partner_lxor by auto. unfold partner.
    now rewrite GateFacts.bitval_testbit, H by auto. }
  assert (H0 : 0 <= Z.lxor j (2 ^ q)).
  { apply Z.lxor_nonneg. split; intros; auto. apply Z.pow_nonneg; lia. }
  split; auto. split; [lia|].
  rewrite <- setbit_add; [lia | auto |].
  rewrite GateFacts.testbit_lxor_pow2 by auto. now rewrite H.
Qed.

(** An index whose bits at the qubits [qs] are those of [S] is the cell of
    its counter. *)
Lemma back (lo n : Z) (qs S : list Z) (j : Z) :
  0 <= lo -> asc lo n qs -> incl S qs -> NoDup S -> 0 <= j ->
  (forall q, In q qs -> Z.testbit j q = existsb (Z.eqb q) S) ->
  j = idx (pows qs) (key (pows qs) j) + total (pows S).
Proof.
  intros Hlo Ha. revert j.
  induction S as [|q S IH]; intros j Hincl Hnd Hj Hb.
  - unfold total, pows; cbn [map fold_right]. rewrite Z.add_0_r.
    symmetry. apply (idx_key lo n); auto.
  - rewrite total_cons.
    assert (Hq : In q qs) by (apply Hincl; now left).
    pose proof (asc_in _ _ _ _ Ha Hq) as Hqr.
    inversion Hnd as [|? ? Hni Hnd']; subst.
    assert (Hs : Z.testbit j q = true).
    { rewrite Hb by auto. cbn [existsb]. now rewrite Z.eqb_refl. }
    destruct (clear_set_bit j q ltac:(lia) Hj Hs) as (H0 & Eadd & Elor).
    set (j' := Z.lxor j (2 ^ q)) in *.
    assert (E : j' = idx (pows qs) (key (pows qs) j') + total (pows S)).
    { apply IH; auto.
      - intros x Hx; apply Hincl; now right.
      - intros q0 Hq0. pose proof (asc_in _ _ _ _ Ha Hq0).
        unfold j'. rewrite Z.lxor_spec, Z.pow2_bits_eqb by lia.
        rewrite Hb by auto. cbn [existsb]. rewrite (Z.eqb_sym q0 q).
        destruct (Z.eqb_spec q q0) as [<-|Hne]; cbn [orb xorb].
        + now rewrite existsb_eqb_notin.
        + now rewrite xorb_false_r. }
    assert (Ek : key (pows qs) j = key (pows qs) j').
    { rewrite Elor. now apply (key_setbit lo n). }
    rewrite Ek. lia.
Qed.

Lemma marks_spec (qs S : list Z) (j : Z) :
  marks qs S j = true <-> forall q, In q qs -> Z.testbit j q = existsb (Z.eqb q) S.
Proof.
  unfold marks. rewrite forallb_forall. split; intros H q Hq.
  - apply eqb_prop. now apply H.
  - rewrite (H q Hq). apply eqb_reflx.
Qed.

End CellFacts.

Module PairGateFacts.

Import Machine Cplx Buf Host Shape ArrayFacts BitFacts Pairs SingleBit PairFacts.
Import InsertFacts Multi MultiFacts IndexFacts CellFacts Gates.
Import CoherentUnit.

Lemma total_nonneg (lo n : Z) (qs S : list Z) :
  0 <= lo -> asc lo n qs -> incl S qs -> 0 <= total (pows S).
Proof.
  intros Hlo Ha. induction S as [|q S IH]; intros Hincl; [reflexivity|].
  rewrite total_cons.
  assert (Hq : In q qs) by (apply Hincl; now left).
  pose proof (asc_in _ _ _ _ Ha Hq).
  assert (0 < 2 ^ q) by (apply pow2_pos; lia).
  assert (0 <= total (pows S)) by (apply IH; intros x Hx; apply Hincl; now right).
  lia.
Qed.

(** The array [Apply2x2] packs for two or three sorted powers. *)
Lemma packed (N o1 o2 : Z) (qs : list Z) :
  (length qs = 2 \/ length qs = 3)%nat ->
  fold_left (fun acc i => put (4 + i) (load 0 (pows qs) i) acc)
    (range (Z.of_nat (length qs)))
    [Z.of_nat (length qs); N; o1; o2; 0; 0; 0; 0; 0; 0]
  = args N o1 o2 (pows qs).
Proof.
  intros [H|H].
  - destruct qs as [|a [|b [|c qs]]]; try discriminate. reflexivity.
  - destruct qs as [|a [|b [|c [|d qs]]]]; try discriminate. reflexivity.
Qed.

Lemma index_sorted (N o1 o2 : Z) (qs : list Z) (l : Z) :
  asc 0 30 qs -> (length qs = 2 \/ length qs = 3)%nat -> 0 <= l <= 2 ^ 30 ->
  OCL.apply2x2_index (args N o1 o2 (pows qs)) l = idx (pows qs) l.
Proof.
  intros Ha [H|H] Hl.
  - destruct qs as [|a [|b [|c qs]]]; try discriminate.
    cbn in Ha. apply index_two; lia.
  - destruct qs as [|a [|b [|c [|d qs]]]]; try discriminate.
    cbn in Ha. apply index_three; lia.
Qed.

(** [Apply2x2] on two or three sorted qubits, the first cells of the pairs
    having the bits [S1] set and the second cells the bits [S2]: the first
    cell receives the first row of the matrix applied to the pair, the
    second cell the second row, times the norm factor; every other
    amplitude stays. *)
Lemma Apply2x2_roles (qs S1 S2 : list Z) (mtrx : Mtrx) (dAN dCN : bool) (c : t) :
  well_formed c -> asc 0 (qubitCount c) qs -> (length qs = 2 \/ length qs = 3)%nat ->
  incl S1 qs -> NoDup S1 -> incl S2 qs -> NoDup S2 ->
  (exists q, In q qs /\ existsb (Z.eqb q) S1 <> existsb (Z.eqb q) S2) ->
  exists st,
    Apply2x2 (total (pows S1)) (total (pows S2)) mtrx (Z.of_nat (length qs)) (pows qs)
      dAN dCN c = Ok (finish dCN c st) /\
    length st = length (stateVec c) /\
    forall j, 0 <= j < maxQPower c ->
      load C0 st j =
        match role qs S1 S2 j with
        | Some true =>
            scale (add (mul (m0 mtrx) (load C0 (stateVec c) j))
                       (mul (m1 mtrx)
                          (load C0 (stateVec c) (j - total (pows S1) + total (pows S2)))))
              (if dAN then 1 / runningNorm c else 1)%R
        | Some false =>
            scale (add (mul (m2 mtrx)
                          (load C0 (stateVec c) (j - total (pows S2) + total (pows S1))))
                       (mul (m3 mtrx) (load C0 (stateVec c) j)))
              (if dAN then 1 / runningNorm c else 1)%R
        | None => load C0 (stateVec c) j
        end.
Proof.
  intros (Hn & HN & Hlen) Ha Hk Hi1 Hd1 Hi2 Hd2 (q0 & Hq0 & Hdiff).
  set (n := qubitCount c) in *. set (N := maxQPower c) in *.
  set (o1 := total (pows S1)). set (o2 := total (pows S2)).
  set (k := Z.of_nat (length qs)).
  set (cmplx := [m0 mtrx; m1 mtrx; m2 mtrx; m3 mtrx;
                 cplx (if dAN then 1 / runningNorm c else 1)%R 0]).
  pose proof (asc_length _ _ _ Ha) as HkN. fold k in HkN.
  assert (Hk0 : 0 <= k) by (unfold k; lia).
  assert (Ha30 : asc 0 30 qs).
  { clear - Ha Hn. revert Ha. generalize 0 at 1 2. 
    induction qs as [|q t IH]; intros lo H; simpl in *; [lia|].
    destruct H as (H1 & H2). split; auto. }
  assert (HL : 0 < 2 ^ (n - k)) by (apply pow2_pos; lia).
  assert (ENL : N = 2 ^ k * 2 ^ (n - k)).
  { rewrite HN, <- Z.pow_add_r by lia. f_equal. lia. }
  assert (Hk1 : 1 <= 2 ^ k) by (pose proof (pow2_pos k Hk0); lia).
  assert (HN30 : N <= 2 ^ 30) by (rewrite HN; apply Z.pow_le_mono_r; lia).
  assert (Ho1 : 0 <= o1) by (apply (total_nonneg 0 n qs); auto; lia).
  assert (Ho2 : 0 <= o2) by (apply (total_nonneg 0 n qs); auto; lia).
  assert (Hcell : forall S l, incl S qs -> NoDup S -> 0 <= l < 2 ^ (n - k) ->
            0 <= idx (pows qs) l + total (pows S) < N /\
            key (pows qs) (idx (pows qs) l + total (pows S)) = l /\
            marks qs S (idx (pows qs) l + total (pows S)) = true).
  { intros S l HiS HdS Hl.
    assert (Hlt : idx (pows qs) l < 2 ^ n) by (apply (idx_lt 0 n); auto; fold k; lia).
    destruct (cells 0 n qs S l) as (B & K & T); auto; try lia.
    rewrite HN. repeat split; auto; try lia. now apply marks_spec. }
  assert (Hne : o1 <> o2).
  { intros E. destruct (Hcell S1 0 Hi1 Hd1 ltac:(lia)) as (_ & _ & M1).
    destruct (Hcell S2 0 Hi2 Hd2 ltac:(lia)) as (_ & _ & M2).
    fold o1 in M1. fold o2 in M2. rewrite <- E in M2.
    apply Hdiff. rewrite <- (proj1 (marks_spec qs S1 _) M1 q0 Hq0).
    now rewrite <- (proj1 (marks_spec qs S2 _) M2 q0 Hq0). }
  assert (Hm12 : forall j, marks qs S2 j = true -> marks qs S1 j = false).
  { intros j M2. destruct (marks qs S1 j) eqn:M1; auto.
    exfalso. apply Hdiff.
    rewrite <- (proj1 (marks_spec qs S1 _) M1 q0 Hq0).
    now rewrite <- (proj1 (marks_spec qs S2 _) M2 q0 Hq0). }
  destruct (LoopFacts.apply2x2_pairs cmplx (args N o1 o2 (pows qs)) (stateVec c)
              (idx (pows qs)) (key (pows qs)) (role qs S1 S2) (2 ^ (n - k)) N o1 o2)
    as (st & E & L & Hpt); auto.
  - assert (H62 : 2 ^ 30 < 2 ^ 62) by reflexivity. lia.
  - nia.
  - intros l Hl. apply index_sorted; auto. nia.
  - intros l Hl. split; [apply (idx_nonneg 0 n); auto; lia|].
    rewrite HN. apply (idx_lt 0 n); auto; fold k; lia.
  - rewrite HN. destruct (Z.lt_ge_cases (idx (pows qs) (2 ^ (n - k))) (2 ^ n)) as [C|C]; [|lia].
    apply (idx_lt 0 n) in C; auto; fold k in C; lia.
  - intros l Hl. destruct (Hcell S1 l Hi1 Hd1 Hl) as (B & K & M).
    fold o1 in B, K, M. split; [lia|]. split; auto. unfold role. now rewrite M.
  - intros l Hl. destruct (Hcell S2 l Hi2 Hd2 Hl) as (B & K & M).
    fold o2 in B, K, M. split; [lia|]. split; auto. unfold role.
    now rewrite (Hm12 _ M), M.
  - intros j Hj. unfold role.
    assert (Hkey : 0 <= key (pows qs) j < 2 ^ (n - k)).
    { unfold k. apply (key_lt 0 n); auto; lia. }
    destruct (marks qs S1 j) eqn:M1; [|destruct (marks qs S2 j) eqn:M2].
    + split; [|intros; discriminate]. intros _. split; auto.
      apply (back 0 n); auto; try lia. now apply marks_spec.
    + split; [intros; discriminate|]. intros _. split; auto.
      apply (back 0 n); auto; try lia. now apply marks_spec.
    + split; intros; discriminate.
  - exists st. split; [|split; auto].
    + unfold Apply2x2. fold N. rewrite packed by auto.
      fold cmplx. fold o1 o2. rewrite E. unfold finish, with_state. destruct dCN; reflexivity.
    + intros j Hj. rewrite (Hpt j Hj). unfold cmplx.
      destruct (role qs S1 S2 j) as [[|]|]; auto.
      * apply GateFacts.gate0_product.
      * apply GateFacts.gate1_product.
Qed.

End PairGateFacts.

Module ControlledFacts.

Import Machine Cplx Buf Host Shape ArrayFacts BitFacts Pairs SingleBit PairFacts.
Import InsertFacts Multi MultiFacts IndexFacts CellFacts Gates PairGateFacts.
Import CoherentUnit.

(** [marks] on two and on three qubits. *)
Lemma marks_two (qs S : list Z) (x y j : Z) :
  (forall q, In q qs <-> q = x \/ q = y) ->
  marks qs S j
  = Bool.eqb (Z.testbit j x) (existsb (Z.eqb x) S)
    && Bool.eqb (Z.testbit j y) (existsb (Z.eqb y) S).
Proof.
  intros Hin. apply eq_iff_eq_true.
  rewrite marks_spec, andb_true_iff, !eqb_true_iff. split.
  - intros H. split; apply H; apply Hin; auto.
  - intros (Hx & Hy) q Hq. apply Hin in Hq. destruct Hq as [->| ->]; auto.
Qed.

Lemma marks_three (qs S : list Z) (x y z j : Z) :
  (forall q, In q qs <-> q = x \/ q = y \/ q = z) ->
  marks qs S j
  = Bool.eqb (Z.testbit j x) (existsb (Z.eqb x) S)
    && Bool.eqb (Z.testbit j y) (existsb (Z.eqb y) S)
    && Bool.eqb (Z.testbit j z) (existsb (Z.eqb z) S).
Proof.
  intros Hin. apply eq_iff_eq_true.
  rewrite marks_spec, !andb_true_iff, !eqb_true_iff. split.
  - intros H. repeat split; apply H; apply Hin; auto.
  - intros ((Hx & Hy) & Hz) q Hq. apply Hin in Hq. destruct Hq as [->|[->| ->]]; auto.
Qed.

(** Two distinct qubits in ascending order, as the host sorts them. *)
Lemma sorted_pair (x y n : Z) :
  0 <= x < n -> 0 <= y < n -> x <> y ->
  exists qs,
    (if x <? y then [bitpow x; bitpow y] else [bitpow y; bitpow x]) = pows qs /\
    asc 0 n qs /\ length qs = 2%nat /\ (forall q, In q qs <-> q = x \/ q = y).
Proof.
  intros Hx Hy Hne. destruct (Z.ltb_spec x y).
  - exists [x; y]. rewrite !bitpow_pow2 by lia. repeat split; simpl; try lia; intuition.
  - exists [y; x]. rewrite !bitpow_pow2 by lia. repeat split; simpl; try lia; intuition.
Qed.

Lemma existsb_one (q x : Z) : existsb (Z.eqb q) [x] = (q =? x).
Proof. simpl. apply orb_false_r. Qed.

Lemma existsb_two (q x y : Z) : existsb (Z.eqb q) [x; y] = (q =? x) || (q =? y).
Proof. simpl. now rewrite orb_false_r. Qed.

Lemma lxor_set (j q : Z) :
  0 <= q -> 0 <= j -> Z.testbit j q = true -> Z.lxor j (2 ^ q) = j - 2 ^ q.
Proof.
  intros Hq Hj H. rewrite <- SwapFacts.partner_lxor by auto. unfold partner.
  now rewrite GateFacts.bitval_testbit, H by auto.
Qed.

Lemma lxor_clear (j q : Z) :
  0 <= q -> 0 <= j -> Z.testbit j q = false -> Z.lxor j (2 ^ q) = j + 2 ^ q.
Proof.
  intros Hq Hj H. rewrite <- SwapFacts.partner_lxor by auto. unfold partner.
  now rewrite GateFacts.bitval_testbit, H by auto.
Qed.

Lemma add64_pows (x y : Z) : 0 <= x <= 30 -> 0 <= y <= 30 -> add64 (2 ^ x) (2 ^ y) = 2 ^ x + 2 ^ y.
Proof.
  intros Hx Hy. unfold add64. apply wrap64_small.
  assert (2 ^ x <= 2 ^ 30) by (apply Z.pow_le_mono_r; lia).
  assert (2 ^ y <= 2 ^ 30) by (apply Z.pow_le_mono_r; lia).
  assert (0 < 2 ^ x) by (apply pow2_pos; lia).
  assert (0 < 2 ^ y) by (apply pow2_pos; lia).
  assert (2 ^ 30 + 2 ^ 30 < 2 ^ 64) by reflexivity. lia.
Qed.

(** A controlled gate: where the control bit is set, the pair of the target
    receives the matrix (the amplitude whose target bit is set first);
    elsewhere nothing changes.  No norm factor is applied. *)
Lemma Controlled_pointwise (control target : Z) (mtrx : Mtrx) (d : bool) (c : t) :
  well_formed c -> 0 <= control < qubitCount c -> 0 <= target < qubitCount c ->
  control <> target ->
  exists st,
    ApplyControlled2x2 control target mtrx d c = Ok (finish d c st) /\
    length st = length (stateVec c) /\
    forall j, 0 <= j < maxQPower c ->
      load C0 st j =
        if Z.testbit j control then
          if Z.testbit j target
          then add (mul (m0 mtrx) (load C0 (stateVec c) j))
                   (mul (m1 mtrx) (load C0 (stateVec c) (Z.lxor j (2 ^ target))))
          else add (mul (m2 mtrx) (load C0 (stateVec c) (Z.lxor j (2 ^ target))))
                   (mul (m3 mtrx) (load C0 (stateVec c) j))
        else load C0 (stateVec c) j.
Proof.
  intros Hwf Hc Ht Hne.
  pose proof Hwf as (Hn & HN & Hlen).
  destruct (sorted_pair control target (qubitCount c) Hc Ht Hne) as (qs & Eq & Ha & Hl & Hin).
  destruct (Apply2x2_roles qs [control; target] [control] mtrx false d c Hwf Ha)
    as (st & E & L & Hpt).
  - now left.
  - intros q [<-|[<-|[]]]; apply Hin; auto.
  - repeat constructor; simpl; intuition.
  - intros q [<-|[]]; apply Hin; auto.
  - repeat constructor; simpl; intuition.
  - exists target. split; [apply Hin; auto|].
    rewrite existsb_two, existsb_one, Z.eqb_refl.
    replace (target =? control) with false by (symmetry; apply Z.eqb_neq; lia).
    discriminate.
  - exists st. split; [|split; auto].
    + unfold ApplyControlled2x2. rewrite Eq, <- E, Hl.
      unfold total, pows; cbn [map fold_right].
      rewrite !bitpow_pow2, add64_pows by lia.
      rewrite !Z.add_0_r. reflexivity.
    + intros j Hj. rewrite (Hpt j Hj). unfold role.
      rewrite !(marks_two qs _ control target j Hin).
      rewrite !existsb_two, !existsb_one, !Z.eqb_refl.
      replace (target =? control) with false by (symmetry; apply Z.eqb_neq; lia).
      unfold total, pows; cbn [map fold_right orb]. rewrite !Z.add_0_r.
      destruct (Z.testbit j control) eqn:Ec, (Z.testbit j target) eqn:Et; cbn.
      * rewrite lxor_set by (auto; lia).
        replace (j - (2 ^ control + 2 ^ target) + 2 ^ control) with (j - 2 ^ target) by lia.
        destruct (add _ _); unfold scale; simpl; f_equal; lra.
      * rewrite lxor_clear by (auto; lia).
        replace (j - 2 ^ control + (2 ^ control + 2 ^ target)) with (j + 2 ^ target) by lia.
        destruct (add _ _); unfold scale; simpl; f_equal; lra.
      * reflexivity.
      * reflexivity.
Qed.

(** An anti-controlled gate: where the control bit is clear, the pair of
    the target receives the matrix (the amplitude whose target bit is clear
    first); elsewhere nothing changes. *)
Lemma AntiControlled_pointwise (control target : Z) (mtrx : Mtrx) (d : bool) (c : t) :
  well_formed c -> 0 <= control < qubitCount c -> 0 <= target < qubitCount c ->
  control <> target ->
  exists st,
    ApplyAntiControlled2x2 control target mtrx d c = Ok (finish d c st) /\
    length st = length (stateVec c) /\
    forall j, 0 <= j < maxQPower c ->
      load C0 st j =
        if Z.testbit j control then load C0 (stateVec c) j
        else
          if Z.testbit j target
          then add (mul (m2 mtrx) (load C0 (stateVec c) (Z.lxor j (2 ^ target))))
                   (mul (m3 mtrx) (load C0 (stateVec c) j))
          else add (mul (m0 mtrx) (load C0 (stateVec c) j))
                   (mul (m1 mtrx) (load C0 (stateVec c) (Z.lxor j (2 ^ target)))).
Proof.
  intros Hwf Hc Ht Hne.
  pose proof Hwf as (Hn & HN & Hlen).
  destruct (sorted_pair control target (qubitCount c) Hc Ht Hne) as (qs & Eq & Ha & Hl & Hin).
  destruct (Apply2x2_roles qs [] [target] mtrx false d c Hwf Ha)
    as (st & E & L & Hpt).
  - now left.
  - intros q [].
  - constructor.
  - intros q [<-|[]]; apply Hin; auto.
  - repeat constructor; simpl; intuition.
  - exists target. split; [apply Hin; auto|].
    rewrite existsb_one, Z.eqb_refl. simpl. discriminate.
  - exists st. split; [|split; auto].
    + unfold ApplyAntiControlled2x2. rewrite Eq, <- E, Hl.
      unfold total, pows; cbn [map fold_right].
      rewrite !bitpow_pow2 by lia.
      rewrite !Z.add_0_r. reflexivity.
    + intros j Hj. rewrite (Hpt j Hj). unfold role.
      rewrite !(marks_two qs _ control target j Hin).
      rewrite !existsb_one, !Z.eqb_refl.
      replace (control =? target) with false by (symmetry; apply Z.eqb_neq; lia).
      unfold total, pows; cbn [map fold_right orb existsb]. rewrite !Z.add_0_r.
      destruct (Z.testbit j control) eqn:Ec, (Z.testbit j target) eqn:Et; cbn.
      * reflexivity.
      * reflexivity.
      * rewrite lxor_set by (auto; lia).
        replace (j - 2 ^ target + 0) with (j - 2 ^ target) by lia.
        destruct (add _ _); unfold scale; simpl; f_equal; lra.
      * rewrite lxor_clear by (auto; lia).
        replace (j - 0 + 2 ^ target) with (j + 2 ^ target) by lia.
        destruct (add _ _); unfold scale; simpl; f_equal; lra.
Qed.

End ControlledFacts.

Module PermuteFacts.

Import Machine Cplx Buf Host Shape ArrayFacts BitFacts Pairs SingleBit PairFacts.
Import InsertFacts Multi MultiFacts IndexFacts CellFacts Gates PairGateFacts ControlledFacts.
Import CoherentUnit.

(** A gate that moves the amplitudes along an involution of the indices and
    sets [runningNorm] to 1. *)
Lemma permuting_gate (G : t -> outcome t) (sigma : Z -> Z) (c : t) :
  well_formed c ->
  (forall j, 0 <= j < maxQPower c -> 0 <= sigma j < maxQPower c /\ sigma (sigma j) = j) ->
  (forall c0, well_formed c0 -> qubitCount c0 = qubitCount c ->
     exists st,
       G c0 = Ok (finish false c0 st) /\
       length st = length (stateVec c0) /\
       forall j, 0 <= j < maxQPower c0 -> load C0 st j = load C0 (stateVec c0) (sigma j)) ->
  exists c',
    G c = Ok c' /\ well_formed c' /\ runningNorm c' = 1%R /\
    (forall j, 0 <= j < maxQPower c ->
       load C0 (stateVec c') j = load C0 (stateVec c) (sigma j)) /\
    (runningNorm c = 1%R -> G c' = Ok c).
Proof.
  intros Hwf Hs HG.
  destruct (HG c Hwf eq_refl) as (st & E & L & Hpt).
  set (c' := finish false c st) in *.
  assert (Hwf' : well_formed c').
  { destruct Hwf as (A & B & C). unfold well_formed, c', finish.
    cbn [qubitCount maxQPower stateVec]. rewrite L. auto. }
  exists c'. split; [exact E|]. split; [exact Hwf'|]. split; [reflexivity|].
  split; [exact Hpt|].
  intros Hrn.
  destruct (HG c' Hwf' eq_refl) as (st2 & E2 & L2 & Hpt2).
  rewrite E2. f_equal.
  destruct c as [rn qc mq sv g]. unfold c', finish in *.
  cbn [runningNorm qubitCount maxQPower stateVec rand_generator] in *.
  subst rn. f_equal.
  apply (load_ext C0); [lia|].
  intros j Hj.
  destruct Hwf as (A & B & C). cbn [qubitCount maxQPower stateVec] in A, B, C.
  assert (Hj' : 0 <= j < mq) by lia.
  destruct (Hs j Hj') as (Hr & Hi).
  now rewrite (Hpt2 j Hj'), (Hpt _ Hr), Hi.
Qed.

Lemma testbit_lxor_other (j q k : Z) :
  0 <= q -> 0 <= k -> q <> k -> Z.testbit (Z.lxor j (2 ^ q)) k = Z.testbit j k.
Proof.
  intros Hq Hk Hne. rewrite Z.lxor_spec, Z.pow2_bits_false by lia. apply xorb_false_r.
Qed.

(** The indices move along "complement bit [t] where [p] holds", [p] not
    depending on bit [t]. *)
Lemma conditional_flip (p : Z -> bool) (t n : Z) (j : Z) :
  0 <= t < n -> (forall i, p (Z.lxor i (2 ^ t)) = p i) -> 0 <= j < 2 ^ n ->
  let sigma := fun i => if p i then Z.lxor i (2 ^ t) else i in
  0 <= sigma j < 2 ^ n /\ sigma (sigma j) = j.
Proof.
  intros Ht Hp Hj sigma. unfold sigma.
  destruct (p j) eqn:E.
  - split; [apply GateFacts.lxor_pow2_bounds; lia|].
    rewrite Hp, E. apply lxor_involutive.
  - split; [lia|]. now rewrite E.
Qed.

End PermuteFacts.

Module SwapGateFacts.

Import Machine Cplx Buf Host Shape ArrayFacts BitFacts Pairs SingleBit PairFacts.
Import InsertFacts Multi MultiFacts IndexFacts CellFacts Gates PairGateFacts ControlledFacts.
Import PermuteFacts.
Import CoherentUnit.

Ltac decide_pows :=
  repeat match goal with
  | |- context [2 ^ ?x <=? 2 ^ ?y] =>
      first [ replace (2 ^ x <=? 2 ^ y) with true
                by (symmetry; apply Z.leb_le; apply Z.pow_le_mono_r; lia)
            | replace (2 ^ x <=? 2 ^ y) with false
                by (symmetry; apply Z.leb_gt; apply Z.pow_lt_mono_r; lia) ]
  end.

(** Three distinct qubits in ascending order, as [std::sort] leaves their
    powers. *)
Lemma sorted_triple (x y z n : Z) :
  0 <= x < n -> 0 <= y < n -> 0 <= z < n -> x <> y -> x <> z -> y <> z ->
  exists qs,
    sort [bitpow x; bitpow y; bitpow z] = pows qs /\
    asc 0 n qs /\ length qs = 3%nat /\ (forall q, In q qs <-> q = x \/ q = y \/ q = z).
Proof.
  intros Hx Hy Hz Hxy Hxz Hyz. rewrite !bitpow_pow2 by lia.
  unfold sort; cbn [fold_right sort_insert].
  destruct (Z.lt_ge_cases x y), (Z.lt_ge_cases y z), (Z.lt_ge_cases x z); try lia.
  - exists [x; y; z]. decide_pows. cbn [sort_insert]. decide_pows.
    repeat split; simpl; try lia; intuition.
  - exists [x; z; y]. decide_pows. cbn [sort_insert]. decide_pows. cbn [sort_insert].
    decide_pows. repeat split; simpl; try lia; intuition.
  - exists [z; x; y]. decide_pows. cbn [sort_insert]. decide_pows. cbn [sort_insert].
    decide_pows. repeat split; simpl; try lia; intuition.
  - exists [y; x; z]. decide_pows. cbn [sort_insert]. decide_pows. cbn [sort_insert].
    decide_pows. repeat split; simpl; try lia; intuition.
  - exists [y; z; x]. decide_pows. cbn [sort_insert]. decide_pows. cbn [sort_insert].
    decide_pows. repeat split; simpl; try lia; intuition.
  - exists [z; y; x]. decide_pows. cbn [sort_insert]. decide_pows. cbn [sort_insert].
    decide_pows. repeat split; simpl; try lia; intuition.
Qed.

Lemma add64_pows3 (x y z : Z) :
  0 <= x <= 30 -> 0 <= y <= 30 -> 0 <= z <= 30 ->
  add64 (add64 (2 ^ x) (2 ^ y)) (2 ^ z) = 2 ^ x + 2 ^ y + 2 ^ z.
Proof.
  intros Hx Hy Hz. rewrite add64_pows by lia. unfold add64. apply wrap64_small.
  assert (2 ^ x <= 2 ^ 30) by (apply Z.pow_le_mono_r; lia).
  assert (2 ^ y <= 2 ^ 30) by (apply Z.pow_le_mono_r; lia).
  assert (2 ^ z <= 2 ^ 30) by (apply Z.pow_le_mono_r; lia).
  assert (0 < 2 ^ x) by (apply pow2_pos; lia).
  assert (0 < 2 ^ y) by (apply pow2_pos; lia).
  assert (0 < 2 ^ z) by (apply pow2_pos; lia).
  assert (3 * 2 ^ 30 < 2 ^ 64) by reflexivity. lia.
Qed.

Lemma existsb_three (q x y z : Z) :
  existsb (Z.eqb q) [x; y; z] = (q =? x) || (q =? y) || (q =? z).
Proof. simpl. now rewrite orb_false_r, orb_assoc. Qed.

Lemma pauliX_row0 (a b : Complex16) :
  scale (add (mul (m0 pauliX) a) (mul (m1 pauliX) b)) 1 = b.
Proof.
  destruct a as [x y], b as [x' y'].
  unfold pauliX, scale, add, mul, cplx, real, imag; cbn [m0 m1 fst snd]; f_equal; ring.
Qed.

Lemma pauliX_row1 (a b : Complex16) :
  scale (add (mul (m2 pauliX) a) (mul (m3 pauliX) b)) 1 = a.
Proof.
  destruct a as [x y], b as [x' y'].
  unfold pauliX, scale, add, mul, cplx, real, imag; cbn [m2 m3 fst snd]; f_equal; ring.
Qed.

(** [CCNOT] on three distinct qubits, index by index. *)
Lemma CCNOT_pointwise (control1 control2 target : Z) (c : t) :
  well_formed c ->
  0 <= control1 < qubitCount c -> 0 <= control2 < qubitCount c -> 0 <= target < qubitCount c ->
  control1 <> control2 -> control1 <> target -> control2 <> target ->
  exists st,
    CCNOT control1 control2 target c = Ok (finish false c st) /\
    length st = length (stateVec c) /\
    forall j, 0 <= j < maxQPower c ->
      load C0 st j
      = load C0 (stateVec c)
          (if Z.testbit j control1 && Z.testbit j control2 then Z.lxor j (2 ^ target) else j).
Proof.
  intros Hwf H1 H2 Ht N12 N1t N2t.
  pose proof Hwf as (Hn & HN & Hlen).
  destruct (sorted_triple control1 control2 target (qubitCount c))
    as (qs & Eq & Ha & Hl & Hin); auto.
  destruct (Apply2x2_roles qs [control1; control2; target] [control1; control2] pauliX
              false false c Hwf Ha) as (st & E & L & Hpt).
  - now right.
  - intros q [<-|[<-|[<-|[]]]]; apply Hin; auto.
  - repeat constructor; simpl; intuition.
  - intros q [<-|[<-|[]]]; apply Hin; auto.
  - repeat constructor; simpl; intuition.
  - exists target. split; [apply Hin; auto|].
    rewrite existsb_three, existsb_two, Z.eqb_refl.
    replace (target =? control1) with false by (symmetry; apply Z.eqb_neq; lia).
    replace (target =? control2) with false by (symmetry; apply Z.eqb_neq; lia).
    discriminate.
  - exists st. split; [|split; auto].
    + unfold CCNOT.
      replace (control1 =? control2) with false by (symmetry; apply Z.eqb_neq; lia).
      replace (control1 =? target) with false by (symmetry; apply Z.eqb_neq; lia).
      replace (control2 =? target) with false by (symmetry; apply Z.eqb_neq; lia).
      cbn [orb]. rewrite Eq, <- E, Hl.
      unfold total, pows; cbn [map fold_right].
      rewrite !bitpow_pow2, add64_pows3, add64_pows by lia.
      rewrite !Z.add_0_r, !Z.add_assoc. reflexivity.
    + intros j Hj. rewrite (Hpt j Hj). unfold role.
      rewrite !(marks_three qs _ control1 control2 target j Hin).
      rewrite !existsb_three, !existsb_two, !Z.eqb_refl.
      replace (target =? control1) with false by (symmetry; apply Z.eqb_neq; lia).
      replace (target =? control2) with false by (symmetry; apply Z.eqb_neq; lia).
      unfold total, pows; cbn [map fold_right orb]. rewrite !Z.add_0_r, !orb_true_r.
      destruct (Z.testbit j control1) eqn:E1, (Z.testbit j control2) eqn:E2,
               (Z.testbit j target) eqn:Et; cbn; try reflexivity.
      * rewrite pauliX_row0, lxor_set by (auto; lia). f_equal; lia.
      * rewrite pauliX_row1, lxor_clear by (auto; lia). f_equal; lia.
Qed.

(** [AntiCCNOT] on three distinct qubits, index by index. *)
Lemma AntiCCNOT_pointwise (control1 control2 target : Z) (c : t) :
  well_formed c ->
  0 <= control1 < qubitCount c -> 0 <= control2 < qubitCount c -> 0 <= target < qubitCount c ->
  control1 <> control2 -> control1 <> target -> control2 <> target ->
  exists st,
    AntiCCNOT control1 control2 target c = Ok (finish false c st) /\
    length st = length (stateVec c) /\
    forall j, 0 <= j < maxQPower c ->
      load C0 st j
      = load C0 (stateVec c)
          (if negb (Z.testbit j control1) && negb (Z.testbit j control2)
           then Z.lxor j (2 ^ target) else j).
Proof.
  intros Hwf H1 H2 Ht N12 N1t N2t.
  pose proof Hwf as (Hn & HN & Hlen).
  destruct (sorted_triple control1 control2 target (qubitCount c))
    as (qs & Eq & Ha & Hl & Hin); auto.
  destruct (Apply2x2_roles qs [] [target] pauliX false false c Hwf Ha)
    as (st & E & L & Hpt).
  - now right.
  - intros q [].
  - constructor.
  - intros q [<-|[]]; apply Hin; auto.
  - repeat constructor; simpl; intuition.
  - exists target. split; [apply Hin; auto|].
    rewrite existsb_one, Z.eqb_refl. simpl. discriminate.
  - exists st. split; [|split; auto].
    + unfold AntiCCNOT.
      replace (control1 =? control2) with false by (symmetry; apply Z.eqb_neq; lia).
      replace (control1 =? target) with false by (symmetry; apply Z.eqb_neq; lia).
      replace (control2 =? target) with false by (symmetry; apply Z.eqb_neq; lia).
      cbn [orb]. rewrite Eq, <- E, Hl.
      unfold total, pows; cbn [map fold_right].
      rewrite !bitpow_pow2 by lia.
      rewrite !Z.add_0_r. reflexivity.
    + intros j Hj. rewrite (Hpt j Hj). unfold role.
      rewrite !(marks_three qs _ control1 control2 target j Hin).
      rewrite !existsb_one, !Z.eqb_refl.
      replace (control1 =? target) with false by (symmetry; apply Z.eqb_neq; lia).
      replace (control2 =? target) with false by (symmetry; apply Z.eqb_neq; lia).
      unfold total, pows; cbn [map fold_right orb existsb]. rewrite !Z.add_0_r.
      destruct (Z.testbit j control1) eqn:E1, (Z.testbit j control2) eqn:E2,
               (Z.testbit j target) eqn:Et; cbn; try reflexivity.
      * rewrite pauliX_row1, lxor_set by (auto; lia). f_equal; lia.
      * rewrite pauliX_row0, lxor_clear by (auto; lia). f_equal; lia.
Qed.

(** [Swap] on two distinct qubits, index by index. *)
Lemma Swap_pointwise (q1 q2 : Z) (c : t) :
  well_formed c -> 0 <= q1 < qubitCount c -> 0 <= q2 < qubitCount c -> q1 <> q2 ->
  exists st,
    Swap q1 q2 c = Ok (finish false c st) /\
    length st = length (stateVec c) /\
    forall j, 0 <= j < maxQPower c ->
      load C0 st j
      = load C0 (stateVec c)
          (if Bool.eqb (Z.testbit j q1) (Z.testbit j q2) then j
           else Z.lxor (Z.lxor j (2 ^ q1)) (2 ^ q2)).
Proof.
  intros Hwf H1 H2 Hne.
  pose proof Hwf as (Hn & HN & Hlen).
  destruct (sorted_pair q1 q2 (qubitCount c) H1 H2 Hne) as (qs & Eq & Ha & Hl & Hin).
  destruct (Apply2x2_roles qs [q2] [q1] pauliX false false c Hwf Ha) as (st & E & L & Hpt).
  - now left.
  - intros q [<-|[]]; apply Hin; auto.
  - repeat constructor; simpl; intuition.
  - intros q [<-|[]]; apply Hin; auto.
  - repeat constructor; simpl; intuition.
  - exists q1. split; [apply Hin; auto|].
    rewrite !existsb_one, Z.eqb_refl.
    replace (q1 =? q2) with false by (symmetry; apply Z.eqb_neq; lia).
    discriminate.
  - exists st. split; [|split; auto].
    + unfold Swap.
      replace (q1 =? q2) with false by (symmetry; apply Z.eqb_neq; lia).
      cbn [negb]. rewrite Eq, <- E, Hl.
      unfold total, pows; cbn [map fold_right].
      rewrite !bitpow_pow2 by lia.
      rewrite !Z.add_0_r. reflexivity.
    + intros j Hj. rewrite (Hpt j Hj). unfold role.
      rewrite !(marks_two qs _ q1 q2 j Hin).
      rewrite !existsb_one, !Z.eqb_refl.
      replace (q1 =? q2) with false by (symmetry; apply Z.eqb_neq; lia).
      replace (q2 =? q1) with false by (symmetry; apply Z.eqb_neq; lia).
      unfold total, pows; cbn [map fold_right]. rewrite !Z.add_0_r.
      assert (Hj0 : 0 <= j) by lia.
      destruct (Z.testbit j q1) eqn:E1, (Z.testbit j q2) eqn:E2; cbn; try reflexivity.
      * rewrite pauliX_row1. f_equal.
        rewrite (lxor_set j q1) by (auto; lia).
        rewrite lxor_clear; [lia | lia | |].
        -- assert (0 < 2 ^ q1) by (apply pow2_pos; lia).
           rewrite <- (lxor_set j q1) by (auto; lia).
           apply Z.lxor_nonneg. split; intros; auto. lia.
        -- rewrite <- (lxor_set j q1) by (auto; lia).
           rewrite testbit_lxor_other by lia. exact E2.
      * rewrite pauliX_row0. f_equal.
        rewrite (lxor_clear j q1) by (auto; lia).
        assert (0 < 2 ^ q1) by (apply pow2_pos; lia).
        rewrite lxor_set; [lia | lia | lia |].
        rewrite <- (lxor_clear j q1) by (auto; lia).
        rewrite testbit_lxor_other by lia. exact E2.
Qed.

(** Exchanging two bits of an index is an involution of the indices. *)
Lemma swap_bits_involution (q1 q2 n j : Z) :
  0 <= q1 < n -> 0 <= q2 < n -> q1 <> q2 -> 0 <= j < 2 ^ n ->
  let sigma := fun i => if Bool.eqb (Z.testbit i q1) (Z.testbit i q2) then i
                        else Z.lxor (Z.lxor i (2 ^ q1)) (2 ^ q2) in
  0 <= sigma j < 2 ^ n /\ sigma (sigma j) = j.
Proof.
  intros H1 H2 Hne Hj sigma. unfold sigma.
  destruct (Bool.eqb (Z.testbit j q1) (Z.testbit j q2)) eqn:E.
  - split; [lia|]. now rewrite E.
  - split.
    + apply GateFacts.lxor_pow2_bounds; [lia|]. apply GateFacts.lxor_pow2_bounds; lia.
    + assert (E' : Bool.eqb (Z.testbit (Z.lxor (Z.lxor j (2 ^ q1)) (2 ^ q2)) q1)
                     (Z.testbit (Z.lxor (Z.lxor j (2 ^ q1)) (2 ^ q2)) q2) = false).
      { rewrite GateFacts.testbit_lxor_pow2 by lia.
        rewrite (testbit_lxor_other _ q2 q1) by lia.
        rewrite GateFacts.testbit_lxor_pow2 by lia.
        rewrite (testbit_lxor_other _ q1 q2) by lia.
        destruct (Z.testbit j q1), (Z.testbit j q2); auto. }
      rewrite E'.
      apply Z.bits_inj'; intros k Hk. rewrite !Z.lxor_spec.
      destruct (Z.testbit j k), (Z.testbit (2 ^ q1) k), (Z.testbit (2 ^ q2) k); reflexivity.
Qed.

End SwapGateFacts.

(** ** Bit fields: the kernels [rol], [add] and [sub] *)
Module FieldFacts.

Import Machine Cplx Buf Host Shape ArrayFacts BitFacts Fields.

Lemma testbit_field (s len i k : Z) :
  0 <= s -> 0 <= len -> 0 <= k ->
  Z.testbit (field s len i) k = (k <? len) && Z.testbit i (k + s).
Proof.
  intros Hs Hl Hk; unfold field.
  destruct (Z.ltb_spec k len).
  - rewrite Z.mod_pow2_bits_low by lia. now rewrite Z.div_pow2_bits by lia.
  - now rewrite Z.mod_pow2_bits_high by lia.
Qed.

Lemma field_bounds (s len i : Z) : 0 <= len -> 0 <= field s len i < 2 ^ len.
Proof. intros; unfold field; apply Z.mod_pos_bound, Z.pow_pos_nonneg; lia. Qed.

Lemma field_land (s len i : Z) :
  0 <= s -> 0 <= len -> Z.shiftr (Z.land i (range_mask s len)) s = field s len i.
Proof.
  intros Hs Hl; apply Z.bits_inj'; intros k Hk.
  rewrite Z.shiftr_spec, Z.land_spec, testbit_range_mask, testbit_field by lia.
  destruct (Z.leb_spec s (k + s)), (Z.ltb_spec (k + s) (s + len)), (Z.ltb_spec k len),
    (Z.testbit i (k + s)); simpl; auto; lia.
Qed.

(** Two indices with the same bits are the same index; the bits of a field
    and the bits outside it are all the bits. *)
Lemma field_ext (s len i j : Z) :
  0 <= s -> 0 <= len ->
  field s len i = field s len j -> same_outside s len i j -> i = j.
Proof.
  intros Hs Hl Hf Ho; apply Z.bits_inj'; intros k Hk.
  destruct (Z.lt_ge_cases k s) as [|H1]; [symmetry; apply Ho; lia|].
  destruct (Z.lt_ge_cases k (s + len)) as [H2|]; [|symmetry; apply Ho; lia].
  assert (E := f_equal (fun v => Z.testbit v (k - s)) Hf); cbv beta in E.
  rewrite !testbit_field in E by lia.
  replace (k - s + s) with k in E by lia.
  replace (k - s <? len) with true in E by (symmetry; apply Z.ltb_lt; lia).
  exact E.
Qed.

Lemma fits_lor (n x y : Z) :
  0 <= n -> 0 <= x < 2 ^ n -> 0 <= y < 2 ^ n -> 0 <= Z.lor x y < 2 ^ n.
Proof.
  intros Hn Hx Hy.
  assert (H0 : 0 <= Z.lor x y) by (apply Z.lor_nonneg; lia).
  split; auto. apply below_pow2_of_bits; auto.
  intros k Hk; rewrite Z.lor_spec, (testbit_above x n k), (testbit_above y n k); auto.
Qed.

Lemma fits_land (n x y : Z) :
  0 <= n -> 0 <= x < 2 ^ n -> 0 <= y -> 0 <= Z.land x y < 2 ^ n.
Proof.
  intros Hn Hx Hy.
  assert (H0 : 0 <= Z.land x y) by (apply Z.land_nonneg; lia).
  split; auto. apply below_pow2_of_bits; auto.
  intros k Hk; rewrite Z.land_spec, (testbit_above x n k); auto.
Qed.

Lemma fits_64 (n x : Z) : 0 <= n <= 63 -> 0 <= x < 2 ^ n -> 0 <= x < 2 ^ 63.
Proof.
  intros Hn Hx; split; [lia|].
  assert (2 ^ n <= 2 ^ 63) by (apply Z.pow_le_mono_r; lia). lia.
Qed.

(** An addition of two words with no common bit is their bitwise or. *)
Lemma add64_lor (n x y : Z) :
  0 <= n <= 63 -> 0 <= x < 2 ^ n -> 0 <= y < 2 ^ n -> Z.land x y = 0 ->
  add64 x y = Z.lor x y.
Proof.
  intros Hn Hx Hy H.
  assert (E : x + y = Z.lor x y)
    by (rewrite Z.add_nocarry_lxor by auto; apply Z.lxor_lor; auto).
  unfold add64; rewrite E; apply wrap64_small.
  assert (B := fits_lor n x y ltac:(lia) Hx Hy).
  assert (B' := fits_64 n _ Hn B).
  change (2 ^ 64) with (2 * 2 ^ 63); lia.
Qed.

Lemma add64_assoc (a b c : Z) : add64 (add64 a b) c = add64 a (add64 b c).
Proof.
  unfold add64, wrap64.
  rewrite Zplus_mod_idemp_l, Zplus_mod_idemp_r; f_equal; lia.
Qed.

Lemma range_mask_fits (s len n : Z) :
  0 <= s -> 0 <= len -> s + len <= n -> 0 <= range_mask s len < 2 ^ n.
Proof.
  intros Hs Hl Hn.
  assert (B := range_mask_bounds s len n Hs Hl Hn); lia.
Qed.

(** [otherMask = (1 << qubitCount) - 1 - mask] keeps the bits of the
    register that are not in [mask]. *)
Lemma other_mask_ldiff (qc m : Z) :
  0 <= qc <= 62 -> 0 <= m < 2 ^ qc ->
  sub64 (sub64 (bitpow qc) 1) m = Z.ldiff (Z.ones qc) m.
Proof.
  intros Hq Hm.
  assert (Hp := pow2_le_64 qc ltac:(lia)).
  unfold sub64. rewrite bitpow_pow2 by lia.
  rewrite (wrap64_small (2 ^ qc - 1)) by lia.
  rewrite wrap64_small by lia.
  replace (2 ^ qc - 1) with (Z.ones qc) by (rewrite Z.ones_equiv; lia).
  apply Z.sub_nocarry_ldiff.
  apply Z.bits_inj'; intros k Hk.
  rewrite Z.ldiff_spec, Z.bits_0, Z.testbit_ones_nonneg by lia.
  destruct (Z.ltb_spec k qc); simpl.
  - apply andb_false_r.
  - now rewrite (testbit_above m qc k) by lia.
Qed.

Lemma length_mask (len : Z) : 0 <= len <= 62 -> sub64 (bitpow len) 1 = Z.ones len.
Proof.
  intros H. assert (Hp := pow2_le_64 len ltac:(lia)).
  unfold sub64; rewrite bitpow_pow2 by lia.
  rewrite wrap64_small by lia. rewrite Z.ones_equiv; lia.
Qed.

Lemma shl64_small (v s n : Z) :
  0 <= s -> 0 <= n -> s + n <= 63 -> 0 <= v < 2 ^ n -> shl64 v s = Z.shiftl v s.
Proof.
  intros Hs Hn Hb Hv; unfold shl64.
  rewrite Z.mod_small by lia.
  apply wrap64_small. rewrite Z.shiftl_mul_pow2 by lia.
  assert (0 < 2 ^ s) by (apply Z.pow_pos_nonneg; lia).
  assert (2 ^ n * 2 ^ s <= 2 ^ 63)
    by (rewrite <- Z.pow_add_r by lia; apply Z.pow_le_mono_r; lia).
  change (2 ^ 64) with (2 * 2 ^ 63); nia.
Qed.

Lemma shr64_small (v s : Z) : 0 <= s <= 63 -> shr64 v s = Z.shiftr v s.
Proof. intros H; unfold shr64; now rewrite Z.mod_small by lia. Qed.

(** The index the kernels build: the field value [V] at [s] and the bits
    of [j] outside the field. *)
Lemma placed (qc s len V j : Z) :
  0 <= s -> 0 <= len -> s + len <= qc -> qc <= 62 ->
  0 <= V < 2 ^ len -> 0 <= j < 2 ^ qc ->
  let d := add64 (shl64 V s) (Z.land j (Z.ldiff (Z.ones qc) (range_mask s len))) in
  0 <= d < 2 ^ qc /\
  forall k, 0 <= k ->
    Z.testbit d k
    = if (s <=? k) && (k <? s + len) then Z.testbit V (k - s) else Z.testbit j k.
Proof.
  intros Hs Hl Hb Hq HV Hj d.
  assert (Hm := range_mask_fits s len qc Hs Hl Hb).
  assert (HO : 0 <= Z.ldiff (Z.ones qc) (range_mask s len)).
  { apply Z.ldiff_nonneg; left. rewrite Z.ones_equiv.
    assert (0 < 2 ^ qc) by (apply Z.pow_pos_nonneg; lia). lia. }
  assert (HK := fits_land qc j _ ltac:(lia) Hj HO).
  assert (HS : 0 <= Z.shiftl V s < 2 ^ qc).
  { rewrite Z.shiftl_mul_pow2 by lia.
    assert (0 < 2 ^ s) by (apply Z.pow_pos_nonneg; lia).
    assert (2 ^ len * 2 ^ s <= 2 ^ qc)
      by (rewrite <- Z.pow_add_r by lia; apply Z.pow_le_mono_r; lia).
    nia. }
  assert (Ed : d = Z.lor (Z.shiftl V s) (Z.land j (Z.ldiff (Z.ones qc) (range_mask s len)))).
  { unfold d. rewrite (shl64_small V s len) by lia.
    apply (add64_lor qc); auto; [lia|].
    apply Z.bits_inj'; intros k Hk.
    rewrite !Z.land_spec, Z.ldiff_spec, Z.bits_0, Z.shiftl_spec by lia.
    rewrite testbit_range_mask by lia.
    destruct (Z.leb_spec s k); simpl.
    - destruct (Z.ltb_spec k (s + len)); simpl.
      + now rewrite !andb_false_r.
      + now rewrite (testbit_above V len (k - s)) by lia.
    - now rewrite Z.testbit_neg_r by lia. }
  split; [rewrite Ed; apply fits_lor; auto; lia|].
  intros k Hk; rewrite Ed.
  rewrite Z.lor_spec, Z.land_spec, Z.ldiff_spec, Z.shiftl_spec by lia.
  rewrite testbit_range_mask, Z.testbit_ones_nonneg by lia.
  destruct (Z.leb_spec s k); simpl.
  - destruct (Z.ltb_spec k (s + len)); simpl.
    + now rewrite !andb_false_r, orb_false_r.
    + rewrite (testbit_above V len (k - s)) by lia; simpl.
      rewrite andb_true_r.
      destruct (Z.ltb_spec k qc); [now rewrite andb_true_r|].
      now rewrite (testbit_above j qc k) by lia.
  - rewrite Z.testbit_neg_r by lia; simpl. rewrite andb_true_r.
    replace (k <? qc) with true by (symmetry; apply Z.ltb_lt; lia).
    now rewrite andb_true_r.
Qed.

(** What [placed] says in terms of fields. *)
Lemma placed_field (s len V j d : Z) :
  0 <= s -> 0 <= len -> 0 <= V < 2 ^ len ->
  (forall k, 0 <= k ->
     Z.testbit d k
     = if (s <=? k) && (k <? s + len) then Z.testbit V (k - s) else Z.testbit j k) ->
  field s len d = V /\ same_outside s len j d.
Proof.
  intros Hs Hl HV H; split.
  - apply Z.bits_inj'; intros k Hk.
    rewrite testbit_field, H by lia.
    destruct (Z.ltb_spec k len); simpl.
    + replace ((s <=? k + s) && (k + s <? s + len)) with true
        by (symmetry; apply andb_true_intro; split; [apply Z.leb_le | apply Z.ltb_lt]; lia).
      f_equal; lia.
    + now rewrite (testbit_above V len k) by lia.
  - intros k Hk Hout; rewrite H by auto.
    destruct (Z.leb_spec s k), (Z.ltb_spec k (s + len)); simpl; auto; lia.
Qed.

(** A field of an index is a field of every index with the same bits
    there. *)
Lemma field_same_outside (s len s' len' i j : Z) :
  0 <= s -> 0 <= len -> 0 <= s' -> 0 <= len' ->
  s + len <= s' \/ s' + len' <= s ->
  same_outside s len i j -> field s' len' j = field s' len' i.
Proof.
  intros Hs Hl Hs' Hl' Hd Ho; apply Z.bits_inj'; intros k Hk.
  rewrite !testbit_field by lia.
  destruct (Z.ltb_spec k len'); simpl; auto.
  apply Ho; lia.
Qed.

(** The pair of masks the host loop of [ADD] and [SUB] builds. *)
Lemma mask_pair_loop (s1 s2 len : Z) :
  0 <= len ->
  fold_left (fun '(inOutMask, inMask) i =>
               (add64 inOutMask (bitpow (s1 + i)), add64 inMask (bitpow (s2 + i))))
    (range len) (0, 0)
  = (mask_loop s1 len, mask_loop s2 len).
Proof.
  intros Hl; pattern len; apply loop_ind; auto; clear len Hl.
  intros n Hn IH; unfold mask_loop in *.
  now rewrite range_snoc, !fold_left_app, IH by auto.
Qed.

(** A scatter along a bijection of the indices: every cell of the output
    is written, with the source cell of its preimage. *)
Lemma scatter_bijection {A : Type} (d : A) (dest inv : Z -> Z) (src dst : list A) (n : Z) :
  Z.of_nat (length dst) = n ->
  (forall i, 0 <= i < n -> 0 <= dest i < n /\ inv (dest i) = i) ->
  (forall i, 0 <= i < n -> 0 <= inv i < n /\ dest (inv i) = i) ->
  exists out,
    fold_left (fun acc lcv =>
                 match acc with
                 | Some b => store (dest lcv) (load d src lcv) b
                 | None => None
                 end) (range n) (Some dst) = Some out /\
    Z.of_nat (length out) = n /\
    (forall i, 0 <= i < n -> load d out (dest i) = load d src i) /\
    (forall i, 0 <= i < n -> load d out i = load d src (inv i)).
Proof.
  intros L Hd Hi.
  destruct (scatter_injective d dest src dst n) as (out & E & Lo & Hout).
  - lia.
  - intros i H; rewrite L; apply Hd; auto.
  - intros i j H1 H2 Eq.
    rewrite <- (proj2 (Hd i H1)), Eq; apply Hd; auto.
  - exists out; repeat split; auto; [lia|].
    intros i H. destruct (Hi i H) as (B & Eq).
    rewrite <- Eq at 1. apply Hout; auto.
Qed.

(** ** [add] and [sub] *)

Section Adders.

Variables (qc s1 s2 len : Z).
Hypothesis Hqc : 0 <= qc <= 30.
Hypothesis Hs1 : 0 <= s1.
Hypothesis Hs2 : 0 <= s2.
Hypothesis Hlen : 0 <= len.
Hypothesis Hb1 : s1 + len <= qc.
Hypothesis Hb2 : s2 + len <= qc.
Hypothesis Hdis : s1 + len <= s2 \/ s2 + len <= s1.

(** The parameter array of [ADD] and [SUB] on a register of [qc] qubits. *)
Lemma adder_args (c : CoherentUnit.t) :
  well_formed c -> CoherentUnit.qubitCount c = qc ->
  CoherentUnit.ADD_args s1 s2 len c
  = [2 ^ qc; range_mask s1 len; range_mask s2 len;
     Z.ldiff (Z.ones qc) (Z.lor (range_mask s1 len) (range_mask s2 len));
     2 ^ len; s1; s2; 0; 0; 0].
Proof.
  intros (Hq & Hm & Hl) Eq.
  unfold CoherentUnit.ADD_args.
  rewrite mask_pair_loop by auto.
  rewrite !mask_loop_range_mask by lia.
  rewrite Hm, Eq.
  assert (M1 := range_mask_fits s1 len qc Hs1 Hlen Hb1).
  assert (M2 := range_mask_fits s2 len qc Hs2 Hlen Hb2).
  assert (D : Z.land (range_mask s1 len) (range_mask s2 len) = 0).
  { apply Z.bits_inj'; intros k Hk.
    rewrite Z.land_spec, !testbit_range_mask, Z.bits_0 by lia.
    destruct (Z.leb_spec s1 k), (Z.ltb_spec k (s1 + len)), (Z.leb_spec s2 k),
      (Z.ltb_spec k (s2 + len)); simpl; auto; lia. }
  rewrite (add64_lor qc) by (auto; lia).
  rewrite other_mask_ldiff by (try lia; apply fits_lor; auto; lia).
  now rewrite bitpow_pow2 by lia.
Qed.

Lemma kept_bits (j : Z) :
  0 <= j < 2 ^ qc ->
  add64 (Z.land j (Z.ldiff (Z.ones qc) (Z.lor (range_mask s1 len) (range_mask s2 len))))
    (Z.land j (range_mask s2 len))
  = Z.land j (Z.ldiff (Z.ones qc) (range_mask s1 len)).
Proof.
  intros Hj.
  assert (M2 := range_mask_fits s2 len qc Hs2 Hlen Hb2).
  assert (HO : 0 <= Z.ldiff (Z.ones qc) (Z.lor (range_mask s1 len) (range_mask s2 len))).
  { apply Z.ldiff_nonneg; left. rewrite Z.ones_equiv.
    assert (0 < 2 ^ qc) by (apply Z.pow_pos_nonneg; lia). lia. }
  rewrite (add64_lor qc); try lia; try (apply fits_land; auto; lia).
  - apply Z.bits_inj'; intros k Hk.
    rewrite Z.lor_spec, !Z.land_spec, !Z.ldiff_spec, Z.lor_spec, !testbit_range_mask,
      Z.testbit_ones_nonneg by lia.
    destruct (Z.ltb_spec k qc).
    + destruct (Z.testbit j k), (Z.leb_spec s1 k), (Z.ltb_spec k (s1 + len)),
        (Z.leb_spec s2 k), (Z.ltb_spec k (s2 + len)); simpl; auto; lia.
    + now rewrite (testbit_above j qc k) by lia.
  - apply Z.bits_inj'; intros k Hk.
    rewrite !Z.land_spec, !Z.ldiff_spec, Z.lor_spec, !testbit_range_mask, Z.bits_0 by lia.
    destruct (Z.testbit j k), (Z.leb_spec s1 k), (Z.ltb_spec k (s1 + len)),
      (Z.leb_spec s2 k), (Z.ltb_spec k (s2 + len)), (Z.testbit (Z.ones qc) k);
      simpl; auto; lia.
Qed.

(** The index [add] writes: the sum of the fields in the field at [s1]. *)
Lemma add_dest_placed (c : CoherentUnit.t) (j : Z) :
  well_formed c -> CoherentUnit.qubitCount c = qc -> 0 <= j < 2 ^ qc ->
  let d := OCL.add_dest (CoherentUnit.ADD_args s1 s2 len c) j in
  0 <= d < 2 ^ qc /\
  field s1 len d = (field s1 len j + field s2 len j) mod 2 ^ len /\
  same_outside s1 len j d.
Proof.
  intros Hwf Eq Hj d.
  assert (Hp : 0 < 2 ^ len) by (apply Z.pow_pos_nonneg; lia).
  assert (Ba := field_bounds s1 len j Hlen).
  assert (Bb := field_bounds s2 len j Hlen).
  assert (L30 : 2 ^ len <= 2 ^ 30) by (apply Z.pow_le_mono_r; lia).
  assert (Ed : d = add64 (shl64 ((field s1 len j + field s2 len j) mod 2 ^ len) s1)
                     (Z.land j (Z.ldiff (Z.ones qc) (range_mask s1 len)))).
  { unfold d, OCL.add_dest. rewrite adder_args by auto.
    unfold OCL.arg; cbn [nth].
    rewrite add64_assoc, kept_bits by auto.
    rewrite !shr64_small, !field_land by lia.
    f_equal. f_equal.
    replace (sub64 (2 ^ len) 1) with (Z.ones len)
      by (rewrite <- length_mask, bitpow_pow2 by lia; reflexivity).
    rewrite Z.land_ones by lia. f_equal.
    unfold add64; apply wrap64_small.
    change (2 ^ 64) with (2 ^ 34 * 2 ^ 30); lia. }
  destruct (placed qc s1 len ((field s1 len j + field s2 len j) mod 2 ^ len) j)
    as (B & Hbits); try lia.
  { apply Z.mod_pos_bound; lia. }
  rewrite <- Ed in B, Hbits.
  split; auto.
  apply placed_field; auto. apply Z.mod_pos_bound; lia.
Qed.

(** The index [sub] writes: the difference of the fields in the field at
    [s1]. *)
Lemma sub_dest_placed (c : CoherentUnit.t) (j : Z) :
  well_formed c -> CoherentUnit.qubitCount c = qc -> 0 <= j < 2 ^ qc ->
  let d := OCL.sub_dest (CoherentUnit.ADD_args s1 s2 len c) j in
  0 <= d < 2 ^ qc /\
  field s1 len d = (field s1 len j - field s2 len j) mod 2 ^ len /\
  same_outside s1 len j d.
Proof.
  intros Hwf Eq Hj d.
  assert (Hp : 0 < 2 ^ len) by (apply Z.pow_pos_nonneg; lia).
  assert (Ba := field_bounds s1 len j Hlen).
  assert (Bb := field_bounds s2 len j Hlen).
  assert (L30 : 2 ^ len <= 2 ^ 30) by (apply Z.pow_le_mono_r; lia).
  assert (Ed : d = add64 (shl64 ((field s1 len j - field s2 len j) mod 2 ^ len) s1)
                     (Z.land j (Z.ldiff (Z.ones qc) (range_mask s1 len)))).
  { unfold d, OCL.sub_dest. rewrite adder_args by auto.
    unfold OCL.arg; cbn [nth].
    rewrite add64_assoc, kept_bits by auto.
    rewrite !shr64_small, !field_land by lia.
    f_equal. f_equal.
    replace (sub64 (2 ^ len) 1) with (Z.ones len)
      by (rewrite <- length_mask, bitpow_pow2 by lia; reflexivity).
    rewrite Z.land_ones by lia.
    replace (add64 (sub64 (field s1 len j) (field s2 len j)) (2 ^ len))
      with (field s1 len j - field s2 len j + 2 ^ len).
    - rewrite <- (Z.mul_1_l (2 ^ len)) at 1. apply Z.mod_add; lia.
    - unfold add64, sub64, wrap64. rewrite Zplus_mod_idemp_l.
      symmetry; apply Z.mod_small.
      change (2 ^ 64) with (2 ^ 34 * 2 ^ 30); lia. }
  destruct (placed qc s1 len ((field s1 len j - field s2 len j) mod 2 ^ len) j)
    as (B & Hbits); try lia.
  { apply Z.mod_pos_bound; lia. }
  rewrite <- Ed in B, Hbits.
  split; auto.
  apply placed_field; auto. apply Z.mod_pos_bound; lia.
Qed.

(** [sub] undoes [add] and [add] undoes [sub], index by index. *)
Lemma sub_add_dest (c : CoherentUnit.t) (j : Z) :
  well_formed c -> CoherentUnit.qubitCount c = qc -> 0 <= j < 2 ^ qc ->
  OCL.sub_dest (CoherentUnit.ADD_args s1 s2 len c)
    (OCL.add_dest (CoherentUnit.ADD_args s1 s2 len c) j) = j /\
  OCL.add_dest (CoherentUnit.ADD_args s1 s2 len c)
    (OCL.sub_dest (CoherentUnit.ADD_args s1 s2 len c) j) = j.
Proof.
  intros Hwf Eq Hj.
  assert (Hp : 0 < 2 ^ len) by (apply Z.pow_pos_nonneg; lia).
  assert (Ba := field_bounds s1 len j Hlen).
  destruct (add_dest_placed c j Hwf Eq Hj) as (B1 & F1 & O1).
  destruct (sub_dest_placed c j Hwf Eq Hj) as (B2 & F2 & O2).
  destruct (sub_dest_placed c _ Hwf Eq B1) as (_ & F3 & O3).
  destruct (add_dest_placed c _ Hwf Eq B2) as (_ & F4 & O4).
  assert (G1 := field_same_outside s1 len s2 len j _ Hs1 Hlen Hs2 Hlen Hdis O1).
  assert (G2 := field_same_outside s1 len s2 len j _ Hs1 Hlen Hs2 Hlen Hdis O2).
  split; symmetry; apply (field_ext s1 len); auto.
  - rewrite F3, F1, G1.
    rewrite Zminus_mod_idemp_l.
    replace (field s1 len j + field s2 len j - field s2 len j) with (field s1 len j) by lia.
    now rewrite Z.mod_small by lia.
  - intros k Hk Ho. rewrite O3, O1; auto.
  - rewrite F4, F2, G2.
    rewrite Zplus_mod_idemp_l.
    replace (field s1 len j - field s2 len j + field s2 len j) with (field s1 len j) by lia.
    now rewrite Z.mod_small by lia.
  - intros k Hk Ho. rewrite O4, O2; auto.
Qed.

(** [ADD] and [SUB] on a register: the scatter along [add_dest] and along
    [sub_dest], each the inverse of the other. *)
Lemma adder_state (fresh : Z -> list Complex16) (c : CoherentUnit.t) :
  allocates fresh -> well_formed c -> CoherentUnit.qubitCount c = qc ->
  let args := CoherentUnit.ADD_args s1 s2 len c in
  (exists st,
     CoherentUnit.ADD fresh s1 s2 len c = Ok (CoherentUnit.with_state c st) /\
     Z.of_nat (length st) = CoherentUnit.maxQPower c /\
     (forall j, 0 <= j < CoherentUnit.maxQPower c ->
        load C0 st (OCL.add_dest args j) = load C0 (CoherentUnit.stateVec c) j) /\
     (forall i, 0 <= i < CoherentUnit.maxQPower c ->
        load C0 st i = load C0 (CoherentUnit.stateVec c) (OCL.sub_dest args i))) /\
  (exists st,
     CoherentUnit.SUB fresh s1 s2 len c = Ok (CoherentUnit.with_state c st) /\
     Z.of_nat (length st) = CoherentUnit.maxQPower c /\
     (forall j, 0 <= j < CoherentUnit.maxQPower c ->
        load C0 st (OCL.sub_dest args j) = load C0 (CoherentUnit.stateVec c) j) /\
     (forall i, 0 <= i < CoherentUnit.maxQPower c ->
        load C0 st i = load C0 (CoherentUnit.stateVec c) (OCL.add_dest args i))).
Proof.
  intros Hf Hwf Eq args.
  pose proof Hwf as (Hq & Hm & Hl).
  assert (Hp : 0 < 2 ^ qc) by (apply Z.pow_pos_nonneg; lia).
  assert (E0 : OCL.arg args 0 = CoherentUnit.maxQPower c).
  { unfold args; rewrite adder_args by auto. rewrite Hm, Eq; reflexivity. }
  assert (HN : CoherentUnit.maxQPower c = 2 ^ qc) by (rewrite Hm, Eq; reflexivity).
  split.
  - destruct (scatter_bijection C0 (OCL.add_dest args) (OCL.sub_dest args)
                (CoherentUnit.stateVec c) (fresh (CoherentUnit.maxQPower c))
                (CoherentUnit.maxQPower c)) as (out & E & L & H1 & H2).
    + apply Hf; lia.
    + intros i Hi; rewrite HN in *; split.
      * apply (add_dest_placed c i); auto.
      * apply (sub_add_dest c i); auto.
    + intros i Hi; rewrite HN in *; split.
      * apply (sub_dest_placed c i); auto.
      * apply (sub_add_dest c i); auto.
    + exists out; repeat split; auto.
      unfold CoherentUnit.ADD, OCL.add, OCL.scatter. fold args. rewrite E0, E; reflexivity.
  - destruct (scatter_bijection C0 (OCL.sub_dest args) (OCL.add_dest args)
                (CoherentUnit.stateVec c) (fresh (CoherentUnit.maxQPower c))
                (CoherentUnit.maxQPower c)) as (out & E & L & H1 & H2).
    + apply Hf; lia.
    + intros i Hi; rewrite HN in *; split.
      * apply (sub_dest_placed c i); auto.
      * apply (sub_add_dest c i); auto.
    + intros i Hi; rewrite HN in *; split.
      * apply (add_dest_placed c i); auto.
      * apply (sub_add_dest c i); auto.
    + exists out; repeat split; auto.
      unfold CoherentUnit.SUB, OCL.sub, OCL.scatter. fold args. rewrite E0, E; reflexivity.
Qed.

End Adders.

Lemma with_state_same (c : CoherentUnit.t) (st st' : list Complex16) :
  st' = CoherentUnit.stateVec c ->
  CoherentUnit.with_state (CoherentUnit.with_state c st) st' = c.
Proof. intros ->; destruct c; reflexivity. Qed.

Lemma with_state_well_formed (c : CoherentUnit.t) (st : list Complex16) :
  well_formed c -> Z.of_nat (length st) = CoherentUnit.maxQPower c ->
  well_formed (CoherentUnit.with_state c st).
Proof. intros (Hq & Hm & Hl) L; repeat split; simpl; auto; lia. Qed.

End FieldFacts.

(** ** Rotations of a field: the kernel [rol] *)
Module RotateFacts.

Import Machine Cplx Buf Host Shape ArrayFacts BitFacts Fields FieldFacts.

Lemma same_outside_trans (s len i j l : Z) :
  same_outside s len i j -> same_outside s len j l -> same_outside s len i l.
Proof. intros H1 H2 k Hk Ho; rewrite H2, H1; auto. Qed.

Lemma rotated_mod (sh s len i j : Z) :
  rotated sh s len i j <-> rotated (sh mod len) s len i j.
Proof.
  unfold rotated; split; intros (Ho & Hr); split; auto; intros p Hp.
  - rewrite Zplus_mod_idemp_r; auto.
  - rewrite <- Zplus_mod_idemp_r; auto.
Qed.

Lemma rotated_refl (s len i : Z) : rotated 0 s len i i.
Proof.
  split; [intros k _ _; reflexivity|].
  intros p Hp. now rewrite Z.add_0_r, Z.mod_small by lia.
Qed.

Lemma rotated_compose (a b s len i j l : Z) :
  rotated a s len i j -> rotated b s len j l -> rotated ((a + b) mod len) s len i l.
Proof.
  intros (O1 & R1) (O2 & R2); split; [eapply same_outside_trans; eauto|].
  intros p Hp.
  assert (Hq : 0 <= (p + a) mod len < len) by (apply Z.mod_pos_bound; lia).
  rewrite <- (R1 p Hp), <- (R2 _ Hq).
  do 2 f_equal.
  rewrite Zplus_mod_idemp_r, Zplus_mod_idemp_l. f_equal; lia.
Qed.

(** The rotation of an index by a shift is one index. *)
Lemma rotated_unique (sh s len i j j' : Z) :
  0 <= s -> rotated sh s len i j -> rotated sh s len i j' -> j = j'.
Proof.
  intros Hs (O1 & R1) (O2 & R2); apply Z.bits_inj'; intros k Hk.
  destruct (Z.lt_ge_cases k s) as [|H1]; [rewrite O1, O2; auto; lia|].
  destruct (Z.lt_ge_cases k (s + len)) as [H2|]; [|rewrite O1, O2; auto; lia].
  assert (Hp : 0 <= (k - s - sh) mod len < len) by (apply Z.mod_pos_bound; lia).
  assert (E : s + ((k - s - sh) mod len + sh) mod len = k).
  { rewrite Zplus_mod_idemp_l. replace (k - s - sh + sh) with (k - s) by lia.
    rewrite Z.mod_small by lia. lia. }
  generalize (R1 _ Hp), (R2 _ Hp). rewrite E. congruence.
Qed.

Lemma mod_same_0 (n : Z) : n mod n = 0.
Proof.
  destruct (Z.eq_dec n 0) as [->|Hne]; [reflexivity | now apply Z.mod_same].
Qed.

Lemma rotated_back (sh s len i j l : Z) :
  0 <= s -> rotated sh s len i j -> rotated (len - sh) s len j l -> l = i.
Proof.
  intros Hs H1 H2.
  apply (rotated_unique 0 s len i); auto; [|apply rotated_refl].
  assert (H := rotated_compose _ _ _ _ _ _ _ H1 H2).
  replace (sh + (len - sh)) with len in H by lia.
  now rewrite mod_same_0 in H.
Qed.

(** The rotated field value the kernel computes. *)
Lemma rol_out (len sh v : Z) :
  0 <= sh <= len -> len <= 30 -> 0 <= v < 2 ^ len ->
  let out := Z.lor (shr64 v (sub64 len sh)) (Z.land (shl64 v sh) (Z.ones len)) in
  0 <= out < 2 ^ len /\
  forall k, 0 <= k ->
    Z.testbit out k
    = if k <? sh then Z.testbit v (k + len - sh) else (k <? len) && Z.testbit v (k - sh).
Proof.
  intros Hsh Hl Hv out.
  assert (E : out = Z.lor (Z.shiftr v (len - sh)) (Z.land (Z.shiftl v sh) (Z.ones len))).
  { unfold out. replace (sub64 len sh) with (len - sh).
    - now rewrite shr64_small, (shl64_small v sh len) by lia.
    - unfold sub64; symmetry; apply wrap64_small.
      change (2 ^ 64) with 18446744073709551616; lia. }
  assert (Hbits : forall k, 0 <= k ->
            Z.testbit out k
            = if k <? sh then Z.testbit v (k + len - sh)
              else (k <? len) && Z.testbit v (k - sh)).
  { intros k Hk; rewrite E.
    rewrite Z.lor_spec, Z.shiftr_spec, Z.land_spec, Z.shiftl_spec, Z.testbit_ones_nonneg
      by lia.
    destruct (Z.ltb_spec k sh).
    - rewrite (Z.testbit_neg_r v (k - sh)) by lia; simpl.
      rewrite orb_false_r. f_equal; lia.
    - rewrite (testbit_above v len (k + (len - sh))) by lia; simpl.
      apply andb_comm. }
  assert (H0 : 0 <= out).
  { rewrite E; apply Z.lor_nonneg; split.
    - apply Z.shiftr_nonneg; lia.
    - apply Z.land_nonneg; left; apply Z.shiftl_nonneg; lia. }
  split; auto. split; auto.
  apply below_pow2_of_bits; auto; [lia|].
  intros k Hk; rewrite Hbits by lia.
  replace (k <? sh) with false by (symmetry; apply Z.ltb_ge; lia).
  now replace (k <? len) with false by (symmetry; apply Z.ltb_ge; lia).
Qed.

Section Rotation.

Variables (qc s len : Z).
Hypothesis Hqc : 0 <= qc <= 30.
Hypothesis Hs : 0 <= s.
Hypothesis Hlen : 0 <= len.
Hypothesis Hb : s + len <= qc.

(** The parameter array of [ROL] on a register of [qc] qubits. *)
Lemma rotate_args_eq (sh : Z) (c : CoherentUnit.t) :
  well_formed c -> CoherentUnit.qubitCount c = qc ->
  CoherentUnit.rotate_args sh s len c
  = [2 ^ qc; range_mask s len; Z.ldiff (Z.ones qc) (range_mask s len); 2 ^ len; s; sh; len;
     0; 0; 0].
Proof.
  intros (Hq & Hm & Hl) Eq.
  unfold CoherentUnit.rotate_args.
  rewrite mask_loop_range_mask by lia.
  rewrite Hm, Eq.
  rewrite other_mask_ldiff by (try lia; apply range_mask_fits; auto).
  now rewrite bitpow_pow2 by lia.
Qed.

(** The index [rol] writes for [j]: [j] with its field rotated left. *)
Lemma rol_dest_rotated (sh : Z) (c : CoherentUnit.t) (j : Z) :
  well_formed c -> CoherentUnit.qubitCount c = qc -> 0 <= sh <= len -> 0 <= j < 2 ^ qc ->
  let d := OCL.rol_dest (CoherentUnit.rotate_args sh s len c) j in
  0 <= d < 2 ^ qc /\ rotated sh s len j d.
Proof.
  intros Hwf Eq Hsh Hj d.
  assert (Bv := field_bounds s len j Hlen).
  destruct (rol_out len sh (field s len j)) as (Bo & Ho); try lia.
  set (out := Z.lor (shr64 (field s len j) (sub64 len sh))
                (Z.land (shl64 (field s len j) sh) (Z.ones len))) in *.
  assert (Ed : d = add64 (shl64 out s) (Z.land j (Z.ldiff (Z.ones qc) (range_mask s len)))).
  { unfold d, OCL.rol_dest. rewrite rotate_args_eq by auto.
    unfold OCL.arg; cbn [nth].
    rewrite (shr64_small _ s), field_land by lia.
    replace (sub64 (2 ^ len) 1) with (Z.ones len)
      by (rewrite <- length_mask, bitpow_pow2 by lia; reflexivity).
    reflexivity. }
  destruct (placed qc s len out j) as (B & Hbits); try lia.
  rewrite <- Ed in B, Hbits.
  split; auto. split.
  - intros k Hk Hout; rewrite Hbits by auto.
    destruct (Z.leb_spec s k), (Z.ltb_spec k (s + len)); simpl; auto; lia.
  - intros p Hp.
    assert (Hq : 0 <= (p + sh) mod len < len) by (apply Z.mod_pos_bound; lia).
    rewrite Hbits by lia.
    replace ((s <=? s + (p + sh) mod len) && (s + (p + sh) mod len <? s + len)) with true
      by (symmetry; apply andb_true_intro; split; [apply Z.leb_le | apply Z.ltb_lt]; lia).
    replace (s + (p + sh) mod len - s) with ((p + sh) mod len) by lia.
    rewrite Ho by lia.
    destruct (Z.lt_ge_cases (p + sh) len) as [Hlt|Hge].
    + rewrite Z.mod_small by lia.
      replace (p + sh <? sh) with false by (symmetry; apply Z.ltb_ge; lia).
      replace (p + sh <? len) with true by (symmetry; apply Z.ltb_lt; lia).
      rewrite testbit_field by lia.
      replace (p + sh - sh <? len) with true by (symmetry; apply Z.ltb_lt; lia).
      simpl; f_equal; lia.
    + assert (Em : (p + sh) mod len = p + sh - len).
      { symmetry; apply (Z.mod_unique_pos _ _ 1); lia. }
      rewrite Em.
      replace (p + sh - len <? sh) with true by (symmetry; apply Z.ltb_lt; lia).
      rewrite testbit_field by lia.
      replace (p + sh - len + len - sh <? len) with true by (symmetry; apply Z.ltb_lt; lia).
      simpl; f_equal; lia.
Qed.

(** [ROL] on a register: the scatter along [rol_dest], whose inverse is the
    rotation by the rest of the length. *)
Lemma ROL_state (fresh : Z -> list Complex16) (sh : Z) (c : CoherentUnit.t) :
  allocates fresh -> well_formed c -> CoherentUnit.qubitCount c = qc -> 0 <= sh <= len ->
  exists st,
    CoherentUnit.ROL fresh sh s len c = Ok (CoherentUnit.with_state c st) /\
    Z.of_nat (length st) = CoherentUnit.maxQPower c /\
    (forall j, 0 <= j < CoherentUnit.maxQPower c ->
       load C0 st (OCL.rol_dest (CoherentUnit.rotate_args sh s len c) j)
       = load C0 (CoherentUnit.stateVec c) j) /\
    (forall i, 0 <= i < CoherentUnit.maxQPower c ->
       load C0 st i
       = load C0 (CoherentUnit.stateVec c)
           (OCL.rol_dest (CoherentUnit.rotate_args (len - sh) s len c) i)).
Proof.
  intros Hf Hwf Eq Hsh.
  pose proof Hwf as (Hq & Hm & Hl).
  assert (HN : CoherentUnit.maxQPower c = 2 ^ qc) by (rewrite Hm, Eq; reflexivity).
  assert (E0 : OCL.arg (CoherentUnit.rotate_args sh s len c) 0 = CoherentUnit.maxQPower c).
  { rewrite rotate_args_eq by auto. rewrite HN; reflexivity. }
  destruct (scatter_bijection C0
              (OCL.rol_dest (CoherentUnit.rotate_args sh s len c))
              (OCL.rol_dest (CoherentUnit.rotate_args (len - sh) s len c))
              (CoherentUnit.stateVec c) (fresh (CoherentUnit.maxQPower c))
              (CoherentUnit.maxQPower c)) as (out & E & L & H1 & H2).
  - apply Hf. assert (0 < 2 ^ qc) by (apply Z.pow_pos_nonneg; lia). lia.
  - intros i Hi; rewrite HN in *.
    destruct (rol_dest_rotated sh c i Hwf Eq Hsh Hi) as (B & R).
    split; auto.
    destruct (rol_dest_rotated (len - sh) c _ Hwf Eq ltac:(lia) B) as (_ & R').
    exact (rotated_back sh s len i _ _ Hs R R').
  - intros i Hi; rewrite HN in *.
    destruct (rol_dest_rotated (len - sh) c i Hwf Eq ltac:(lia) Hi) as (B & R).
    split; auto.
    destruct (rol_dest_rotated sh c _ Hwf Eq Hsh B) as (_ & R').
    apply (rotated_back (len - sh) s len i _ _ Hs R).
    now replace (len - (len - sh)) with sh by lia.
  - exists out; repeat split; auto.
    unfold CoherentUnit.ROL, OCL.rol, OCL.scatter. rewrite E0, E; reflexivity.
Qed.

(** A rotation by nothing or by the whole length changes nothing. *)
Lemma ROL_identity (fresh : Z -> list Complex16) (sh : Z) (c : CoherentUnit.t) :
  allocates fresh -> well_formed c -> CoherentUnit.qubitCount c = qc ->
  sh = 0 \/ sh = len ->
  CoherentUnit.ROL fresh sh s len c = Ok c.
Proof.
  intros Hf Hwf Eq Hsh.
  pose proof Hwf as (Hq & Hm & Hl).
  assert (HN : CoherentUnit.maxQPower c = 2 ^ qc) by (rewrite Hm, Eq; reflexivity).
  destruct (ROL_state fresh sh c Hf Hwf Eq ltac:(lia)) as (st & E & L & H1 & _).
  rewrite E; f_equal.
  replace st with (CoherentUnit.stateVec c); [destruct c; reflexivity|].
  apply (load_ext C0); [apply Nat2Z.inj; lia|].
  intros i Hi. rewrite Hl in Hi.
  rewrite <- (H1 i Hi). f_equal.
  rewrite HN in Hi.
  destruct (rol_dest_rotated sh c i Hwf Eq ltac:(lia) Hi) as (_ & R).
  apply (rotated_unique 0 s len i); auto; [|apply rotated_refl].
  destruct Hsh as [->| ->]; auto.
  apply rotated_mod in R. now rewrite mod_same_0 in R.
Qed.

(** Two rotations in a row are the rotation by the sum of the shifts. *)
Lemma ROL_compose (fresh : Z -> list Complex16) (a b : Z) (c : CoherentUnit.t) :
  allocates fresh -> well_formed c -> CoherentUnit.qubitCount c = qc ->
  0 <= a <= len -> 0 <= b <= len ->
  exists st,
    CoherentUnit.ROL fresh a s len c = Ok (CoherentUnit.with_state c st) /\
    Z.of_nat (length st) = CoherentUnit.maxQPower c /\
    CoherentUnit.ROL fresh b s len (CoherentUnit.with_state c st)
    = CoherentUnit.ROL fresh ((a + b) mod len) s len c.
Proof.
  intros Hf Hwf Eq Ha Hb'.
  pose proof Hwf as (Hq & Hm & Hl).
  assert (HN : CoherentUnit.maxQPower c = 2 ^ qc) by (rewrite Hm, Eq; reflexivity).
  assert (Hmod : 0 <= (a + b) mod len <= len).
  { destruct (Z.eq_dec len 0) as [E0|Hne].
    - rewrite E0, Z.mod_0_r; lia.
    - assert (H := Z.mod_pos_bound (a + b) len ltac:(lia)); lia. }
  destruct (ROL_state fresh a c Hf Hwf Eq Ha) as (st1 & E1 & L1 & A1 & _).
  assert (W1 := with_state_well_formed c st1 Hwf L1).
  destruct (ROL_state fresh b _ Hf W1 Eq Hb') as (st2 & E2 & L2 & B1 & _).
  destruct (ROL_state fresh ((a + b) mod len) c Hf Hwf Eq Hmod) as (st3 & E3 & L3 & C1 & C2).
  exists st1; split; [exact E1|]. split; [exact L1|].
  rewrite E2, E3. apply f_equal.
  unfold CoherentUnit.with_state.
  cbn [CoherentUnit.runningNorm CoherentUnit.qubitCount CoherentUnit.maxQPower
       CoherentUnit.rand_generator].
  apply f_equal2; [|reflexivity].
  cbn [CoherentUnit.with_state CoherentUnit.maxQPower CoherentUnit.stateVec] in L2, B1.
  apply (load_ext C0); [apply Nat2Z.inj; lia|].
  intros i Hi. rewrite L2 in Hi.
  rewrite (C2 i Hi).
  assert (Hi' : 0 <= i < 2 ^ qc) by lia.
  destruct (rol_dest_rotated (len - (a + b) mod len) c i Hwf Eq ltac:(lia) Hi') as (Bj & Rj).
  set (j := OCL.rol_dest (CoherentUnit.rotate_args (len - (a + b) mod len) s len c) i) in *.
  destruct (rol_dest_rotated a c j Hwf Eq Ha Bj) as (B1' & R1).
  set (j1 := OCL.rol_dest (CoherentUnit.rotate_args a s len c) j) in *.
  destruct (rol_dest_rotated b c j1 Hwf Eq Hb' B1') as (B2' & R2).
  set (j2 := OCL.rol_dest (CoherentUnit.rotate_args b s len c) j1) in *.
  assert (Ei : j2 = i).
  { assert (R12 := rotated_compose _ _ _ _ _ _ _ R1 R2).
    apply (rotated_back (len - (a + b) mod len) s len i j j2 Hs Rj).
    replace (len - (len - (a + b) mod len)) with ((a + b) mod len) by lia.
    exact R12. }
  rewrite <- Ei at 1.
  unfold j2. rewrite <- (A1 j ltac:(lia)). fold j1.
  apply (B1 j1). lia.
Qed.

End Rotation.

End RotateFacts.

(** ** Controlled gates that recompute the norm *)
Module ControlledRotationFacts.

Import Machine Cplx Buf Host Shape ArrayFacts BitFacts Pairs Sums SingleBit.
Import PairFacts SumFacts KernelFacts MeasureFacts SetBitFacts SwapFacts.
Import CoherentUnit Gates GateFacts ControlledFacts PermuteFacts.
Local Open Scope R_scope.

(** An isometry applied to the pairs whose control bit is set keeps the
    total squared magnitude. *)
Lemma controlled_total (control target n : Z) (mtrx : Mtrx) (sv st : list Complex16) :
  (0 <= control < n)%Z -> (0 <= target < n)%Z -> control <> target -> isometry mtrx ->
  (forall j, (0 <= j < 2 ^ n)%Z ->
      load C0 st j =
        if Z.testbit j control then
          if Z.testbit j target
          then add (mul (m0 mtrx) (load C0 sv j))
                   (mul (m1 mtrx) (load C0 sv (Z.lxor j (2 ^ target))))
          else add (mul (m2 mtrx) (load C0 sv (Z.lxor j (2 ^ target))))
                   (mul (m3 mtrx) (load C0 sv j))
        else load C0 sv j) ->
  weight everywhere (2 ^ n) st = weight everywhere (2 ^ n) sv.
Proof.
  intros Hc Ht Hne Hiso Hpt. unfold weight, everywhere.
  set (f := fun j => norm (load C0 st j)).
  set (g := fun j => norm (load C0 sv j)).
  assert (H2 : 2 * Rsum (map f (range (2 ^ n))) = 2 * Rsum (map g (range (2 ^ n)))).
  { replace (2 * Rsum (map f (range (2 ^ n))))
      with (Rsum (map f (range (2 ^ n)))
            + Rsum (map (fun j => f (Z.lxor j (2 ^ target))) (range (2 ^ n))))
      by (rewrite (Rsum_partner f target n Ht); lra).
    replace (2 * Rsum (map g (range (2 ^ n))))
      with (Rsum (map g (range (2 ^ n)))
            + Rsum (map (fun j => g (Z.lxor j (2 ^ target))) (range (2 ^ n))))
      by (rewrite (Rsum_partner g target n Ht); lra).
    rewrite <- !Rsum_plus.
    apply Rsum_ext. intros j Hj. apply in_range in Hj.
    pose proof (lxor_pow2_bounds target n j Ht Hj) as Hp.
    unfold f, g. rewrite (Hpt j Hj), (Hpt _ Hp).
    rewrite testbit_lxor_other by lia.
    rewrite testbit_lxor_pow2, lxor_involutive by lia.
    destruct (Z.testbit j control); [|reflexivity].
    destruct (Z.testbit j target); cbn [negb].
    - apply (Hiso (load C0 sv j) (load C0 sv (Z.lxor j (2 ^ target)))).
    - rewrite Rplus_comm, (Rplus_comm (norm (load C0 sv j))).
      apply (Hiso (load C0 sv (Z.lxor j (2 ^ target))) (load C0 sv j)). }
  lra.
Qed.

(** A controlled gate that recomputes the norm, with an isometry for
    matrix: no norm factor is applied and the norm it computes is the one
    the register had. *)
Lemma controlled_isometry (control target : Z) (mtrx : Mtrx) (c : t) :
  well_formed c -> norm_cached c ->
  (0 <= control < qubitCount c)%Z -> (0 <= target < qubitCount c)%Z -> control <> target ->
  isometry mtrx ->
  exists c',
    ApplyControlled2x2 control target mtrx true c = Ok c' /\
    well_formed c' /\ norm_cached c' /\
    runningNorm c' = runningNorm c /\
    qubitCount c' = qubitCount c /\
    forall j, (0 <= j < maxQPower c)%Z -> Z.testbit j control = false ->
      load C0 (stateVec c') j = load C0 (stateVec c) j.
Proof.
  intros Hwf Hnc Hc Ht Hne Hiso.
  destruct (Controlled_pointwise control target mtrx true c Hwf Hc Ht Hne)
    as (st & E & L & Hpt).
  pose proof Hwf as (Hn & HN & Hlen).
  assert (E1 : par_norm (maxQPower c) st = runningNorm c).
  { destruct Hnc as (_ & ->). rewrite !par_norm_weight. f_equal.
    rewrite HN in *.
    apply (controlled_total control target (qubitCount c) mtrx); auto. }
  exists (finish true c st).
  split; [exact E|].
  unfold finish, UpdateRunningNorm, with_state.
  cbn [qubitCount maxQPower stateVec runningNorm rand_generator].
  split; [|split; [|split; [|split]]].
  - unfold well_formed. cbn [qubitCount maxQPower stateVec]. rewrite L. auto.
  - destruct Hnc as (Hpos & _).
    split; cbn [runningNorm maxQPower stateVec]; [rewrite E1; lra | reflexivity].
  - exact E1.
  - reflexivity.
  - intros j Hj Hb. rewrite (Hpt j Hj), Hb. reflexivity.
Qed.

(** Two controlled gates in a row that recompute the norm are the gate of
    the matrix product. *)
Lemma compose_controlled (control target : Z) (A B C : Mtrx) (c : t) :
  well_formed c ->
  (0 <= control < qubitCount c)%Z -> (0 <= target < qubitCount c)%Z -> control <> target ->
  product B A C ->
  exists c1,
    ApplyControlled2x2 control target A true c = Ok c1 /\
    well_formed c1 /\
    ApplyControlled2x2 control target B true c1 = ApplyControlled2x2 control target C true c.
Proof.
  intros Hwf Hc Ht Hne HP.
  destruct (Controlled_pointwise control target A true c Hwf Hc Ht Hne) as (st & EX & L & Hpt).
  set (c1 := finish true c st) in *.
  assert (Hwf1 : well_formed c1).
  { destruct Hwf as (A0 & B0 & C0'). unfold well_formed, c1, finish, UpdateRunningNorm.
    cbn [qubitCount maxQPower stateVec with_state]. rewrite L. auto. }
  assert (Eq1 : qubitCount c1 = qubitCount c) by reflexivity.
  assert (Em1 : maxQPower c1 = maxQPower c) by reflexivity.
  assert (Es1 : stateVec c1 = st) by reflexivity.
  destruct (Controlled_pointwise control target B true c1 Hwf1) as (st2 & EX2 & L2 & Hpt2);
    try (rewrite Eq1; lia); auto.
  destruct (Controlled_pointwise control target C true c Hwf Hc Ht Hne)
    as (st3 & EX3 & L3 & Hpt3).
  exists c1. split; [exact EX|]. split; [exact Hwf1|]. rewrite EX2, EX3.
  assert (E : st2 = st3).
  { apply (load_ext C0); [congruence|].
    intros j Hj.
    destruct Hwf as (A0 & B0 & C0').
    assert (Hj0 : (0 <= j < maxQPower c)%Z) by (rewrite L2, Es1, L in Hj; lia).
    assert (Hx : (0 <= Z.lxor j (2 ^ target) < maxQPower c)%Z)
      by (rewrite B0; apply lxor_pow2_bounds; lia).
    rewrite (Hpt2 j), (Hpt3 j) by (rewrite ?Em1; lia).
    rewrite Es1, (Hpt j Hj0), (Hpt _ Hx).
    rewrite testbit_lxor_other by lia.
    rewrite testbit_lxor_pow2, lxor_involutive by lia.
    destruct (HP (load C0 (stateVec c) j) (load C0 (stateVec c) (Z.lxor j (2 ^ target))))
      as (P0 & _).
    destruct (HP (load C0 (stateVec c) (Z.lxor j (2 ^ target))) (load C0 (stateVec c) j))
      as (_ & P1).
    destruct (Z.testbit j control); [|reflexivity].
    destruct (Z.testbit j target); cbn [negb]; auto. }
  rewrite E. unfold finish, UpdateRunningNorm, with_state, c1, finish.
  reflexivity.
Qed.

End ControlledRotationFacts.

(** * The claims *)

(** C1.  [CoherentUnit::M] at the one-qubit state (3/5, 4/5) with the draws
    u = 0 and theta = 0: [Prob(0)] is 16/25, the result is [true], the
    amplitude of [|0>] is zeroed, and the surviving amplitude 4/5 is divided
    by [oneChance] = 16/25 (giving 5/4, and a running norm of 5/4), not by
    [sqrt(oneChance)] = 4/5 (which would give 1). *)
Theorem M_divides_by_oneChance :
  CoherentUnit.M 0 Examples.unit_3_4
  = (true,
     CoherentUnit.Build (5 / 4) 1 2 [Cplx.cplx 0 0; Cplx.cplx (5 / 4) 0]
       (Rng.mk (fun _ => 0%R) 2))
  /\ Cplx.mul (Cplx.divr (Cplx.cplx (cos 0) (sin 0)) (sqrt (16 / 25))) (Cplx.cplx (4 / 5) 0)
     = Cplx.cplx 1 0.
Proof.
  split.
  - run_model. zero_phase. f_equal. f_equal.
    + replace (_ + _)%R with ((5 / 4) * (5 / 4))%R by lra. apply sqrt_square; lra.
    + repeat (f_equal; try lra).
  - replace (16 / 25)%R with ((4 / 5) * (4 / 5))%R by lra.
    rewrite sqrt_square, cos_0, sin_0 by lra.
    unfold Cplx.mul, Cplx.divr, Cplx.cplx; simpl. f_equal; lra.
Qed.

(** C2.  [Register::MAll] reads the amplitude without normalizing first.  On
    the one-qubit register holding [|1>] scaled by 4/5 ([runningNorm] = 4/5)
    and the draw u = 4/5: [ProbAll(1)], which normalizes first, reports
    probability 1; [MAll(1)] compares u with the raw 16/25, returns [false]
    and leaves the all-zero vector; after a normalization it returns
    [true]. *)
Theorem MAll_reads_unnormalized_amplitude :
  fst (Register.ProbAll 1 Examples.reg_scaled_one) = 1%R /\
  fst (Register.MAll 1 Examples.reg_scaled_one) = false /\
  Register.stateVec (snd (Register.MAll 1 Examples.reg_scaled_one)) = [Cplx.C0; Cplx.C0] /\
  fst (Register.MAll 1 (Register.normalize_if_needed Examples.reg_scaled_one)) = true.
Proof.
  repeat split.
  - run_model. lra.
  - run_model. reflexivity.
  - run_model. zero_phase. repeat (f_equal; try lra).
  - run_model. reflexivity.
Qed.

(** C3 (as stated, on [Register]).  [Register::RXDyad(1, 1, 0)] is not
    [RX] with the angle -pi * 1 * 2 / 1: on the register in [|0>] the first
    leaves the amplitude 0 at index 0 (a half-angle of -pi/2), the second the
    amplitude -1 (a half-angle of -pi). *)
Lemma Register_RXDyad_is_not_RX_of_doubled_angle :
  Register.RXDyad 1 1 0 Examples.reg_zero
  <> Register.RX (- PI * 1 * 2 / 1) 0 Examples.reg_zero.
Proof.
  intros H.
  apply (f_equal (fun r => Cplx.real (Buf.load Cplx.C0 (Register.stateVec r) 0))) in H.
  revert H. run_model.
  replace (- PI * 1 / 1 / 2)%R with (- (PI / 2))%R by lra.
  replace (- PI * 1 * 2 / 1 / 2)%R with (- PI)%R by lra.
  rewrite !cos_neg, !sin_neg, cos_PI2, sin_PI2, cos_PI, sin_PI.
  lra.
Qed.

(** C3 (amended).  For a denominator that is not zero: in [CoherentUnit]
    the dyadic gates apply the radian gate with the angle -pi * numerator *
    2 / denominator, and [R1Dyad] with +pi * numerator * 2 / denominator; in
    the header-only [Register] the factor 2 is absent: the angles are -pi *
    numerator / denominator and, for [R1Dyad], +pi * numerator /
    denominator. *)
Theorem dyadic_gates_apply_radian_gates :
  forall (numerator denominator q : Z) (c : CoherentUnit.t) (r : Register.t),
    denominator <> 0 ->
    (CoherentUnit.R1Dyad numerator denominator q c
     = CoherentUnit.R1 (PI * IZR numerator * 2 / IZR denominator) q c /\
     CoherentUnit.RXDyad numerator denominator q c
     = CoherentUnit.RX (- PI * IZR numerator * 2 / IZR denominator) q c /\
     CoherentUnit.RYDyad numerator denominator q c
     = CoherentUnit.RY (- PI * IZR numerator * 2 / IZR denominator) q c /\
     CoherentUnit.RZDyad numerator denominator q c
     = CoherentUnit.RZ (- PI * IZR numerator * 2 / IZR denominator) q c) /\
    (Register.R1Dyad numerator denominator q r
     = Register.R1 (PI * IZR numerator / IZR denominator) q r /\
     Register.RXDyad numerator denominator q r
     = Register.RX (- PI * IZR numerator / IZR denominator) q r /\
     Register.RYDyad numerator denominator q r
     = Register.RY (- PI * IZR numerator / IZR denominator) q r /\
     Register.RZDyad numerator denominator q r
     = Register.RZ (- PI * IZR numerator / IZR denominator) q r).
Proof.
  intros numerator denominator q c r _; repeat split.
Qed.

(** Witness of C3: [RXDyad(1, 2, 0)] of both classes on the one-qubit
    registers in [|0>]. *)
Lemma dyadic_gates_apply_radian_gates_witness :
  CoherentUnit.RXDyad 1 2 0 Examples.unit_zero
  = CoherentUnit.RX (- PI * IZR 1 * 2 / IZR 2) 0 Examples.unit_zero /\
  Register.RXDyad 1 2 0 Examples.reg_zero
  = Register.RX (- PI * IZR 1 / IZR 2) 0 Examples.reg_zero.
Proof.
  destruct (dyadic_gates_apply_radian_gates 1 2 0 Examples.unit_zero Examples.reg_zero)
    as ((_ & H1 & _) & (_ & H2 & _)).
  - lia.
  - split; [exact H1 | exact H2].
Defined.

(** C4.  The copy constructor of [Register] copies [qubitCount] amplitudes,
    not [maxQPower]: the copy of the two-qubit register in [|3>] holds the
    all-zero vector. *)
Theorem Register_clone_drops_amplitudes :
  forall g : Rng.t,
    Register.stateVec (Register.clone Examples.reg_three g)
    = [Cplx.C0; Cplx.C0; Cplx.C0; Cplx.C0]
    /\ Buf.load Cplx.C0 (Register.stateVec Examples.reg_three) 3 = Cplx.cplx 1 0
    /\ Buf.load Cplx.C0 (Register.stateVec (Register.clone Examples.reg_three g)) 3
       = Cplx.cplx 0 0.
Proof.
  intros g; repeat split.
Qed.

(** C5.  [ADDBCD] on eight qubits, [inOutStart = 0], [inStart = 4], [length
    = 4], at the basis state [|0x29>] (digits 9 and 2).  The host stores
    [nibbleCount] in cell 7 of the parameter array and the kernel reads cell
    9, which holds 0: no digit is added, the amplitude is written to index
    0x20 (digit 0) where the BCD sum 9 + 2 = 11 mod 10 = 1 asks for index
    0x21, and index 0x21 receives nothing. *)
Theorem ADDBCD_writes_digit_zero :
  nth 7 (CoherentUnit.ADDBCD_args 0 4 4 Examples.unit_bcd_9_2) 0 = 1 /\
  OCL.arg (CoherentUnit.ADDBCD_args 0 4 4 Examples.unit_bcd_9_2) 9 = 0 /\
  OCL.addbcd_dest (CoherentUnit.ADDBCD_args 0 4 4 Examples.unit_bcd_9_2) 41 = 32 /\
  exists c',
    CoherentUnit.ADDBCD Shape.zeroed 0 4 4 Examples.unit_bcd_9_2 = Host.Ok c' /\
    Buf.load Cplx.C0 (CoherentUnit.stateVec c') 33 = Cplx.C0.
Proof.
  repeat split.
  eexists; split; [vm_compute; reflexivity | reflexivity].
Qed.

(** C6.  [ROL(1, 0, 2)] and then [ROR(1, 0, 2)] on the two-qubit register
    in [|1>]: [ROL] moves the amplitude to index 2; the kernel [ror] masks
    the right-shifted half instead of the left-shifted one, computes the
    target 5 for index 2, and the store falls outside the array of 4
    amplitudes. *)
Theorem ROL_then_ROR_leaves_the_array :
  CoherentUnit.ROL Shape.zeroed 1 0 2 Examples.unit_one = Host.Ok Examples.unit_two /\
  OCL.ror_dest (CoherentUnit.rotate_args 1 0 2 Examples.unit_two) 2 = 5 /\
  CoherentUnit.ROR Shape.zeroed 1 0 2 Examples.unit_two = Host.Undefined.
Proof.
  repeat split.
Qed.




(** C8.  The constructors at [qBitCount = 65]: the all-zeros form throws
    [InvalidArgument]; the chosen-permutation forms of both classes have no
    such check and go on to [1 << 65]. *)
Theorem permutation_constructor_has_no_check :
  forall (fresh : Z -> list Cplx.Complex16) (g : Rng.t),
    CoherentUnit.new fresh 65 g = Host.Throw Host.InvalidArgument /\
    Register.new 65 g = Host.Throw Host.InvalidArgument /\
    CoherentUnit.new_perm fresh 65 0 g = Host.Undefined /\
    Register.new_perm 65 0 g = Host.Undefined.
Proof.
  intros fresh g; repeat split.
Qed.

(** C9.  [Register::SetBit(0, true)] on the one-qubit register in [|0>]
    begins with [Register::M(0)].  That call sums no amplitude into
    [zeroChance] ([lcv & qPower == 0] groups as [lcv & (qPower == 0)]), so it
    takes the outcome 1 although its probability is 0: it zeroes the
    amplitude at index 0, keeps the zero amplitude at index 1 and leaves
    the all-zero vector with [runningNorm = 0].  No amplitude is left for
    the qubit to be [|1>]. *)
Theorem Register_SetBit_loses_the_state :
  fst (Register.M 0 Examples.reg_zero) = true /\
  Register.stateVec (snd (Register.M 0 Examples.reg_zero)) = [Cplx.C0; Cplx.C0] /\
  Register.runningNorm (snd (Register.M 0 Examples.reg_zero)) = 0%R.
Proof.
  assert (EM : Register.M 0 Examples.reg_zero
               = (true, Register.Build 0 1 2 [Cplx.C0; Cplx.C0] (Rng.mk (fun _ => 0%R) 2))).
  { run_model. zero_phase. f_equal. f_equal.
    - replace (0 + _)%R with 0%R by lra. apply sqrt_0.
    - repeat (f_equal; try lra). }
  rewrite EM. repeat split.
Qed.

(** C10.  On a well-formed register, for a qubit range [[start, start +
    length)] inside it, [X(start, length)] succeeds and sends the amplitude
    of every index [i] to the index [j] that is [i] with exactly the bits of
    the range complemented; applying it a second time gives back the
    register it started from. *)
Theorem X_range_complements_bits (fresh : Z -> list Cplx.Complex16) (start length : Z)
    (c : CoherentUnit.t) :
  Shape.allocates fresh -> Shape.well_formed c ->
  0 <= start -> 0 <= length -> start + length <= CoherentUnit.qubitCount c ->
  exists c',
    CoherentUnit.X_range fresh start length c = Host.Ok c' /\
    Shape.well_formed c' /\
    (forall i j, 0 <= i < CoherentUnit.maxQPower c ->
       Shape.complemented start length i j ->
       Buf.load Cplx.C0 (CoherentUnit.stateVec c') j
       = Buf.load Cplx.C0 (CoherentUnit.stateVec c) i) /\
    CoherentUnit.X_range fresh start length c' = Host.Ok c.
Proof.
  intros Hf Hwf Hs Hl Hr.
  destruct (XRange.X_range_state fresh start length c Hf Hwf Hs Hl Hr) as (sv & E & L & H).
  assert (Hwf' : Shape.well_formed (CoherentUnit.with_state c sv)).
  { destruct Hwf as (Hq & Hm & Hlen); repeat split; simpl; auto; try lia. }
  exists (CoherentUnit.with_state c sv); repeat split; auto; try apply Hwf'.
  - intros i j Hi Hc. apply BitFacts.complemented_lxor in Hc; auto. subst j. now apply H.
  - destruct (XRange.X_range_state fresh start length (CoherentUnit.with_state c sv)
                Hf Hwf' Hs Hl Hr) as (sv2 & E2 & L2 & H2).
    rewrite E2. f_equal. destruct c as [rn qc mq st g]; unfold CoherentUnit.with_state; simpl in *.
    f_equal. apply (ArrayFacts.load_ext Cplx.C0); [lia|].
    intros i Hi. destruct Hwf as (Hq & Hm & Hlen); simpl in *.
    assert (Hb : 0 <= Z.lxor i (Shape.range_mask start length) < mq).
    { rewrite Hm. apply BitFacts.lxor_range_mask_bounds; lia. }
    rewrite <- (BitFacts.lxor_involutive i (Shape.range_mask start length)) at 1.
    rewrite (H2 _ Hb). apply H. lia.
Qed.

(** Witness of C10: [X(0, 2)] on the two-qubit register in [|1>]. *)
Lemma X_range_complements_bits_witness :
  exists c',
    CoherentUnit.X_range Shape.zeroed 0 2 Examples.unit_one = Host.Ok c' /\
    Shape.well_formed c' /\
    (forall i j, 0 <= i < 4 ->
       Shape.complemented 0 2 i j ->
       Buf.load Cplx.C0 (CoherentUnit.stateVec c') j
       = Buf.load Cplx.C0 (CoherentUnit.stateVec Examples.unit_one) i) /\
    CoherentUnit.X_range Shape.zeroed 0 2 c' = Host.Ok Examples.unit_one.
Proof.
  apply (X_range_complements_bits Shape.zeroed 0 2 Examples.unit_one).
  - exact ShapeFacts.zeroed_allocates.
  - unfold Shape.well_formed; simpl; lia.
  - lia.
  - lia.
  - simpl; lia.
Defined.

(** * Further properties of [CoherentUnit] *)

(** X1.  The copy constructor of [CoherentUnit] copies the qubit count, the
    running norm, [maxQPower] and every amplitude; the random source is the
    freshly seeded one. *)
Theorem CoherentUnit_clone_copies_state (fresh : Z -> list Cplx.Complex16)
    (pqs : CoherentUnit.t) (g : Rng.t) :
  Shape.allocates fresh -> Shape.well_formed pqs ->
  CoherentUnit.clone fresh pqs g
  = CoherentUnit.Build (CoherentUnit.runningNorm pqs) (CoherentUnit.qubitCount pqs)
      (CoherentUnit.maxQPower pqs) (CoherentUnit.stateVec pqs) g.
Proof.
  intros Hf (Hq & Hm & Hl). unfold CoherentUnit.clone. f_equal.
  apply CopyFacts.copy_n_all; auto.
  apply Hf. rewrite Hm. apply Z.lt_le_incl, Z.pow_pos_nonneg; lia.
Qed.

(** Witness of X1: the copy of the one-qubit register (3/5, 4/5). *)
Lemma CoherentUnit_clone_copies_state_witness :
  CoherentUnit.clone Shape.zeroed Examples.unit_3_4 Examples.high_then_zeros
  = CoherentUnit.Build 1 1 2 [Cplx.cplx (3 / 5) 0; Cplx.cplx (4 / 5) 0]
      Examples.high_then_zeros.
Proof.
  apply (CoherentUnit_clone_copies_state Shape.zeroed Examples.unit_3_4).
  - exact ShapeFacts.zeroed_allocates.
  - unfold Shape.well_formed; simpl; lia.
Defined.

(** X2.  The all-zeros constructor of [CoherentUnit]: above 64 qubits it throws
    [InvalidArgument]; up to 30 qubits it builds a well-formed register with
    running norm 1 whose amplitude at index 0 is [e^(i theta)], [theta] one
    draw times 2 pi, and whose other amplitudes are zero. *)
Theorem CoherentUnit_new_zero_state (fresh : Z -> list Cplx.Complex16) (qBitCount : Z)
    (g : Rng.t) :
  Shape.allocates fresh ->
  (64 < qBitCount -> CoherentUnit.new fresh qBitCount g = Host.Throw Host.InvalidArgument) /\
  (0 <= qBitCount <= 30 ->
   exists c,
     CoherentUnit.new fresh qBitCount g = Host.Ok c /\
     Shape.well_formed c /\
     CoherentUnit.qubitCount c = qBitCount /\
     CoherentUnit.runningNorm c = 1%R /\
     CoherentUnit.rand_generator c = snd (Rng.next g) /\
     Buf.load Cplx.C0 (CoherentUnit.stateVec c) 0
     = Cplx.cplx (cos (fst (Rng.next g) * 2 * PI)) (sin (fst (Rng.next g) * 2 * PI)) /\
     forall i, 0 < i < 2 ^ qBitCount ->
       Buf.load Cplx.C0 (CoherentUnit.stateVec c) i = Cplx.cplx 0 0).
Proof.
  intros Hf; split.
  - intros H. unfold CoherentUnit.new.
    now replace (64 <? qBitCount) with true by (symmetry; apply Z.ltb_lt; lia).
  - intros H. unfold CoherentUnit.new.
    replace (64 <? qBitCount) with false by (symmetry; apply Z.ltb_ge; lia).
    destruct (Rng.next g) as [r g'] eqn:E. cbn [fst snd].
    unfold Machine.int_shl1.
    replace (0 <=? qBitCount) with true by (symmetry; apply Z.leb_le; lia).
    replace (qBitCount <? 31) with true by (symmetry; apply Z.ltb_lt; lia).
    cbn [andb]. rewrite Z.shiftl_1_l.
    assert (Hp : 0 < 2 ^ qBitCount) by (apply Z.pow_pos_nonneg; lia).
    destruct (CopyFacts.fill_n_all (2 ^ qBitCount) (Cplx.cplx 0 0) (fresh (2 ^ qBitCount)))
      as (L & Hin); [apply Hf; lia|].
    assert (Hlen : Z.of_nat (length (Host.fill_n (2 ^ qBitCount) (Cplx.cplx 0 0)
                                       (fresh (2 ^ qBitCount)))) = 2 ^ qBitCount).
    { rewrite L. apply Hf; lia. }
    rewrite ArrayFacts.store_some by lia.
    eexists; split; [reflexivity|].
    cbn [CoherentUnit.qubitCount CoherentUnit.runningNorm CoherentUnit.rand_generator
         CoherentUnit.stateVec CoherentUnit.maxQPower].
    split; [|repeat split; auto].
    + unfold Shape.well_formed.
      cbn [CoherentUnit.qubitCount CoherentUnit.stateVec CoherentUnit.maxQPower].
      rewrite ArrayFacts.put_length. lia.
    + apply ArrayFacts.load_put_eq; lia.
    + intros i Hi. rewrite ArrayFacts.load_put_neq by lia. apply Hin; lia.
Qed.

(** Witness of X2: the all-zeros constructor at 65 qubits. *)
Lemma CoherentUnit_new_zero_state_witness :
  CoherentUnit.new Shape.zeroed 65 Examples.zeros = Host.Throw Host.InvalidArgument.
Proof.
  apply (CoherentUnit_new_zero_state Shape.zeroed 65 Examples.zeros).
  - exact ShapeFacts.zeroed_allocates.
  - lia.
Defined.

(** X3.  [SetBit(q, v)] of [CoherentUnit] on a well-formed register whose
    [runningNorm] holds the positive norm of its vector, with draws in
    [[0, 1)]: the call returns, and afterwards [Prob(q)] is exactly 1 when
    [v] is true and exactly 0 when [v] is false. *)
Theorem CoherentUnit_SetBit_fixes_the_bit (q : Z) (v : bool) (c : CoherentUnit.t) :
  Shape.well_formed c -> Shape.norm_cached c ->
  0 <= q < CoherentUnit.qubitCount c ->
  Rng.uniform (CoherentUnit.rand_generator c) ->
  exists c',
    CoherentUnit.SetBit q v c = Host.Ok c' /\
    fst (CoherentUnit.Prob q c') = (if v then 1 else 0)%R.
Proof.
  intros Hwf Hnc Hq Hu.
  destruct (SetBitFacts.M_outcome q c Hwf Hnc Hq Hu) as (Hwf1 & Hnc1 & Eq1 & Ht & Hf).
  unfold CoherentUnit.SetBit.
  destruct (CoherentUnit.M q c) as [r c1] eqn:EM. cbn [fst snd] in *.
  destruct r.
  - destruct (Ht eq_refl) as (Wc & Ws).
    destruct v; cbn [Bool.eqb negb].
    + exists c1; split; auto.
      rewrite MeasureFacts.Prob_weight. cbn [fst].
      destruct (CohereFacts.normalize_if_needed_shape c1) as (_ & Em & _).
      rewrite Em, MeasureFacts.normalized_weight by auto.
      rewrite <- MeasureFacts.norm_cached_total by auto.
      rewrite <- (MeasureFacts.weight_split q) by lia.
      rewrite Wc. field. lra.
    + destruct (SetBitFacts.X_swaps_weights q c1 Hwf1 ltac:(lia))
        as (c2 & EX & Hwf2 & Hrn & Em & Hw).
      exists c2; split; auto.
      rewrite MeasureFacts.Prob_weight. cbn [fst].
      rewrite SetBitFacts.normalize_if_needed_unit by auto.
      rewrite Em, Hw, Wc. lra.
  - destruct (Hf eq_refl) as (Ws & Wc & Hrn1).
    destruct v; cbn [Bool.eqb negb].
    + destruct (SetBitFacts.X_swaps_weights q c1 Hwf1 ltac:(lia))
        as (c2 & EX & Hwf2 & Hrn & Em & Hw).
      exists c2; split; auto.
      rewrite MeasureFacts.Prob_weight. cbn [fst].
      rewrite SetBitFacts.normalize_if_needed_unit by auto.
      rewrite Em, Hw, Wc, Hrn1. lra.
    + exists c1; split; auto.
      rewrite MeasureFacts.Prob_weight. cbn [fst].
      rewrite SetBitFacts.normalize_if_needed_unit by auto.
      exact Ws.
Qed.

(** Witness of X3: [SetBit(0, true)] on the one-qubit register (3/5, 4/5). *)
Lemma CoherentUnit_SetBit_fixes_the_bit_witness :
  exists c',
    CoherentUnit.SetBit 0 true Examples.unit_3_4 = Host.Ok c' /\
    fst (CoherentUnit.Prob 0 c') = 1%R.
Proof.
  apply (CoherentUnit_SetBit_fixes_the_bit 0 true Examples.unit_3_4).
  - unfold Shape.well_formed; simpl; lia.
  - split; [simpl; lra|].
    run_model. replace (_ + _)%R with 1%R by lra. symmetry; apply sqrt_1.
  - simpl; lia.
  - intros k; simpl; lra.
Defined.

(** X4.  [Prob(q)] of [CoherentUnit] reads the normalized vector: on a
    well-formed register whose [runningNorm] holds the positive norm of its
    vector, for a qubit [q] of the register, the register it leaves has [runningNorm = 1] and squared
    magnitudes that sum to 1, and the value returned is the sum of the
    squared magnitudes at the indices whose bit [q] is set. *)
Theorem CoherentUnit_Prob_reads_normalized_state (q : Z) (c : CoherentUnit.t) :
  Shape.well_formed c -> Shape.norm_cached c -> 0 <= q < CoherentUnit.qubitCount c ->
  snd (CoherentUnit.Prob q c) = CoherentUnit.normalize_if_needed c /\
  CoherentUnit.runningNorm (snd (CoherentUnit.Prob q c)) = 1%R /\
  Host.par_norm (CoherentUnit.maxQPower c) (CoherentUnit.stateVec (snd (CoherentUnit.Prob q c)))
  = 1%R /\
  fst (CoherentUnit.Prob q c)
  = Sums.weight (Sums.is_set q) (CoherentUnit.maxQPower c)
      (CoherentUnit.stateVec (snd (CoherentUnit.Prob q c))).
Proof.
  intros Hwf Hnc _. rewrite MeasureFacts.Prob_weight. cbn [fst snd].
  destruct (CohereFacts.normalize_if_needed_shape c) as (_ & Em & _).
  repeat split.
  - apply MeasureFacts.normalized_runningNorm.
  - rewrite MeasureFacts.par_norm_weight, MeasureFacts.normalized_total by auto.
    apply sqrt_1.
  - now rewrite Em.
Qed.

(** Witness of X4: [Prob(0)] on the one-qubit register of amplitude 2 and
    [runningNorm] 2. *)
Lemma CoherentUnit_Prob_reads_normalized_state_witness :
  CoherentUnit.runningNorm (snd (CoherentUnit.Prob 0 Examples.unit_doubled)) = 1%R /\
  Host.par_norm 2 (CoherentUnit.stateVec (snd (CoherentUnit.Prob 0 Examples.unit_doubled)))
  = 1%R.
Proof.
  assert (H := CoherentUnit_Prob_reads_normalized_state 0 Examples.unit_doubled).
  destruct H as (_ & H1 & H2 & _).
  - unfold Shape.well_formed; simpl; lia.
  - split; [simpl; lra|].
    run_model. replace (_ + _)%R with (2 * 2)%R by lra. symmetry; apply sqrt_square; lra.
  - simpl; lia.
  - split; [exact H1 | exact H2].
Defined.

(** X5.  [X(q)] of [CoherentUnit] on a well-formed register whose
    [runningNorm] is not zero: the call returns a register with [runningNorm = 1] whose amplitude at every index
    is the amplitude the register had at the index with bit [q]
    complemented, times [1 / runningNorm]; on a register whose
    [runningNorm] is 1 a second [X(q)] gives back the register itself. *)
Theorem CoherentUnit_X_swaps_pairs (q : Z) (c : CoherentUnit.t) :
  Shape.well_formed c -> CoherentUnit.runningNorm c <> 0%R ->
  0 <= q < CoherentUnit.qubitCount c ->
  exists c',
    CoherentUnit.X q c = Host.Ok c' /\
    Shape.well_formed c' /\
    CoherentUnit.runningNorm c' = 1%R /\
    (forall j, 0 <= j < CoherentUnit.maxQPower c ->
       Buf.load Cplx.C0 (CoherentUnit.stateVec c') j
       = Cplx.scale (Buf.load Cplx.C0 (CoherentUnit.stateVec c) (Z.lxor j (2 ^ q)))
           (1 / CoherentUnit.runningNorm c)) /\
    (CoherentUnit.runningNorm c = 1%R -> CoherentUnit.X q c' = Host.Ok c).
Proof.
  intros Hwf _ Hq.
  destruct (SwapFacts.X_pointwise q c Hwf Hq) as (st & EX & L & Hpt).
  set (c' := CoherentUnit.Build 1 (CoherentUnit.qubitCount c) (CoherentUnit.maxQPower c) st
               (CoherentUnit.rand_generator c)) in *.
  assert (Hwf' : Shape.well_formed c').
  { destruct Hwf as (A & B & C). unfold Shape.well_formed, c'.
    cbn [CoherentUnit.qubitCount CoherentUnit.maxQPower CoherentUnit.stateVec].
    rewrite L. auto. }
  exists c'. split; [exact EX|]. split; [exact Hwf'|]. split; [reflexivity|].
  split; [exact Hpt|].
  intros Hrn.
  destruct (SwapFacts.X_pointwise q c' Hwf' Hq) as (st2 & EX2 & L2 & Hpt2).
  rewrite EX2. f_equal.
  destruct c as [rn qc mq sv g]. unfold c' in *.
  cbn [CoherentUnit.runningNorm CoherentUnit.qubitCount CoherentUnit.maxQPower
       CoherentUnit.stateVec CoherentUnit.rand_generator] in *.
  subst rn. f_equal.
  apply (ArrayFacts.load_ext Cplx.C0); [lia|].
  intros j Hj.
  destruct Hwf as (A & B & C).
  cbn [CoherentUnit.qubitCount CoherentUnit.maxQPower CoherentUnit.stateVec] in A, B, C.
  assert (Hj' : 0 <= j < mq) by lia.
  assert (Hx : 0 <= Z.lxor j (2 ^ q) < mq).
  { rewrite B. replace (2 ^ q) with (Shape.range_mask q 1).
    - apply BitFacts.lxor_range_mask_bounds; lia.
    - unfold Shape.range_mask. change (Z.ones 1) with 1. now rewrite Z.shiftl_1_l. }
  rewrite (Hpt2 j Hj'), (Hpt _ Hx), BitFacts.lxor_involutive.
  destruct (Buf.load Cplx.C0 sv j) as [x y].
  unfold Cplx.scale, Cplx.real, Cplx.imag; simpl. f_equal; field.
Qed.

(** Witness of X5: [X(0)] twice on the one-qubit register (3/5, 4/5). *)
Lemma CoherentUnit_X_swaps_pairs_witness :
  exists c',
    CoherentUnit.X 0 Examples.unit_3_4 = Host.Ok c' /\
    CoherentUnit.X 0 c' = Host.Ok Examples.unit_3_4.
Proof.
  destruct (CoherentUnit_X_swaps_pairs 0 Examples.unit_3_4) as (c' & E & _ & _ & _ & H).
  - unfold Shape.well_formed; simpl; lia.
  - simpl; lra.
  - simpl; lia.
  - exists c'. split; [exact E | apply H; reflexivity].
Defined.

(** * Further properties of the operations *)

(** X6.  [Z(q)] of [CoherentUnit] on a well-formed register whose
    [runningNorm] is not zero: every amplitude
    is divided by [runningNorm], and the amplitudes at the indices whose bit
    [q] is clear change sign; [runningNorm] becomes 1.  On a register whose
    [runningNorm] is 1 a second [Z(q)] gives back the register itself. *)
Theorem CoherentUnit_Z_negates_clear_indices (q : Z) (c : CoherentUnit.t) :
  Shape.well_formed c -> CoherentUnit.runningNorm c <> 0%R ->
  0 <= q < CoherentUnit.qubitCount c ->
  exists c',
    CoherentUnit.ZGate q c = Host.Ok c' /\
    Shape.well_formed c' /\
    CoherentUnit.runningNorm c' = 1%R /\
    (forall j, 0 <= j < CoherentUnit.maxQPower c ->
       Buf.load Cplx.C0 (CoherentUnit.stateVec c') j
       = Cplx.scale (Buf.load Cplx.C0 (CoherentUnit.stateVec c) j)
           (if Z.testbit j q then 1 / CoherentUnit.runningNorm c
            else - (1 / CoherentUnit.runningNorm c))) /\
    (CoherentUnit.runningNorm c = 1%R -> CoherentUnit.ZGate q c' = Host.Ok c).
Proof.
  intros Hwf _ Hq.
  destruct (GateFacts.ApplySingleBit_pointwise q Host.pauliZ false c Hwf Hq)
    as (st & EX & L & Hpt).
  set (c' := Gates.finish false c st) in *.
  assert (Hwf' : Shape.well_formed c').
  { destruct Hwf as (A & B & C). unfold Shape.well_formed, c', Gates.finish.
    cbn [CoherentUnit.qubitCount CoherentUnit.maxQPower CoherentUnit.stateVec].
    rewrite L. auto. }
  assert (Hpt' : forall j, 0 <= j < CoherentUnit.maxQPower c ->
            Buf.load Cplx.C0 st j
            = Cplx.scale (Buf.load Cplx.C0 (CoherentUnit.stateVec c) j)
                (if Z.testbit j q then 1 / CoherentUnit.runningNorm c
                 else - (1 / CoherentUnit.runningNorm c))).
  { intros j Hj. rewrite (Hpt j Hj).
    destruct (Buf.load Cplx.C0 (CoherentUnit.stateVec c) j) as [x y].
    destruct (Buf.load Cplx.C0 (CoherentUnit.stateVec c) (Z.lxor j (2 ^ q))) as [x' y'].
    destruct (Z.testbit j q);
      unfold Host.pauliZ, Cplx.scale, Cplx.add, Cplx.mul, Cplx.cplx, Cplx.real, Cplx.imag;
      cbn [Host.m0 Host.m1 Host.m2 Host.m3 fst snd]; f_equal; ring. }
  exists c'. split; [exact EX|]. split; [exact Hwf'|]. split; [reflexivity|].
  split; [exact Hpt'|].
  intros Hrn.
  destruct (GateFacts.ApplySingleBit_pointwise q Host.pauliZ false c' Hwf' Hq)
    as (st2 & EX2 & L2 & Hpt2).
  unfold CoherentUnit.ZGate. rewrite EX2. f_equal.
  destruct c as [rn qc mq sv g]. unfold c', Gates.finish in *.
  cbn [CoherentUnit.runningNorm CoherentUnit.qubitCount CoherentUnit.maxQPower
       CoherentUnit.stateVec CoherentUnit.rand_generator] in *.
  subst rn. f_equal.
  apply (ArrayFacts.load_ext Cplx.C0); [lia|].
  intros j Hj.
  destruct Hwf as (A & B & C).
  cbn [CoherentUnit.qubitCount CoherentUnit.maxQPower CoherentUnit.stateVec] in A, B, C.
  assert (Hj' : 0 <= j < mq) by lia.
  rewrite (Hpt2 j Hj'). 
  assert (Hx : 0 <= Z.lxor j (2 ^ q) < mq) by (rewrite B; apply GateFacts.lxor_pow2_bounds; lia).
  rewrite (Hpt' j Hj'), (Hpt' _ Hx), GateFacts.testbit_lxor_pow2 by lia.
  destruct (Buf.load Cplx.C0 sv j) as [x y].
  destruct (Buf.load Cplx.C0 sv (Z.lxor j (2 ^ q))) as [x' y'].
  destruct (Z.testbit j q);
    unfold Host.pauliZ, Cplx.scale, Cplx.add, Cplx.mul, Cplx.cplx, Cplx.real, Cplx.imag;
    cbn [Host.m0 Host.m1 Host.m2 Host.m3 fst snd negb]; f_equal; field.
Qed.

(** Witness of X6: [Z(0)] twice on the one-qubit register (3/5, 4/5). *)
Lemma CoherentUnit_Z_negates_clear_indices_witness :
  exists c',
    CoherentUnit.ZGate 0 Examples.unit_3_4 = Host.Ok c' /\
    CoherentUnit.ZGate 0 c' = Host.Ok Examples.unit_3_4.
Proof.
  destruct (CoherentUnit_Z_negates_clear_indices 0 Examples.unit_3_4)
    as (c' & E & _ & _ & _ & H).
  - exact ExampleFacts.unit_3_4_well_formed.
  - simpl; lra.
  - simpl; lia.
  - exists c'. split; [exact E | apply H; reflexivity].
Defined.

(** X7.  [Y(q)] of [CoherentUnit] on a well-formed register whose
    [runningNorm] is not zero: the amplitude
    at an index becomes the amplitude of the index with bit [q]
    complemented, divided by [runningNorm] and multiplied by [-i] where bit
    [q] of the index is set and by [i] where it is clear; [runningNorm]
    becomes 1.  On a register whose [runningNorm] is 1 a second [Y(q)] gives
    back the register itself. *)
Theorem CoherentUnit_Y_swaps_pairs_with_phase (q : Z) (c : CoherentUnit.t) :
  Shape.well_formed c -> CoherentUnit.runningNorm c <> 0%R ->
  0 <= q < CoherentUnit.qubitCount c ->
  exists c',
    CoherentUnit.Y q c = Host.Ok c' /\
    Shape.well_formed c' /\
    CoherentUnit.runningNorm c' = 1%R /\
    (forall j, 0 <= j < CoherentUnit.maxQPower c ->
       Buf.load Cplx.C0 (CoherentUnit.stateVec c') j
       = Cplx.scale
           (Cplx.mul (Cplx.cplx 0 (if Z.testbit j q then -1 else 1))
              (Buf.load Cplx.C0 (CoherentUnit.stateVec c) (Z.lxor j (2 ^ q))))
           (1 / CoherentUnit.runningNorm c)) /\
    (CoherentUnit.runningNorm c = 1%R -> CoherentUnit.Y q c' = Host.Ok c).
Proof.
  intros Hwf _ Hq.
  destruct (GateFacts.ApplySingleBit_pointwise q Host.pauliY false c Hwf Hq)
    as (st & EX & L & Hpt).
  set (c' := Gates.finish false c st) in *.
  assert (Hwf' : Shape.well_formed c').
  { destruct Hwf as (A & B & C). unfold Shape.well_formed, c', Gates.finish.
    cbn [CoherentUnit.qubitCount CoherentUnit.maxQPower CoherentUnit.stateVec].
    rewrite L. auto. }
  assert (Hpt' : forall j, 0 <= j < CoherentUnit.maxQPower c ->
            Buf.load Cplx.C0 st j
            = Cplx.scale
                (Cplx.mul (Cplx.cplx 0 (if Z.testbit j q then -1 else 1))
                   (Buf.load Cplx.C0 (CoherentUnit.stateVec c) (Z.lxor j (2 ^ q))))
                (1 / CoherentUnit.runningNorm c)).
  { intros j Hj. rewrite (Hpt j Hj).
    destruct (Buf.load Cplx.C0 (CoherentUnit.stateVec c) j) as [x y].
    destruct (Buf.load Cplx.C0 (CoherentUnit.stateVec c) (Z.lxor j (2 ^ q))) as [x' y'].
    destruct (Z.testbit j q);
      unfold Host.pauliY, Cplx.scale, Cplx.add, Cplx.mul, Cplx.cplx, Cplx.real, Cplx.imag;
      cbn [Host.m0 Host.m1 Host.m2 Host.m3 fst snd]; f_equal; ring. }
  exists c'. split; [exact EX|]. split; [exact Hwf'|]. split; [reflexivity|].
  split; [exact Hpt'|].
  intros Hrn.
  destruct (GateFacts.ApplySingleBit_pointwise q Host.pauliY false c' Hwf' Hq)
    as (st2 & EX2 & L2 & Hpt2).
  unfold CoherentUnit.Y. rewrite EX2. f_equal.
  destruct c as [rn qc mq sv g]. unfold c', Gates.finish in *.
  cbn [CoherentUnit.runningNorm CoherentUnit.qubitCount CoherentUnit.maxQPower
       CoherentUnit.stateVec CoherentUnit.rand_generator] in *.
  subst rn. f_equal.
  apply (ArrayFacts.load_ext Cplx.C0); [lia|].
  intros j Hj.
  destruct Hwf as (A & B & C).
  cbn [CoherentUnit.qubitCount CoherentUnit.maxQPower CoherentUnit.stateVec] in A, B, C.
  assert (Hj' : 0 <= j < mq) by lia.
  rewrite (Hpt2 j Hj').
  assert (Hx : 0 <= Z.lxor j (2 ^ q) < mq) by (rewrite B; apply GateFacts.lxor_pow2_bounds; lia).
  rewrite (Hpt' j Hj'), (Hpt' _ Hx), GateFacts.testbit_lxor_pow2, BitFacts.lxor_involutive by lia.
  destruct (Buf.load Cplx.C0 sv j) as [x y].
  destruct (Buf.load Cplx.C0 sv (Z.lxor j (2 ^ q))) as [x' y'].
  destruct (Z.testbit j q);
    unfold Host.pauliY, Cplx.scale, Cplx.add, Cplx.mul, Cplx.cplx, Cplx.real, Cplx.imag;
    cbn [Host.m0 Host.m1 Host.m2 Host.m3 fst snd negb]; f_equal; field.
Qed.

(** Witness of X7: [Y(0)] twice on the one-qubit register (3/5, 4/5). *)
Lemma CoherentUnit_Y_swaps_pairs_with_phase_witness :
  exists c',
    CoherentUnit.Y 0 Examples.unit_3_4 = Host.Ok c' /\
    CoherentUnit.Y 0 c' = Host.Ok Examples.unit_3_4.
Proof.
  destruct (CoherentUnit_Y_swaps_pairs_with_phase 0 Examples.unit_3_4)
    as (c' & E & _ & _ & _ & H).
  - exact ExampleFacts.unit_3_4_well_formed.
  - simpl; lra.
  - simpl; lia.
  - exists c'. split; [exact E | apply H; reflexivity].
Defined.

(** X8.  [H(q)] of [CoherentUnit] on a well-formed register whose
    [runningNorm] holds the positive norm of its vector: the amplitude at
    an index whose bit [q] is set becomes the sum of the pair, the amplitude
    at an index whose bit [q] is clear the amplitude of its partner minus its
    own, both divided by [sqrt 2 * runningNorm]; the register is left with
    [runningNorm = 1], and a second [H(q)] gives the first vector divided by
    its norm. *)
Theorem CoherentUnit_H_mixes_pairs (q : Z) (c : CoherentUnit.t) :
  Shape.well_formed c -> Shape.norm_cached c -> 0 <= q < CoherentUnit.qubitCount c ->
  exists c1 c2,
    CoherentUnit.H q c = Host.Ok c1 /\
    CoherentUnit.H q c1 = Host.Ok c2 /\
    Shape.well_formed c1 /\ CoherentUnit.runningNorm c1 = 1%R /\
    Shape.well_formed c2 /\ CoherentUnit.runningNorm c2 = 1%R /\
    (forall j, 0 <= j < CoherentUnit.maxQPower c ->
       Buf.load Cplx.C0 (CoherentUnit.stateVec c1) j
       = Cplx.scale
           (Cplx.add (Buf.load Cplx.C0 (CoherentUnit.stateVec c) (Z.lxor j (2 ^ q)))
              (Cplx.scale (Buf.load Cplx.C0 (CoherentUnit.stateVec c) j)
                 (if Z.testbit j q then 1 else -1)))
           (1 / (sqrt 2 * CoherentUnit.runningNorm c))) /\
    (forall j, 0 <= j < CoherentUnit.maxQPower c ->
       Buf.load Cplx.C0 (CoherentUnit.stateVec c2) j
       = Cplx.scale (Buf.load Cplx.C0 (CoherentUnit.stateVec c) j)
           (1 / CoherentUnit.runningNorm c)).
Proof.
  intros Hwf Hnc Hq.
  destruct (GateFacts.ApplySingleBit_pointwise q Host.had true c Hwf Hq)
    as (st & EX & L & Hpt).
  destruct (GateFacts.isometry_normalized q Host.had c st Hwf Hnc Hq
              GateFacts.isometry_had L Hpt) as (Hwf1 & Hnc1 & Hrn1).
  set (c1 := Gates.finish true c st) in *.
  assert (Eq1 : CoherentUnit.qubitCount c1 = CoherentUnit.qubitCount c) by reflexivity.
  assert (Em1 : CoherentUnit.maxQPower c1 = CoherentUnit.maxQPower c) by reflexivity.
  assert (Es1 : CoherentUnit.stateVec c1 = st) by reflexivity.
  assert (Hq1 : 0 <= q < CoherentUnit.qubitCount c1) by (rewrite Eq1; lia).
  destruct (GateFacts.ApplySingleBit_pointwise q Host.had true c1 Hwf1 Hq1)
    as (st2 & EX2 & L2 & Hpt2).
  destruct (GateFacts.isometry_normalized q Host.had c1 st2 Hwf1 Hnc1 Hq1
              GateFacts.isometry_had L2 Hpt2) as (Hwf2 & Hnc2 & Hrn2).
  exists c1, (Gates.finish true c1 st2).
  split; [exact EX|]. split; [exact EX2|].
  split; [exact Hwf1|]. split; [exact Hrn1|]. split; [exact Hwf2|]. split; [exact Hrn2|].
  pose proof GateFacts.sqrt2_neq0 as Hs2.
  assert (Hpos : (0 < CoherentUnit.runningNorm c)%R) by apply Hnc.
  assert (Hpt' : forall j, 0 <= j < CoherentUnit.maxQPower c ->
       Buf.load Cplx.C0 st j
       = Cplx.scale
           (Cplx.add (Buf.load Cplx.C0 (CoherentUnit.stateVec c) (Z.lxor j (2 ^ q)))
              (Cplx.scale (Buf.load Cplx.C0 (CoherentUnit.stateVec c) j)
                 (if Z.testbit j q then 1 else -1)))
           (1 / (sqrt 2 * CoherentUnit.runningNorm c))).
  { intros j Hj. rewrite (Hpt j Hj).
    destruct (Buf.load Cplx.C0 (CoherentUnit.stateVec c) j) as [x y].
    destruct (Buf.load Cplx.C0 (CoherentUnit.stateVec c) (Z.lxor j (2 ^ q))) as [x' y'].
    destruct (Z.testbit j q);
      unfold Host.had, Cplx.scale, Cplx.add, Cplx.mul, Cplx.cplx, Cplx.real, Cplx.imag;
      cbn [Host.m0 Host.m1 Host.m2 Host.m3 fst snd]; f_equal; field; lra. }
  split; [exact Hpt'|].
  intros j Hj.
  assert (Hj1 : 0 <= j < CoherentUnit.maxQPower c1) by (rewrite Em1; lia).
  change (CoherentUnit.stateVec (Gates.finish true c1 st2)) with st2.
  rewrite (Hpt2 j Hj1), Hrn1, Es1.
  destruct Hwf as (A & B & C).
  assert (Hx : 0 <= Z.lxor j (2 ^ q) < CoherentUnit.maxQPower c)
    by (rewrite B; apply GateFacts.lxor_pow2_bounds; lia).
  rewrite (Hpt' j Hj), (Hpt' _ Hx), GateFacts.testbit_lxor_pow2, BitFacts.lxor_involutive by lia.
  pose proof GateFacts.half_sqrt2 as Hh.
  destruct (Buf.load Cplx.C0 (CoherentUnit.stateVec c) j) as [x y].
  destruct (Buf.load Cplx.C0 (CoherentUnit.stateVec c) (Z.lxor j (2 ^ q))) as [x' y'].
  assert (E1 : (1 / (sqrt 2 * CoherentUnit.runningNorm c)
                = 1 / sqrt 2 * (1 / CoherentUnit.runningNorm c))%R) by (field; lra).
  assert (E2 : (-1 / sqrt 2 = - (1 / sqrt 2))%R) by (field; lra).
  destruct (Z.testbit j q);
    unfold Host.had, Cplx.scale, Cplx.add, Cplx.mul, Cplx.cplx, Cplx.real, Cplx.imag;
    cbn [Host.m0 Host.m1 Host.m2 Host.m3 fst snd negb]; rewrite E1, ?E2;
    set (h := (1 / sqrt 2)%R) in *; set (r := (1 / CoherentUnit.runningNorm c)%R);
    f_equal.
  - transitivity (2 * (h * h) * (x * r))%R; [field | rewrite Hh; field].
  - transitivity (2 * (h * h) * (y * r))%R; [field | rewrite Hh; field].
  - transitivity (2 * (h * h) * (x * r))%R; [field | rewrite Hh; field].
  - transitivity (2 * (h * h) * (y * r))%R; [field | rewrite Hh; field].
Qed.

(** Witness of X8: [H(0)] twice on the one-qubit register (3/5, 4/5). *)
Lemma CoherentUnit_H_mixes_pairs_witness :
  exists c1 c2,
    CoherentUnit.H 0 Examples.unit_3_4 = Host.Ok c1 /\
    CoherentUnit.H 0 c1 = Host.Ok c2 /\
    CoherentUnit.runningNorm c2 = 1%R.
Proof.
  destruct (CoherentUnit_H_mixes_pairs 0 Examples.unit_3_4)
    as (c1 & c2 & E1 & E2 & _ & _ & _ & H & _).
  - exact ExampleFacts.unit_3_4_well_formed.
  - exact ExampleFacts.unit_3_4_norm_cached.
  - simpl; lia.
  - exists c1, c2. split; [exact E1 | split; [exact E2 | exact H]].
Defined.

(** X9.  The rotation gates [R1], [RX], [RY] and [RZ] of [CoherentUnit] keep
    a register normalized: on a well-formed register whose [runningNorm]
    holds the positive norm of its vector, each of them returns a
    well-formed register of the same size with [runningNorm = 1] that is
    again the norm of the vector. *)
Theorem CoherentUnit_rotations_keep_the_norm (radians : R) (q : Z) (c : CoherentUnit.t) :
  Shape.well_formed c -> Shape.norm_cached c -> 0 <= q < CoherentUnit.qubitCount c ->
  Forall (fun gate : R -> Z -> CoherentUnit.t -> Host.outcome CoherentUnit.t =>
            exists c',
              gate radians q c = Host.Ok c' /\
              Shape.well_formed c' /\ Shape.norm_cached c' /\
              CoherentUnit.runningNorm c' = 1%R /\
              CoherentUnit.qubitCount c' = CoherentUnit.qubitCount c)
    [CoherentUnit.R1; CoherentUnit.RX; CoherentUnit.RY; CoherentUnit.RZ].
Proof.
  intros Hwf Hnc Hq.
  assert (G : forall mtrx, Gates.isometry mtrx ->
            exists c',
              CoherentUnit.ApplySingleBit q mtrx true c = Host.Ok c' /\
              Shape.well_formed c' /\ Shape.norm_cached c' /\
              CoherentUnit.runningNorm c' = 1%R /\
              CoherentUnit.qubitCount c' = CoherentUnit.qubitCount c).
  { intros mtrx Hiso.
    destruct (GateFacts.ApplySingleBit_pointwise q mtrx true c Hwf Hq) as (st & EX & L & Hpt).
    destruct (GateFacts.isometry_normalized q mtrx c st Hwf Hnc Hq Hiso L Hpt)
      as (Hwf1 & Hnc1 & Hrn1).
    exists (Gates.finish true c st). repeat split; auto; apply Hwf1 || apply Hnc1. }
  repeat constructor.
  - apply G, GateFacts.isometry_R1.
  - apply G, GateFacts.isometry_RX.
  - apply G, GateFacts.isometry_RY.
  - apply G, GateFacts.isometry_RZ.
Qed.

(** Witness of X9: the four rotations by the angle pi on the one-qubit
    register (3/5, 4/5). *)
Lemma CoherentUnit_rotations_keep_the_norm_witness :
  Forall (fun gate : R -> Z -> CoherentUnit.t -> Host.outcome CoherentUnit.t =>
            exists c',
              gate PI 0 Examples.unit_3_4 = Host.Ok c' /\
              Shape.well_formed c' /\ Shape.norm_cached c' /\
              CoherentUnit.runningNorm c' = 1%R /\
              CoherentUnit.qubitCount c' = CoherentUnit.qubitCount Examples.unit_3_4)
    [CoherentUnit.R1; CoherentUnit.RX; CoherentUnit.RY; CoherentUnit.RZ].
Proof.
  apply (CoherentUnit_rotations_keep_the_norm PI 0 Examples.unit_3_4).
  - exact ExampleFacts.unit_3_4_well_formed.
  - exact ExampleFacts.unit_3_4_norm_cached.
  - simpl; lia.
Defined.

(** X10.  Angles add up: on a well-formed register whose [runningNorm]
    holds the positive norm of its vector, each of [R1], [RX], [RY] and [RZ]
    applied with the angle [a] and then with the angle [b] to the same qubit
    leaves exactly what it leaves when applied once with the angle
    [a + b]. *)
Theorem CoherentUnit_rotation_angles_add (a b : R) (q : Z) (c : CoherentUnit.t) :
  Shape.well_formed c -> Shape.norm_cached c -> 0 <= q < CoherentUnit.qubitCount c ->
  Forall (fun gate : R -> Z -> CoherentUnit.t -> Host.outcome CoherentUnit.t =>
            exists c1,
              gate a q c = Host.Ok c1 /\
              gate b q c1 = gate (a + b)%R q c)
    [CoherentUnit.R1; CoherentUnit.RX; CoherentUnit.RY; CoherentUnit.RZ].
Proof.
  intros Hwf Hnc Hq.
  repeat constructor.
  - apply (GateFacts.compose_single_bit q _ _ _ c Hwf Hnc Hq
             (GateFacts.isometry_R1 (a / 2)) (GateFacts.product_R1 a b)).
  - apply (GateFacts.compose_single_bit q _ _ _ c Hwf Hnc Hq
             (GateFacts.isometry_RX (a / 2)) (GateFacts.product_RX a b)).
  - apply (GateFacts.compose_single_bit q _ _ _ c Hwf Hnc Hq
             (GateFacts.isometry_RY (a / 2)) (GateFacts.product_RY a b)).
  - apply (GateFacts.compose_single_bit q _ _ _ c Hwf Hnc Hq
             (GateFacts.isometry_RZ (a / 2)) (GateFacts.product_RZ a b)).
Qed.

(** Witness of X10: the angles pi and pi / 2 on the one-qubit register
    (3/5, 4/5). *)
Lemma CoherentUnit_rotation_angles_add_witness :
  Forall (fun gate : R -> Z -> CoherentUnit.t -> Host.outcome CoherentUnit.t =>
            exists c1,
              gate PI 0 Examples.unit_3_4 = Host.Ok c1 /\
              gate (PI / 2)%R 0 c1 = gate (PI + PI / 2)%R 0 Examples.unit_3_4)
    [CoherentUnit.R1; CoherentUnit.RX; CoherentUnit.RY; CoherentUnit.RZ].
Proof.
  apply (CoherentUnit_rotation_angles_add PI (PI / 2) 0 Examples.unit_3_4).
  - exact ExampleFacts.unit_3_4_well_formed.
  - exact ExampleFacts.unit_3_4_norm_cached.
  - simpl; lia.
Defined.

(** X11.  [M(q)] of [CoherentUnit] is repeatable.  On a well-formed register
    whose [runningNorm] holds the positive norm of its vector, with draws in
    [[0, 1)]: the register [M(q)] leaves is well-formed with [runningNorm]
    the positive norm of its vector, [Prob(q)] on it is exactly 1 when the
    result was true and exactly 0 when it was false, and a second [M(q)]
    returns the same result. *)
Theorem CoherentUnit_M_is_repeatable (q : Z) (c : CoherentUnit.t) :
  Shape.well_formed c -> Shape.norm_cached c ->
  0 <= q < CoherentUnit.qubitCount c ->
  Rng.uniform (CoherentUnit.rand_generator c) ->
  let r := fst (CoherentUnit.M q c) in
  let c1 := snd (CoherentUnit.M q c) in
  Shape.well_formed c1 /\ Shape.norm_cached c1 /\
  fst (CoherentUnit.Prob q c1) = (if r then 1 else 0)%R /\
  fst (CoherentUnit.M q c1) = r.
Proof.
  intros Hwf Hnc Hq Hu r c1.
  destruct (SetBitFacts.M_outcome q c Hwf Hnc Hq Hu) as (Hwf1 & Hnc1 & Eq1 & Ht & Hf).
  fold c1 in Hwf1, Hnc1, Eq1, Ht, Hf. fold r in Ht, Hf.
  assert (HP : fst (CoherentUnit.Prob q c1) = (if r then 1 else 0)%R).
  { rewrite ReadFacts.Prob_share by (auto; lia).
    destruct r.
    - destruct (Ht eq_refl) as (Wc & Ws). rewrite Wc. field. lra.
    - destruct (Hf eq_refl) as (Ws & Wc & _). rewrite Ws, Wc. field. }
  split; [exact Hwf1|]. split; [exact Hnc1|]. split; [exact HP|].
  rewrite ReadFacts.M_result, HP.
  assert (Hd : Rng.draws (CoherentUnit.rand_generator c1)
               = Rng.draws (CoherentUnit.rand_generator c)) by apply ReadFacts.M_draws.
  destruct r.
  - rewrite (RealFacts.Rltb_true _ 1), (RealFacts.Rltb_true 0 1); [reflexivity | lra |].
    rewrite Hd. apply Hu.
  - rewrite (RealFacts.Rltb_false 0 0) by lra. apply andb_false_r.
Qed.

(** Witness of X11: [M(0)] twice on the one-qubit register (3/5, 4/5) with
    draws that are all 0. *)
Lemma CoherentUnit_M_is_repeatable_witness :
  fst (CoherentUnit.M 0 (snd (CoherentUnit.M 0 Examples.unit_3_4)))
  = fst (CoherentUnit.M 0 Examples.unit_3_4).
Proof.
  apply (CoherentUnit_M_is_repeatable 0 Examples.unit_3_4).
  - exact ExampleFacts.unit_3_4_well_formed.
  - exact ExampleFacts.unit_3_4_norm_cached.
  - simpl; lia.
  - exact ExampleFacts.zeros_uniform.
Defined.

(** X12.  [Prob(q)] of [CoherentUnit] is a probability: on a well-formed
    register whose [runningNorm] holds the positive norm of its vector, for
    a qubit [q] of the register, the value lies between 0 and 1, and it is the share of the total squared
    magnitude held by the indices whose bit [q] is set. *)
Theorem CoherentUnit_Prob_is_a_share (q : Z) (c : CoherentUnit.t) :
  Shape.well_formed c -> Shape.norm_cached c -> 0 <= q < CoherentUnit.qubitCount c ->
  (0 <= fst (CoherentUnit.Prob q c) <= 1)%R /\
  (fst (CoherentUnit.Prob q c)
   * Sums.weight Sums.everywhere (CoherentUnit.maxQPower c) (CoherentUnit.stateVec c)
   = Sums.weight (Sums.is_set q) (CoherentUnit.maxQPower c) (CoherentUnit.stateVec c))%R.
Proof.
  intros Hwf Hnc (Hq & _).
  rewrite ReadFacts.Prob_share by auto.
  pose proof (MeasureFacts.weight_nonneg (Sums.is_set q) (CoherentUnit.maxQPower c)
                (CoherentUnit.stateVec c)) as Hs.
  pose proof (MeasureFacts.weight_nonneg (Sums.is_clear q) (CoherentUnit.maxQPower c)
                (CoherentUnit.stateVec c)) as Hc.
  pose proof (ReadFacts.total_positive c Hnc) as Ht.
  rewrite <- (MeasureFacts.weight_split q) in Ht |- * by auto.
  set (s := Sums.weight (Sums.is_set q) _ _) in *.
  set (k := Sums.weight (Sums.is_clear q) _ _) in *.
  split; [split|].
  - apply Rmult_le_pos; [lra | left; apply Rinv_0_lt_compat; lra].
  - apply (Rmult_le_reg_r (s + k)); [lra|]. unfold Rdiv.
    rewrite Rmult_assoc, Rinv_l by lra. lra.
  - field. lra.
Qed.

(** Witness of X12: [Prob(0)] on the one-qubit register (3/5, 4/5). *)
Lemma CoherentUnit_Prob_is_a_share_witness :
  (0 <= fst (CoherentUnit.Prob 0 Examples.unit_3_4) <= 1)%R.
Proof.
  apply (CoherentUnit_Prob_is_a_share 0 Examples.unit_3_4).
  - exact ExampleFacts.unit_3_4_well_formed.
  - exact ExampleFacts.unit_3_4_norm_cached.
  - simpl; lia.
Defined.





(** X15.  [SetQuantumState] then [CloneRawState] of [CoherentUnit], on a
    well-formed register whose [runningNorm] is not zero and arrays of
    [maxQPower] amplitudes:
    [SetQuantumState] stores the amplitudes and leaves [runningNorm] as it
    was, so [CloneRawState] gives back every amplitude divided by that
    [runningNorm]; when it is 1 the output is the input. *)
Theorem CoherentUnit_SetQuantumState_round_trip
    (inputState output : list Cplx.Complex16) (c : CoherentUnit.t) :
  Shape.well_formed c -> CoherentUnit.runningNorm c <> 0%R ->
  Z.of_nat (length inputState) = CoherentUnit.maxQPower c ->
  Z.of_nat (length output) = CoherentUnit.maxQPower c ->
  let c' := CoherentUnit.SetQuantumState inputState c in
  let out := snd (CoherentUnit.CloneRawState output c') in
  CoherentUnit.stateVec c' = inputState /\
  CoherentUnit.runningNorm c' = CoherentUnit.runningNorm c /\
  Z.of_nat (length out) = CoherentUnit.maxQPower c /\
  (forall i, 0 <= i < CoherentUnit.maxQPower c ->
     Buf.load Cplx.C0 out i
     = Cplx.divr (Buf.load Cplx.C0 inputState i) (CoherentUnit.runningNorm c)) /\
  (CoherentUnit.runningNorm c = 1%R -> out = inputState).
Proof.
  intros (Hn & HN & Hlen) _ Hin Hout c' out.
  assert (Es : CoherentUnit.stateVec c' = inputState).
  { unfold c', CoherentUnit.SetQuantumState, CoherentUnit.with_state.
    cbn [CoherentUnit.stateVec]. now apply CopyFacts.copy_n_all. }
  assert (Hwf' : Shape.well_formed c').
  { unfold Shape.well_formed. rewrite Es. unfold c', CoherentUnit.SetQuantumState,
      CoherentUnit.with_state. cbn [CoherentUnit.qubitCount CoherentUnit.maxQPower]. auto. }
  assert (Em : CoherentUnit.maxQPower c' = CoherentUnit.maxQPower c) by reflexivity.
  assert (Er : CoherentUnit.runningNorm c' = CoherentUnit.runningNorm c) by reflexivity.
  destruct (CohereFacts.normalize_if_needed_shape c') as (_ & Em' & _ & El').
  assert (Eo : out = CoherentUnit.stateVec (CoherentUnit.normalize_if_needed c')).
  { unfold out, CoherentUnit.CloneRawState. cbn [snd].
    apply CopyFacts.copy_n_all; rewrite Em', Em; [|auto].
    rewrite El', Es. auto. }
  split; [exact Es|]. split; [exact Er|].
  split; [rewrite Eo, El', Es; auto|].
  split.
  - intros i Hi. rewrite Eo. unfold CoherentUnit.normalize_if_needed, Cplx.Reqb.
    destruct (Req_dec_T (CoherentUnit.runningNorm c') 1) as [H1|H1].
    + rewrite Es. rewrite Er in H1. rewrite H1.
      destruct (Buf.load Cplx.C0 inputState i) as [x y].
      unfold Cplx.divr; simpl; f_equal; field.
    + rewrite CohereFacts.NormalizeState_load by (auto; rewrite Em; lia).
      now rewrite Es, Er.
  - intros H1. rewrite Eo, SetBitFacts.normalize_if_needed_unit by (rewrite Er; auto).
    exact Es.
Qed.

(** Witness of X15: the amplitudes (0, 1) through the one-qubit register
    (3/5, 4/5). *)
Lemma CoherentUnit_SetQuantumState_round_trip_witness :
  snd (CoherentUnit.CloneRawState [Cplx.C0; Cplx.C0]
         (CoherentUnit.SetQuantumState [Cplx.C0; Cplx.C1] Examples.unit_3_4))
  = [Cplx.C0; Cplx.C1].
Proof.
  apply (CoherentUnit_SetQuantumState_round_trip [Cplx.C0; Cplx.C1] [Cplx.C0; Cplx.C0]
           Examples.unit_3_4).
  - exact ExampleFacts.unit_3_4_well_formed.
  - simpl; lra.
  - reflexivity.
  - reflexivity.
  - reflexivity.
Defined.

(** X16.  [ProbArray] of [CoherentUnit] on a well-formed register whose
    [runningNorm] holds the positive norm of its vector, into an array of
    [maxQPower] cells: the cell of each index holds what [ProbAll] returns
    for it, no cell is negative and the cells sum to 1. *)
Theorem CoherentUnit_ProbArray_is_a_distribution (probArray : list R) (c : CoherentUnit.t) :
  Shape.well_formed c -> Shape.norm_cached c ->
  Z.of_nat (length probArray) = CoherentUnit.maxQPower c ->
  let arr := fst (CoherentUnit.ProbArray probArray c) in
  Z.of_nat (length arr) = CoherentUnit.maxQPower c /\
  (forall i, 0 <= i < CoherentUnit.maxQPower c ->
     Buf.load 0%R arr i = fst (CoherentUnit.ProbAll i c) /\ (0 <= Buf.load 0%R arr i)%R) /\
  Sums.Rsum arr = 1%R.
Proof.
  intros Hwf Hnc Hlen arr.
  destruct (CohereFacts.normalize_if_needed_shape c) as (_ & Em & _ & El).
  set (c0 := CoherentUnit.normalize_if_needed c) in *.
  set (N := CoherentUnit.maxQPower c) in *.
  assert (Ea : arr = fold_left
                       (fun acc k => Buf.put k ((fun i _ => Cplx.norm (Buf.load Cplx.C0
                                                   (CoherentUnit.stateVec c0) i)) k
                                                 (Buf.load 0%R acc k)) acc)
                       (Machine.range N) probArray).
  { unfold arr, CoherentUnit.ProbArray. cbn [fst]. fold c0. now rewrite Em. }
  assert (HN0 : 0 <= N) by (destruct Hwf as (A & B & _); unfold N; rewrite B;
                            apply Z.pow_nonneg; lia).
  destruct (ArrayFacts.pointwise_loop 0%R
              (fun i _ => Cplx.norm (Buf.load Cplx.C0 (CoherentUnit.stateVec c0) i))
              N probArray) as (L & Hin & _); [lia|].
  cbv beta in L, Hin. rewrite <- Ea in L, Hin.
  split; [rewrite L; auto|].
  split.
  - intros i Hi. rewrite Hin by auto. split.
    + unfold CoherentUnit.ProbAll. reflexivity.
    + apply MeasureFacts.norm_nonneg.
  - assert (El2 : arr = map (fun i => Cplx.norm (Buf.load Cplx.C0 (CoherentUnit.stateVec c0) i))
                          (Machine.range N)).
    { apply (ArrayFacts.load_ext 0%R).
      - rewrite length_map. unfold Machine.range. rewrite length_map, length_seq. lia.
      - intros i Hi. rewrite Hin by lia.
        unfold Buf.load, Machine.range.
        rewrite map_map.
        rewrite (nth_indep _ 0%R ((fun x => Cplx.norm (nth (Z.to_nat (Z.of_nat x))
                   (CoherentUnit.stateVec c0) Cplx.C0)) O)).
        + rewrite (map_nth (fun x => Cplx.norm (nth (Z.to_nat (Z.of_nat x))
                     (CoherentUnit.stateVec c0) Cplx.C0))).
          rewrite seq_nth by lia. now rewrite Nat2Z.id.
        + rewrite length_map, length_seq. lia. }
    rewrite El2.
    change (Sums.Rsum _) with (Sums.weight Sums.everywhere N (CoherentUnit.stateVec c0)).
    now apply MeasureFacts.normalized_total.
Qed.

(** Witness of X16: [ProbArray] on the one-qubit register (3/5, 4/5). *)
Lemma CoherentUnit_ProbArray_is_a_distribution_witness :
  Sums.Rsum (fst (CoherentUnit.ProbArray [0%R; 0%R] Examples.unit_3_4)) = 1%R.
Proof.
  apply (CoherentUnit_ProbArray_is_a_distribution [0%R; 0%R] Examples.unit_3_4).
  - exact ExampleFacts.unit_3_4_well_formed.
  - exact ExampleFacts.unit_3_4_norm_cached.
  - reflexivity.
Defined.

(** X17.  [CNOT(control, target)] of [CoherentUnit] on a well-formed
    register and two of its qubits.  With [control = target] the call throws
    [InvalidArgument].  Otherwise it exchanges the two amplitudes of every
    pair of indices that differ in the target bit and have the control bit
    set, leaves the other amplitudes as they are, applies no norm factor and
    sets [runningNorm] to 1; on a register whose [runningNorm] is 1 a second
    [CNOT] gives back the register itself. *)
Theorem CoherentUnit_CNOT_flips_target (control target : Z) (c : CoherentUnit.t) :
  Shape.well_formed c ->
  0 <= control < CoherentUnit.qubitCount c -> 0 <= target < CoherentUnit.qubitCount c ->
  (control = target ->
   CoherentUnit.CNOT control target c = Host.Throw Host.InvalidArgument) /\
  (control <> target ->
   exists c',
     CoherentUnit.CNOT control target c = Host.Ok c' /\
     Shape.well_formed c' /\
     CoherentUnit.runningNorm c' = 1%R /\
     (forall j, 0 <= j < CoherentUnit.maxQPower c ->
        Buf.load Cplx.C0 (CoherentUnit.stateVec c') j
        = Buf.load Cplx.C0 (CoherentUnit.stateVec c)
            (if Z.testbit j control then Z.lxor j (2 ^ target) else j)) /\
     (CoherentUnit.runningNorm c = 1%R -> CoherentUnit.CNOT control target c' = Host.Ok c)).
Proof.
  intros Hwf Hc Ht. split.
  - intros ->. unfold CoherentUnit.CNOT. now rewrite Z.eqb_refl.
  - intros Hne.
    apply (PermuteFacts.permuting_gate (CoherentUnit.CNOT control target)
             (fun j => if Z.testbit j control then Z.lxor j (2 ^ target) else j) c Hwf).
    + intros j Hj. destruct Hwf as (A & B & C). rewrite B in *.
      apply (PermuteFacts.conditional_flip (fun i => Z.testbit i control) target
               (CoherentUnit.qubitCount c) j); auto.
      intros i. now rewrite PermuteFacts.testbit_lxor_other by lia.
    + intros c0 Hwf0 Eq0.
      destruct (ControlledFacts.Controlled_pointwise control target Host.pauliX false c0
                  Hwf0) as (st & E & L & Hpt); try lia.
      exists st. split; [|split; auto].
      * unfold CoherentUnit.CNOT.
        now replace (control =? target) with false by (symmetry; apply Z.eqb_neq; lia).
      * intros j Hj. rewrite (Hpt j Hj).
        destruct (Z.testbit j control); auto.
        destruct (Buf.load Cplx.C0 (CoherentUnit.stateVec c0) j) as [x y].
        destruct (Buf.load Cplx.C0 (CoherentUnit.stateVec c0) (Z.lxor j (2 ^ target)))
          as [x' y'].
        destruct (Z.testbit j target);
          unfold Host.pauliX, Cplx.add, Cplx.mul, Cplx.cplx, Cplx.real, Cplx.imag;
          cbn [Host.m0 Host.m1 Host.m2 Host.m3 fst snd]; f_equal; ring.
Qed.

(** Witness of X17: [CNOT(0, 1)] twice on the two-qubit register in [|1>]. *)
Lemma CoherentUnit_CNOT_flips_target_witness :
  exists c',
    CoherentUnit.CNOT 0 1 Examples.unit_one = Host.Ok c' /\
    CoherentUnit.CNOT 0 1 c' = Host.Ok Examples.unit_one.
Proof.
  destruct (CoherentUnit_CNOT_flips_target 0 1 Examples.unit_one) as (_ & H).
  - exact ExampleFacts.unit_one_well_formed.
  - simpl; lia.
  - simpl; lia.
  - destruct H as (c' & E & _ & _ & _ & Hinv); [lia|].
    exists c'. split; [exact E | apply Hinv; reflexivity].
Defined.

(** X18.  [AntiCNOT(control, target)] of [CoherentUnit] on a well-formed
    register and two of its qubits.  With [control = target] the call throws
    [InvalidArgument].  Otherwise it exchanges the two amplitudes of every
    pair of indices that differ in the target bit and have the control bit
    clear, leaves the other amplitudes as they are and sets [runningNorm] to
    1; on a register whose [runningNorm] is 1 a second [AntiCNOT] gives back
    the register itself. *)
Theorem CoherentUnit_AntiCNOT_flips_target (control target : Z) (c : CoherentUnit.t) :
  Shape.well_formed c ->
  0 <= control < CoherentUnit.qubitCount c -> 0 <= target < CoherentUnit.qubitCount c ->
  (control = target ->
   CoherentUnit.AntiCNOT control target c = Host.Throw Host.InvalidArgument) /\
  (control <> target ->
   exists c',
     CoherentUnit.AntiCNOT control target c = Host.Ok c' /\
     Shape.well_formed c' /\
     CoherentUnit.runningNorm c' = 1%R /\
     (forall j, 0 <= j < CoherentUnit.maxQPower c ->
        Buf.load Cplx.C0 (CoherentUnit.stateVec c') j
        = Buf.load Cplx.C0 (CoherentUnit.stateVec c)
            (if negb (Z.testbit j control) then Z.lxor j (2 ^ target) else j)) /\
     (CoherentUnit.runningNorm c = 1%R ->
      CoherentUnit.AntiCNOT control target c' = Host.Ok c)).
Proof.
  intros Hwf Hc Ht. split.
  - intros ->. unfold CoherentUnit.AntiCNOT. now rewrite Z.eqb_refl.
  - intros Hne.
    apply (PermuteFacts.permuting_gate (CoherentUnit.AntiCNOT control target)
             (fun j => if negb (Z.testbit j control) then Z.lxor j (2 ^ target) else j) c Hwf).
    + intros j Hj. destruct Hwf as (A & B & C). rewrite B in *.
      apply (PermuteFacts.conditional_flip (fun i => negb (Z.testbit i control)) target
               (CoherentUnit.qubitCount c) j); auto.
      intros i. now rewrite PermuteFacts.testbit_lxor_other by lia.
    + intros c0 Hwf0 Eq0.
      destruct (ControlledFacts.AntiControlled_pointwise control target Host.pauliX false c0
                  Hwf0) as (st & E & L & Hpt); try lia.
      exists st. split; [|split; auto].
      * unfold CoherentUnit.AntiCNOT.
        now replace (control =? target) with false by (symmetry; apply Z.eqb_neq; lia).
      * intros j Hj. rewrite (Hpt j Hj).
        destruct (Z.testbit j control); auto. cbn [negb].
        destruct (Buf.load Cplx.C0 (CoherentUnit.stateVec c0) j) as [x y].
        destruct (Buf.load Cplx.C0 (CoherentUnit.stateVec c0) (Z.lxor j (2 ^ target)))
          as [x' y'].
        destruct (Z.testbit j target);
          unfold Host.pauliX, Cplx.add, Cplx.mul, Cplx.cplx, Cplx.real, Cplx.imag;
          cbn [Host.m0 Host.m1 Host.m2 Host.m3 fst snd]; f_equal; ring.
Qed.

(** Witness of X18: [AntiCNOT(0, 1)] twice on the two-qubit register in [|1>]. *)
Lemma CoherentUnit_AntiCNOT_flips_target_witness :
  exists c',
    CoherentUnit.AntiCNOT 0 1 Examples.unit_one = Host.Ok c' /\
    CoherentUnit.AntiCNOT 0 1 c' = Host.Ok Examples.unit_one.
Proof.
  destruct (CoherentUnit_AntiCNOT_flips_target 0 1 Examples.unit_one) as (_ & H).
  - exact ExampleFacts.unit_one_well_formed.
  - simpl; lia.
  - simpl; lia.
  - destruct H as (c' & E & _ & _ & _ & Hinv); [lia|].
    exists c'. split; [exact E | apply Hinv; reflexivity].
Defined.

(** X19.  [CCNOT(control1, control2, target)] of [CoherentUnit] on a
    well-formed register and three of its qubits.  The call throws
    [InvalidArgument] when the two controls are the same qubit or when a
    control is the target.  Otherwise it exchanges the two amplitudes of
    every pair of indices that differ in the target bit and have both
    control bits set, leaves the other amplitudes as they are and sets
    [runningNorm] to 1; on a register whose [runningNorm] is 1 a second
    [CCNOT] gives back the register itself. *)
Theorem CoherentUnit_CCNOT_flips_target (control1 control2 target : Z) (c : CoherentUnit.t) :
  Shape.well_formed c ->
  0 <= control1 < CoherentUnit.qubitCount c -> 0 <= control2 < CoherentUnit.qubitCount c ->
  0 <= target < CoherentUnit.qubitCount c ->
  (control1 = control2 \/ control1 = target \/ control2 = target ->
   CoherentUnit.CCNOT control1 control2 target c = Host.Throw Host.InvalidArgument) /\
  (control1 <> control2 -> control1 <> target -> control2 <> target ->
   exists c',
     CoherentUnit.CCNOT control1 control2 target c = Host.Ok c' /\
     Shape.well_formed c' /\
     CoherentUnit.runningNorm c' = 1%R /\
     (forall j, 0 <= j < CoherentUnit.maxQPower c ->
        Buf.load Cplx.C0 (CoherentUnit.stateVec c') j
        = Buf.load Cplx.C0 (CoherentUnit.stateVec c)
            (if Z.testbit j control1 && Z.testbit j control2
             then Z.lxor j (2 ^ target) else j)) /\
     (CoherentUnit.runningNorm c = 1%R ->
      CoherentUnit.CCNOT control1 control2 target c' = Host.Ok c)).
Proof.
  intros Hwf H1 H2 Ht. split.
  - intros H. unfold CoherentUnit.CCNOT.
    destruct (Z.eqb_spec control1 control2); auto.
    destruct (Z.eqb_spec control1 target); auto.
    destruct (Z.eqb_spec control2 target); auto.
    lia.
  - intros N12 N1t N2t.
    apply (PermuteFacts.permuting_gate (CoherentUnit.CCNOT control1 control2 target)
             (fun j => if Z.testbit j control1 && Z.testbit j control2
                       then Z.lxor j (2 ^ target) else j) c Hwf).
    + intros j Hj. destruct Hwf as (A & B & C). rewrite B in *.
      apply (PermuteFacts.conditional_flip
               (fun i => Z.testbit i control1 && Z.testbit i control2) target
               (CoherentUnit.qubitCount c) j); auto.
      intros i. now rewrite !PermuteFacts.testbit_lxor_other by lia.
    + intros c0 Hwf0 Eq0.
      apply SwapGateFacts.CCNOT_pointwise; auto; lia.
Qed.

(** Witness of X19: [CCNOT(0, 2, 1)] twice on the three-qubit register in [|5>]. *)
Lemma CoherentUnit_CCNOT_flips_target_witness :
  exists c',
    CoherentUnit.CCNOT 0 2 1 Examples.unit_five = Host.Ok c' /\
    CoherentUnit.CCNOT 0 2 1 c' = Host.Ok Examples.unit_five.
Proof.
  destruct (CoherentUnit_CCNOT_flips_target 0 2 1 Examples.unit_five) as (_ & H).
  - exact ExampleFacts.unit_five_well_formed.
  - simpl; lia.
  - simpl; lia.
  - simpl; lia.
  - destruct H as (c' & E & _ & _ & _ & Hinv); [lia | lia | lia|].
    exists c'. split; [exact E | apply Hinv; reflexivity].
Defined.

(** X20.  [AntiCCNOT(control1, control2, target)] of [CoherentUnit] on a
    well-formed register and three of its qubits.  The call throws
    [InvalidArgument] when the two controls are the same qubit or when a
    control is the target.  Otherwise it exchanges the two amplitudes of
    every pair of indices that differ in the target bit and have both
    control bits clear, leaves the other amplitudes as they are and sets
    [runningNorm] to 1; on a register whose [runningNorm] is 1 a second
    [AntiCCNOT] gives back the register itself. *)
Theorem CoherentUnit_AntiCCNOT_flips_target (control1 control2 target : Z)
    (c : CoherentUnit.t) :
  Shape.well_formed c ->
  0 <= control1 < CoherentUnit.qubitCount c -> 0 <= control2 < CoherentUnit.qubitCount c ->
  0 <= target < CoherentUnit.qubitCount c ->
  (control1 = control2 \/ control1 = target \/ control2 = target ->
   CoherentUnit.AntiCCNOT control1 control2 target c = Host.Throw Host.InvalidArgument) /\
  (control1 <> control2 -> control1 <> target -> control2 <> target ->
   exists c',
     CoherentUnit.AntiCCNOT control1 control2 target c = Host.Ok c' /\
     Shape.well_formed c' /\
     CoherentUnit.runningNorm c' = 1%R /\
     (forall j, 0 <= j < CoherentUnit.maxQPower c ->
        Buf.load Cplx.C0 (CoherentUnit.stateVec c') j
        = Buf.load Cplx.C0 (CoherentUnit.stateVec c)
            (if negb (Z.testbit j control1) && negb (Z.testbit j control2)
             then Z.lxor j (2 ^ target) else j)) /\
     (CoherentUnit.runningNorm c = 1%R ->
      CoherentUnit.AntiCCNOT control1 control2 target c' = Host.Ok c)).
Proof.
  intros Hwf H1 H2 Ht. split.
  - intros H. unfold CoherentUnit.AntiCCNOT.
    destruct (Z.eqb_spec control1 control2); auto.
    destruct (Z.eqb_spec control1 target); auto.
    destruct (Z.eqb_spec control2 target); auto.
    lia.
  - intros N12 N1t N2t.
    apply (PermuteFacts.permuting_gate (CoherentUnit.AntiCCNOT control1 control2 target)
             (fun j => if negb (Z.testbit j control1) && negb (Z.testbit j control2)
                       then Z.lxor j (2 ^ target) else j) c Hwf).
    + intros j Hj. destruct Hwf as (A & B & C). rewrite B in *.
      apply (PermuteFacts.conditional_flip
               (fun i => negb (Z.testbit i control1) && negb (Z.testbit i control2)) target
               (CoherentUnit.qubitCount c) j); auto.
      intros i. now rewrite !PermuteFacts.testbit_lxor_other by lia.
    + intros c0 Hwf0 Eq0.
      apply SwapGateFacts.AntiCCNOT_pointwise; auto; lia.
Qed.

(** Witness of X20: [AntiCCNOT(0, 2, 1)] twice on the three-qubit register in [|5>]. *)
Lemma CoherentUnit_AntiCCNOT_flips_target_witness :
  exists c',
    CoherentUnit.AntiCCNOT 0 2 1 Examples.unit_five = Host.Ok c' /\
    CoherentUnit.AntiCCNOT 0 2 1 c' = Host.Ok Examples.unit_five.
Proof.
  destruct (CoherentUnit_AntiCCNOT_flips_target 0 2 1 Examples.unit_five) as (_ & H).
  - exact ExampleFacts.unit_five_well_formed.
  - simpl; lia.
  - simpl; lia.
  - simpl; lia.
  - destruct H as (c' & E & _ & _ & _ & Hinv); [lia | lia | lia|].
    exists c'. split; [exact E | apply Hinv; reflexivity].
Defined.

(** X21.  [Swap(q1, q2)] of [CoherentUnit] on a well-formed register and
    two of its qubits.  With [q1 = q2] the call changes nothing.  Otherwise
    the amplitude at every index becomes the amplitude of the index with
    the bits [q1] and [q2] exchanged, and [runningNorm] is set to 1; on a
    register whose [runningNorm] is 1 a second [Swap] gives back the
    register itself. *)
Theorem CoherentUnit_Swap_exchanges_bits (q1 q2 : Z) (c : CoherentUnit.t) :
  Shape.well_formed c ->
  0 <= q1 < CoherentUnit.qubitCount c -> 0 <= q2 < CoherentUnit.qubitCount c ->
  (q1 = q2 -> CoherentUnit.Swap q1 q2 c = Host.Ok c) /\
  (q1 <> q2 ->
   exists c',
     CoherentUnit.Swap q1 q2 c = Host.Ok c' /\
     Shape.well_formed c' /\
     CoherentUnit.runningNorm c' = 1%R /\
     (forall j, 0 <= j < CoherentUnit.maxQPower c ->
        Buf.load Cplx.C0 (CoherentUnit.stateVec c') j
        = Buf.load Cplx.C0 (CoherentUnit.stateVec c)
            (if Bool.eqb (Z.testbit j q1) (Z.testbit j q2) then j
             else Z.lxor (Z.lxor j (2 ^ q1)) (2 ^ q2))) /\
     (forall j k, 0 <= j < CoherentUnit.maxQPower c -> 0 <= k ->
        Z.testbit (if Bool.eqb (Z.testbit j q1) (Z.testbit j q2) then j
                   else Z.lxor (Z.lxor j (2 ^ q1)) (2 ^ q2)) k
        = Z.testbit j (if k =? q1 then q2 else if k =? q2 then q1 else k)) /\
     (CoherentUnit.runningNorm c = 1%R -> CoherentUnit.Swap q1 q2 c' = Host.Ok c)).
Proof.
  intros Hwf H1 H2. split.
  - intros ->. unfold CoherentUnit.Swap. now rewrite Z.eqb_refl.
  - intros Hne.
    destruct (PermuteFacts.permuting_gate (CoherentUnit.Swap q1 q2)
                (fun j => if Bool.eqb (Z.testbit j q1) (Z.testbit j q2) then j
                          else Z.lxor (Z.lxor j (2 ^ q1)) (2 ^ q2)) c Hwf)
      as (c' & E & Hwf' & Hrn & Hpt & Hinv).
    + intros j Hj. destruct Hwf as (A & B & C). rewrite B in *.
      apply (SwapGateFacts.swap_bits_involution q1 q2 (CoherentUnit.qubitCount c) j); auto.
    + intros c0 Hwf0 Eq0. apply SwapGateFacts.Swap_pointwise; auto; lia.
    + exists c'. split; [exact E|]. split; [exact Hwf'|]. split; [exact Hrn|].
      split; [exact Hpt|]. split; [|exact Hinv].
      intros j k Hj Hk.
      destruct (Bool.eqb (Z.testbit j q1) (Z.testbit j q2)) eqn:Eb.
      * apply eqb_prop in Eb.
        destruct (Z.eqb_spec k q1) as [->|]; auto.
        destruct (Z.eqb_spec k q2) as [->|]; auto.
      * rewrite !Z.lxor_spec, !Z.pow2_bits_eqb by lia.
        destruct (Z.eqb_spec k q1) as [->|N1].
        -- rewrite Z.eqb_refl.
           replace (q2 =? q1) with false by (symmetry; apply Z.eqb_neq; lia).
           destruct (Z.testbit j q1), (Z.testbit j q2); auto; discriminate.
        -- replace (q1 =? k) with false by (symmetry; apply Z.eqb_neq; lia).
           destruct (Z.eqb_spec k q2) as [->|N2].
           ++ rewrite Z.eqb_refl.
              destruct (Z.testbit j q1), (Z.testbit j q2); auto; discriminate.
           ++ replace (q2 =? k) with false by (symmetry; apply Z.eqb_neq; lia).
              now rewrite !xorb_false_r.
Qed.

(** Witness of X21: [Swap(0, 1)] twice on the two-qubit register in [|1>]. *)
Lemma CoherentUnit_Swap_exchanges_bits_witness :
  exists c',
    CoherentUnit.Swap 0 1 Examples.unit_one = Host.Ok c' /\
    CoherentUnit.Swap 0 1 c' = Host.Ok Examples.unit_one.
Proof.
  destruct (CoherentUnit_Swap_exchanges_bits 0 1 Examples.unit_one) as (_ & H).
  - exact ExampleFacts.unit_one_well_formed.
  - simpl; lia.
  - simpl; lia.
  - destruct H as (c' & E & _ & _ & _ & _ & Hinv); [lia|].
    exists c'. split; [exact E | apply Hinv; reflexivity].
Defined.

(** X22.  [CZ(control, target)] of [CoherentUnit] on a well-formed register
    and two of its qubits.  With [control = target] the call throws
    [InvalidArgument].  Otherwise it changes the sign of the amplitudes at
    the indices whose control bit is set and whose target bit is clear,
    leaves the other amplitudes as they are and sets [runningNorm] to 1; on
    a register whose [runningNorm] is 1 a second [CZ] gives back the
    register itself. *)
Theorem CoherentUnit_CZ_negates (control target : Z) (c : CoherentUnit.t) :
  Shape.well_formed c ->
  0 <= control < CoherentUnit.qubitCount c -> 0 <= target < CoherentUnit.qubitCount c ->
  (control = target ->
   CoherentUnit.CZ control target c = Host.Throw Host.InvalidArgument) /\
  (control <> target ->
   exists c',
     CoherentUnit.CZ control target c = Host.Ok c' /\
     Shape.well_formed c' /\
     CoherentUnit.runningNorm c' = 1%R /\
     (forall j, 0 <= j < CoherentUnit.maxQPower c ->
        Buf.load Cplx.C0 (CoherentUnit.stateVec c') j
        = Cplx.scale (Buf.load Cplx.C0 (CoherentUnit.stateVec c) j)
            (if Z.testbit j control && negb (Z.testbit j target) then -1 else 1)) /\
     (CoherentUnit.runningNorm c = 1%R -> CoherentUnit.CZ control target c' = Host.Ok c)).
Proof.
  intros Hwf Hc Ht. split.
  - intros ->. unfold CoherentUnit.CZ. now rewrite Z.eqb_refl.
  - intros Hne.
    assert (G : forall c0, Shape.well_formed c0 ->
              CoherentUnit.qubitCount c0 = CoherentUnit.qubitCount c ->
              exists st,
                CoherentUnit.CZ control target c0 = Host.Ok (Gates.finish false c0 st) /\
                length st = length (CoherentUnit.stateVec c0) /\
                forall j, 0 <= j < CoherentUnit.maxQPower c0 ->
                  Buf.load Cplx.C0 st j
                  = Cplx.scale (Buf.load Cplx.C0 (CoherentUnit.stateVec c0) j)
                      (if Z.testbit j control && negb (Z.testbit j target) then -1 else 1)).
    { intros c0 Hwf0 Eq0.
      destruct (ControlledFacts.Controlled_pointwise control target Host.pauliZ false c0 Hwf0)
        as (st & E & L & Hpt); try lia.
      exists st. split; [|split; auto].
      - unfold CoherentUnit.CZ.
        now replace (control =? target) with false by (symmetry; apply Z.eqb_neq; lia).
      - intros j Hj. rewrite (Hpt j Hj).
        destruct (Buf.load Cplx.C0 (CoherentUnit.stateVec c0) j) as [x y].
        destruct (Buf.load Cplx.C0 (CoherentUnit.stateVec c0) (Z.lxor j (2 ^ target)))
          as [x' y'].
        destruct (Z.testbit j control), (Z.testbit j target);
          unfold Host.pauliZ, Cplx.scale, Cplx.add, Cplx.mul, Cplx.cplx, Cplx.real, Cplx.imag;
          cbn [Host.m0 Host.m1 Host.m2 Host.m3 fst snd andb negb]; f_equal; ring. }
    destruct (G c Hwf eq_refl) as (st & E & L & Hpt).
    set (c' := Gates.finish false c st) in *.
    assert (Hwf' : Shape.well_formed c').
    { destruct Hwf as (A & B & C). unfold Shape.well_formed, c', Gates.finish.
      cbn [CoherentUnit.qubitCount CoherentUnit.maxQPower CoherentUnit.stateVec].
      rewrite L. auto. }
    exists c'. split; [exact E|]. split; [exact Hwf'|]. split; [reflexivity|].
    split; [exact Hpt|].
    intros Hrn.
    destruct (G c' Hwf' eq_refl) as (st2 & E2 & L2 & Hpt2).
    rewrite E2. f_equal.
    destruct c as [rn qc mq sv g]. unfold c', Gates.finish in *.
    cbn [CoherentUnit.runningNorm CoherentUnit.qubitCount CoherentUnit.maxQPower
         CoherentUnit.stateVec CoherentUnit.rand_generator] in *.
    subst rn. f_equal.
    apply (ArrayFacts.load_ext Cplx.C0); [lia|].
    intros j Hj.
    destruct Hwf as (A & B & C).
    cbn [CoherentUnit.qubitCount CoherentUnit.maxQPower CoherentUnit.stateVec] in A, B, C.
    assert (Hj' : 0 <= j < mq) by lia.
    rewrite (Hpt2 j Hj'), (Hpt j Hj').
    destruct (Buf.load Cplx.C0 sv j) as [x y].
    destruct (Z.testbit j control && negb (Z.testbit j target));
      unfold Cplx.scale, Cplx.real, Cplx.imag; cbn [fst snd]; f_equal; ring.
Qed.

(** Witness of X22: [CZ(0, 1)] twice on the two-qubit register in [|1>]. *)
Lemma CoherentUnit_CZ_negates_witness :
  exists c',
    CoherentUnit.CZ 0 1 Examples.unit_one = Host.Ok c' /\
    CoherentUnit.CZ 0 1 c' = Host.Ok Examples.unit_one.
Proof.
  destruct (CoherentUnit_CZ_negates 0 1 Examples.unit_one) as (_ & H).
  - exact ExampleFacts.unit_one_well_formed.
  - simpl; lia.
  - simpl; lia.
  - destruct H as (c' & E & _ & _ & _ & Hinv); [lia|].
    exists c'. split; [exact E | apply Hinv; reflexivity].
Defined.

(** X23.  [ROL(shift, start, length)] of [CoherentUnit] on a well-formed
    register, for a range of [length] qubits inside the register and a
    shift of at most [length].  The call moves the amplitude of every index
    [j] to the index [d] that is [j] with the bits of the range rotated left
    by [shift] places (bit [start + p] of [j] is bit [start + (p + shift)
    mod length] of [d]) and leaves [runningNorm] as it was.  A shift of 0 or
    of [length] leaves the register as it is. *)
Theorem CoherentUnit_ROL_rotates_the_field (fresh : Z -> list Cplx.Complex16)
    (shift start length : Z) (c : CoherentUnit.t) :
  Shape.allocates fresh -> Shape.well_formed c ->
  0 <= start -> 0 <= shift <= length -> start + length <= CoherentUnit.qubitCount c ->
  exists c',
    CoherentUnit.ROL fresh shift start length c = Host.Ok c' /\
    Shape.well_formed c' /\
    CoherentUnit.runningNorm c' = CoherentUnit.runningNorm c /\
    (forall j, 0 <= j < CoherentUnit.maxQPower c ->
       exists d,
         0 <= d < CoherentUnit.maxQPower c /\
         Fields.rotated shift start length j d /\
         Buf.load Cplx.C0 (CoherentUnit.stateVec c') d
         = Buf.load Cplx.C0 (CoherentUnit.stateVec c) j) /\
    (shift = 0 \/ shift = length -> c' = c).
Proof.
  intros Hf Hwf Hs Hsh Hb.
  pose proof Hwf as (Hq & Hm & Hlen).
  destruct (RotateFacts.ROL_state (CoherentUnit.qubitCount c) start length Hq Hs ltac:(lia) Hb
              fresh shift c Hf Hwf eq_refl Hsh) as (st & E & L & H1 & _).
  exists (CoherentUnit.with_state c st).
  split; [exact E|].
  split; [apply FieldFacts.with_state_well_formed; auto|].
  split; [reflexivity|].
  split.
  - intros j Hj.
    destruct (RotateFacts.rol_dest_rotated (CoherentUnit.qubitCount c) start length Hq Hs
                ltac:(lia) Hb shift c j Hwf eq_refl Hsh) as (B & R); [lia|].
    eexists; split; [rewrite Hm; exact B|].
    split; [exact R|]. apply H1; auto.
  - intros H0.
    assert (E' := RotateFacts.ROL_identity (CoherentUnit.qubitCount c) start length Hq Hs
                    ltac:(lia) Hb fresh shift c Hf Hwf eq_refl H0).
    rewrite E in E'. now injection E'.
Qed.

(** Witness of X23: [ROL(1, 0, 2)] on the two-qubit register in [|1>]. *)
Lemma CoherentUnit_ROL_rotates_the_field_witness :
  exists c',
    CoherentUnit.ROL Shape.zeroed 1 0 2 Examples.unit_one = Host.Ok c' /\
    CoherentUnit.runningNorm c' = CoherentUnit.runningNorm Examples.unit_one.
Proof.
  destruct (CoherentUnit_ROL_rotates_the_field Shape.zeroed 1 0 2 Examples.unit_one)
    as (c' & E & _ & R & _).
  - exact ShapeFacts.zeroed_allocates.
  - exact ExampleFacts.unit_one_well_formed.
  - lia.
  - lia.
  - simpl; lia.
  - exists c'. split; [exact E | exact R].
Defined.

(** X24.  The shifts of [ROL] add up.  On a well-formed register, for a
    range of [length] qubits inside the register and two shifts of at most
    [length]: [ROL] by [shift1] and then [ROL] by [shift2] of the same range
    leaves what one [ROL] by [(shift1 + shift2) mod length] leaves; when the
    two shifts sum to [length], the second call gives back the register
    itself. *)
Theorem CoherentUnit_ROL_shifts_add (fresh : Z -> list Cplx.Complex16)
    (shift1 shift2 start length : Z) (c : CoherentUnit.t) :
  Shape.allocates fresh -> Shape.well_formed c ->
  0 <= start -> 0 <= shift1 <= length -> 0 <= shift2 <= length ->
  start + length <= CoherentUnit.qubitCount c ->
  exists c1,
    CoherentUnit.ROL fresh shift1 start length c = Host.Ok c1 /\
    Shape.well_formed c1 /\
    CoherentUnit.ROL fresh shift2 start length c1
    = CoherentUnit.ROL fresh ((shift1 + shift2) mod length) start length c /\
    (shift1 + shift2 = length ->
     CoherentUnit.ROL fresh shift2 start length c1 = Host.Ok c).
Proof.
  intros Hf Hwf Hs H1 H2 Hb.
  pose proof Hwf as (Hq & Hm & Hlen).
  destruct (RotateFacts.ROL_compose (CoherentUnit.qubitCount c) start length Hq Hs ltac:(lia)
              Hb fresh shift1 shift2 c Hf Hwf eq_refl H1 H2) as (st & E & L & Ec).
  exists (CoherentUnit.with_state c st).
  split; [exact E|].
  split; [apply FieldFacts.with_state_well_formed; auto|].
  split; [exact Ec|].
  intros Hsum. rewrite Ec, Hsum, RotateFacts.mod_same_0.
  apply (RotateFacts.ROL_identity (CoherentUnit.qubitCount c) start length); auto; lia.
Qed.

(** Witness of X24: [ROL(1, 0, 2)] twice on the two-qubit register in
    [|1>]. *)
Lemma CoherentUnit_ROL_shifts_add_witness :
  exists c1,
    CoherentUnit.ROL Shape.zeroed 1 0 2 Examples.unit_one = Host.Ok c1 /\
    CoherentUnit.ROL Shape.zeroed 1 0 2 c1 = Host.Ok Examples.unit_one.
Proof.
  destruct (CoherentUnit_ROL_shifts_add Shape.zeroed 1 1 0 2 Examples.unit_one)
    as (c1 & E & _ & _ & Hback).
  - exact ShapeFacts.zeroed_allocates.
  - exact ExampleFacts.unit_one_well_formed.
  - lia.
  - lia.
  - lia.
  - simpl; lia.
  - exists c1. split; [exact E | apply Hback; reflexivity].
Defined.

(** X25.  [ADD(inOutStart, inStart, length)] of [CoherentUnit] on a
    well-formed register, for two ranges of [length] qubits that lie inside
    the register and do not overlap.  The call moves the amplitude of every
    index [j] to the index [d] whose field at [inOutStart] holds the sum of
    the two fields of [j] modulo [2 ^ length] and whose other bits are those
    of [j]; so the amplitude it leaves at an index [i] is the one that was
    at the index whose field at [inOutStart] holds the difference.
    [runningNorm] is left as it was. *)
Theorem CoherentUnit_ADD_adds_the_fields (fresh : Z -> list Cplx.Complex16)
    (inOutStart inStart length : Z) (c : CoherentUnit.t) :
  Shape.allocates fresh -> Shape.well_formed c ->
  0 <= inOutStart -> 0 <= inStart -> 0 <= length ->
  inOutStart + length <= CoherentUnit.qubitCount c ->
  inStart + length <= CoherentUnit.qubitCount c ->
  inOutStart + length <= inStart \/ inStart + length <= inOutStart ->
  exists c',
    CoherentUnit.ADD fresh inOutStart inStart length c = Host.Ok c' /\
    Shape.well_formed c' /\
    CoherentUnit.runningNorm c' = CoherentUnit.runningNorm c /\
    (forall j, 0 <= j < CoherentUnit.maxQPower c ->
       exists d,
         0 <= d < CoherentUnit.maxQPower c /\
         Fields.field inOutStart length d
         = (Fields.field inOutStart length j + Fields.field inStart length j) mod 2 ^ length /\
         Fields.same_outside inOutStart length j d /\
         Buf.load Cplx.C0 (CoherentUnit.stateVec c') d
         = Buf.load Cplx.C0 (CoherentUnit.stateVec c) j) /\
    (forall i, 0 <= i < CoherentUnit.maxQPower c ->
       exists j,
         0 <= j < CoherentUnit.maxQPower c /\
         Fields.field inOutStart length j
         = (Fields.field inOutStart length i - Fields.field inStart length i) mod 2 ^ length /\
         Fields.same_outside inOutStart length i j /\
         Buf.load Cplx.C0 (CoherentUnit.stateVec c') i
         = Buf.load Cplx.C0 (CoherentUnit.stateVec c) j).
Proof.
  intros Hf Hwf Hs1 Hs2 Hl Hb1 Hb2 Hd.
  pose proof Hwf as (Hq & Hm & Hlen).
  destruct (FieldFacts.adder_state (CoherentUnit.qubitCount c) inOutStart inStart length
              Hq Hs1 Hs2 Hl Hb1 Hb2 Hd fresh c Hf Hwf eq_refl)
    as ((st & E & L & H1 & H2) & _).
  exists (CoherentUnit.with_state c st).
  split; [exact E|].
  split; [apply FieldFacts.with_state_well_formed; auto|].
  split; [reflexivity|].
  split.
  - intros j Hj.
    destruct (FieldFacts.add_dest_placed (CoherentUnit.qubitCount c) inOutStart inStart length
                Hq Hs1 Hs2 Hl Hb1 Hb2 Hd c j Hwf eq_refl) as (B & F & O); [lia|].
    eexists; split; [rewrite Hm; exact B|].
    split; [exact F|]. split; [exact O|]. apply H1; auto.
  - intros i Hi.
    destruct (FieldFacts.sub_dest_placed (CoherentUnit.qubitCount c) inOutStart inStart length
                Hq Hs1 Hs2 Hl Hb1 Hb2 Hd c i Hwf eq_refl) as (B & F & O); [lia|].
    eexists; split; [rewrite Hm; exact B|].
    split; [exact F|]. split; [exact O|]. apply H2; auto.
Qed.

(** Witness of X25: [ADD(0, 1, 1)] on the two-qubit register in [|1>]. *)
Lemma CoherentUnit_ADD_adds_the_fields_witness :
  exists c',
    CoherentUnit.ADD Shape.zeroed 0 1 1 Examples.unit_one = Host.Ok c' /\
    CoherentUnit.runningNorm c' = CoherentUnit.runningNorm Examples.unit_one.
Proof.
  destruct (CoherentUnit_ADD_adds_the_fields Shape.zeroed 0 1 1 Examples.unit_one)
    as (c' & E & _ & R & _).
  - exact ShapeFacts.zeroed_allocates.
  - exact ExampleFacts.unit_one_well_formed.
  - lia.
  - lia.
  - lia.
  - simpl; lia.
  - simpl; lia.
  - left; lia.
  - exists c'. split; [exact E | exact R].
Defined.

(** X26.  [SUB] undoes [ADD] and [ADD] undoes [SUB].  On a well-formed
    register, for two ranges of [length] qubits that lie inside the register
    and do not overlap: [SUB(inOutStart, toSub, length)] moves the amplitude
    of every index [j] to the index whose field at [inOutStart] holds the
    difference of the two fields of [j] modulo [2 ^ length] and whose other
    bits are those of [j]; [SUB] after [ADD] with the same arguments and
    [ADD] after [SUB] give back the register itself. *)
Theorem CoherentUnit_SUB_undoes_ADD (fresh : Z -> list Cplx.Complex16)
    (inOutStart toSub length : Z) (c : CoherentUnit.t) :
  Shape.allocates fresh -> Shape.well_formed c ->
  0 <= inOutStart -> 0 <= toSub -> 0 <= length ->
  inOutStart + length <= CoherentUnit.qubitCount c ->
  toSub + length <= CoherentUnit.qubitCount c ->
  inOutStart + length <= toSub \/ toSub + length <= inOutStart ->
  exists c1 c2,
    CoherentUnit.ADD fresh inOutStart toSub length c = Host.Ok c1 /\
    CoherentUnit.SUB fresh inOutStart toSub length c1 = Host.Ok c /\
    CoherentUnit.SUB fresh inOutStart toSub length c = Host.Ok c2 /\
    CoherentUnit.ADD fresh inOutStart toSub length c2 = Host.Ok c /\
    Shape.well_formed c2 /\
    CoherentUnit.runningNorm c2 = CoherentUnit.runningNorm c /\
    (forall j, 0 <= j < CoherentUnit.maxQPower c ->
       exists d,
         0 <= d < CoherentUnit.maxQPower c /\
         Fields.field inOutStart length d
         = (Fields.field inOutStart length j - Fields.field toSub length j) mod 2 ^ length /\
         Fields.same_outside inOutStart length j d /\
         Buf.load Cplx.C0 (CoherentUnit.stateVec c2) d
         = Buf.load Cplx.C0 (CoherentUnit.stateVec c) j).
Proof.
  intros Hf Hwf Hs1 Hs2 Hl Hb1 Hb2 Hd.
  pose proof Hwf as (Hq & Hm & Hlen).
  pose proof (FieldFacts.adder_state (CoherentUnit.qubitCount c) inOutStart toSub length
                Hq Hs1 Hs2 Hl Hb1 Hb2 Hd fresh) as Hst.
  destruct (Hst c Hf Hwf eq_refl) as ((st1 & E1 & L1 & A1 & A2) & (st2 & E2 & L2 & S1 & S2)).
  assert (W1 := FieldFacts.with_state_well_formed c st1 Hwf L1).
  assert (W2 := FieldFacts.with_state_well_formed c st2 Hwf L2).
  destruct (Hst (CoherentUnit.with_state c st1) Hf W1 eq_refl)
    as (_ & (st3 & E3 & L3 & _ & S3)).
  destruct (Hst (CoherentUnit.with_state c st2) Hf W2 eq_refl)
    as ((st4 & E4 & L4 & _ & A4) & _).
  exists (CoherentUnit.with_state c st1), (CoherentUnit.with_state c st2).
  split; [exact E1|].
  split.
  { rewrite E3. f_equal. apply FieldFacts.with_state_same.
    apply (ArrayFacts.load_ext Cplx.C0).
    - apply Nat2Z.inj. simpl in L3. lia.
    - simpl in L3. rewrite L3. intros i Hi.
      rewrite (S3 i Hi). cbn [CoherentUnit.stateVec CoherentUnit.with_state].
      apply A1; auto. }
  split; [exact E2|].
  split.
  { rewrite E4. f_equal. apply FieldFacts.with_state_same.
    apply (ArrayFacts.load_ext Cplx.C0).
    - apply Nat2Z.inj. simpl in L4. lia.
    - simpl in L4. rewrite L4. intros i Hi.
      rewrite (A4 i Hi). cbn [CoherentUnit.stateVec CoherentUnit.with_state].
      apply S1; auto. }
  split; [exact W2|].
  split; [reflexivity|].
  intros j Hj.
  destruct (FieldFacts.sub_dest_placed (CoherentUnit.qubitCount c) inOutStart toSub length
              Hq Hs1 Hs2 Hl Hb1 Hb2 Hd c j Hwf eq_refl) as (B & F & O); [lia|].
  eexists; split; [rewrite Hm; exact B|].
  split; [exact F|]. split; [exact O|]. apply S1; auto.
Qed.

(** Witness of X26: [ADD(0, 1, 1)] and [SUB(0, 1, 1)] on the two-qubit
    register in [|1>]. *)
Lemma CoherentUnit_SUB_undoes_ADD_witness :
  exists c1,
    CoherentUnit.ADD Shape.zeroed 0 1 1 Examples.unit_one = Host.Ok c1 /\
    CoherentUnit.SUB Shape.zeroed 0 1 1 c1 = Host.Ok Examples.unit_one.
Proof.
  destruct (CoherentUnit_SUB_undoes_ADD Shape.zeroed 0 1 1 Examples.unit_one)
    as (c1 & c2 & E1 & E2 & _).
  - exact ShapeFacts.zeroed_allocates.
  - exact ExampleFacts.unit_one_well_formed.
  - lia.
  - lia.
  - lia.
  - simpl; lia.
  - simpl; lia.
  - left; lia.
  - exists c1. split; [exact E1 | exact E2].
Defined.

(** X27.  [CY(control, target)] of [CoherentUnit] on a well-formed register
    and two of its qubits.  With [control = target] the call throws
    [InvalidArgument].  Otherwise the amplitude at an index whose control
    bit is set becomes the amplitude of the index with the target bit
    complemented, multiplied by [-i] where the target bit of the index is
    set and by [i] where it is clear; the other amplitudes stay as they
    are, and [runningNorm] is set to 1.  On a register whose [runningNorm]
    is 1 a second [CY] gives back the register itself. *)
Theorem CoherentUnit_CY_flips_with_phase (control target : Z) (c : CoherentUnit.t) :
  Shape.well_formed c ->
  0 <= control < CoherentUnit.qubitCount c -> 0 <= target < CoherentUnit.qubitCount c ->
  (control = target ->
   CoherentUnit.CY control target c = Host.Throw Host.InvalidArgument) /\
  (control <> target ->
   exists c',
     CoherentUnit.CY control target c = Host.Ok c' /\
     Shape.well_formed c' /\
     CoherentUnit.runningNorm c' = 1%R /\
     (forall j, 0 <= j < CoherentUnit.maxQPower c ->
        Buf.load Cplx.C0 (CoherentUnit.stateVec c') j
        = if Z.testbit j control
          then Cplx.mul (Cplx.cplx 0 (if Z.testbit j target then -1 else 1))
                 (Buf.load Cplx.C0 (CoherentUnit.stateVec c) (Z.lxor j (2 ^ target)))
          else Buf.load Cplx.C0 (CoherentUnit.stateVec c) j) /\
     (CoherentUnit.runningNorm c = 1%R -> CoherentUnit.CY control target c' = Host.Ok c)).
Proof.
  intros Hwf Hc Ht. split.
  - intros ->. unfold CoherentUnit.CY. now rewrite Z.eqb_refl.
  - intros Hne.
    assert (G : forall c0, Shape.well_formed c0 ->
              CoherentUnit.qubitCount c0 = CoherentUnit.qubitCount c ->
              exists st,
                CoherentUnit.CY control target c0 = Host.Ok (Gates.finish false c0 st) /\
                length st = length (CoherentUnit.stateVec c0) /\
                forall j, 0 <= j < CoherentUnit.maxQPower c0 ->
                  Buf.load Cplx.C0 st j
                  = if Z.testbit j control
                    then Cplx.mul (Cplx.cplx 0 (if Z.testbit j target then -1 else 1))
                           (Buf.load Cplx.C0 (CoherentUnit.stateVec c0)
                              (Z.lxor j (2 ^ target)))
                    else Buf.load Cplx.C0 (CoherentUnit.stateVec c0) j).
    { intros c0 Hwf0 Eq0.
      destruct (ControlledFacts.Controlled_pointwise control target Host.pauliY false c0 Hwf0)
        as (st & E & L & Hpt); try lia.
      exists st. split; [|split; auto].
      - unfold CoherentUnit.CY.
        now replace (control =? target) with false by (symmetry; apply Z.eqb_neq; lia).
      - intros j Hj. rewrite (Hpt j Hj).
        destruct (Buf.load Cplx.C0 (CoherentUnit.stateVec c0) j) as [x y].
        destruct (Buf.load Cplx.C0 (CoherentUnit.stateVec c0) (Z.lxor j (2 ^ target)))
          as [x' y'].
        destruct (Z.testbit j control), (Z.testbit j target); auto;
          unfold Host.pauliY, Cplx.add, Cplx.mul, Cplx.cplx, Cplx.real, Cplx.imag;
          cbn [Host.m0 Host.m1 Host.m2 Host.m3 fst snd]; f_equal; ring. }
    destruct (G c Hwf eq_refl) as (st & E & L & Hpt).
    set (c' := Gates.finish false c st) in *.
    assert (Hwf' : Shape.well_formed c').
    { destruct Hwf as (A & B & C). unfold Shape.well_formed, c', Gates.finish.
      cbn [CoherentUnit.qubitCount CoherentUnit.maxQPower CoherentUnit.stateVec].
      rewrite L. auto. }
    exists c'. split; [exact E|]. split; [exact Hwf'|]. split; [reflexivity|].
    split; [exact Hpt|].
    intros Hrn.
    destruct (G c' Hwf' eq_refl) as (st2 & E2 & L2 & Hpt2).
    rewrite E2. f_equal.
    destruct c as [rn qc mq sv g]. unfold c', Gates.finish in *.
    cbn [CoherentUnit.runningNorm CoherentUnit.qubitCount CoherentUnit.maxQPower
         CoherentUnit.stateVec CoherentUnit.rand_generator] in *.
    subst rn. f_equal.
    apply (ArrayFacts.load_ext Cplx.C0); [lia|].
    intros j Hj.
    destruct Hwf as (A & B & C).
    cbn [CoherentUnit.qubitCount CoherentUnit.maxQPower CoherentUnit.stateVec] in A, B, C.
    assert (Hj' : 0 <= j < mq) by lia.
    assert (Hx : 0 <= Z.lxor j (2 ^ target) < mq)
      by (rewrite B; apply GateFacts.lxor_pow2_bounds; lia).
    rewrite (Hpt2 j Hj').
    destruct (Z.testbit j control) eqn:Ec; [|now rewrite (Hpt j Hj'), Ec].
    rewrite (Hpt _ Hx).
    rewrite PermuteFacts.testbit_lxor_other, Ec by lia.
    rewrite GateFacts.testbit_lxor_pow2, BitFacts.lxor_involutive by lia.
    destruct (Buf.load Cplx.C0 sv j) as [x y].
    destruct (Z.testbit j target); cbn [negb];
      unfold Cplx.mul, Cplx.cplx, Cplx.real, Cplx.imag; cbn [fst snd]; f_equal; ring.
Qed.

(** Witness of X27: [CY(0, 1)] twice on the two-qubit register in [|1>]. *)
Lemma CoherentUnit_CY_flips_with_phase_witness :
  exists c',
    CoherentUnit.CY 0 1 Examples.unit_one = Host.Ok c' /\
    CoherentUnit.CY 0 1 c' = Host.Ok Examples.unit_one.
Proof.
  destruct (CoherentUnit_CY_flips_with_phase 0 1 Examples.unit_one) as (_ & H).
  - exact ExampleFacts.unit_one_well_formed.
  - simpl; lia.
  - simpl; lia.
  - destruct H as (c' & E & _ & _ & _ & Hinv); [lia|].
    exists c'. split; [exact E | apply Hinv; reflexivity].
Defined.

(** X28.  The controlled rotations [CRT], [CRX], [CRY] and [CRZ] of
    [CoherentUnit] keep the norm.  On a well-formed register whose
    [runningNorm] holds the positive norm of its vector and two of its
    qubits: with [control = target] each of them throws [InvalidArgument];
    otherwise it returns a well-formed register of the same size, applies
    no norm factor, leaves the amplitudes whose control bit is clear as they
    are, and the norm it recomputes into [runningNorm] is the one the
    register had. *)
Theorem CoherentUnit_controlled_rotations_keep_the_norm (radians : R) (control target : Z)
    (c : CoherentUnit.t) :
  Shape.well_formed c -> Shape.norm_cached c ->
  0 <= control < CoherentUnit.qubitCount c -> 0 <= target < CoherentUnit.qubitCount c ->
  Forall (fun gate : R -> Z -> Z -> CoherentUnit.t -> Host.outcome CoherentUnit.t =>
            (control = target ->
             gate radians control target c = Host.Throw Host.InvalidArgument) /\
            (control <> target ->
             exists c',
               gate radians control target c = Host.Ok c' /\
               Shape.well_formed c' /\ Shape.norm_cached c' /\
               CoherentUnit.runningNorm c' = CoherentUnit.runningNorm c /\
               CoherentUnit.qubitCount c' = CoherentUnit.qubitCount c /\
               forall j, 0 <= j < CoherentUnit.maxQPower c -> Z.testbit j control = false ->
                 Buf.load Cplx.C0 (CoherentUnit.stateVec c') j
                 = Buf.load Cplx.C0 (CoherentUnit.stateVec c) j))
    [CoherentUnit.CRT; CoherentUnit.CRX; CoherentUnit.CRY; CoherentUnit.CRZ].
Proof.
  intros Hwf Hnc Hc Ht.
  assert (T : forall mtrx,
            control = target ->
            (if control =? target then Host.Throw Host.InvalidArgument
             else CoherentUnit.ApplyControlled2x2 control target mtrx true c)
            = Host.Throw Host.InvalidArgument).
  { intros mtrx ->. now rewrite Z.eqb_refl. }
  assert (G : forall mtrx, Gates.isometry mtrx -> control <> target ->
            exists c',
              (if control =? target then Host.Throw Host.InvalidArgument
               else CoherentUnit.ApplyControlled2x2 control target mtrx true c) = Host.Ok c' /\
              Shape.well_formed c' /\ Shape.norm_cached c' /\
              CoherentUnit.runningNorm c' = CoherentUnit.runningNorm c /\
              CoherentUnit.qubitCount c' = CoherentUnit.qubitCount c /\
              forall j, 0 <= j < CoherentUnit.maxQPower c -> Z.testbit j control = false ->
                Buf.load Cplx.C0 (CoherentUnit.stateVec c') j
                = Buf.load Cplx.C0 (CoherentUnit.stateVec c) j).
  { intros mtrx Hiso Hne.
    replace (control =? target) with false by (symmetry; apply Z.eqb_neq; lia).
    apply ControlledRotationFacts.controlled_isometry; auto. }
  repeat constructor; try (apply T).
  - apply G, GateFacts.isometry_R1.
  - apply G, GateFacts.isometry_RX.
  - apply G, GateFacts.isometry_RY.
  - apply G, GateFacts.isometry_RZ.
Qed.

(** Witness of X28: the four controlled rotations by the angle pi, control
    0 and target 1, on the two-qubit register in [|1>]. *)
Lemma CoherentUnit_controlled_rotations_keep_the_norm_witness :
  Forall (fun gate : R -> Z -> Z -> CoherentUnit.t -> Host.outcome CoherentUnit.t =>
            exists c',
              gate PI 0 1 Examples.unit_one = Host.Ok c' /\
              CoherentUnit.runningNorm c' = 1%R)
    [CoherentUnit.CRT; CoherentUnit.CRX; CoherentUnit.CRY; CoherentUnit.CRZ].
Proof.
  assert (H := CoherentUnit_controlled_rotations_keep_the_norm PI 0 1 Examples.unit_one
                 ExampleFacts.unit_one_well_formed ExampleFacts.unit_one_norm_cached
                 ltac:(simpl; lia) ltac:(simpl; lia)).
  eapply Forall_impl; [|exact H].
  intros gate (_ & G).
  destruct G as (c' & E & _ & _ & Hr & _); [lia|].
  exists c'. split; [exact E | exact Hr].
Defined.

(** X29.  The angles of the controlled rotations add up: on a well-formed
    register and two different qubits of it, each of [CRT], [CRX], [CRY] and
    [CRZ] applied with the angle [a] and then with the angle [b] leaves
    exactly what it leaves when applied once with the angle [a + b]. *)
Theorem CoherentUnit_controlled_rotation_angles_add (a b : R) (control target : Z)
    (c : CoherentUnit.t) :
  Shape.well_formed c ->
  0 <= control < CoherentUnit.qubitCount c -> 0 <= target < CoherentUnit.qubitCount c ->
  control <> target ->
  Forall (fun gate : R -> Z -> Z -> CoherentUnit.t -> Host.outcome CoherentUnit.t =>
            exists c1,
              gate a control target c = Host.Ok c1 /\
              Shape.well_formed c1 /\
              gate b control target c1 = gate (a + b)%R control target c)
    [CoherentUnit.CRT; CoherentUnit.CRX; CoherentUnit.CRY; CoherentUnit.CRZ].
Proof.
  intros Hwf Hc Ht Hne.
  assert (Eb : (control =? target) = false) by (apply Z.eqb_neq; lia).
  repeat constructor;
    unfold CoherentUnit.CRT, CoherentUnit.CRX, CoherentUnit.CRY, CoherentUnit.CRZ;
    rewrite Eb.
  - apply (ControlledRotationFacts.compose_controlled control target _ _ _ c Hwf Hc Ht Hne
             (GateFacts.product_R1 a b)).
  - apply (ControlledRotationFacts.compose_controlled control target _ _ _ c Hwf Hc Ht Hne
             (GateFacts.product_RX a b)).
  - apply (ControlledRotationFacts.compose_controlled control target _ _ _ c Hwf Hc Ht Hne
             (GateFacts.product_RY a b)).
  - apply (ControlledRotationFacts.compose_controlled control target _ _ _ c Hwf Hc Ht Hne
             (GateFacts.product_RZ a b)).
Qed.

(** Witness of X29: the angles pi and pi / 2, control 0 and target 1, on
    the two-qubit register in [|1>]. *)
Lemma CoherentUnit_controlled_rotation_angles_add_witness :
  Forall (fun gate : R -> Z -> Z -> CoherentUnit.t -> Host.outcome CoherentUnit.t =>
            exists c1,
              gate PI 0 1 Examples.unit_one = Host.Ok c1 /\
              Shape.well_formed c1 /\
              gate (PI / 2)%R 0 1 c1 = gate (PI + PI / 2)%R 0 1 Examples.unit_one)
    [CoherentUnit.CRT; CoherentUnit.CRX; CoherentUnit.CRY; CoherentUnit.CRZ].
Proof.
  apply (CoherentUnit_controlled_rotation_angles_add PI (PI / 2) 0 1 Examples.unit_one).
  - exact ExampleFacts.unit_one_well_formed.
  - simpl; lia.
  - simpl; lia.
  - lia.
Defined.

(** X30.  The phases of [CRT] and [CRZ] of [CoherentUnit], on a well-formed
    register and two different qubits of it.  [CRT(radians, control,
    target)] multiplies by [cos (radians / 2) + i sin (radians / 2)] the
    amplitudes at the indices whose control bit is set and whose target bit
    is clear, and leaves every other amplitude as it is.  [CRZ] leaves the
    amplitudes whose control bit is clear as they are and multiplies the
    others by [cos (radians / 2) - i sin (radians / 2)] where the target bit
    is set and by [cos (radians / 2) + i sin (radians / 2)] where it is
    clear. *)
Theorem CoherentUnit_CRT_CRZ_phases (radians : R) (control target : Z) (c : CoherentUnit.t) :
  Shape.well_formed c ->
  0 <= control < CoherentUnit.qubitCount c -> 0 <= target < CoherentUnit.qubitCount c ->
  control <> target ->
  exists c1 c2,
    CoherentUnit.CRT radians control target c = Host.Ok c1 /\
    CoherentUnit.CRZ radians control target c = Host.Ok c2 /\
    (forall j, 0 <= j < CoherentUnit.maxQPower c ->
       Buf.load Cplx.C0 (CoherentUnit.stateVec c1) j
       = if Z.testbit j control && negb (Z.testbit j target)
         then Cplx.mul (Cplx.cplx (cos (radians / 2)) (sin (radians / 2)))
                (Buf.load Cplx.C0 (CoherentUnit.stateVec c) j)
         else Buf.load Cplx.C0 (CoherentUnit.stateVec c) j) /\
    (forall j, 0 <= j < CoherentUnit.maxQPower c ->
       Buf.load Cplx.C0 (CoherentUnit.stateVec c2) j
       = if Z.testbit j control
         then Cplx.mul (Cplx.cplx (cos (radians / 2))
                          (if Z.testbit j target then - sin (radians / 2)
                           else sin (radians / 2)))
                (Buf.load Cplx.C0 (CoherentUnit.stateVec c) j)
         else Buf.load Cplx.C0 (CoherentUnit.stateVec c) j).
Proof.
  intros Hwf Hc Ht Hne.
  assert (Eb : (control =? target) = false) by (apply Z.eqb_neq; lia).
  unfold CoherentUnit.CRT, CoherentUnit.CRZ; rewrite Eb.
  destruct (ControlledFacts.Controlled_pointwise control target
              (Host.mkMtrx (Cplx.cplx 1 0) (Cplx.cplx 0 0) (Cplx.cplx 0 0)
                 (Cplx.cplx (cos (radians / 2)) (sin (radians / 2)))) true c Hwf Hc Ht Hne)
    as (st1 & E1 & L1 & P1).
  destruct (ControlledFacts.Controlled_pointwise control target
              (Host.mkMtrx (Cplx.cplx (cos (radians / 2)) (- sin (radians / 2)))
                 (Cplx.cplx 0 0) (Cplx.cplx 0 0)
                 (Cplx.cplx (cos (radians / 2)) (sin (radians / 2)))) true c Hwf Hc Ht Hne)
    as (st2 & E2 & L2 & P2).
  exists (Gates.finish true c st1), (Gates.finish true c st2).
  split; [exact E1|]. split; [exact E2|].
  split; intros j Hj;
    unfold Gates.finish, CoherentUnit.UpdateRunningNorm, CoherentUnit.with_state;
    cbn [CoherentUnit.stateVec].
  - rewrite (P1 j Hj).
    destruct (Buf.load Cplx.C0 (CoherentUnit.stateVec c) j) as [x y].
    destruct (Buf.load Cplx.C0 (CoherentUnit.stateVec c) (Z.lxor j (2 ^ target)))
      as [x' y'].
    destruct (Z.testbit j control), (Z.testbit j target); cbn [andb negb]; auto;
      unfold Cplx.add, Cplx.mul, Cplx.cplx, Cplx.real, Cplx.imag;
      cbn [Host.m0 Host.m1 Host.m2 Host.m3 fst snd]; f_equal; ring.
  - rewrite (P2 j Hj).
    destruct (Buf.load Cplx.C0 (CoherentUnit.stateVec c) j) as [x y].
    destruct (Buf.load Cplx.C0 (CoherentUnit.stateVec c) (Z.lxor j (2 ^ target)))
      as [x' y'].
    destruct (Z.testbit j control), (Z.testbit j target); auto;
      unfold Cplx.add, Cplx.mul, Cplx.cplx, Cplx.real, Cplx.imag;
      cbn [Host.m0 Host.m1 Host.m2 Host.m3 fst snd]; f_equal; ring.
Qed.

(** Witness of X30: the angle pi, control 0 and target 1, on the two-qubit
    register in [|1>]. *)
Lemma CoherentUnit_CRT_CRZ_phases_witness :
  exists c1 c2,
    CoherentUnit.CRT PI 0 1 Examples.unit_one = Host.Ok c1 /\
    CoherentUnit.CRZ PI 0 1 Examples.unit_one = Host.Ok c2.
Proof.
  destruct (CoherentUnit_CRT_CRZ_phases PI 0 1 Examples.unit_one)
    as (c1 & c2 & E1 & E2 & _).
  - exact ExampleFacts.unit_one_well_formed.
  - simpl; lia.
  - simpl; lia.
  - lia.
  - exists c1, c2. split; [exact E1 | exact E2].
Defined.
